(** * Coprocessor executors of unistore (tikv/executor.go)

    A shallow embedding of the pull-based operator pipeline: table scan,
    index scan, selection and top-N, together with the key helpers they
    rely on.  Go slices of bytes are [list byte]; a slice that may be
    [nil] is an [option]; Go's [error] results are the sum type [result]. *)

From Stdlib Require Import ZArith NArith Lia.
From Stdlib Require Init.Byte.
From stdpp Require Import base option list gmap sorting.

Local Open Scope Z_scope.

(** ** Bytes and keys *)

Abbreviation byte := Init.Byte.byte.
Abbreviation bytes := (list byte).

Global Instance byte_eq_dec : EqDecision byte := Byte.byte_eq_dec.
Global Instance byte_inhabited : Inhabited byte := populate Byte.x00.

(** The numeric value of a byte, 0..255. *)
Definition byte_val (b : byte) : N := Byte.to_N b.

(** Arithmetic on [uint8] wraps around modulo 256. *)
Definition byte_of_N (n : N) : byte :=
  default Byte.x00 (Byte.of_N (n mod 256)%N).

(** [buf[i]--] on a [uint8]. *)
Definition byte_dec (b : byte) : byte := byte_of_N (byte_val b + 255).
(** [buf[i]++] on a [uint8]. *)
Definition byte_inc (b : byte) : byte := byte_of_N (byte_val b + 1).

(** Go's [bytes.Compare]: byte-lexicographic order, a proper prefix
    sorting before its extensions. *)
Fixpoint bytes_compare (a b : bytes) : comparison :=
  match a, b with
  | [], [] => Eq
  | [], _ :: _ => Lt
  | _ :: _, [] => Gt
  | x :: a', y :: b' =>
      match N.compare (byte_val x) (byte_val y) with
      | Eq => bytes_compare a' b'
      | c => c
      end
  end.

Definition key_lt (a b : bytes) : Prop := bytes_compare a b = Lt.
Definition key_le (a b : bytes) : Prop := bytes_compare a b <> Gt.
Definition key_ltb (a b : bytes) : bool :=
  match bytes_compare a b with Lt => true | _ => false end.
Definition key_leb (a b : bytes) : bool :=
  match bytes_compare a b with Gt => false | _ => true end.

(** ** [prefixPrev] (executor.go, l. 485-499)

    The loop index [i] runs from [len(k)-1] down to [-1]; the model keeps
    [n = i + 1], so that [n = 0] is the exit with [i == -1]. *)
Fixpoint prefixPrev_loop (buf : bytes) (n : nat) : option bytes :=
  match n with
  | O => None                                   (* i == -1: return nil *)
  | S i =>
      let buf' := alter byte_dec i buf in       (* buf[i]-- *)
      if decide (buf' !! i = Some Byte.xff)     (* buf[i] != 255 ? *)
      then prefixPrev_loop buf' i
      else Some buf'                            (* break; return buf *)
  end.

Definition prefixPrev (k : bytes) : option bytes :=
  prefixPrev_loop k (length k).

(** [kv.Key.PrefixNext] of the tidb [kv] package, of which [prefixPrev]
    is, by its own comment, the "previous version": increment from the
    right with carry; a key made of 0xFF bytes only gets a zero byte
    appended to the unchanged key. *)
Fixpoint PrefixNext_loop (buf : bytes) (n : nat) : option bytes :=
  match n with
  | O => None
  | S i =>
      let buf' := alter byte_inc i buf in       (* buf[i]++ *)
      if decide (buf' !! i = Some Byte.x00)     (* buf[i] != 0 ? *)
      then PrefixNext_loop buf' i
      else Some buf'
  end.

Definition PrefixNext (k : bytes) : bytes :=
  match PrefixNext_loop k (length k) with
  | Some buf => buf
  | None => k ++ [Byte.x00]                     (* copy(buf, k); append(buf, 0) *)
  end.

(** [kv.Key.Next]: the other successor the glossary mentions, which
    appends a zero byte. *)
Definition KeyNext (k : bytes) : bytes := k ++ [Byte.x00].

(** ** Errors and the state-and-error monad

    Every fallible Go function returns [(value, error)]; [errors.Trace]
    only annotates the error with a stack frame and is the identity here. *)

Inductive error : Type :=
| Locked (ts : Z)            (* lock info surfaced by CheckRangeLock *)
| Storage (code : Z)         (* a failure of the DB reader *)
| DecodeErr (code : Z)       (* row, key or value codec failure *)
| MissColumn (id : Z)        (* errors.Errorf("Miss column %d", id) *)
| EvalErr (code : Z)         (* expression evaluation or conversion failure *)
| EOF                        (* io.EOF *)
| UnexpectedEOF              (* io.ErrUnexpectedEOF *)
| IndexOutOfRange.           (* run-time panic of an out-of-range index *)

Inductive result (A : Type) : Type :=
| OK (a : A)
| Err (e : error).
Arguments OK {A} a.
Arguments Err {A} e.

Global Instance error_eq_dec : EqDecision error.
Proof. solve_decision. Defined.

(** A method with a pointer receiver of type [S]: it may update the
    receiver and either returns a value or an error. *)
Definition ST (S A : Type) : Type := S -> result A * S.

Definition st_ret {S A} (a : A) : ST S A := fun s => (OK a, s).
Definition st_fail {S A} (e : error) : ST S A := fun s => (Err e, s).
Definition st_bind {S A B} (m : ST S A) (k : A -> ST S B) : ST S B :=
  fun s => match m s with
           | (OK a, s') => k a s'
           | (Err e, s') => (Err e, s')
           end.
Definition st_get {S} : ST S S := fun s => (OK s, s).
Definition st_modify {S} (f : S -> S) : ST S unit := fun s => (OK tt, f s).
Definition st_lift {S A} (r : result A) : ST S A := fun s => (r, s).
(** [err = f()]: the error becomes a value, to be tested later. *)
Definition st_catch {S A} (m : ST S A) : ST S (result A) :=
  fun s => let '(r, s') := m s in (OK r, s').

Global Instance result_ret : MRet result := fun A a => OK a.
Global Instance result_bind : MBind result := fun A B k m =>
  match m with OK a => k a | Err e => Err e end.

Global Instance result_fmap : FMap result := fun A B f m =>
  match m with OK a => OK (f a) | Err e => Err e end.

Global Instance ST_ret {S} : MRet (ST S) := fun A a => st_ret a.
Global Instance ST_bind {S} : MBind (ST S) := fun A B k m => st_bind m k.

(** ** Rows, columns, ranges *)

(** A row [[][]byte]: one blob per output column; an entry that was
    never written is [nil]. *)
Abbreviation Row := (list (option bytes)).

(** [tipb.ColumnInfo], the fields the executors read. *)
Record ColumnInfo : Type := {
  ColumnId : Z;
  PkHandle : bool;
  Flag : Z;
  DefaultVal : bytes
}.

(** [mysql.NotNullFlag = 1 << 0], [mysql.UnsignedFlag = 1 << 5]. *)
Definition NotNullFlag : Z := 1.
Definition UnsignedFlag : Z := 32.
Definition HasNotNullFlag (flag : Z) : bool := 0 <? Z.land flag NotNullFlag.
Definition HasUnsignedFlag (flag : Z) : bool := 0 <? Z.land flag UnsignedFlag.

(** [model.ExtraHandleID] and [codec.NilFlag]. *)
Definition ExtraHandleID : Z := -1.
Definition NilFlag : byte := Byte.x00.

(** [types.Datum], restricted to the kinds the executors build or test. *)
Inductive Datum : Type :=
| DNull
| DInt (i : Z)               (* types.NewIntDatum *)
| DUint (u : Z)              (* types.NewUintDatum *)
| DBytes (b : bytes).

Definition IsNull (d : Datum) : bool :=
  match d with DNull => true | _ => false end.

(** Conversions between [int64] and [uint64] keep the 64 bits. *)
Definition to_uint64 (z : Z) : Z := z mod 2 ^ 64.
Definition to_int64 (z : Z) : Z :=
  let u := z mod 2 ^ 64 in if u <? 2 ^ 63 then u else u - 2 ^ 64.

(** [kv.KeyRange], half-open [[StartKey, EndKey)]. *)
Record KeyRange : Type := {
  StartKey : bytes;
  EndKey : bytes
}.

(** [KeyRange.IsPoint]: the end is the prefix-successor of the start. *)
Definition IsPoint (r : KeyRange) : bool :=
  bool_decide (PrefixNext (StartKey r) = EndKey r).

(** ** External collaborators *)

(** The codecs the executors call and that live outside executor.go. *)
Record Codec : Type := {
  (** [rowcodec.RowToOldRow(value, nil)] *)
  RowToOldRow : bytes -> result bytes;
  (** [cutRowNew(oldRow, colIDs)]: [nil] or one entry per map entry *)
  cutRowNew : bytes -> gmap Z nat -> result (option Row);
  (** [codec.EncodeValue(nil, b, datum)] appends the datum to [b] *)
  EncodeValue : bytes -> Datum -> result bytes;
  (** [decodeRowKey(key)]: the handle inside a record key *)
  decodeRowKey : bytes -> result Z;
  (** [codec.CutOne(b)]: the first encoded datum of [b] and the rest *)
  CutOne : bytes -> result (bytes * bytes);
  (** [prefixLen + idLen]: the bytes of an index key before its columns *)
  indexKeyHeaderLen : nat
}.

(** [MVCCStore], of which the scans call [CheckRangeLock] only. *)
Record MVCCStore : Type := {
  CheckRangeLock : Z -> bytes -> bytes -> option error
}.

(** Modelled from the spec: the DB reader ([Get], [Scan], [ReverseScan])
    is not in executor.go.  [Get] is an MVCC point read whose empty
    result means "not present at ts"; a scan visits key-value pairs of
    [[start, end)] in ascending ([ScanPairs]) or descending
    ([ReverseScanPairs]) order. *)
Record DBReader : Type := {
  Get : bytes -> Z -> result bytes;
  ScanPairs : bytes -> bytes -> Z -> list (bytes * bytes);
  ReverseScanPairs : bytes -> bytes -> Z -> list (bytes * bytes)
}.

(** Modelled from the spec: a scan calls [fn(key, value)] on the pairs
    in order, "up to limit times or range exhaustion; fn may shortcut by
    returning error". *)
Fixpoint scanVisit {S} (fn : bytes -> bytes -> ST S unit) (limit : nat)
    (pairs : list (bytes * bytes)) : ST S unit :=
  match limit, pairs with
  | O, _ | _, [] => st_ret tt
  | Datatypes.S n, (k, v) :: ps =>
      st_bind (fn k v) (fun _ => scanVisit fn n ps)
  end.

Definition Scan {S} (r : DBReader) (startKey endKey : bytes) (limit : nat)
    (ts : Z) (fn : bytes -> bytes -> ST S unit) : ST S unit :=
  scanVisit fn limit (ScanPairs r startKey endKey ts).

Definition ReverseScan {S} (r : DBReader) (startKey endKey : bytes)
    (limit : nat) (ts : Z) (fn : bytes -> bytes -> ST S unit) : ST S unit :=
  scanVisit fn limit (ReverseScanPairs r startKey endKey ts).

(** [requestCtx], of which the scans call [getDBReader] only. *)
Record requestCtx : Type := {
  getDBReader : DBReader
}.

(** The calls a scan makes into the store, in order: a ghost log that
    lets statements speak of which call was made and how often. *)
Inductive StoreCall : Type :=
| CallCheckRangeLock (ts : Z) (startKey endKey : bytes)
| CallGet (key : bytes) (ts : Z)
| CallScan (startKey endKey : bytes) (limit : nat) (ts : Z)
| CallReverseScan (startKey endKey : bytes) (limit : nat) (ts : Z).

Global Instance StoreCall_eq_dec : EqDecision StoreCall.
Proof. solve_decision. Defined.

Definition chunkMaxRows : nat := 1024.
Definition scanLimit : nat := 128.

(** [safeCopy]: a fresh slice with the same bytes. *)
Definition safeCopy (b : bytes) : bytes := b.


(** ** Row decoding (executor.go, l. 720-775) *)

(** [values[offset] = x]; an offset outside the slice panics. *)
Definition setIndex {A} (l : list A) (i : nat) (x : A) : result (list A) :=
  if decide (i < length l)%nat then OK (<[i := x]> l) else Err IndexOutOfRange.

(** [data[offset]], with the same panic. *)
Definition getIndex {A} (l : list A) (i : nat) : result A :=
  match l !! i with Some x => OK x | None => Err IndexOutOfRange end.

Definition hasColVal (data : Row) (colIDs : gmap Z nat) (id : Z) : result bool :=
  match colIDs !! id with
  | Some offset =>
      d ← getIndex data offset;
      mret (bool_decide (d <> None))
  | None => mret false
  end.

(** The datum of the handle column: unsigned iff the flag says so. *)
Definition handleDatumOf (unsigned : bool) (handle : Z) : Datum :=
  if unsigned then DUint (to_uint64 handle) else DInt handle.

(** The loop "Fill the handle and null columns" of [getRowData].  A
    column id missing from the map reads offset 0, as a Go map does. *)
Fixpoint getRowData_fill (c : Codec) (colIDs : gmap Z nat) (handle : Z)
    (columns : list ColumnInfo) (values : Row) : result Row :=
  match columns with
  | [] => OK values
  | col :: cols =>
      let id := ColumnId col in
      let offset := default 0%nat (colIDs !! id) in
      if PkHandle col || (id =? ExtraHandleID) then
        handleData ← EncodeValue c []
          (handleDatumOf (HasUnsignedFlag (Flag col)) handle);
        values' ← setIndex values offset (Some handleData);
        getRowData_fill c colIDs handle cols values'
      else
        has ← hasColVal values colIDs id;
        if has : bool then getRowData_fill c colIDs handle cols values
        else if bool_decide (0 < length (DefaultVal col))%nat then
          values' ← setIndex values offset (Some (DefaultVal col));
          getRowData_fill c colIDs handle cols values'
        else if HasNotNullFlag (Flag col) then Err (MissColumn id)
        else
          values' ← setIndex values offset (Some [NilFlag]);
          getRowData_fill c colIDs handle cols values'
  end.

Definition getRowData (c : Codec) (columns : list ColumnInfo)
    (colIDs : gmap Z nat) (handle : Z) (value : bytes) : result Row :=
  oldRow ← RowToOldRow c value;
  cut ← cutRowNew c oldRow colIDs;
  let values :=
    match cut with
    | Some values => values
    | None => replicate (size colIDs) None      (* make([][]byte, len(colIDs)) *)
    end in
  getRowData_fill c colIDs handle columns values.

(** ** Handle in the index value (executor.go, l. 789-794) *)

(** [binary.BigEndian.Uint64]. *)
Definition be_uint (bs : bytes) : Z :=
  fold_left (fun acc b => acc * 256 + Z.of_N (byte_val b)) bs 0.

(** [binary.Read(buf, binary.BigEndian, &h)] fills the 8 bytes of [h]
    from the front of the buffer. *)
Definition decodeHandle (data : bytes) : result Z :=
  if decide (length data = 0)%nat then Err EOF
  else if decide (length data < 8)%nat then Err UnexpectedEOF
  else OK (to_int64 (be_uint (take 8 data))).

(** Modelled from the spec: [cutIndexKeyNew] is not in executor.go.  It
    "slices the key into colsLen column segments; the remainder after
    the last segment is b". *)
Fixpoint cutSegments (c : Codec) (n : nat) (b : bytes) : result (list bytes * bytes) :=
  match n with
  | O => OK ([], b)
  | S n' =>
      '(val, b') ← CutOne c b;
      '(vals, rest) ← cutSegments c n' b';
      mret (val :: vals, rest)
  end.

Definition cutIndexKeyNew (c : Codec) (key : bytes) (length : nat)
    : result (list bytes * bytes) :=
  cutSegments c length (drop (indexKeyHeaderLen c) key).

Definition pkColNotExists : Z := 0.
Definition pkColIsSigned : Z := 1.
Definition pkColIsUnsigned : Z := 2.

(** [indexScanExec.decodeIndexKV], a function of the two fields of the
    receiver that it reads. *)
Definition decodeIndexKV (c : Codec) (colsLen : nat) (pkStatus : Z)
    (key value : bytes) : result Row :=
  '(values, b) ← cutIndexKeyNew c key colsLen;
  let values : Row := Some <$> values in
  if bool_decide (0 < length b)%nat then
    if bool_decide (pkStatus <> pkColNotExists)
    then mret (values ++ [Some b])
    else mret values
  else if bool_decide (pkStatus <> pkColNotExists) then
    handle ← decodeHandle value;
    let handleDatum :=
      if bool_decide (pkStatus = pkColIsUnsigned)
      then DUint (to_uint64 handle) else DInt handle in
    handleBytes ← EncodeValue c b handleDatum;
    mret (values ++ [Some handleBytes])
  else mret values.

(** ** Table scan (executor.go, l. 43-253) *)

Module tableScan.

Record exec : Type := mk {
  Desc : bool;                       (* *tipb.TableScan *)
  Columns : list ColumnInfo;         (* *tipb.TableScan *)
  colIDs : gmap Z nat;
  kvRanges : list KeyRange;
  startTS : Z;
  mvccStore : MVCCStore;
  reqCtx : requestCtx;
  rangeCursor : nat;
  rowCursor : nat;
  rows : list Row;
  seekKey : option bytes;
  start : nat;
  counts : option (list Z);
  ignoreLock : bool;
  lockChecked : bool;
  calls : list StoreCall             (* ghost: the store calls so far *)
}.

Definition set_rangeCursor (x : nat) (e : exec) : exec :=
  mk (Desc e) (Columns e) (colIDs e) (kvRanges e) (startTS e) (mvccStore e)
     (reqCtx e) x (rowCursor e) (rows e) (seekKey e) (start e) (counts e)
     (ignoreLock e) (lockChecked e) (calls e).
Definition set_rowCursor (x : nat) (e : exec) : exec :=
  mk (Desc e) (Columns e) (colIDs e) (kvRanges e) (startTS e) (mvccStore e)
     (reqCtx e) (rangeCursor e) x (rows e) (seekKey e) (start e) (counts e)
     (ignoreLock e) (lockChecked e) (calls e).
Definition set_rows (x : list Row) (e : exec) : exec :=
  mk (Desc e) (Columns e) (colIDs e) (kvRanges e) (startTS e) (mvccStore e)
     (reqCtx e) (rangeCursor e) (rowCursor e) x (seekKey e) (start e) (counts e)
     (ignoreLock e) (lockChecked e) (calls e).
Definition set_seekKey (x : option bytes) (e : exec) : exec :=
  mk (Desc e) (Columns e) (colIDs e) (kvRanges e) (startTS e) (mvccStore e)
     (reqCtx e) (rangeCursor e) (rowCursor e) (rows e) x (start e) (counts e)
     (ignoreLock e) (lockChecked e) (calls e).
Definition set_start (x : nat) (e : exec) : exec :=
  mk (Desc e) (Columns e) (colIDs e) (kvRanges e) (startTS e) (mvccStore e)
     (reqCtx e) (rangeCursor e) (rowCursor e) (rows e) (seekKey e) x (counts e)
     (ignoreLock e) (lockChecked e) (calls e).
Definition set_counts (x : option (list Z)) (e : exec) : exec :=
  mk (Desc e) (Columns e) (colIDs e) (kvRanges e) (startTS e) (mvccStore e)
     (reqCtx e) (rangeCursor e) (rowCursor e) (rows e) (seekKey e) (start e) x
     (ignoreLock e) (lockChecked e) (calls e).
Definition set_lockChecked (x : bool) (e : exec) : exec :=
  mk (Desc e) (Columns e) (colIDs e) (kvRanges e) (startTS e) (mvccStore e)
     (reqCtx e) (rangeCursor e) (rowCursor e) (rows e) (seekKey e) (start e)
     (counts e) (ignoreLock e) x (calls e).
Definition log (x : StoreCall) (e : exec) : exec :=
  mk (Desc e) (Columns e) (colIDs e) (kvRanges e) (startTS e) (mvccStore e)
     (reqCtx e) (rangeCursor e) (rowCursor e) (rows e) (seekKey e) (start e)
     (counts e) (ignoreLock e) (lockChecked e) (calls e ++ [x]).

(** [ResetCounts]; [e.counts[e.start] = 0] panics past the end. *)
Definition ResetCounts : ST exec unit :=
  e ← st_get;
  match counts e with
  | Some cs =>
      st_modify (set_start (rangeCursor e));;
      cs' ← st_lift (setIndex cs (rangeCursor e) 0);
      st_modify (set_counts (Some cs'))
  | None => mret tt
  end.

(** [s[lo:hi]] of a slice whose capacity is its length. *)
Definition slice {A} (l : list A) (lo hi : nat) : result (list A) :=
  if decide (lo <= hi <= length l)%nat
  then OK (take (hi - lo) (drop lo l)) else Err IndexOutOfRange.

Definition Counts (e : exec) : result (option (list Z)) :=
  match counts e with
  | None => OK None
  | Some cs =>
      match seekKey e with
      | None => Some <$> slice cs (start e) (rangeCursor e)
      | Some _ => Some <$> slice cs (start e) (rangeCursor e + 1)
      end
  end.

(** [getOneRow].  Rows in the buffer come from [getRowData], whose
    result is never the nil slice, so "value != nil" in [Next] is
    "a row was taken". *)
Definition getOneRow : ST exec (option Row) :=
  e ← st_get;
  match rows e !! rowCursor e with
  | Some value =>
      st_modify (set_rowCursor (S (rowCursor e)));;
      mret (Some value)
  | None => mret None
  end.

Fixpoint checkRangeLock_loop (rans : list KeyRange) : ST exec unit :=
  match rans with
  | [] => mret tt
  | ran :: rans' =>
      e ← st_get;
      st_modify (log (CallCheckRangeLock (startTS e) (StartKey ran) (EndKey ran)));;
      match CheckRangeLock (mvccStore e) (startTS e) (StartKey ran) (EndKey ran) with
      | Some err => st_fail err
      | None => checkRangeLock_loop rans'
      end
  end.

Definition checkRangeLock : ST exec unit :=
  e ← st_get;
  if negb (ignoreLock e) && negb (lockChecked e) then
    checkRangeLock_loop (kvRanges e);;
    st_modify (set_lockChecked true)
  else mret tt.

Definition nextRange : ST exec unit :=
  st_modify (fun e => set_seekKey None (set_rangeCursor (S (rangeCursor e)) e)).

Definition fillRowsFromPoint (c : Codec) (ran : KeyRange) : ST exec unit :=
  e ← st_get;
  let reader := getDBReader (reqCtx e) in
  st_modify (log (CallGet (StartKey ran) (startTS e)));;
  val ← st_lift (Get reader (StartKey ran) (startTS e));
  if decide (length val = 0)%nat then mret tt
  else
    handle ← st_lift (decodeRowKey c (StartKey ran));
    row ← st_lift (getRowData c (Columns e) (colIDs e) handle val);
    st_modify (fun e => set_rows (rows e ++ [row]) e).

(** The closure [scanFunc]: its captured variables are [lastKey] and
    the receiver. *)
Definition scanFunc (c : Codec) (key value : bytes)
    : ST (option bytes * exec) unit :=
  st_modify (fun s => (Some key, s.2));;
  handle ← st_lift (decodeRowKey c key);
  s ← st_get;
  row ← st_lift (getRowData c (Columns s.2) (colIDs s.2) handle (safeCopy value));
  st_modify (fun s => (s.1, set_rows (rows s.2 ++ [row]) s.2)).

(** Runs a computation that also uses the local variable [lastKey]. *)
Definition withLastKey {A} (m : ST (option bytes * exec) A)
    : ST exec (A * option bytes) :=
  fun e => match m (None, e) with
           | (OK a, (lastKey, e')) => (OK (a, lastKey), e')
           | (Err err, (_, e')) => (Err err, e')
           end.

Definition fillRowsFromRange (c : Codec) (ran : KeyRange) : ST exec unit :=
  e ← st_get;
  (if bool_decide (seekKey e = None) then
     if Desc e then st_modify (set_seekKey (Some (EndKey ran)))
     else st_modify (set_seekKey (Some (StartKey ran)))
   else mret tt);;
  e ← st_get;
  let reader := getDBReader (reqCtx e) in
  let seek := default [] (seekKey e) in
  '(_, lastKey) ←
    (if Desc e then
       st_modify (log (CallReverseScan (StartKey ran) seek scanLimit (startTS e)));;
       withLastKey (ReverseScan reader (StartKey ran) seek scanLimit (startTS e) (scanFunc c))
     else
       st_modify (log (CallScan seek (EndKey ran) scanLimit (startTS e)));;
       withLastKey (Scan reader seek (EndKey ran) scanLimit (startTS e) (scanFunc c)));
  match lastKey with
  | None => mret tt
  | Some lastKey =>
      if Desc e then st_modify (set_seekKey (prefixPrev lastKey))
      else st_modify (set_seekKey (Some (PrefixNext lastKey)))
  end.

(** The loop of [fillRows]; an iteration either returns or moves the
    range cursor forward, so [len(kvRanges)] iterations are enough. *)
Fixpoint fillRows_loop (c : Codec) (fuel : nat) : ST exec unit :=
  match fuel with
  | O => mret tt
  | S fuel' =>
      e ← st_get;
      match kvRanges e !! rangeCursor e with
      | None => mret tt                         (* rangeCursor >= len(kvRanges) *)
      | Some ran =>
          err ←
            (if IsPoint ran then
               err ← st_catch (fillRowsFromPoint c ran);
               nextRange;;
               mret err
             else
               err ← st_catch (fillRowsFromRange c ran);
               e ← st_get;
               (if bool_decide (length (rows e) = 0)%nat then nextRange
                else mret tt);;
               mret err);
          match err with
          | Err er => st_fail er
          | OK _ =>
              e ← st_get;
              if bool_decide (0 < length (rows e))%nat then mret tt
              else fillRows_loop c fuel'
          end
      end
  end.

Definition fillRows (c : Codec) : ST exec unit :=
  e ← st_get;
  fillRows_loop c (length (kvRanges e) - rangeCursor e).

Definition refill (c : Codec) : ST exec unit :=
  st_modify (set_rowCursor 0);;
  st_modify (set_rows []);;
  fillRows c.

(** The [for] loop of [Next]: after a refill that found rows the next
    iteration returns one, so two iterations are enough. *)
Fixpoint Next_loop (c : Codec) (fuel : nat) : ST exec (option Row) :=
  match fuel with
  | O => mret None
  | S fuel' =>
      value ← getOneRow;
      match value with
      | Some value => mret (Some value)
      | None =>
          refill c;;
          e ← st_get;
          if bool_decide (length (rows e) = 0)%nat then mret None
          else Next_loop c fuel'
      end
  end.

Definition Next (c : Codec) : ST exec (option Row) :=
  checkRangeLock;;
  Next_loop c 2.

End tableScan.

(** ** Index scan (executor.go, l. 261-482) *)

Module indexScan.

Record exec : Type := mk {
  Desc : bool;                       (* *tipb.IndexScan *)
  Unique : option bool;              (* *tipb.IndexScan, a *bool *)
  colsLen : nat;
  kvRanges : list KeyRange;
  startTS : Z;
  mvccStore : MVCCStore;
  reqCtx : requestCtx;
  ranCursor : nat;
  seekKey : option bytes;
  pkStatus : Z;
  start : nat;
  counts : option (list Z);
  ignoreLock : bool;
  lockChecked : bool;
  rowCursor : nat;
  rows : list Row;
  calls : list StoreCall             (* ghost: the store calls so far *)
}.

Definition set_ranCursor (x : nat) (e : exec) : exec :=
  mk (Desc e) (Unique e) (colsLen e) (kvRanges e) (startTS e) (mvccStore e)
     (reqCtx e) x (seekKey e) (pkStatus e) (start e) (counts e)
     (ignoreLock e) (lockChecked e) (rowCursor e) (rows e) (calls e).
Definition set_seekKey (x : option bytes) (e : exec) : exec :=
  mk (Desc e) (Unique e) (colsLen e) (kvRanges e) (startTS e) (mvccStore e)
     (reqCtx e) (ranCursor e) x (pkStatus e) (start e) (counts e)
     (ignoreLock e) (lockChecked e) (rowCursor e) (rows e) (calls e).
Definition set_start (x : nat) (e : exec) : exec :=
  mk (Desc e) (Unique e) (colsLen e) (kvRanges e) (startTS e) (mvccStore e)
     (reqCtx e) (ranCursor e) (seekKey e) (pkStatus e) x (counts e)
     (ignoreLock e) (lockChecked e) (rowCursor e) (rows e) (calls e).
Definition set_counts (x : option (list Z)) (e : exec) : exec :=
  mk (Desc e) (Unique e) (colsLen e) (kvRanges e) (startTS e) (mvccStore e)
     (reqCtx e) (ranCursor e) (seekKey e) (pkStatus e) (start e) x
     (ignoreLock e) (lockChecked e) (rowCursor e) (rows e) (calls e).
Definition set_lockChecked (x : bool) (e : exec) : exec :=
  mk (Desc e) (Unique e) (colsLen e) (kvRanges e) (startTS e) (mvccStore e)
     (reqCtx e) (ranCursor e) (seekKey e) (pkStatus e) (start e) (counts e)
     (ignoreLock e) x (rowCursor e) (rows e) (calls e).
Definition set_rowCursor (x : nat) (e : exec) : exec :=
  mk (Desc e) (Unique e) (colsLen e) (kvRanges e) (startTS e) (mvccStore e)
     (reqCtx e) (ranCursor e) (seekKey e) (pkStatus e) (start e) (counts e)
     (ignoreLock e) (lockChecked e) x (rows e) (calls e).
Definition set_rows (x : list Row) (e : exec) : exec :=
  mk (Desc e) (Unique e) (colsLen e) (kvRanges e) (startTS e) (mvccStore e)
     (reqCtx e) (ranCursor e) (seekKey e) (pkStatus e) (start e) (counts e)
     (ignoreLock e) (lockChecked e) (rowCursor e) x (calls e).
Definition log (x : StoreCall) (e : exec) : exec :=
  mk (Desc e) (Unique e) (colsLen e) (kvRanges e) (startTS e) (mvccStore e)
     (reqCtx e) (ranCursor e) (seekKey e) (pkStatus e) (start e) (counts e)
     (ignoreLock e) (lockChecked e) (rowCursor e) (rows e) (calls e ++ [x]).

Definition ResetCounts : ST exec unit :=
  e ← st_get;
  match counts e with
  | Some cs =>
      st_modify (set_start (ranCursor e));;
      cs' ← st_lift (setIndex cs (ranCursor e) 0);
      st_modify (set_counts (Some cs'))
  | None => mret tt
  end.

Definition Counts (e : exec) : result (option (list Z)) :=
  match counts e with
  | None => OK None
  | Some cs =>
      if bool_decide (seekKey e = None) || bool_decide (ranCursor e = length cs)
      then Some <$> tableScan.slice cs (start e) (ranCursor e)
      else Some <$> tableScan.slice cs (start e) (ranCursor e + 1)
  end.

(** [e.Unique != nil && *e.Unique] *)
Definition isUnique (e : exec) : bool :=
  match Unique e with Some b => b | None => false end.

Fixpoint checkRangeLock_loop (rans : list KeyRange) : ST exec unit :=
  match rans with
  | [] => mret tt
  | ran :: rans' =>
      e ← st_get;
      st_modify (log (CallCheckRangeLock (startTS e) (StartKey ran) (EndKey ran)));;
      match CheckRangeLock (mvccStore e) (startTS e) (StartKey ran) (EndKey ran) with
      | Some err => st_fail err
      | None => checkRangeLock_loop rans'
      end
  end.

Definition checkRangeLock : ST exec unit :=
  e ← st_get;
  if negb (ignoreLock e) && negb (lockChecked e) then
    checkRangeLock_loop (kvRanges e);;
    st_modify (set_lockChecked true)
  else mret tt.

Definition nextRange : ST exec unit :=
  st_modify (fun e => set_seekKey None (set_ranCursor (S (ranCursor e)) e)).

(** "fillRowsFromPoint is only used for unique key." *)
Definition fillRowsFromPoint (c : Codec) (ran : KeyRange) : ST exec unit :=
  e ← st_get;
  st_modify (log (CallGet (StartKey ran) (startTS e)));;
  val ← st_lift (Get (getDBReader (reqCtx e)) (StartKey ran) (startTS e));
  if decide (length val = 0)%nat then mret tt
  else
    row ← st_lift (decodeIndexKV c (colsLen e) (pkStatus e) (StartKey ran) val);
    st_modify (fun e => set_rows (rows e ++ [row]) e).

Definition scanFunc (c : Codec) (key value : bytes)
    : ST (option bytes * exec) unit :=
  st_modify (fun s => (Some key, s.2));;
  s ← st_get;
  row ← st_lift (decodeIndexKV c (colsLen s.2) (pkStatus s.2) (safeCopy key) value);
  st_modify (fun s => (s.1, set_rows (rows s.2 ++ [row]) s.2)).

Definition withLastKey {A} (m : ST (option bytes * exec) A)
    : ST exec (A * option bytes) :=
  fun e => match m (None, e) with
           | (OK a, (lastKey, e')) => (OK (a, lastKey), e')
           | (Err err, (_, e')) => (Err err, e')
           end.

Definition fillRowsFromRange (c : Codec) (ran : KeyRange) : ST exec unit :=
  e ← st_get;
  (if bool_decide (seekKey e = None) then
     if Desc e then st_modify (set_seekKey (Some (EndKey ran)))
     else st_modify (set_seekKey (Some (StartKey ran)))
   else mret tt);;
  e ← st_get;
  let reader := getDBReader (reqCtx e) in
  let seek := default [] (seekKey e) in
  '(_, lastKey) ←
    (if Desc e then
       st_modify (log (CallReverseScan (StartKey ran) seek scanLimit (startTS e)));;
       withLastKey (ReverseScan reader (StartKey ran) seek scanLimit (startTS e) (scanFunc c))
     else
       st_modify (log (CallScan seek (EndKey ran) scanLimit (startTS e)));;
       withLastKey (Scan reader seek (EndKey ran) scanLimit (startTS e) (scanFunc c)));
  match lastKey with
  | None => mret tt
  | Some lastKey =>
      if Desc e then st_modify (set_seekKey (prefixPrev lastKey))
      else st_modify (set_seekKey (Some (PrefixNext lastKey)))
  end.

Fixpoint fillRows_loop (c : Codec) (fuel : nat) : ST exec unit :=
  match fuel with
  | O => mret tt
  | S fuel' =>
      e ← st_get;
      match kvRanges e !! ranCursor e with
      | None => mret tt                         (* ranCursor >= len(kvRanges) *)
      | Some ran =>
          err ←
            (if isUnique e && IsPoint ran then
               err ← st_catch (fillRowsFromPoint c ran);
               nextRange;;
               mret err
             else
               err ← st_catch (fillRowsFromRange c ran);
               e ← st_get;
               (if bool_decide (length (rows e) = 0)%nat then nextRange
                else mret tt);;
               mret err);
          match err with
          | Err er => st_fail er
          | OK _ =>
              e ← st_get;
              if bool_decide (0 < length (rows e))%nat then mret tt   (* break *)
              else fillRows_loop c fuel'
          end
      end
  end.

Definition fillRows (c : Codec) : ST exec unit :=
  e ← st_get;
  fillRows_loop c (length (kvRanges e) - ranCursor e).

Fixpoint Next_loop (c : Codec) (fuel : nat) : ST exec (option Row) :=
  match fuel with
  | O => mret None
  | S fuel' =>
      e ← st_get;
      match rows e !! rowCursor e with
      | Some value =>
          st_modify (set_rowCursor (S (rowCursor e)));;
          mret (Some value)
      | None =>
          st_modify (set_rowCursor 0);;
          st_modify (set_rows []);;
          fillRows c;;
          e ← st_get;
          if bool_decide (length (rows e) = 0)%nat then mret None
          else Next_loop c fuel'
      end
  end.

Definition Next (c : Codec) : ST exec (option Row) :=
  checkRangeLock;;
  Next_loop c 2.

End indexScan.

(** ** A reader over a snapshot *)

(** Modelled from the spec: the pairs visible at the snapshot timestamp,
    listed in ascending key order with non-empty values.  [Get] never
    fails here and returns the empty value for an absent key. *)
Definition inRange (startKey endKey k : bytes) : bool :=
  key_leb startKey k && key_ltb k endKey.

Definition snapshotGet (snap : list (bytes * bytes)) (k : bytes) : bytes :=
  match List.find (fun kv => bool_decide (kv.1 = k)) snap with
  | Some kv => kv.2
  | None => []
  end.

Definition snapshotReader (snap : list (bytes * bytes)) : DBReader := {|
  Get k _ := OK (snapshotGet snap k);
  ScanPairs s e _ := List.filter (fun kv => inRange s e kv.1) snap;
  ReverseScanPairs s e _ := rev (List.filter (fun kv => inRange s e kv.1) snap)
|}.

(** ** Expressions and the evaluation context *)

(** [expression.Expression], of which the executors call [Eval] only;
    the chunk row it reads is the datum row it was built from. *)
Record Expression : Type := {
  Eval : list Datum -> result Datum
}.

(** [evalContext] and its statement context: decoding of the related
    columns into the reusable datum row, and [Datum.ToBool]. *)
Record evalContext : Type := {
  decodeRelatedColumnVals : list nat -> Row -> list Datum -> result unit * list Datum;
  ToBool : Datum -> result Z;
  (** the datum ordering used by the top-N comparisons *)
  CompareDatum : Datum -> Datum -> comparison
}.

(** [chkMutRow]: [nil] until the first [update]. *)
Definition chkMutRow : Type := option (list Datum).
Definition chkMutRow_update (r : list Datum) (c : chkMutRow) : chkMutRow := Some r.
Definition chkMutRow_row (c : chkMutRow) : list Datum := default [] c.

(** The source of an operator: any executor whose [Next] returns, seen
    as a transition on its own state. *)
Definition srcExec (S : Type) : Type := ST S (option Row).

(** ** Selection (executor.go, l. 501-576) *)

Module selection.

Record exec (Src : Type) : Type := mk {
  conditions : list Expression;
  relatedColOffsets : list nat;
  row : list Datum;
  chkRow : chkMutRow;
  evalCtx : evalContext;
  src : Src
}.
Arguments mk {Src}.
Arguments conditions {Src}.
Arguments relatedColOffsets {Src}.
Arguments row {Src}.
Arguments chkRow {Src}.
Arguments evalCtx {Src}.
Arguments src {Src}.

Definition set_row {Src} (x : list Datum) (e : exec Src) : exec Src :=
  mk (conditions e) (relatedColOffsets e) x (chkRow e) (evalCtx e) (src e).
Definition set_chkRow {Src} (x : chkMutRow) (e : exec Src) : exec Src :=
  mk (conditions e) (relatedColOffsets e) (row e) x (evalCtx e) (src e).
Definition set_src {Src} (x : Src) (e : exec Src) : exec Src :=
  mk (conditions e) (relatedColOffsets e) (row e) (chkRow e) (evalCtx e) x.

(** The loop of [evalBool] over the expressions. *)
Fixpoint evalBool_loop (ctx : evalContext) (exprs : list Expression)
    (chk : list Datum) : result bool :=
  match exprs with
  | [] => OK true
  | expr :: exprs' =>
      data ← Eval expr chk;
      if IsNull data then OK false
      else
        isBool ← ToBool ctx data;
        if isBool =? 0 then OK false
        else evalBool_loop ctx exprs' chk
  end.

Definition evalBool {Src} (exprs : list Expression) (row : list Datum)
    (ctx : evalContext) : ST (exec Src) bool :=
  st_modify (fun e => set_chkRow (chkMutRow_update row (chkRow e)) e);;
  e ← st_get;
  st_lift (evalBool_loop ctx exprs (chkMutRow_row (chkRow e))).

(** The [for] loop of [Next]; it runs for as long as the source
    yields rows that do not match, hence the fuel: [None] stands for
    a loop still running after [fuel] pulled rows. *)
Fixpoint Next_loop {Src} (next : srcExec Src) (fuel : nat) (e : exec Src)
    : option (result (option Row) * exec Src) :=
  match fuel with
  | O => None
  | S fuel' =>
      match next (src e) with
      | (Err er, s') => Some (Err er, set_src s' e)
      | (OK None, s') => Some (OK None, set_src s' e)
      | (OK (Some value), s') =>
          let e := set_src s' e in
          match decodeRelatedColumnVals (evalCtx e) (relatedColOffsets e) value (row e) with
          | (Err er, r') => Some (Err er, set_row r' e)
          | (OK _, r') =>
              let e := set_row r' e in
              match evalBool (conditions e) (row e) (evalCtx e) e with
              | (Err er, e') => Some (Err er, e')
              | (OK true, e') => Some (OK (Some value), e')
              | (OK false, e') => Next_loop next fuel' e'
              end
          end
      end
  end.

Definition Next {Src} (next : srcExec Src) (fuel : nat) (e : exec Src)
    : option (result (option Row) * exec Src) :=
  Next_loop next fuel e.

End selection.

(** ** The bounded heap of top-N

    Modelled from the spec: [topNHeap], its sorter and [tryToAddRow] are
    not in executor.go.  "Maintain a bounded max-heap of size <= K keyed
    by the tuple of ordering values, with comparison inverted so that
    the root is the current worst candidate.  If heap size < K: insert.
    Else compare the new key with the root; if strictly better than
    root, replace root and sift down."  The heap is the array heap of
    Go's [container/heap], whose [up] and [down] are followed here. *)

(** [tipb.ByItem], of which the comparison reads [Desc]. *)
Record ByItem : Type := { ByDesc : bool }.

(** [sortRow]; the heap holds pointers to such rows. *)
Record sortRow : Type := {
  key : list Datum;
  data : Row
}.

(** Modelled from the spec: "Lexicographic over key positions.  Per
    position, apply the datum ordering, then invert per the position's
    descending flag." *)
Fixpoint compareKeys (cmp : Datum -> Datum -> comparison) (items : list ByItem)
    (index : nat) (k1 k2 : list Datum) : comparison :=
  match items with
  | [] => Eq
  | by_ :: items' =>
      let v1 := default DNull (k1 !! index) in
      let v2 := default DNull (k2 !! index) in
      let ret := cmp v1 v2 in
      let ret := if ByDesc by_ then CompOpp ret else ret in
      match ret with
      | Eq => compareKeys cmp items' (S index) k1 k2
      | c => c
      end
  end.

Section Heap.
Context {A : Type} (Less : A -> A -> bool).

(** [Swap(i, j)] *)
Definition swap (h : list A) (i j : nat) : list A :=
  match h !! i, h !! j with
  | Some x, Some y => <[i := y]> (<[j := x]> h)
  | _, _ => h
  end.

(** [h.Less(i, j)] on the elements at these indices. *)
Definition LessAt (h : list A) (i j : nat) : bool :=
  match h !! i, h !! j with
  | Some x, Some y => Less x y
  | _, _ => false
  end.

(** [up(h, j)]: the loop runs at most [j] times. *)
Fixpoint up (fuel : nat) (h : list A) (j : nat) : list A :=
  match fuel with
  | O => h
  | S fuel' =>
      let i := ((j - 1) / 2)%nat in          (* parent *)
      if bool_decide (i = j) || negb (LessAt h j i) then h
      else up fuel' (swap h i j) i
  end.

(** [down(h, i0, n)], returning the final index as well. *)
Fixpoint down (fuel : nat) (h : list A) (i n : nat) : list A * nat :=
  match fuel with
  | O => (h, i)
  | S fuel' =>
      let j1 := (2 * i + 1)%nat in
      if bool_decide (n <= j1)%nat then (h, i)
      else
        let j2 := (j1 + 1)%nat in
        let j := if bool_decide (j2 < n)%nat && LessAt h j2 j1 then j2 else j1 in
        if negb (LessAt h j i) then (h, i)
        else down fuel' (swap h i j) j n
  end.

(** [heap.Push]: append, then sift up. *)
Definition heapPush (h : list A) (x : A) : list A :=
  let h' := h ++ [x] in
  up (length h') h' (length h' - 1).

(** [heap.Fix(h, i)] *)
Definition heapFix (h : list A) (i : nat) : list A :=
  let '(h', i') := down (length h) h i (length h) in
  if bool_decide (i < i')%nat then h' else up (length h') h' i.

(** Modelled from the spec: "sort the heap ascending"; an insertion
    sort by [Less] stands for [sort.Sort], whose order among equal
    keys is not contractual. *)
Fixpoint sortInsert (x : A) (l : list A) : list A :=
  match l with
  | [] => [x]
  | y :: l' => if Less x y then x :: y :: l' else y :: sortInsert x l'
  end.

Definition sortSort (l : list A) : list A := foldr sortInsert [] l.
End Heap.

(** ** Top-N (executor.go, l. 578-675) *)

Module topN.

(** [topNHeap] with its embedded [topNSorter].  [rows] holds pointers
    into the arena [mem] of the executor. *)
Record topNHeap : Type := mkHeap {
  orderByItems : list ByItem;
  rows : list nat;
  err : option error;
  totalCount : nat;
  heapSize : nat
}.

Definition heap_set_rows (x : list nat) (h : topNHeap) : topNHeap :=
  mkHeap (orderByItems h) x (err h) (totalCount h) (heapSize h).
Definition heap_set_heapSize (x : nat) (h : topNHeap) : topNHeap :=
  mkHeap (orderByItems h) (rows h) (err h) (totalCount h) x.

Record exec (Src : Type) : Type := mk {
  heap : topNHeap;
  mem : list sortRow;                (* the [sortRow]s allocated so far *)
  evalCtx : evalContext;
  relatedColOffsets : list nat;
  orderByExprs : list Expression;
  row : list Datum;
  chkRow : chkMutRow;
  cursor : nat;
  executed : bool;
  src : Src
}.
Arguments mk {Src}.
Arguments heap {Src}.
Arguments mem {Src}.
Arguments evalCtx {Src}.
Arguments relatedColOffsets {Src}.
Arguments orderByExprs {Src}.
Arguments row {Src}.
Arguments chkRow {Src}.
Arguments cursor {Src}.
Arguments executed {Src}.
Arguments src {Src}.

Definition set_heap {Src} (x : topNHeap) (e : exec Src) : exec Src :=
  mk x (mem e) (evalCtx e) (relatedColOffsets e) (orderByExprs e) (row e)
     (chkRow e) (cursor e) (executed e) (src e).
Definition set_mem {Src} (x : list sortRow) (e : exec Src) : exec Src :=
  mk (heap e) x (evalCtx e) (relatedColOffsets e) (orderByExprs e) (row e)
     (chkRow e) (cursor e) (executed e) (src e).
Definition set_row {Src} (x : list Datum) (e : exec Src) : exec Src :=
  mk (heap e) (mem e) (evalCtx e) (relatedColOffsets e) (orderByExprs e) x
     (chkRow e) (cursor e) (executed e) (src e).
Definition set_chkRow {Src} (x : chkMutRow) (e : exec Src) : exec Src :=
  mk (heap e) (mem e) (evalCtx e) (relatedColOffsets e) (orderByExprs e) (row e)
     x (cursor e) (executed e) (src e).
Definition set_cursor {Src} (x : nat) (e : exec Src) : exec Src :=
  mk (heap e) (mem e) (evalCtx e) (relatedColOffsets e) (orderByExprs e) (row e)
     (chkRow e) x (executed e) (src e).
Definition set_executed {Src} (x : bool) (e : exec Src) : exec Src :=
  mk (heap e) (mem e) (evalCtx e) (relatedColOffsets e) (orderByExprs e) (row e)
     (chkRow e) (cursor e) x (src e).
Definition set_src {Src} (x : Src) (e : exec Src) : exec Src :=
  mk (heap e) (mem e) (evalCtx e) (relatedColOffsets e) (orderByExprs e) (row e)
     (chkRow e) (cursor e) (executed e) x.

(** The key of the row behind a pointer. *)
Definition keyAt (mem : list sortRow) (p : nat) : list Datum :=
  match mem !! p with Some r => key r | None => [] end.

(** Modelled from the spec: the sorter orders ascending by the key
    tuple; the heap inverts it, "so that the root is the current
    worst candidate". *)
Definition sorterLess (cmp : Datum -> Datum -> comparison) (items : list ByItem)
    (mem : list sortRow) (p q : nat) : bool :=
  match compareKeys cmp items 0 (keyAt mem p) (keyAt mem q) with
  | Lt => true | _ => false
  end.
Definition heapLess (cmp : Datum -> Datum -> comparison) (items : list ByItem)
    (mem : list sortRow) (p q : nat) : bool :=
  match compareKeys cmp items 0 (keyAt mem p) (keyAt mem q) with
  | Gt => true | _ => false
  end.

(** Modelled from the spec: [tryToAddRow].  "If heap size < K: insert.
    Else compare the new key with the root; if strictly better than
    root, replace root and sift down." *)
Definition tryToAddRow (cmp : Datum -> Datum -> comparison) (mem : list sortRow)
    (p : nat) (t : topNHeap) : bool * topNHeap :=
  let less := heapLess cmp (orderByItems t) mem in
  if bool_decide (heapSize t < totalCount t)%nat then
    (true, heap_set_heapSize (S (heapSize t)) (heap_set_rows (heapPush less (rows t) p) t))
  else
    match rows t !! 0%nat with
    | Some root =>
        if less root p
        then (true, heap_set_rows (heapFix less (<[0%nat := p]> (rows t)) 0) t)
        else (false, t)
    | None => (false, t)
    end.

(** The loop of [evalTopN] over the ordering expressions:
    [newRow.key[i], err = expr.Eval(e.chkRow.row())]. *)
Fixpoint evalKey (exprs : list Expression) (i : nat) (chk : list Datum)
    (k : list Datum) : result (list Datum) :=
  match exprs with
  | [] => OK k
  | expr :: exprs' =>
      d ← Eval expr chk;
      k' ← setIndex k i d;
      evalKey exprs' (S i) chk k'
  end.

Definition evalTopN {Src} (value : Row) : ST (exec Src) unit :=
  e ← st_get;
  (* newRow := &sortRow{key: make([]types.Datum, len(value))} *)
  let newRow := length (mem e) in
  st_modify (set_mem (mem e ++ [{| key := replicate (length value) DNull; data := [] |}]));;
  (fun e =>
     let '(r, row') :=
       decodeRelatedColumnVals (evalCtx e) (relatedColOffsets e) value (row e) in
     (r, set_row row' e));;
  e ← st_get;
  st_modify (set_chkRow (chkMutRow_update (row e) (chkRow e)));;
  e ← st_get;
  k ← st_lift (evalKey (orderByExprs e) 0 (chkMutRow_row (chkRow e))
                 (keyAt (mem e) newRow));
  st_modify (fun e =>
    set_mem (alter (fun r => {| key := k; data := data r |}) newRow (mem e)) e);;
  e ← st_get;
  let '(ok, t) := tryToAddRow (CompareDatum (evalCtx e)) (mem e) newRow (heap e) in
  st_modify (set_heap t);;
  (if ok then
     (* for _, val := range value { newRow.data = append(newRow.data, val) } *)
     st_modify (fun e =>
       set_mem (alter (fun r => {| key := key r; data := data r ++ value |})
                  newRow (mem e)) e)
   else mret tt);;
  e ← st_get;
  match err (heap e) with
  | Some er => st_fail er
  | None => mret tt
  end.

Definition innerNext {Src} (next : srcExec Src) : ST (exec Src) bool :=
  value ← (fun e => let '(r, s') := next (src e) in (r, set_src s' e));
  match value with
  | None => mret false
  | Some value =>
      evalTopN value;;
      mret true
  end.

(** The draining loop of the first [Next]; [None] stands for a loop
    still running after [fuel] pulled rows. *)
Fixpoint drain {Src} (next : srcExec Src) (fuel : nat) (e : exec Src)
    : option (result unit * exec Src) :=
  match fuel with
  | O => None
  | S fuel' =>
      match innerNext next e with
      | (Err er, e') => Some (Err er, e')
      | (OK false, e') => Some (OK tt, e')
      | (OK true, e') => drain next fuel' e'
      end
  end.

(** [row.data] of [e.heap.rows[e.cursor]]. *)
Definition dataAt (mem : list sortRow) (p : nat) : Row :=
  match mem !! p with Some r => data r | None => [] end.

Definition emit {Src} : ST (exec Src) (option Row) :=
  e ← st_get;
  match rows (heap e) !! cursor e with
  | None => mret None                       (* e.cursor >= len(e.heap.rows) *)
  | Some p =>
      st_modify (set_cursor (S (cursor e)));;
      mret (Some (dataAt (mem e) p))
  end.

Definition Next {Src} (next : srcExec Src) (fuel : nat) (e : exec Src)
    : option (result (option Row) * exec Src) :=
  if negb (executed e) then
    match drain next fuel e with
    | None => None
    | Some (Err er, e') => Some (Err er, e')
    | Some (OK _, e') =>
        let t := heap e' in
        let sorted :=
          sortSort (sorterLess (CompareDatum (evalCtx e')) (orderByItems t) (mem e'))
                   (rows t) in
        Some (emit (set_executed true (set_heap (heap_set_rows sorted t) e')))
    end
  else Some (emit e).

End topN.
(** ** Concrete collaborators for the examples *)

(** A toy value codec: a stored value is one byte per column in map
    order of offsets, [0xFF] standing for an absent column; an integer
    datum is encoded as a kind flag and the low byte. *)
Definition demoEncode (b : bytes) (d : Datum) : result bytes :=
  match d with
  | DInt i => OK (b ++ [Byte.x08; byte_of_N (Z.to_N (i mod 256))])
  | DUint u => OK (b ++ [Byte.x09; byte_of_N (Z.to_N (u mod 256))])
  | DNull => OK (b ++ [NilFlag])
  | DBytes x => OK (b ++ x)
  end.

Definition demoCut (old : bytes) (colIDs : gmap Z nat) : result (option Row) :=
  if decide (old = []) then OK None
  else OK (Some ((fun x => if decide (x = Byte.xff) then None else Some [x]) <$> old)).

Definition demoCutOne (b : bytes) : result (bytes * bytes) :=
  match b with
  | [] => Err (DecodeErr 1)
  | x :: rest => OK ([x], rest)
  end.

Definition demoRowKey (key : bytes) : result Z :=
  match last key with
  | Some b => OK (Z.of_N (byte_val b))
  | None => Err (DecodeErr 2)
  end.

Definition demoCodec : Codec := {|
  RowToOldRow v := OK v;
  cutRowNew := demoCut;
  EncodeValue := demoEncode;
  decodeRowKey := demoRowKey;
  CutOne := demoCutOne;
  indexKeyHeaderLen := 1
|}.

Definition demoColumns : list ColumnInfo :=
  [ {| ColumnId := 1; PkHandle := true; Flag := 1; DefaultVal := [] |};
    {| ColumnId := 2; PkHandle := false; Flag := 0; DefaultVal := [] |};
    {| ColumnId := 3; PkHandle := false; Flag := 0; DefaultVal := [Byte.x2a] |};
    {| ColumnId := 4; PkHandle := false; Flag := 0; DefaultVal := [] |} ].

Definition demoColIDs : gmap Z nat :=
  <[1 := 0%nat]> (<[2 := 1%nat]> (<[3 := 2%nat]> (<[4 := 3%nat]> ∅))).

(** A source that yields the rows of a list, then end-of-stream. *)
Definition listSrc : srcExec (list Row) :=
  fun s => match s with
           | [] => (OK None, [])
           | v :: s' => (OK (Some v), s')
           end.

(** A toy evaluation context: a column decodes to the integer value of
    its first byte (NULL for the marker byte or a missing blob), written
    at the related offsets; an integer is true iff it is not zero. *)
Definition demoDecodeCol (cell : option bytes) : Datum :=
  match cell with
  | Some (b :: _) => if decide (b = NilFlag) then DNull else DInt (Z.of_N (byte_val b))
  | _ => DNull
  end.

Fixpoint demoDecodeRelated (offsets : list nat) (value : Row) (r : list Datum)
    : result unit * list Datum :=
  match offsets with
  | [] => (OK tt, r)
  | o :: offsets' =>
      match value !! o with
      | Some cell => demoDecodeRelated offsets' value (<[o := demoDecodeCol cell]> r)
      | None => (Err IndexOutOfRange, r)
      end
  end.

Definition demoToBool (d : Datum) : result Z :=
  match d with
  | DInt i => OK (if i =? 0 then 0 else 1)
  | DUint u => OK (if u =? 0 then 0 else 1)
  | DNull => OK 0
  | DBytes _ => Err (EvalErr 1)
  end.

Definition demoCompare (a b : Datum) : comparison :=
  match a, b with
  | DNull, DNull => Eq
  | DNull, _ => Lt
  | _, DNull => Gt
  | DInt x, DInt y => Z.compare x y
  | DInt _, _ => Lt
  | _, DInt _ => Gt
  | DUint x, DUint y => Z.compare x y
  | DUint _, _ => Lt
  | _, DUint _ => Gt
  | DBytes x, DBytes y => bytes_compare x y
  end.

Definition demoEvalCtx : evalContext := {|
  decodeRelatedColumnVals := demoDecodeRelated;
  ToBool := demoToBool;
  CompareDatum := demoCompare
|}.

(** The expression "column [i]". *)
Definition colExpr (i : nat) : Expression :=
  {| Eval chk := OK (default DNull (chk !! i)) |}.

Definition demoSelection (rows : list Row) : selection.exec (list Row) :=
  selection.mk [colExpr 0; colExpr 1] [0%nat; 1%nat] [DNull; DNull] None
    demoEvalCtx rows.

(** ** The two scans seen through one interface *)

(** The part of [executor] that the scans implement themselves, with
    the observations the statements on scans need. *)
Class ScanExec (E : Type) : Type := {
  scanNext : Codec -> ST E (option Row);
  scanCalls : E -> list StoreCall;
  scanRanges : E -> list KeyRange;
  scanTS : E -> Z;
  scanDesc : E -> bool;
  scanStore : E -> MVCCStore;
  scanReader : E -> DBReader;
  scanIgnoreLock : E -> bool;
  scanLockChecked : E -> bool;
  scanRangeCursor : E -> nat;
  scanSeekKey : E -> option bytes;
  scanBuffered : E -> list Row;           (* rows[rowCursor:] *)
  (** whether a range is read by a single [Get] *)
  scanPointPath : E -> KeyRange -> bool;
  (** what the point path does with the value it got *)
  scanDecodePoint : Codec -> E -> KeyRange -> bytes -> result Row
}.

Global Instance tableScan_ScanExec : ScanExec tableScan.exec := {|
  scanNext := tableScan.Next;
  scanCalls := tableScan.calls;
  scanRanges := tableScan.kvRanges;
  scanTS := tableScan.startTS;
  scanDesc := tableScan.Desc;
  scanStore := tableScan.mvccStore;
  scanReader e := getDBReader (tableScan.reqCtx e);
  scanIgnoreLock := tableScan.ignoreLock;
  scanLockChecked := tableScan.lockChecked;
  scanRangeCursor := tableScan.rangeCursor;
  scanSeekKey := tableScan.seekKey;
  scanBuffered e := drop (tableScan.rowCursor e) (tableScan.rows e);
  scanPointPath e ran := IsPoint ran;
  scanDecodePoint c e ran val :=
    handle ← decodeRowKey c (StartKey ran);
    getRowData c (tableScan.Columns e) (tableScan.colIDs e) handle val
|}.

Global Instance indexScan_ScanExec : ScanExec indexScan.exec := {|
  scanNext := indexScan.Next;
  scanCalls := indexScan.calls;
  scanRanges := indexScan.kvRanges;
  scanTS := indexScan.startTS;
  scanDesc := indexScan.Desc;
  scanStore := indexScan.mvccStore;
  scanReader e := getDBReader (indexScan.reqCtx e);
  scanIgnoreLock := indexScan.ignoreLock;
  scanLockChecked := indexScan.lockChecked;
  scanRangeCursor := indexScan.ranCursor;
  scanSeekKey := indexScan.seekKey;
  scanBuffered e := drop (indexScan.rowCursor e) (indexScan.rows e);
  scanPointPath e ran := indexScan.isUnique e && IsPoint ran;
  scanDecodePoint c e ran val :=
    decodeIndexKV c (indexScan.colsLen e) (indexScan.pkStatus e) (StartKey ran) val
|}.

(** The state after [n] calls of [Next], whatever they returned. *)
Definition nextN {E} `{ScanExec E} (c : Codec) (n : nat) (e : E) : E :=
  Nat.iter n (fun e => (scanNext c e).2) e.

(** The results of [n] successive calls of [Next]. *)
Fixpoint nextResults {E} `{ScanExec E} (c : Codec) (n : nat) (e : E)
    : list (result (option Row)) :=
  match n with
  | O => []
  | S n' => let '(r, e') := scanNext c e in r :: nextResults c n' e'
  end.

Definition ts_logs (xs : list StoreCall) (e : tableScan.exec) : tableScan.exec :=
  foldl (fun e x => tableScan.log x e) e xs.
Definition is_logs (xs : list StoreCall) (e : indexScan.exec) : indexScan.exec :=
  foldl (fun e x => indexScan.log x e) e xs.

(** The reader call a scan makes for the range under its cursor. *)
Definition pathCall {E} `{ScanExec E} (e : E) (ran : KeyRange) : StoreCall :=
  if scanPointPath e ran then CallGet (StartKey ran) (scanTS e)
  else
    let seek :=
      default (if scanDesc e then EndKey ran else StartKey ran) (scanSeekKey e) in
    if scanDesc e
    then CallReverseScan (StartKey ran) seek scanLimit (scanTS e)
    else CallScan seek (EndKey ran) scanLimit (scanTS e).

Definition checkCallOf (ts : Z) (ran : KeyRange) : StoreCall :=
  CallCheckRangeLock ts (StartKey ran) (EndKey ran).

(** The ranges a pass of [checkRangeLock] visits, and the lock it
    stops at, if any. *)
Fixpoint lockPass (store : MVCCStore) (ts : Z) (rans : list KeyRange)
    : list KeyRange * option error :=
  match rans with
  | [] => ([], None)
  | ran :: rans' =>
      match CheckRangeLock store ts (StartKey ran) (EndKey ran) with
      | Some err => ([ran], Some err)
      | None => let '(p, r) := lockPass store ts rans' in (ran :: p, r)
      end
  end.

(** ** Concrete scans for the examples *)

Definition k1 : bytes := [Byte.x74; Byte.x01].
Definition k2 : bytes := [Byte.x74; Byte.x02].
Definition k3 : bytes := [Byte.x74; Byte.x03].
Definition k4 : bytes := [Byte.x74; Byte.x04].
Definition k5 : bytes := [Byte.x74; Byte.x05].
Definition k6 : bytes := [Byte.x74; Byte.x06].
Definition k7 : bytes := [Byte.x74; Byte.x07].
Definition k9 : bytes := [Byte.x74; Byte.x09].

(** Rows with handles 1, 2, 5 and 6; the stored value of handle [h]
    holds columns 2.. as [h+16], absent, absent. *)
Definition demoSnapshot : list (bytes * bytes) :=
  [ (k1, [Byte.x01; Byte.x11; Byte.xff; Byte.xff]);
    (k2, [Byte.x02; Byte.x12; Byte.xff; Byte.xff]);
    (k5, [Byte.x05; Byte.x15; Byte.xff; Byte.xff]);
    (k6, [Byte.x06; Byte.x16; Byte.xff; Byte.xff]) ].

(** Rows with handles 1 to 130: one more than a batch and a row. *)
Definition longSnapshot : list (bytes * bytes) :=
  (fun i => ([Byte.x74; byte_of_N (N.of_nat i)], [Byte.x01; Byte.x11; Byte.xff; Byte.xff]))
    <$> seq 1 130.

Definition kff : bytes := [Byte.x74; Byte.xff].

Definition noLocks : MVCCStore := {| CheckRangeLock _ _ _ := None |}.

(** A lock with start timestamp 99 on every range that starts at [k5]. *)
Definition lockAtK5 : MVCCStore :=
  {| CheckRangeLock _ s _ := if decide (s = k5) then Some (Locked 99) else None |}.

Definition demoTableScan (store : MVCCStore) (snap : list (bytes * bytes))
    (desc : bool) (ranges : list KeyRange) : tableScan.exec :=
  tableScan.mk desc demoColumns demoColIDs ranges 100 store
    {| getDBReader := snapshotReader snap |}
    0 0 [] None 0 (Some (replicate (length ranges) 0)) false false [].

Definition demoIndexScan (store : MVCCStore) (snap : list (bytes * bytes))
    (desc : bool) (unique : option bool) (ranges : list KeyRange) : indexScan.exec :=
  indexScan.mk desc unique 1 ranges 100 store
    {| getDBReader := snapshotReader snap |}
    0 None pkColIsSigned 0 (Some (replicate (length ranges) 0)) false false 0 [] [].

(** Two entries of a non-unique index on one column, both under the
    column value [05], with handles 1 and 2 in the key tail. *)
Definition i5 : bytes := [Byte.x69; Byte.x05].
Definition i6 : bytes := [Byte.x69; Byte.x06].
Definition demoIndexSnapshot : list (bytes * bytes) :=
  [ ([Byte.x69; Byte.x05; Byte.x01], [Byte.x30]);
    ([Byte.x69; Byte.x05; Byte.x02], [Byte.x30]) ].

(** The entry of a unique index under the column value [05], with
    handle 7 in the stored value. *)
Definition uniqueIndexSnapshot : list (bytes * bytes) :=
  [ (i5, [Byte.x00; Byte.x00; Byte.x00; Byte.x00; Byte.x00; Byte.x00; Byte.x00; Byte.x07]) ].

(** A table whose column 4 is NOT NULL and has no default. *)
Definition strictColumns : list ColumnInfo :=
  [ {| ColumnId := 1; PkHandle := true; Flag := 1; DefaultVal := [] |};
    {| ColumnId := 4; PkHandle := false; Flag := 1; DefaultVal := [] |} ].

Definition strictTableScan (ranges : list KeyRange) : tableScan.exec :=
  tableScan.mk false strictColumns demoColIDs ranges 100 noLocks
    {| getDBReader := snapshotReader demoSnapshot |}
    0 0 [] None 0 None true false [].

(** The same table scanned by an executor that checks locks. *)
Definition checkingStrictScan (ranges : list KeyRange) : tableScan.exec :=
  tableScan.mk false strictColumns demoColIDs ranges 100 noLocks
    {| getDBReader := snapshotReader demoSnapshot |}
    0 0 [] None 0 None false false [].

(** ** What the scans do on a failing point range *)

(** The lock check does not stand in the way of [Next]: locks are
    ignored, or were checked, or no range is locked. *)
Definition lockPasses {E} `{ScanExec E} (e : E) : Prop :=
  scanIgnoreLock e = true \/ scanLockChecked e = true \/
  (lockPass (scanStore e) (scanTS e) (scanRanges e)).2 = None.

(** The calls of the lock check that this [Next] makes. *)
Definition lockCalls {E} `{ScanExec E} (e : E) : list StoreCall :=
  if scanIgnoreLock e || scanLockChecked e then []
  else checkCallOf (scanTS e) <$> scanRanges e.

(** The reader call for a range entered with the seek key [seek]. *)
Definition rangeCall {E} `{ScanExec E} (e : E) (seek : option bytes) (ran : KeyRange)
    : StoreCall :=
  if scanPointPath e ran then CallGet (StartKey ran) (scanTS e)
  else if scanDesc e
       then CallReverseScan (StartKey ran) (default (EndKey ran) seek) scanLimit (scanTS e)
       else CallScan (default (StartKey ran) seek) (EndKey ran) scanLimit (scanTS e).

(** A range that gives no row and no error: a point that is absent,
    or a scan that finds no pair. *)
Definition rangeSilent {E} `{ScanExec E} (e : E) (seek : option bytes) (ran : KeyRange)
    : Prop :=
  if scanPointPath e ran then Get (scanReader e) (StartKey ran) (scanTS e) = OK []
  else (if scanDesc e
        then ReverseScanPairs (scanReader e) (StartKey ran) (default (EndKey ran) seek)
               (scanTS e)
        else ScanPairs (scanReader e) (default (StartKey ran) seek) (EndKey ran)
               (scanTS e)) = [].

(** The ranges [Next] passes over before it reaches a row or an error:
    the first is entered with the seek key of the scan, the others
    afresh. *)
Definition silentRanges {E} `{ScanExec E} (e : E) (rs : list KeyRange) : Prop :=
  match rs with
  | [] => True
  | r :: rs' => rangeSilent e (scanSeekKey e) r /\ Forall (rangeSilent e None) rs'
  end.

Definition skipCalls {E} `{ScanExec E} (e : E) (rs : list KeyRange) : list StoreCall :=
  match rs with
  | [] => []
  | r :: rs' => rangeCall e (scanSeekKey e) r :: (rangeCall e None <$> rs')
  end.

(** The point range fails: its [Get] does, or the decoding of the value. *)
Definition pointFails {E} `{ScanExec E} (c : Codec) (e : E) (ran : KeyRange)
    (err : error) : Prop :=
  Get (scanReader e) (StartKey ran) (scanTS e) = Err err \/
  exists val, Get (scanReader e) (StartKey ran) (scanTS e) = OK val /\
              val <> [] /\ scanDecodePoint c e ran val = Err err.

(** What the scans do when the point range number [i] fails, [Next]
    having made the calls [pre] before it reads the range: the error
    comes out of [Next] with the range cursor already past the range,
    and the next call goes on with the range after it. *)
Definition pointFailureOutcome {E} `{ScanExec E} (c : Codec) (e : E) (i : nat)
    (pre : list StoreCall) (ran : KeyRange) (err : error) : Prop :=
  exists e',
    scanNext c e = (Err err, e') /\
    scanRangeCursor e' = S i /\
    scanSeekKey e' = None /\
    scanBuffered e' = [] /\
    scanCalls e' = scanCalls e ++ pre ++ [CallGet (StartKey ran) (scanTS e)] /\
    match scanRanges e !! S i with
    | Some ran2 =>
        exists rest,
          scanCalls (scanNext c e').2 = scanCalls e' ++ pathCall e' ran2 :: rest
    | None =>
        exists e'', scanNext c e' = (OK None, e'') /\ scanCalls e'' = scanCalls e'
    end.

Definition pointFailureSpec {E} `{ScanExec E} (c : Codec) (e : E) : Prop :=
  forall (skipped : list KeyRange) (ran : KeyRange) (err : error),
    lockPasses e ->
    scanBuffered e = [] ->
    (forall k r, skipped !! k = Some r ->
                 scanRanges e !! (scanRangeCursor e + k)%nat = Some r) ->
    scanRanges e !! (scanRangeCursor e + length skipped)%nat = Some ran ->
    silentRanges e skipped ->
    scanPointPath e ran = true ->
    pointFails c e ran err ->
    pointFailureOutcome c e (scanRangeCursor e + length skipped)
      (lockCalls e ++ skipCalls e skipped) ran err.

(** ** The reference for a table scan *)

Definition kv_lt (a b : bytes * bytes) : Prop := key_lt a.1 b.1.

(** The pairs of the snapshot with a key in [[s, e)], in key order. *)
Definition pairsIn (snap : list (bytes * bytes)) (s e : bytes) : list (bytes * bytes) :=
  List.filter (fun kv => inRange s e kv.1) snap.

(** A key falls in the union of the ranges. *)
Definition inRanges (ranges : list KeyRange) (k : bytes) : bool :=
  existsb (fun r => inRange (StartKey r) (EndKey r) k) ranges.

(** Sorted and non-overlapping: a range ends before the later ones start. *)
Definition rangesAscending (rs : list KeyRange) : Prop :=
  forall i j r r', (i < j)%nat -> rs !! i = Some r -> rs !! j = Some r' ->
                   key_le (EndKey r) (StartKey r').

(** The snapshot holds the pairs visible at the timestamp: keys of one
    length [L], strictly ascending, and no empty value. *)
Record snapshotOK (L : nat) (snap : list (bytes * bytes)) : Prop := {
  snap_sorted : StronglySorted kv_lt snap;
  snap_len : Forall (fun kv => length kv.1 = L) snap;
  snap_vals : Forall (fun kv => kv.2 <> []) snap
}.

(** The row of a key-value pair: [decodeRowKey], then [getRowData]. *)
Definition decodeKV (c : Codec) (columns : list ColumnInfo) (colIDs : gmap Z nat)
    (kv : bytes * bytes) : result Row :=
  handle ← decodeRowKey c kv.1;
  getRowData c columns colIDs handle kv.2.

Definition decodeRow (c : Codec) (columns : list ColumnInfo) (colIDs : gmap Z nat)
    (kv : bytes * bytes) : Row :=
  match decodeKV c columns colIDs kv with OK r => r | Err _ => [] end.

Definition scanDir {A} (desc : bool) (l : list A) : list A :=
  if desc then rev l else l.

(** The pairs a scan is to emit: those with a key in the union of the
    ranges, ascending, or descending for a descending scan. *)
Definition expectedPairs (desc : bool) (ranges : list KeyRange)
    (snap : list (bytes * bytes)) : list (bytes * bytes) :=
  scanDir desc (List.filter (fun kv => inRanges ranges kv.1) snap).

(** ** The reference for top-N *)

(** The rows a source yields before its end-of-stream, and the state
    it is left in. *)
Inductive srcYields {Src} (next : srcExec Src) : Src -> list Row -> Src -> Prop :=
| srcYields_end s s' :
    next s = (OK None, s') -> srcYields next s [] s'
| srcYields_row s v s1 vs s' :
    next s = (OK (Some v), s1) -> srcYields next s1 vs s' ->
    srcYields next s (v :: vs) s'.

(** "Collect all source rows" with their ordering keys: the related
    columns of each row are decoded into the datum row [r], which the
    executor reuses from row to row, and the ordering expressions are
    evaluated on it. *)
Fixpoint referenceRows (ctx : evalContext) (offsets : list nat)
    (exprs : list Expression) (r : list Datum) (vs : list Row)
    : result (list sortRow) :=
  match vs with
  | [] => OK []
  | v :: vs' =>
      match decodeRelatedColumnVals ctx offsets v r with
      | (Err er, _) => Err er
      | (OK _, r') =>
          k ← topN.evalKey exprs 0 r' (replicate (length v) DNull);
          rest ← referenceRows ctx offsets exprs r' vs';
          OK ({| key := k; data := v |} :: rest)
      end
  end.

(** "Sort them by the ordering-key tuple": [a] may stand before [b]. *)
Definition keyLe (cmp : Datum -> Datum -> comparison) (items : list ByItem)
    (a b : sortRow) : Prop :=
  compareKeys cmp items 0 (key a) (key b) <> Gt.

(** A comparison that is a total preorder. *)
Record TotalCmp {T : Type} (cmp : T -> T -> comparison) : Prop := {
  cmp_anti : forall a b, cmp b a = CompOpp (cmp a b);
  cmp_trans : forall a b c, cmp a b = Lt -> cmp b c = Lt -> cmp a c = Lt;
  cmp_eq : forall a b c, cmp a b = Eq -> cmp a c = cmp b c
}.

(** The reference of top-N: the collected rows sorted by the
    ordering-key tuple, of which the first [K] are kept.  Rows whose
    keys compare equal may stand in any order. *)
Definition topNReference (cmp : Datum -> Datum -> comparison) (items : list ByItem)
    (K : nat) (srs out : list sortRow) : Prop :=
  exists sorted,
    sorted ≡ₚ srs /\ StronglySorted (keyLe cmp items) sorted /\ out = take K sorted.

(** A top-N executor before its first [Next]. *)
Definition freshTopN {Src} (e : topN.exec Src) : Prop :=
  topN.executed e = false /\ topN.cursor e = 0%nat /\
  topN.rows (topN.heap e) = [] /\ topN.heapSize (topN.heap e) = 0%nat /\
  topN.err (topN.heap e) = None.

(** The results of [n] calls of [topNExec.Next]. *)
Fixpoint topN_nextN {Src} (next : srcExec Src) (fuel n : nat) (e : topN.exec Src)
    : list (result (option Row)) :=
  match n with
  | O => []
  | S n' =>
      match topN.Next next fuel e with
      | None => []
      | Some (r, e') => r :: topN_nextN next fuel n' e'
      end
  end.

(** The row behind a pointer. *)
Definition derefRow (mem : list sortRow) (p : nat) : sortRow :=
  default {| key := []; data := [] |} (mem !! p).

(** The top-N executor of scenario S6: the two smallest rows by the
    first column. *)
Definition demoTopN (K : nat) (rows : list Row) : topN.exec (list Row) :=
  topN.mk (topN.mkHeap [ {| ByDesc := false |} ] [] None K 0) [] demoEvalCtx
    [0%nat] [colExpr 0] [DNull; DNull] None 0 false rows.

Definition s6Rows : list Row :=
  [ [Some [Byte.x03]; Some [Byte.x61]];
    [Some [Byte.x01]; Some [Byte.x62]];
    [Some [Byte.x03]; Some [Byte.x63]];
    [Some [Byte.x02]; Some [Byte.x64]] ].


(** ** Limit (executor.go, l. 677-718) *)

Module limit.

(** [limitExec]; [limit] and [cursor] are [uint64]. *)
Record exec (Src : Type) : Type := mk {
  limit : Z;
  cursor : Z;
  src : Src
}.
Arguments mk {Src}.
Arguments limit {Src}.
Arguments cursor {Src}.
Arguments src {Src}.

Definition set_cursor {Src} (x : Z) (e : exec Src) : exec Src :=
  mk (limit e) x (src e).
Definition set_src {Src} (x : Src) (e : exec Src) : exec Src :=
  mk (limit e) (cursor e) x.

Definition Next {Src} (next : srcExec Src) : ST (exec Src) (option Row) :=
  e ← st_get;
  if bool_decide (limit e <= cursor e) then mret None     (* e.cursor >= e.limit *)
  else
    value ← (fun e => let '(r, s') := next (src e) in (r, set_src s' e));
    match value with
    | None => mret None
    | Some value =>
        st_modify (fun e => set_cursor (to_uint64 (cursor e + 1)) e);;   (* e.cursor++ *)
        mret (Some value)
    end.

End limit.

(** The results of [n] calls of a stateful operation, and the state
    they leave. *)
Fixpoint callsN {S A} (m : ST S A) (n : nat) (s : S) : list (result A) * S :=
  match n with
  | O => ([], s)
  | S n' => let '(r, s1) := m s in
            let '(rs, s2) := callsN m n' s1 in (r :: rs, s2)
  end.

(** The rows a source yields one after the other, and the state it is
    left in, whatever comes next. *)
Inductive srcPulls {Src} (next : srcExec Src) : Src -> list Row -> Src -> Prop :=
| srcPulls_nil s : srcPulls next s [] s
| srcPulls_row s v s1 vs s' :
    next s = (OK (Some v), s1) -> srcPulls next s1 vs s' ->
    srcPulls next s (v :: vs) s'.

(** ** The reference for selection *)

(** The rows of [vs] on which every condition passes, the related
    columns of each row being decoded into the datum row [r] that the
    executor reuses from row to row. *)
Fixpoint selectedRows (ctx : evalContext) (offsets : list nat)
    (conds : list Expression) (r : list Datum) (vs : list Row) : result (list Row) :=
  match vs with
  | [] => OK []
  | v :: vs' =>
      match decodeRelatedColumnVals ctx offsets v r with
      | (Err er, _) => Err er
      | (OK _, r') =>
          b ← selection.evalBool_loop ctx conds r';
          rest ← selectedRows ctx offsets conds r' vs';
          OK (if b : bool then v :: rest else rest)
      end
  end.

(** The results of [n] calls of [selectionExec.Next]. *)
Fixpoint selection_nextN {Src} (next : srcExec Src) (fuel n : nat)
    (e : selection.exec Src) : list (result (option Row)) :=
  match n with
  | O => []
  | S n' =>
      match selection.Next next fuel e with
      | None => []
      | Some (r, e') => r :: selection_nextN next fuel n' e'
      end
  end.

(** ** [Cursor] of the scans (executor.go, l. 89-110 and 313-331) *)

Module tableScanExec.

(** [Cursor]; [e.kvRanges[len(e.kvRanges)-1]] panics on no range. *)
Definition Cursor (e : tableScan.exec) : result (bytes * bool) :=
  let seekKey := default [] (tableScan.seekKey e) in
  if bool_decide (0 < length seekKey)%nat then OK (seekKey, tableScan.Desc e)
  else
    match tableScan.kvRanges e !! tableScan.rangeCursor e with
    | Some ran =>
        if IsPoint ran then OK (StartKey ran, tableScan.Desc e)
        else if tableScan.Desc e then OK (EndKey ran, tableScan.Desc e)
        else OK (StartKey ran, tableScan.Desc e)
    | None =>
        match length (tableScan.kvRanges e) with
        | O => Err IndexOutOfRange
        | S i =>
            ran ← getIndex (tableScan.kvRanges e) i;
            if tableScan.Desc e then OK (StartKey ran, tableScan.Desc e)
            else OK (EndKey ran, tableScan.Desc e)
        end
    end.

End tableScanExec.

Module indexScanExec.

Definition Cursor (e : indexScan.exec) : result (bytes * bool) :=
  let seekKey := default [] (indexScan.seekKey e) in
  if bool_decide (0 < length seekKey)%nat then OK (seekKey, indexScan.Desc e)
  else
    match indexScan.kvRanges e !! indexScan.ranCursor e with
    | Some ran =>
        if indexScan.isUnique e && IsPoint ran then OK (StartKey ran, indexScan.Desc e)
        else if indexScan.Desc e then OK (EndKey ran, indexScan.Desc e)
        else OK (StartKey ran, indexScan.Desc e)
    | None =>
        match length (indexScan.kvRanges e) with
        | O => Err IndexOutOfRange
        | S i =>
            ran ← getIndex (indexScan.kvRanges e) i;
            if indexScan.Desc e then OK (StartKey ran, indexScan.Desc e)
            else OK (EndKey ran, indexScan.Desc e)
        end
    end.

End indexScanExec.

(** The reader call that starts at the key [k] on the range [ran]. *)
Definition readFrom (point desc : bool) (ts : Z) (ran : KeyRange) (k : bytes)
    : StoreCall :=
  if point then CallGet k ts
  else if desc then CallReverseScan (StartKey ran) k scanLimit ts
  else CallScan k (EndKey ran) scanLimit ts.

(** A snapshot whose second row lacks the NOT NULL column 4. *)
Definition gapSnapshot : list (bytes * bytes) :=
  [ (k1, [Byte.x01; Byte.x11; Byte.xff; Byte.x44]);
    (k2, [Byte.x02; Byte.x12; Byte.xff; Byte.xff]) ].

Definition gapTableScan : tableScan.exec :=
  tableScan.mk false strictColumns demoColIDs [ {| StartKey := k1; EndKey := k9 |} ]
    100 noLocks {| getDBReader := snapshotReader gapSnapshot |}
    0 0 [] None 0 None true false [].

(** The rows a source yields before it fails. *)
Inductive srcFails {Src} (next : srcExec Src) : Src -> list Row -> error -> Src -> Prop :=
| srcFails_now s er s' :
    next s = (Err er, s') -> srcFails next s [] er s'
| srcFails_row s v s1 vs er s' :
    next s = (OK (Some v), s1) -> srcFails next s1 vs er s' ->
    srcFails next s (v :: vs) er s'.

(** [binary.BigEndian]: the [n] low bytes of [u], the most significant
    first; with [n = 8] what [binary.Write] stores for a [uint64]. *)
Fixpoint bigEndian (n : nat) (u : Z) : bytes :=
  match n with
  | O => []
  | S n' => bigEndian n' (u / 256) ++ [byte_of_N (Z.to_N (u mod 256))]
  end.


(** * Properties *)

(** ** Facts on bytes *)

Lemma byte_val_dec (b : byte) :
  byte_val (byte_dec b) = ((byte_val b + 255) mod 256)%N.
Proof. destruct b; reflexivity. Qed.

Lemma byte_val_inc (b : byte) :
  byte_val (byte_inc b) = ((byte_val b + 1) mod 256)%N.
Proof. destruct b; reflexivity. Qed.

Lemma byte_val_lt (b : byte) : (byte_val b < 256)%N.
Proof. destruct b; reflexivity. Qed.

Lemma byte_val_inj (a b : byte) : byte_val a = byte_val b -> a = b.
Proof.
  unfold byte_val. intros H.
  pose proof (Byte.of_to_N a) as Ha. pose proof (Byte.of_to_N b) as Hb.
  rewrite H in Ha. congruence.
Qed.

Lemma byte_val_xff (b : byte) : b = Byte.xff <-> byte_val b = 255%N.
Proof.
  split; [intros ->; reflexivity|].
  intros H. apply byte_val_inj. rewrite H. reflexivity.
Qed.

Lemma byte_val_x00 (b : byte) : b = Byte.x00 <-> byte_val b = 0%N.
Proof.
  split; [intros ->; reflexivity|].
  intros H. apply byte_val_inj. rewrite H. reflexivity.
Qed.

Lemma byte_dec_xff (b : byte) : byte_dec b = Byte.xff <-> b = Byte.x00.
Proof. destruct b; split; intros E; try reflexivity; discriminate E. Qed.

Lemma byte_inc_x00 (b : byte) : byte_inc b = Byte.x00 <-> b = Byte.xff.
Proof. destruct b; split; intros E; try reflexivity; discriminate E. Qed.

Lemma byte_inc_dec (b : byte) : b <> Byte.x00 -> byte_inc (byte_dec b) = b.
Proof. destruct b; (reflexivity || congruence). Qed.

Lemma byte_val_dec_pos (b : byte) :
  b <> Byte.x00 -> (byte_val (byte_dec b) + 1 = byte_val b)%N.
Proof. destruct b; (reflexivity || congruence). Qed.

Lemma byte_val_inc_small (b : byte) :
  b <> Byte.xff -> (byte_val (byte_inc b) = byte_val b + 1)%N.
Proof. destruct b; (reflexivity || congruence). Qed.

(** ** Facts on the key order *)

Lemma bytes_compare_refl (a : bytes) : bytes_compare a a = Eq.
Proof.
  induction a as [|x a IH]; simpl; [done|].
  by rewrite N.compare_refl.
Qed.

Lemma bytes_compare_app (p a b : bytes) :
  bytes_compare (p ++ a) (p ++ b) = bytes_compare a b.
Proof.
  induction p as [|x p IH]; simpl; [done|].
  by rewrite N.compare_refl.
Qed.

Lemma key_le_refl (a : bytes) : key_le a a.
Proof. unfold key_le. by rewrite bytes_compare_refl. Qed.

(** ** [prefixPrev] and [PrefixNext] on a key split at the loop index *)

Lemma alter_middle {A} (f : A -> A) (pre : list A) (x : A) (suf : list A) :
  alter f (length pre) (pre ++ x :: suf) = pre ++ f x :: suf.
Proof.
  rewrite <- (Nat.add_0_r (length pre)) at 1.
  by rewrite alter_app_r.
Qed.

Lemma lookup_middle' {A} (pre : list A) (x : A) (suf : list A) :
  (pre ++ x :: suf) !! length pre = Some x.
Proof. induction pre as [|y pre IH]; simpl; done. Qed.

Lemma prefixPrev_loop_snoc (pre : bytes) (b : byte) (suf : bytes) :
  prefixPrev_loop (pre ++ b :: suf) (S (length pre)) =
  if decide (b = Byte.x00)
  then prefixPrev_loop (pre ++ Byte.xff :: suf) (length pre)
  else Some (pre ++ byte_dec b :: suf).
Proof.
  simpl. rewrite alter_middle, lookup_middle'.
  destruct (decide (b = Byte.x00)) as [->|Hb].
  - rewrite decide_True by done. done.
  - rewrite decide_False; [done|].
    intros [= E]. by apply byte_dec_xff in E.
Qed.

Lemma PrefixNext_loop_snoc (pre : bytes) (b : byte) (suf : bytes) :
  PrefixNext_loop (pre ++ b :: suf) (S (length pre)) =
  if decide (b = Byte.xff)
  then PrefixNext_loop (pre ++ Byte.x00 :: suf) (length pre)
  else Some (pre ++ byte_inc b :: suf).
Proof.
  simpl. rewrite alter_middle, lookup_middle'.
  destruct (decide (b = Byte.xff)) as [->|Hb].
  - rewrite decide_True by done. done.
  - rewrite decide_False; [done|].
    intros [= E]. by apply byte_inc_x00 in E.
Qed.

Lemma prefixPrev_snoc_pos (pre : bytes) (b : byte) :
  b <> Byte.x00 -> prefixPrev (pre ++ [b]) = Some (pre ++ [byte_dec b]).
Proof.
  intros Hb. unfold prefixPrev.
  rewrite length_app. change (length [b]) with 1%nat. rewrite Nat.add_1_r.
  rewrite prefixPrev_loop_snoc. by rewrite decide_False.
Qed.

Lemma PrefixNext_snoc_small (pre : bytes) (b : byte) :
  b <> Byte.xff -> PrefixNext (pre ++ [b]) = pre ++ [byte_inc b].
Proof.
  intros Hb. unfold PrefixNext.
  rewrite length_app. change (length [b]) with 1%nat. rewrite Nat.add_1_r.
  rewrite PrefixNext_loop_snoc. by rewrite decide_False.
Qed.

Lemma prefixPrev_loop_zeros (pre suf : bytes) :
  Forall (fun b => b = Byte.x00) pre ->
  prefixPrev_loop (pre ++ suf) (length pre) = None.
Proof.
  revert suf. induction pre as [|b pre IH] using rev_ind; intros suf Hz.
  - done.
  - apply Forall_app in Hz as [Hpre Hb].
    rewrite Forall_singleton in Hb. subst b.
    rewrite length_app. change (length [Byte.x00]) with 1%nat.
    rewrite Nat.add_1_r, <- app_assoc.
    change ([Byte.x00] ++ suf) with (Byte.x00 :: suf).
    rewrite prefixPrev_loop_snoc, decide_True by done.
    by apply IH.
Qed.

(** C9. For a non-empty key whose last byte is above zero,
    [PrefixNext (prefixPrev k)] is at most [k] in byte-lexicographic
    order (also when the successor is taken by appending a zero byte);
    for a key of zero bytes only, [prefixPrev] returns the absent key. *)
Theorem prefixPrev_round_trip (k : bytes) :
  (forall b, last k = Some b -> (0 < byte_val b)%N ->
     exists p, prefixPrev k = Some p /\
               key_le (PrefixNext p) k /\ key_le (KeyNext p) k) /\
  (Forall (fun b => b = Byte.x00) k -> prefixPrev k = None).
Proof.
  split.
  - intros b Hlast Hpos.
    destruct k as [|x k'] using rev_ind; [done|]. clear IHk'.
    rewrite last_snoc in Hlast. injection Hlast as ->.
    assert (b <> Byte.x00) as Hb by (intros ->; simpl in Hpos; lia).
    exists (k' ++ [byte_dec b]). split; [by apply prefixPrev_snoc_pos|].
    split.
    + rewrite PrefixNext_snoc_small.
      * rewrite byte_inc_dec by done. apply key_le_refl.
      * intros E. by apply byte_dec_xff in E.
    + unfold KeyNext, key_le. rewrite <- app_assoc, bytes_compare_app. simpl.
      pose proof (byte_val_dec_pos b Hb) as E.
      replace (byte_val (byte_dec b) ?= byte_val b)%N with Lt; [done|].
      symmetry. apply N.compare_lt_iff. lia.
  - intros Hz. unfold prefixPrev.
    rewrite <- (app_nil_r k) at 1. by apply prefixPrev_loop_zeros.
Qed.

Lemma prefixPrev_round_trip_witness :
  (exists p, prefixPrev [Byte.x74; Byte.x02] = Some p /\
             key_le (PrefixNext p) [Byte.x74; Byte.x02] /\
             key_le (KeyNext p) [Byte.x74; Byte.x02]) /\
  prefixPrev [Byte.x00; Byte.x00] = None.
Proof.
  split.
  - apply (proj1 (prefixPrev_round_trip [Byte.x74; Byte.x02]) Byte.x02).
    + reflexivity.
    + reflexivity.
  - apply (proj2 (prefixPrev_round_trip [Byte.x00; Byte.x00])).
    repeat constructor.
Defined.

(** ** Row decoding: the precedence of [getRowData] *)

(** The precedence in the spec's words, for one declared column whose
    output offset is [offset], over the stored value vector: the handle
    for a pk-handle column (or [ExtraHandleID]), unsigned iff the flag
    is set; else a stored non-nil entry; else a non-empty default; else
    [MissColumn] for a NOT NULL column; else the NULL marker byte. *)
Definition cellBySpec (c : Codec) (handle : Z) (stored : Row) (offset : nat)
    (col : ColumnInfo) : result bytes :=
  if PkHandle col || (ColumnId col =? ExtraHandleID) then
    EncodeValue c [] (if HasUnsignedFlag (Flag col)
                      then DUint (to_uint64 handle) else DInt handle)
  else
    match stored !! offset with
    | Some (Some v) => OK v
    | _ =>
        if bool_decide (DefaultVal col <> []) then OK (DefaultVal col)
        else if HasNotNullFlag (Flag col) then Err (MissColumn (ColumnId col))
        else OK [NilFlag]
    end.

Lemma cellBySpec_ext c handle s1 s2 o col :
  s1 !! o = s2 !! o -> cellBySpec c handle s1 o col = cellBySpec c handle s2 o col.
Proof. unfold cellBySpec. by intros ->. Qed.

(** [getRowData] fills the offsets by that precedence: each mapped
    column finds its cell at its offset, and an error is the error of
    the cell of a column. *)
Definition fillsByPrecedence (c : Codec) (columns : list ColumnInfo)
    (colIDs : gmap Z nat) (handle : Z) (value : bytes) (stored : Row) : Prop :=
  match getRowData c columns colIDs handle value with
  | OK out =>
      length out = length stored /\
      forall col o, col ∈ columns -> colIDs !! ColumnId col = Some o ->
        exists cell, cellBySpec c handle stored o col = OK cell /\
                     out !! o = Some (Some cell)
  | Err e =>
      exists col o, col ∈ columns /\ colIDs !! ColumnId col = Some o /\
                    cellBySpec c handle stored o col = Err e
  end.

(** A column that is not the handle. *)
Definition plainColumn (id : Z) (flag : Z) (def : bytes) : ColumnInfo :=
  {| ColumnId := id; PkHandle := false; Flag := flag; DefaultVal := def |}.

Lemma setIndex_OK {A} (l : list A) (i : nat) (x : A) :
  (i < length l)%nat -> setIndex l i x = OK (<[i := x]> l).
Proof. intros H. unfold setIndex. by rewrite decide_True. Qed.

Lemma length_nonempty {A} (l : list A) :
  bool_decide (0 < length l)%nat = bool_decide (l <> []).
Proof.
  apply bool_decide_ext. destruct l; simpl; split; intros H; try lia; congruence.
Qed.

Lemma getRowData_fill_spec (c : Codec) (colIDs : gmap Z nat) (handle : Z)
    (columns : list ColumnInfo) :
  forall values : Row,
  (forall col, col ∈ columns ->
     exists o, colIDs !! ColumnId col = Some o /\ (o < length values)%nat) ->
  NoDup ((fun col => colIDs !! ColumnId col) <$> columns) ->
  match getRowData_fill c colIDs handle columns values with
  | OK out =>
      length out = length values /\
      (forall col o, col ∈ columns -> colIDs !! ColumnId col = Some o ->
         exists cell, cellBySpec c handle values o col = OK cell /\
                      out !! o = Some (Some cell)) /\
      (forall o, (forall col, col ∈ columns -> colIDs !! ColumnId col <> Some o) ->
         out !! o = values !! o)
  | Err e =>
      exists col o, col ∈ columns /\ colIDs !! ColumnId col = Some o /\
                    cellBySpec c handle values o col = Err e
  end.
Proof.
  induction columns as [|col cols IH]; intros values Hin Hnd.
  - simpl. split; [done|]. split; [|done].
    intros col o Hcol. by apply elem_of_nil in Hcol.
  - destruct (Hin col) as (o & Ho & Hlt); [by left|].
    rewrite fmap_cons in Hnd. apply NoDup_cons in Hnd as [Hnotin Hnd].
    assert (forall col', col' ∈ cols -> colIDs !! ColumnId col' <> Some o) as Hfresh.
    { intros col' Hcol' E. apply Hnotin. rewrite Ho, <- E.
      apply list_elem_of_fmap. by exists col'. }
    (* what the iteration does to [values], given the spec's cell *)
    assert (forall cell, cellBySpec c handle values o col = OK cell ->
      forall values', values' !! o = Some (Some cell) ->
        length values' = length values ->
        (forall o', o' <> o -> values' !! o' = values !! o') ->
      match getRowData_fill c colIDs handle cols values' with
      | OK out =>
          length out = length values /\
          (forall col0 o0, col0 ∈ col :: cols -> colIDs !! ColumnId col0 = Some o0 ->
             exists cell, cellBySpec c handle values o0 col0 = OK cell /\
                          out !! o0 = Some (Some cell)) /\
          (forall o0, (forall col0, col0 ∈ col :: cols ->
                         colIDs !! ColumnId col0 <> Some o0) ->
             out !! o0 = values !! o0)
      | Err e =>
          exists col0 o0, col0 ∈ col :: cols /\ colIDs !! ColumnId col0 = Some o0 /\
                          cellBySpec c handle values o0 col0 = Err e
      end) as Hstep.
    { intros cell Hcell values' Hv' Hlen Hother.
      specialize (IH values').
      destruct (getRowData_fill c colIDs handle cols values') as [out|e].
      - destruct IH as (Hl & Hcols & Hrest).
        { intros col' Hcol'. destruct (Hin col') as (o' & ? & ?); [by right|].
          exists o'. split; [done|]. by rewrite Hlen. }
        { done. }
        split; [congruence|]. split.
        + intros col0 o0 Hcol0 Ho0. apply elem_of_cons in Hcol0 as [->|Hcol0].
          * assert (o0 = o) as -> by congruence.
            exists cell. split; [done|].
            rewrite Hrest; [done|]. by apply Hfresh.
          * destruct (Hcols col0 o0 Hcol0 Ho0) as (cell0 & Hc0 & Hout).
            exists cell0. split; [|done].
            rewrite <- Hc0. apply cellBySpec_ext. symmetry. apply Hother.
            intros ->. by apply (Hfresh col0).
        + intros o0 Hno. rewrite Hrest.
          * apply Hother. intros ->. apply (Hno col); [by left|done].
          * intros col0 Hcol0. apply Hno. by right.
      - destruct IH as (col0 & o0 & Hcol0 & Ho0 & Hc0).
        { intros col' Hcol'. destruct (Hin col') as (o' & ? & ?); [by right|].
          exists o'. split; [done|]. by rewrite Hlen. }
        { done. }
        exists col0, o0. split; [by right|]. split; [done|].
        rewrite <- Hc0. apply cellBySpec_ext. symmetry. apply Hother.
        intros ->. by apply (Hfresh col0). }
    assert (forall x : option bytes, forall o', o' <> o ->
              <[o := x]> values !! o' = values !! o') as Hins.
    { intros x o' Hne. by apply list_lookup_insert_ne. }
    simpl. rewrite Ho. simpl.
    destruct (PkHandle col || (ColumnId col =? ExtraHandleID)) eqn:Hpk.
    + (* the handle column *)
      unfold handleDatumOf.
      destruct (EncodeValue c [] _) as [handleData|e] eqn:Henc; simpl.
      * rewrite setIndex_OK by done. simpl.
        apply (Hstep handleData).
        -- unfold cellBySpec. by rewrite Hpk.
        -- by apply list_lookup_insert_eq.
        -- by rewrite length_insert.
        -- by apply Hins.
      * exists col, o. split; [by left|]. split; [done|].
        unfold cellBySpec. by rewrite Hpk.
    + unfold hasColVal, getIndex. rewrite Ho.
      destruct (lookup_lt_is_Some_2 values o Hlt) as [d Hd]. rewrite Hd. simpl.
      destruct d as [v|].
      * (* a stored value is kept *)
        rewrite bool_decide_eq_true_2 by done.
        apply (Hstep v); [|done|done|done].
        unfold cellBySpec. by rewrite Hpk, Hd.
      * rewrite bool_decide_eq_false_2 by (intros ?; done).
        rewrite length_nonempty.
        destruct (bool_decide (DefaultVal col <> [])) eqn:Hdef.
        -- rewrite setIndex_OK by done. simpl.
           apply (Hstep (DefaultVal col)).
           ++ unfold cellBySpec. by rewrite Hpk, Hd, Hdef.
           ++ by apply list_lookup_insert_eq.
           ++ by rewrite length_insert.
           ++ by apply Hins.
        -- destruct (HasNotNullFlag (Flag col)) eqn:Hnn.
           ++ exists col, o. split; [by left|]. split; [done|].
              unfold cellBySpec. by rewrite Hpk, Hd, Hdef, Hnn.
           ++ rewrite setIndex_OK by done. simpl.
              apply (Hstep [NilFlag]).
              ** unfold cellBySpec. by rewrite Hpk, Hd, Hdef, Hnn.
              ** by apply list_lookup_insert_eq.
              ** by rewrite length_insert.
              ** by apply Hins.
Qed.

(** C3, as stated for every column list and column-id map, fails in
    three ways.  A declared column missing from the map reads offset 0
    and overwrites the stored cell of the column that owns it; of two
    columns mapped to one offset the second finds the cell of the first
    and a NOT NULL column passes without [MissColumn]; an offset past
    the end of the value vector is an index panic. *)
Lemma getRowData_needs_own_offsets :
  ~ (forall (c : Codec) (columns : list ColumnInfo) (colIDs : gmap Z nat) (handle : Z)
            (value old : bytes) (cut : option Row),
       RowToOldRow c value = OK old -> cutRowNew c old colIDs = OK cut ->
       let stored := default (replicate (size colIDs) None) cut in
       (forall col o, col ∈ columns -> colIDs !! ColumnId col = Some o ->
          (o < length stored)%nat) ->
       NoDup ((fun col => colIDs !! ColumnId col) <$> columns) ->
       fillsByPrecedence c columns colIDs handle value stored) /\
  ~ (forall (c : Codec) (columns : list ColumnInfo) (colIDs : gmap Z nat) (handle : Z)
            (value old : bytes) (cut : option Row),
       RowToOldRow c value = OK old -> cutRowNew c old colIDs = OK cut ->
       let stored := default (replicate (size colIDs) None) cut in
       (forall col, col ∈ columns ->
          exists o, colIDs !! ColumnId col = Some o /\ (o < length stored)%nat) ->
       fillsByPrecedence c columns colIDs handle value stored) /\
  ~ (forall (c : Codec) (columns : list ColumnInfo) (colIDs : gmap Z nat) (handle : Z)
            (value old : bytes) (cut : option Row),
       RowToOldRow c value = OK old -> cutRowNew c old colIDs = OK cut ->
       let stored := default (replicate (size colIDs) None) cut in
       (forall col, col ∈ columns -> is_Some (colIDs !! ColumnId col)) ->
       NoDup ((fun col => colIDs !! ColumnId col) <$> columns) ->
       fillsByPrecedence c columns colIDs handle value stored).
Proof.
  split; [|split]; intros H.
  - (* column 9 is not in the map: its default lands on the cell of column 2 *)
    specialize (H demoCodec [plainColumn 2 0 []; plainColumn 9 0 [Byte.x2a]]
                  (<[2 := 0%nat]> ∅) 7 [Byte.x05] [Byte.x05] (Some [Some [Byte.x05]])
                  eq_refl eq_refl).
    cbv zeta in H.
    assert (fillsByPrecedence demoCodec [plainColumn 2 0 []; plainColumn 9 0 [Byte.x2a]]
              (<[2 := 0%nat]> ∅) 7 [Byte.x05] [Some [Byte.x05]]) as Hp.
    { apply H.
      - intros col o Hcol Ho. simpl.
        apply elem_of_cons in Hcol as [->|Hcol].
        + vm_compute in Ho. injection Ho as <-. lia.
        + apply list_elem_of_singleton in Hcol as ->. vm_compute in Ho. discriminate Ho.
      - apply (bool_decide_unpack _). vm_compute. exact I. }
    unfold fillsByPrecedence in Hp.
    change (getRowData demoCodec [plainColumn 2 0 []; plainColumn 9 0 [Byte.x2a]]
              (<[2 := 0%nat]> ∅) 7 [Byte.x05]) with (@OK Row [Some [Byte.x2a]]) in Hp.
    destruct Hp as [_ Hp].
    destruct (Hp (plainColumn 2 0 []) 0%nat) as (cell & Hc & Ho); [by left|reflexivity|].
    vm_compute in Hc. injection Hc as <-. discriminate Ho.
  - (* columns 2 and 3 share offset 0: the NOT NULL column 3 passes *)
    specialize (H demoCodec [plainColumn 2 0 [Byte.x2a]; plainColumn 3 1 []]
                  (<[2 := 0%nat]> (<[3 := 0%nat]> ∅)) 7 [Byte.xff] [Byte.xff] (Some [None])
                  eq_refl eq_refl).
    cbv zeta in H.
    assert (fillsByPrecedence demoCodec [plainColumn 2 0 [Byte.x2a]; plainColumn 3 1 []]
              (<[2 := 0%nat]> (<[3 := 0%nat]> ∅)) 7 [Byte.xff] [None]) as Hp.
    { apply H. intros col Hcol. exists 0%nat. simpl.
      apply elem_of_cons in Hcol as [->|Hcol].
      - split; [reflexivity|lia].
      - apply list_elem_of_singleton in Hcol as ->. split; [reflexivity|lia]. }
    unfold fillsByPrecedence in Hp.
    change (getRowData demoCodec [plainColumn 2 0 [Byte.x2a]; plainColumn 3 1 []]
              (<[2 := 0%nat]> (<[3 := 0%nat]> ∅)) 7 [Byte.xff])
      with (@OK Row [Some [Byte.x2a]]) in Hp.
    destruct Hp as [_ Hp].
    destruct (Hp (plainColumn 3 1 []) 0%nat) as (cell & Hc & _);
      [right; by left|reflexivity|].
    vm_compute in Hc. discriminate Hc.
  - (* column 2 is mapped past the end of the row: an index panic *)
    specialize (H demoCodec [plainColumn 2 0 [Byte.x2a]]
                  (<[2 := 5%nat]> ∅) 7 [Byte.xff] [Byte.xff] (Some [None])
                  eq_refl eq_refl).
    cbv zeta in H.
    assert (fillsByPrecedence demoCodec [plainColumn 2 0 [Byte.x2a]]
              (<[2 := 5%nat]> ∅) 7 [Byte.xff] [None]) as Hp.
    { apply H.
      - intros col Hcol. apply list_elem_of_singleton in Hcol as ->. by eexists.
      - apply (bool_decide_unpack _). vm_compute. exact I. }
    unfold fillsByPrecedence in Hp.
    change (getRowData demoCodec [plainColumn 2 0 [Byte.x2a]]
              (<[2 := 5%nat]> ∅) 7 [Byte.xff]) with (@Err Row IndexOutOfRange) in Hp.
    destruct Hp as (col & o & Hcol & Ho & Hc).
    apply list_elem_of_singleton in Hcol as ->.
    vm_compute in Ho. injection Ho as <-. vm_compute in Hc. discriminate Hc.
Qed.

(** C3, amended. With each declared column mapped to an offset of its
    own inside the value vector, [getRowData] fills the offset of each
    column by the precedence handle / stored value / default /
    [MissColumn] / NULL marker; it fails exactly with the error of a
    column's cell. *)
Theorem getRowData_precedence (c : Codec) (columns : list ColumnInfo)
    (colIDs : gmap Z nat) (handle : Z) (value old : bytes) (cut : option Row) :
  RowToOldRow c value = OK old ->
  cutRowNew c old colIDs = OK cut ->
  let stored := default (replicate (size colIDs) None) cut in
  (forall col, col ∈ columns ->
     exists o, colIDs !! ColumnId col = Some o /\ (o < length stored)%nat) ->
  NoDup ((fun col => colIDs !! ColumnId col) <$> columns) ->
  fillsByPrecedence c columns colIDs handle value stored.
Proof.
  intros Hold Hcut stored Hin Hnd.
  unfold fillsByPrecedence, getRowData. rewrite Hold. simpl. rewrite Hcut. simpl.
  pose proof (getRowData_fill_spec c colIDs handle columns stored Hin Hnd) as H.
  replace (match cut with Some values => values
           | None => replicate (size colIDs) None end) with stored
    by (by destruct cut).
  destruct (getRowData_fill c colIDs handle columns stored) as [out|e].
  - destruct H as (Hl & Hcols & _). by split.
  - done.
Qed.

Example getRowData_demo :
  getRowData demoCodec demoColumns demoColIDs 7
    [Byte.x05; Byte.x06; Byte.xff; Byte.xff]
  = OK [Some [Byte.x08; Byte.x07]; Some [Byte.x06]; Some [Byte.x2a]; Some [NilFlag]].
Proof. reflexivity. Qed.

Lemma getRowData_precedence_witness :
  fillsByPrecedence demoCodec demoColumns demoColIDs 7
    [Byte.x05; Byte.x06; Byte.xff; Byte.xff]
    [Some [Byte.x05]; Some [Byte.x06]; None; None].
Proof.
  apply (getRowData_precedence demoCodec demoColumns demoColIDs 7
    [Byte.x05; Byte.x06; Byte.xff; Byte.xff]
    [Byte.x05; Byte.x06; Byte.xff; Byte.xff]
    (Some [Some [Byte.x05]; Some [Byte.x06]; None; None])
    eq_refl eq_refl).
  - intros col Hcol. unfold demoColumns in Hcol.
    repeat (apply elem_of_cons in Hcol as [->|Hcol]);
      [exists 0%nat|exists 1%nat|exists 2%nat|exists 3%nat|by apply elem_of_nil in Hcol];
      (split; [reflexivity|simpl; lia]).
  - apply (bool_decide_unpack _). vm_compute. exact I.
Defined.

(** ** Index decoding *)

Lemma cutSegments_length (c : Codec) (n : nat) :
  forall b vals rest, cutSegments c n b = OK (vals, rest) -> length vals = n.
Proof.
  induction n as [|n IH]; intros b vals rest H; simpl in H.
  - by injection H as <- _.
  - destruct (CutOne c b) as [[val b']|e]; simpl in H; [|done].
    destruct (cutSegments c n b') as [[vals' rest']|e] eqn:E; simpl in H; [|done].
    injection H as <- _. simpl. f_equal. by eapply IH.
Qed.

(** The handle the claim reads: the big-endian integer of the last 8
    bytes of the stored value. *)
Definition handleOfTrailingBytes (value : bytes) : Z :=
  to_int64 (be_uint (drop (length value - 8) value)).

(** The handle [decodeHandle] reads: the first 8 bytes. *)
Definition handleOfLeadingBytes (value : bytes) : Z :=
  to_int64 (be_uint (take 8 value)).

Definition handleDatumOfStatus (pkStatus : Z) (handle : Z) : Datum :=
  if bool_decide (pkStatus = pkColIsUnsigned)
  then DUint (to_uint64 handle) else DInt handle.

(** C8, as stated, fails: on a 9-byte value the handle comes from the
    first 8 bytes, not from the last 8. *)
Lemma decodeIndexKV_not_trailing_bytes :
  ~ (forall (c : Codec) (colsLen : nat) (pkStatus : Z) (key value : bytes)
            (vals : list bytes) (handleBytes : bytes),
       cutIndexKeyNew c key colsLen = OK (vals, []) ->
       pkStatus <> pkColNotExists ->
       EncodeValue c []
         (handleDatumOfStatus pkStatus (handleOfTrailingBytes value)) = OK handleBytes ->
       decodeIndexKV c colsLen pkStatus key value
       = OK ((Some <$> vals) ++ [Some handleBytes])).
Proof.
  intros H.
  specialize (H demoCodec 1%nat pkColIsSigned [Byte.x69; Byte.x05]
    [Byte.x00; Byte.x00; Byte.x00; Byte.x00; Byte.x00; Byte.x00; Byte.x00;
     Byte.x01; Byte.x02]
    [[Byte.x05]] [Byte.x08; Byte.x02] eq_refl).
  assert (pkColIsSigned <> pkColNotExists) as Hne by (vm_compute; discriminate).
  specialize (H Hne eq_refl).
  vm_compute in H. discriminate H.
Qed.

Example decodeIndexKV_nine_bytes :
  decodeIndexKV demoCodec 1 pkColIsSigned [Byte.x69; Byte.x05]
    [Byte.x00; Byte.x00; Byte.x00; Byte.x00; Byte.x00; Byte.x00; Byte.x00;
     Byte.x01; Byte.x02]
  = OK [Some [Byte.x05]; Some [Byte.x08; Byte.x01]].
Proof. reflexivity. Qed.

Lemma decodeHandle_leading (value : bytes) :
  (8 <= length value)%nat -> decodeHandle value = OK (handleOfLeadingBytes value).
Proof.
  intros H. unfold decodeHandle.
  rewrite decide_False by lia. by rewrite decide_False by lia.
Qed.

Lemma decodeHandle_short (value : bytes) :
  (length value < 8)%nat ->
  decodeHandle value = Err (if decide (length value = 0)%nat then EOF else UnexpectedEOF).
Proof.
  intros H. unfold decodeHandle.
  destruct (decide (length value = 0)%nat); [done|].
  by rewrite decide_True by lia.
Qed.

(** C8, amended. [decodeIndexKV] slices the key into [colsLen] column
    segments.  Without a pk column the output is these segments; with
    one, a non-empty remainder is appended as it is; with an empty
    remainder the handle is the big-endian 64-bit integer of the
    leading 8 bytes of the stored value (the whole value when it is 8
    bytes long), appended as a datum that is unsigned iff [pkStatus] is
    [pkColIsUnsigned]; a shorter value is an error.  The output width
    is [colsLen], or [colsLen + 1] with a pk column. *)
Theorem decodeIndexKV_spec (c : Codec) (colsLen : nat) (pkStatus : Z)
    (key value : bytes) (vals : list bytes) (b : bytes) :
  cutIndexKeyNew c key colsLen = OK (vals, b) ->
  length vals = colsLen /\
  (pkStatus = pkColNotExists ->
     decodeIndexKV c colsLen pkStatus key value = OK (Some <$> vals)) /\
  (pkStatus <> pkColNotExists -> b <> [] ->
     decodeIndexKV c colsLen pkStatus key value = OK ((Some <$> vals) ++ [Some b])) /\
  (pkStatus <> pkColNotExists -> b = [] -> (8 <= length value)%nat ->
     decodeIndexKV c colsLen pkStatus key value =
     (handleBytes ← EncodeValue c []
        (handleDatumOfStatus pkStatus (handleOfLeadingBytes value));
      OK ((Some <$> vals) ++ [Some handleBytes])) /\
     (length value = 8%nat ->
        handleOfLeadingBytes value = handleOfTrailingBytes value)) /\
  (pkStatus <> pkColNotExists -> b = [] -> (length value < 8)%nat ->
     decodeIndexKV c colsLen pkStatus key value =
     Err (if decide (length value = 0)%nat then EOF else UnexpectedEOF)) /\
  (forall out, decodeIndexKV c colsLen pkStatus key value = OK out ->
     length out = if bool_decide (pkStatus = pkColNotExists)
                  then colsLen else S colsLen).
Proof.
  intros Hcut.
  assert (length vals = colsLen) as Hlen
    by (unfold cutIndexKeyNew in Hcut; by eapply cutSegments_length).
  unfold decodeIndexKV. rewrite Hcut. simpl.
  rewrite length_nonempty.
  split; [done|]. split; [|split; [|split; [|split]]].
  - intros ->. rewrite (bool_decide_eq_false_2 (pkColNotExists <> _)) by (intros H; by apply H).
    by destruct (bool_decide (b <> [])).
  - intros Hpk Hb. by rewrite !bool_decide_eq_true_2.
  - intros Hpk -> Hv. split.
    + rewrite bool_decide_eq_false_2 by (intros H; by apply H).
      rewrite bool_decide_eq_true_2 by done.
      rewrite decodeHandle_leading by done. simpl.
      unfold handleDatumOfStatus.
      by destruct (EncodeValue c [] _).
    + intros E. unfold handleOfLeadingBytes, handleOfTrailingBytes.
      rewrite E, Nat.sub_diag, drop_0. by rewrite take_ge by lia.
  - intros Hpk -> Hv.
    rewrite bool_decide_eq_false_2 by (intros H; by apply H).
    rewrite bool_decide_eq_true_2 by done.
    by rewrite decodeHandle_short.
  - intros out Hout.
    destruct (bool_decide (b <> [])); destruct (bool_decide (pkStatus <> pkColNotExists)) eqn:Hpk.
    + apply bool_decide_eq_true_1 in Hpk.
      rewrite bool_decide_eq_false_2 by done.
      injection Hout as <-. rewrite length_app, length_fmap, Hlen. simpl. lia.
    + apply bool_decide_eq_false_1 in Hpk.
      rewrite bool_decide_eq_true_2 by (destruct (decide (pkStatus = pkColNotExists)); [done|by exfalso; apply Hpk]).
      injection Hout as <-. by rewrite length_fmap.
    + apply bool_decide_eq_true_1 in Hpk.
      rewrite bool_decide_eq_false_2 by done.
      destruct (decodeHandle value); simpl in Hout; [|done].
      destruct (EncodeValue c b _); simpl in Hout; [|done].
      injection Hout as <-. rewrite length_app, length_fmap, Hlen. simpl. lia.
    + apply bool_decide_eq_false_1 in Hpk.
      rewrite bool_decide_eq_true_2 by (destruct (decide (pkStatus = pkColNotExists)); [done|by exfalso; apply Hpk]).
      injection Hout as <-. by rewrite length_fmap.
Qed.

Lemma decodeIndexKV_spec_witness :
  decodeIndexKV demoCodec 1 pkColIsSigned [Byte.x69; Byte.x05]
    [Byte.x00; Byte.x00; Byte.x00; Byte.x00; Byte.x00; Byte.x00; Byte.x00; Byte.x2a]
  = OK [Some [Byte.x05]; Some [Byte.x08; Byte.x2a]].
Proof.
  destruct (decodeIndexKV_spec demoCodec 1 pkColIsSigned [Byte.x69; Byte.x05]
    [Byte.x00; Byte.x00; Byte.x00; Byte.x00; Byte.x00; Byte.x00; Byte.x00; Byte.x2a]
    [[Byte.x05]] [] eq_refl) as (_ & _ & _ & H & _).
  destruct H as [H _].
  - discriminate.
  - reflexivity.
  - simpl. lia.
  - rewrite H. reflexivity.
Defined.

(** ** Selection *)

(** A condition passes on a datum row: it evaluates to a non-NULL value
    that coerces to a nonzero boolean. *)
Definition condPasses (ctx : evalContext) (chk : list Datum) (expr : Expression) : Prop :=
  exists d z, Eval expr chk = OK d /\ IsNull d = false /\
              ToBool ctx d = OK z /\ z <> 0.

(** A condition rejects: it yields NULL, or a value that coerces to zero. *)
Definition condRejects (ctx : evalContext) (chk : list Datum) (expr : Expression) : Prop :=
  exists d, Eval expr chk = OK d /\
            (IsNull d = true \/ (IsNull d = false /\ ToBool ctx d = OK 0)).

Lemma condPasses_not_rejects ctx chk expr :
  condPasses ctx chk expr -> ~ condRejects ctx chk expr.
Proof.
  intros (d & z & Hd & Hn & Hz & Hnz) (d' & Hd' & Hr).
  assert (d' = d) as -> by congruence.
  destruct Hr as [Hr|[_ Hr]]; congruence.
Qed.

Lemma evalBool_loop_true_iff ctx conds chk :
  selection.evalBool_loop ctx conds chk = OK true <-> Forall (condPasses ctx chk) conds.
Proof.
  induction conds as [|expr conds IH]; simpl.
  - split; [constructor|done].
  - split.
    + intros H. destruct (Eval expr chk) as [d|] eqn:Hd; simpl in H; [|done].
      destruct (IsNull d) eqn:Hn; [done|].
      destruct (ToBool ctx d) as [z|] eqn:Hz; simpl in H; [|done].
      destruct (z =? 0) eqn:Hz0; [done|].
      constructor; [|by apply IH].
      exists d, z. repeat split; try done. by apply Z.eqb_neq.
    + intros H. apply Forall_cons in H as [(d & z & Hd & Hn & Hz & Hnz) H].
      rewrite Hd. simpl. rewrite Hn, Hz. simpl.
      apply Z.eqb_neq in Hnz. rewrite Hnz. by apply IH.
Qed.

Lemma evalBool_loop_false_iff ctx conds chk :
  selection.evalBool_loop ctx conds chk = OK false <->
  exists pre expr post, conds = pre ++ expr :: post /\
    Forall (condPasses ctx chk) pre /\ condRejects ctx chk expr.
Proof.
  induction conds as [|expr conds IH]; simpl.
  - split; [done|]. intros (pre & expr & post & E & _). by destruct pre.
  - split.
    + intros H. destruct (Eval expr chk) as [d|] eqn:Hd; simpl in H; [|done].
      destruct (IsNull d) eqn:Hn.
      { exists [], expr, conds. split; [done|]. split; [constructor|].
        exists d. split; [done|]. by left. }
      destruct (ToBool ctx d) as [z|] eqn:Hz; simpl in H; [|done].
      destruct (z =? 0) eqn:Hz0.
      { apply Z.eqb_eq in Hz0. subst z.
        exists [], expr, conds. split; [done|]. split; [constructor|].
        exists d. split; [done|]. by right. }
      apply IH in H as (pre & expr' & post & -> & Hpre & Hrej).
      exists (expr :: pre), expr', post. split; [done|]. split; [|done].
      constructor; [|done]. exists d, z. repeat split; try done. by apply Z.eqb_neq.
    + intros (pre & expr' & post & E & Hpre & Hrej).
      destruct pre as [|expr0 pre]; simpl in E; injection E as <- ->.
      * destruct Hrej as (d & Hd & Hr). rewrite Hd. simpl.
        destruct Hr as [Hn|[Hn Hz]]; rewrite Hn; [done|].
        by rewrite Hz.
      * apply Forall_cons in Hpre as [(d & z & Hd & Hn & Hz & Hnz) Hpre].
        rewrite Hd. simpl. rewrite Hn, Hz. simpl.
        apply Z.eqb_neq in Hnz. rewrite Hnz.
        apply IH. by exists pre, expr', post.
Qed.

Section SelectionFacts.
Context {Src : Type} (next : srcExec Src).

(** The state after a pulled row [v] was decoded to the datum row [r]
    and the conditions were evaluated on it. *)
Definition afterEval (e : selection.exec Src) (s' : Src) (r : list Datum)
    : selection.exec Src :=
  selection.set_chkRow (Some r) (selection.set_row r (selection.set_src s' e)).

Lemma selection_Next_pull (fuel : nat) (e : selection.exec Src) (v : Row)
    (s' : Src) (r : list Datum) :
  next (selection.src e) = (OK (Some v), s') ->
  decodeRelatedColumnVals (selection.evalCtx e) (selection.relatedColOffsets e) v
    (selection.row e) = (OK tt, r) ->
  selection.Next next (S fuel) e =
  match selection.evalBool_loop (selection.evalCtx e) (selection.conditions e) r with
  | Err er => Some (Err er, afterEval e s' r)
  | OK true => Some (OK (Some v), afterEval e s' r)
  | OK false => selection.Next next fuel (afterEval e s' r)
  end.
Proof.
  intros Hnext Hdec. unfold selection.Next. simpl. rewrite Hnext. simpl.
  rewrite Hdec. simpl.
  unfold selection.evalBool, afterEval, mbind, ST_bind, st_bind, st_modify,
    st_get, st_lift. simpl.
  by destruct (selection.evalBool_loop _ _ r) as [[|]|].
Qed.

Lemma selection_Next_sound (fuel : nat) :
  forall (e e' : selection.exec Src) (v : Row),
  selection.Next next fuel e = Some (OK (Some v), e') ->
  Forall (condPasses (selection.evalCtx e') (selection.row e'))
         (selection.conditions e') /\
  exists s r0,
    next s = (OK (Some v), selection.src e') /\
    decodeRelatedColumnVals (selection.evalCtx e') (selection.relatedColOffsets e')
      v r0 = (OK tt, selection.row e').
Proof.
  induction fuel as [|fuel IH]; intros e e' v H; [done|].
  unfold selection.Next in H. simpl in H.
  destruct (next (selection.src e)) as [[[v0|]|er] s'] eqn:Hnext;
    [|by injection H|by injection H].
  simpl in H.
  destruct (decodeRelatedColumnVals _ _ v0 _) as [[[]|er] r] eqn:Hdec;
    simpl in H; [|by injection H].
  unfold selection.evalBool, mbind, ST_bind, st_bind, st_modify, st_get,
    st_lift in H. simpl in H.
  destruct (selection.evalBool_loop _ _ r) as [[|]|er] eqn:Hev.
  - injection H as <- <-. simpl. split.
    + by apply evalBool_loop_true_iff.
    + by exists (selection.src e), (selection.row e).
  - by apply IH in H.
  - by injection H.
Qed.

(** C4. When the source yields a row that decodes to the datum row
    [r]: if every condition evaluates on [r] to a non-NULL value that
    coerces to a nonzero boolean, [Next] returns the row unchanged; if
    some condition yields NULL or coerces to zero (those before it
    passing), [Next] drops the row and goes on with the next source
    row.  And whatever [Next] emits is a source row, unchanged, on
    whose datum row every condition passes and none rejects. *)
Theorem selection_emits_iff_conditions_pass (fuel : nat) (e : selection.exec Src) :
  (forall (v : Row) (s' : Src) (r : list Datum),
     next (selection.src e) = (OK (Some v), s') ->
     decodeRelatedColumnVals (selection.evalCtx e) (selection.relatedColOffsets e) v
       (selection.row e) = (OK tt, r) ->
     (Forall (condPasses (selection.evalCtx e) r) (selection.conditions e) <->
      selection.evalBool_loop (selection.evalCtx e) (selection.conditions e) r
        = OK true) /\
     (Forall (condPasses (selection.evalCtx e) r) (selection.conditions e) ->
      selection.Next next (S fuel) e = Some (OK (Some v), afterEval e s' r)) /\
     ((exists pre expr post,
         selection.conditions e = pre ++ expr :: post /\
         Forall (condPasses (selection.evalCtx e) r) pre /\
         condRejects (selection.evalCtx e) r expr) ->
      selection.Next next (S fuel) e = selection.Next next fuel (afterEval e s' r))) /\
  (forall (v : Row) (e' : selection.exec Src),
     selection.Next next fuel e = Some (OK (Some v), e') ->
     Forall (fun expr =>
               condPasses (selection.evalCtx e') (selection.row e') expr /\
               ~ condRejects (selection.evalCtx e') (selection.row e') expr)
            (selection.conditions e') /\
     exists s r0,
       next s = (OK (Some v), selection.src e') /\
       decodeRelatedColumnVals (selection.evalCtx e') (selection.relatedColOffsets e')
         v r0 = (OK tt, selection.row e')).
Proof.
  split.
  - intros v s' r Hnext Hdec.
    pose proof (selection_Next_pull fuel e v s' r Hnext Hdec) as Hpull.
    split; [symmetry; apply evalBool_loop_true_iff|]. split.
    + intros Hall. apply evalBool_loop_true_iff in Hall. by rewrite Hpull, Hall.
    + intros Hrej. apply evalBool_loop_false_iff in Hrej. by rewrite Hpull, Hrej.
  - intros v e' H. apply selection_Next_sound in H as [Hall Hsrc].
    split; [|done].
    eapply Forall_impl; [exact Hall|].
    intros expr Hp. split; [done|]. by apply condPasses_not_rejects.
Qed.
End SelectionFacts.

Example selection_demo :
  selection.Next listSrc 3
    (demoSelection [[Some [Byte.x01]; Some [NilFlag]];
                    [Some [Byte.x01]; Some [Byte.x00; Byte.x00]];
                    [Some [Byte.x02]; Some [Byte.x03]]])
  = Some (OK (Some [Some [Byte.x02]; Some [Byte.x03]]),
          selection.mk [colExpr 0; colExpr 1] [0%nat; 1%nat] [DInt 2; DInt 3]
            (Some [DInt 2; DInt 3]) demoEvalCtx []).
Proof. reflexivity. Qed.

Lemma selection_emits_iff_conditions_pass_witness :
  selection.Next listSrc 1 (demoSelection [[Some [Byte.x02]; Some [Byte.x03]]])
  = Some (OK (Some [Some [Byte.x02]; Some [Byte.x03]]),
          afterEval (demoSelection [[Some [Byte.x02]; Some [Byte.x03]]]) []
            [DInt 2; DInt 3]).
Proof.
  destruct (selection_emits_iff_conditions_pass listSrc 0
              (demoSelection [[Some [Byte.x02]; Some [Byte.x03]]])) as [H _].
  destruct (H [Some [Byte.x02]; Some [Byte.x03]] [] [DInt 2; DInt 3]
              eq_refl eq_refl) as (_ & Hemit & _).
  apply Hemit.
  repeat constructor.
  - exists (DInt 2), 1. repeat split; done.
  - exists (DInt 3), 1. repeat split; done.
Defined.

(** ** Reasoning on the state-and-error monad *)

(** [m] relates every state it is run in to the state it leaves. *)
Definition preserves {S A} (R : S -> S -> Prop) (m : ST S A) : Prop :=
  forall s r s', m s = (r, s') -> R s s'.

Section Preserves.
Context {S : Type} (R : S -> S -> Prop).
Context (R_refl : forall s, R s s).
Context (R_trans : forall s1 s2 s3, R s1 s2 -> R s2 s3 -> R s1 s3).

Lemma preserves_ret {A} (a : A) : preserves R (mret a : ST S A).
Proof. intros s r s' [= _ <-]. apply R_refl. Qed.

Lemma preserves_fail {A} (e : error) : preserves R (st_fail e : ST S A).
Proof. intros s r s' [= _ <-]. apply R_refl. Qed.

Lemma preserves_lift {A} (x : result A) : preserves R (st_lift x : ST S A).
Proof. intros s r s' [= _ <-]. apply R_refl. Qed.

Lemma preserves_get : preserves R (st_get : ST S S).
Proof. intros s r s' [= _ <-]. apply R_refl. Qed.

Lemma preserves_modify (f : S -> S) :
  (forall s, R s (f s)) -> preserves R (st_modify f).
Proof. intros Hf s r s' [= _ <-]. apply Hf. Qed.

Lemma preserves_bind {A B} (m : ST S A) (k : A -> ST S B) :
  preserves R m -> (forall a, preserves R (k a)) -> preserves R (m ≫= k).
Proof.
  intros Hm Hk s r s' H.
  unfold mbind, ST_bind, st_bind in H.
  destruct (m s) as [[a|e] s1] eqn:E.
  - eapply R_trans; [by eapply Hm|by eapply Hk].
  - injection H as _ <-. by eapply Hm.
Qed.

Lemma preserves_catch {A} (m : ST S A) :
  preserves R m -> preserves R (st_catch m).
Proof.
  intros Hm s r s' H. unfold st_catch in H.
  destruct (m s) as [r0 s1] eqn:E. injection H as _ <-. by eapply Hm.
Qed.
End Preserves.

(** Inversion of a bind. *)
Lemma st_bind_inv {S A B} (m : ST S A) (k : A -> ST S B) s r s' :
  (m ≫= k) s = (r, s') ->
  (exists a s1, m s = (OK a, s1) /\ k a s1 = (r, s')) \/
  (exists e, m s = (Err e, s') /\ r = Err e).
Proof.
  unfold mbind, ST_bind, st_bind. destruct (m s) as [[a|e] s1].
  - intros H. left. by exists a, s1.
  - intros [= <- <-]. right. by exists e.
Qed.

Ltac st_simpl :=
  unfold mbind, mret, ST_bind, ST_ret, st_bind, st_ret, st_modify, st_get,
    st_lift, st_fail, st_catch in *; simpl in *.

(** ** Table scan: what [Next] leaves untouched *)

Definition isReaderCall (x : StoreCall) : Prop :=
  match x with CallCheckRangeLock _ _ _ => False | _ => True end.

(** Everything but the cursors, the buffer and the seek key is the
    same, and the store was only called through the reader. *)
Definition ts_frame (e e' : tableScan.exec) : Prop :=
  tableScan.Desc e' = tableScan.Desc e /\
  tableScan.Columns e' = tableScan.Columns e /\
  tableScan.colIDs e' = tableScan.colIDs e /\
  tableScan.kvRanges e' = tableScan.kvRanges e /\
  tableScan.startTS e' = tableScan.startTS e /\
  tableScan.mvccStore e' = tableScan.mvccStore e /\
  tableScan.reqCtx e' = tableScan.reqCtx e /\
  tableScan.start e' = tableScan.start e /\
  tableScan.counts e' = tableScan.counts e /\
  tableScan.ignoreLock e' = tableScan.ignoreLock e /\
  tableScan.lockChecked e' = tableScan.lockChecked e /\
  exists rest, tableScan.calls e' = tableScan.calls e ++ rest /\
               Forall isReaderCall rest.

Lemma ts_frame_refl e : ts_frame e e.
Proof.
  unfold ts_frame. repeat split; try done.
  exists []. by rewrite app_nil_r.
Qed.

Lemma ts_frame_trans e1 e2 e3 : ts_frame e1 e2 -> ts_frame e2 e3 -> ts_frame e1 e3.
Proof.
  unfold ts_frame.
  intros (?&?&?&?&?&?&?&?&?&?&?& r1 & Hr1 & Hf1) (?&?&?&?&?&?&?&?&?&?&?& r2 & Hr2 & Hf2).
  repeat split; try congruence.
  exists (r1 ++ r2). split.
  - by rewrite Hr2, Hr1, app_assoc.
  - by apply Forall_app.
Qed.

Definition ts_frame2 (s s' : option bytes * tableScan.exec) : Prop :=
  ts_frame s.2 s'.2.

Lemma ts_frame2_refl s : ts_frame2 s s.
Proof. apply ts_frame_refl. Qed.

Lemma ts_frame2_trans s1 s2 s3 : ts_frame2 s1 s2 -> ts_frame2 s2 s3 -> ts_frame2 s1 s3.
Proof. apply ts_frame_trans. Qed.

Create HintDb frame discriminated.
#[export] Hint Resolve ts_frame_refl ts_frame2_refl ts_frame_trans ts_frame2_trans : frame.

Lemma ts_frame_set_rangeCursor x e : ts_frame e (tableScan.set_rangeCursor x e).
Proof. repeat split; try done. exists []. by rewrite app_nil_r. Qed.
Lemma ts_frame_set_rowCursor x e : ts_frame e (tableScan.set_rowCursor x e).
Proof. repeat split; try done. exists []. by rewrite app_nil_r. Qed.
Lemma ts_frame_set_rows x e : ts_frame e (tableScan.set_rows x e).
Proof. repeat split; try done. exists []. by rewrite app_nil_r. Qed.
Lemma ts_frame_set_seekKey x e : ts_frame e (tableScan.set_seekKey x e).
Proof. repeat split; try done. exists []. by rewrite app_nil_r. Qed.
Lemma ts_frame_log x e : isReaderCall x -> ts_frame e (tableScan.log x e).
Proof.
  intros Hx. repeat split; try done. exists [x]. split; [done|]. by constructor.
Qed.

Lemma ts_preserves_set_rowCursor x :
  preserves ts_frame (st_modify (tableScan.set_rowCursor x)).
Proof. apply preserves_modify. intros e. apply ts_frame_set_rowCursor. Qed.

Lemma ts_preserves_set_rows f :
  preserves ts_frame (st_modify (fun e => tableScan.set_rows (f e) e)).
Proof. apply preserves_modify. intros e. apply ts_frame_set_rows. Qed.

Lemma ts_preserves_set_seekKey x :
  preserves ts_frame (st_modify (tableScan.set_seekKey x)).
Proof. apply preserves_modify. intros e. apply ts_frame_set_seekKey. Qed.

Lemma ts_preserves_log x :
  isReaderCall x -> preserves ts_frame (st_modify (tableScan.log x)).
Proof. intros H. apply preserves_modify. intros e. by apply ts_frame_log. Qed.

Lemma ts_preserves_nextRange : preserves ts_frame tableScan.nextRange.
Proof.
  apply preserves_modify. intros e.
  eapply ts_frame_trans; [apply ts_frame_set_rangeCursor|apply ts_frame_set_seekKey].
Qed.

Lemma ts_preserves_fillRowsFromPoint c ran :
  preserves ts_frame (tableScan.fillRowsFromPoint c ran).
Proof.
  unfold tableScan.fillRowsFromPoint.
  apply preserves_bind; [eauto with frame|apply preserves_get; auto with frame|intros e].
  apply preserves_bind; [eauto with frame|by apply ts_preserves_log|intros _].
  apply preserves_bind; [eauto with frame|apply preserves_lift; auto with frame|intros val].
  destruct (decide _); [apply preserves_ret; auto with frame|].
  apply preserves_bind; [eauto with frame|apply preserves_lift; auto with frame|intros h].
  apply preserves_bind; [eauto with frame|apply preserves_lift; auto with frame|intros r].
  apply (ts_preserves_set_rows (fun e => tableScan.rows e ++ [r])).
Qed.

Lemma ts_preserves_scanFunc c key value :
  preserves ts_frame2 (tableScan.scanFunc c key value).
Proof.
  unfold tableScan.scanFunc.
  apply preserves_bind; [eauto with frame| |intros _].
  { apply preserves_modify. intros s. apply ts_frame_refl. }
  apply preserves_bind; [eauto with frame|apply preserves_lift; auto with frame|intros h].
  apply preserves_bind; [eauto with frame|apply preserves_get; auto with frame|intros s].
  apply preserves_bind; [eauto with frame|apply preserves_lift; auto with frame|intros r].
  apply preserves_modify. intros s0. apply ts_frame_set_rows.
Qed.

Lemma preserves_scanVisit {S} (R : S -> S -> Prop) fn limit pairs :
  (forall s, R s s) -> (forall s1 s2 s3, R s1 s2 -> R s2 s3 -> R s1 s3) ->
  (forall k v, preserves R (fn k v)) ->
  preserves R (scanVisit fn limit pairs).
Proof.
  intros Hrefl Htrans Hfn. revert pairs.
  induction limit as [|n IH]; intros pairs.
  - destruct pairs; by apply preserves_ret.
  - destruct pairs as [|[k v] ps]; [by apply preserves_ret|].
    simpl. apply (preserves_bind R Htrans (fn k v)); [apply Hfn|intros _; apply IH].
Qed.

Lemma ts_preserves_withLastKey {A} (m : ST (option bytes * tableScan.exec) A) :
  preserves ts_frame2 m -> preserves ts_frame (tableScan.withLastKey m).
Proof.
  intros Hm e r e' H. unfold tableScan.withLastKey in H.
  destruct (m (None, e)) as [[a|er] [lk e1]] eqn:E; injection H as _ <-;
    apply (Hm _ _ _ E).
Qed.

Lemma ts_preserves_fillRowsFromRange c ran :
  preserves ts_frame (tableScan.fillRowsFromRange c ran).
Proof.
  unfold tableScan.fillRowsFromRange.
  apply preserves_bind; [eauto with frame|apply preserves_get; auto with frame|intros e].
  apply preserves_bind; [eauto with frame| |intros _].
  { destruct (bool_decide _); [|apply preserves_ret; auto with frame].
    destruct (tableScan.Desc e); apply ts_preserves_set_seekKey. }
  apply preserves_bind; [eauto with frame|apply preserves_get; auto with frame|intros e1].
  apply preserves_bind; [eauto with frame| |intros [[] lastKey]].
  { destruct (tableScan.Desc e1).
    - apply preserves_bind; [eauto with frame|by apply ts_preserves_log|intros _].
      apply ts_preserves_withLastKey. unfold ReverseScan.
      apply preserves_scanVisit;
        [apply ts_frame2_refl|apply ts_frame2_trans|apply ts_preserves_scanFunc].
    - apply preserves_bind; [eauto with frame|by apply ts_preserves_log|intros _].
      apply ts_preserves_withLastKey. unfold Scan.
      apply preserves_scanVisit;
        [apply ts_frame2_refl|apply ts_frame2_trans|apply ts_preserves_scanFunc]. }
  destruct lastKey; [|apply preserves_ret; auto with frame].
  destruct (tableScan.Desc e1); apply ts_preserves_set_seekKey.
Qed.

Lemma ts_preserves_fillRows_loop c fuel :
  preserves ts_frame (tableScan.fillRows_loop c fuel).
Proof.
  induction fuel as [|fuel IH]; [apply preserves_ret; auto with frame|].
  simpl.
  apply preserves_bind; [eauto with frame|apply preserves_get; auto with frame|intros e].
  destruct (_ !! _) as [ran|]; [|apply preserves_ret; auto with frame].
  apply preserves_bind; [eauto with frame| |intros err].
  { destruct (IsPoint ran).
    - apply preserves_bind; [eauto with frame| |intros err].
      { apply preserves_catch, ts_preserves_fillRowsFromPoint. }
      apply preserves_bind; [eauto with frame|apply ts_preserves_nextRange|intros _].
      apply preserves_ret; auto with frame.
    - apply preserves_bind; [eauto with frame| |intros err].
      { apply preserves_catch, ts_preserves_fillRowsFromRange. }
      apply preserves_bind; [eauto with frame|apply preserves_get; auto with frame|intros e1].
      apply preserves_bind; [eauto with frame| |intros _].
      { destruct (bool_decide _); [apply ts_preserves_nextRange|apply preserves_ret; auto with frame]. }
      apply preserves_ret; auto with frame. }
  destruct err; [|apply preserves_fail; auto with frame].
  apply preserves_bind; [eauto with frame|apply preserves_get; auto with frame|intros e1].
  destruct (bool_decide _); [apply preserves_ret; auto with frame|apply IH].
Qed.

Lemma ts_preserves_Next_loop c fuel :
  preserves ts_frame (tableScan.Next_loop c fuel).
Proof.
  induction fuel as [|fuel IH]; [apply preserves_ret; auto with frame|].
  simpl.
  apply preserves_bind; [eauto with frame| |intros value].
  { unfold tableScan.getOneRow.
    apply preserves_bind; [eauto with frame|apply preserves_get; auto with frame|intros e].
    destruct (_ !! _); [|apply preserves_ret; auto with frame].
    apply preserves_bind; [eauto with frame|apply ts_preserves_set_rowCursor|intros _].
    apply preserves_ret; auto with frame. }
  destruct value; [apply preserves_ret; auto with frame|].
  apply preserves_bind; [eauto with frame| |intros _].
  { unfold tableScan.refill.
    apply preserves_bind; [eauto with frame|apply ts_preserves_set_rowCursor|intros _].
    apply preserves_bind; [eauto with frame| |intros _].
    { apply (ts_preserves_set_rows (fun _ => [])). }
    unfold tableScan.fillRows.
    apply preserves_bind; [eauto with frame|apply preserves_get; auto with frame|intros e].
    apply ts_preserves_fillRows_loop. }
  apply preserves_bind; [eauto with frame|apply preserves_get; auto with frame|intros e].
  destruct (bool_decide _); [apply preserves_ret; auto with frame|apply IH].
Qed.

(** No store call at all. *)
Definition ts_quiet (e e' : tableScan.exec) : Prop :=
  ts_frame e e' /\ tableScan.calls e' = tableScan.calls e.

Definition ts_quiet2 (s s' : option bytes * tableScan.exec) : Prop :=
  ts_quiet s.2 s'.2.

Lemma ts_quiet_refl e : ts_quiet e e.
Proof. split; [apply ts_frame_refl|done]. Qed.

Lemma ts_quiet_trans e1 e2 e3 : ts_quiet e1 e2 -> ts_quiet e2 e3 -> ts_quiet e1 e3.
Proof.
  intros [F1 C1] [F2 C2]. split; [by eapply ts_frame_trans|congruence].
Qed.

Lemma ts_quiet_scanFunc c key value :
  preserves ts_quiet2 (tableScan.scanFunc c key value).
Proof.
  intros [lk e] r [lk' e'] H. unfold tableScan.scanFunc in H. st_simpl.
  destruct (decodeRowKey c key) as [h|er]; simpl in H.
  - destruct (getRowData c _ _ h _) as [row|er]; simpl in H;
      injection H as _ _ <-; split; simpl; try done; try apply ts_frame_refl.
    apply ts_frame_set_rows.
  - injection H as _ _ <-. apply ts_quiet_refl.
Qed.

Lemma ts_quiet_scanVisit c limit pairs :
  preserves ts_quiet2 (scanVisit (tableScan.scanFunc c) limit pairs).
Proof.
  apply preserves_scanVisit.
  - intros s. apply ts_quiet_refl.
  - intros s1 s2 s3. apply ts_quiet_trans.
  - apply ts_quiet_scanFunc.
Qed.

Lemma ts_quiet_withLastKey {A} (m : ST (option bytes * tableScan.exec) A) :
  preserves ts_quiet2 m -> preserves ts_quiet (tableScan.withLastKey m).
Proof.
  intros Hm e r e' H. unfold tableScan.withLastKey in H.
  destruct (m (None, e)) as [[a|er] [lk e1]] eqn:E; injection H as _ <-;
    apply (Hm _ _ _ E).
Qed.

(** The point path makes one call: the [Get] of the start key. *)
Lemma ts_fillRowsFromPoint_calls c ran e r e' :
  tableScan.fillRowsFromPoint c ran e = (r, e') ->
  tableScan.calls e' =
    tableScan.calls e ++ [CallGet (StartKey ran) (tableScan.startTS e)].
Proof.
  unfold tableScan.fillRowsFromPoint. st_simpl. intros H.
  destruct (Get _ _ _) as [val|er]; simpl in H; [|by injection H as _ <-].
  destruct (decide _); [by injection H as _ <-|].
  destruct (decodeRowKey c _) as [h|er]; simpl in H; [|by injection H as _ <-].
  destruct (getRowData c _ _ h val) as [row|er]; simpl in H; by injection H as _ <-.
Qed.

(** The scan path makes one call: the scan from the seek key. *)
Lemma ts_fillRowsFromRange_calls c ran e r e' :
  tableScan.fillRowsFromRange c ran e = (r, e') ->
  tableScan.calls e' = tableScan.calls e ++
    [let seek := default (if tableScan.Desc e then EndKey ran else StartKey ran)
                   (tableScan.seekKey e) in
     if tableScan.Desc e
     then CallReverseScan (StartKey ran) seek scanLimit (tableScan.startTS e)
     else CallScan seek (EndKey ran) scanLimit (tableScan.startTS e)].
Proof.
  unfold tableScan.fillRowsFromRange. intros H.
  unfold mbind at 1 in H. unfold ST_bind, st_bind, st_get in H.
  unfold mbind at 1 in H. unfold ST_bind, st_bind in H.
  set (e0 := match tableScan.seekKey e with
             | Some _ => e
             | None => tableScan.set_seekKey
                         (Some (if tableScan.Desc e then EndKey ran else StartKey ran)) e
             end).
  assert ((if bool_decide (tableScan.seekKey e = None)
           then if tableScan.Desc e
                then st_modify (tableScan.set_seekKey (Some (EndKey ran)))
                else st_modify (tableScan.set_seekKey (Some (StartKey ran)))
           else mret tt) e = (OK tt, e0)) as E0.
  { unfold e0. destruct (tableScan.seekKey e); simpl; [done|].
    by destruct (tableScan.Desc e). }
  rewrite E0 in H.
  assert (tableScan.calls e0 = tableScan.calls e /\
          tableScan.Desc e0 = tableScan.Desc e /\
          tableScan.startTS e0 = tableScan.startTS e /\
          default [] (tableScan.seekKey e0) =
            default (if tableScan.Desc e then EndKey ran else StartKey ran)
              (tableScan.seekKey e)) as (C0 & D0 & T0 & S0).
  { unfold e0. destruct (tableScan.seekKey e) eqn:Es; simpl; [by rewrite Es|].
    by destruct (tableScan.Desc e). }
  unfold mbind at 1 in H. unfold ST_bind, st_bind, st_get in H.
  unfold mbind at 1 in H. unfold ST_bind, st_bind in H.
  rewrite D0, T0, S0 in H. cbv zeta.
  destruct (tableScan.Desc e).
  - unfold mbind at 1 in H. unfold ST_bind, st_bind, st_modify in H.
    destruct (tableScan.withLastKey _ _) as [[[[] lk]|er] e1] eqn:E1.
    + apply ts_quiet_withLastKey in E1 as [_ E1]; [|apply ts_quiet_scanVisit].
      simpl in E1. rewrite C0 in E1.
      destruct lk; st_simpl; injection H as _ <-; simpl; by rewrite E1.
    + apply ts_quiet_withLastKey in E1 as [_ E1]; [|apply ts_quiet_scanVisit].
      simpl in E1. rewrite C0 in E1. injection H as _ <-. by rewrite E1.
  - unfold mbind at 1 in H. unfold ST_bind, st_bind, st_modify in H.
    destruct (tableScan.withLastKey _ _) as [[[[] lk]|er] e1] eqn:E1.
    + apply ts_quiet_withLastKey in E1 as [_ E1]; [|apply ts_quiet_scanVisit].
      simpl in E1. rewrite C0 in E1.
      destruct lk; st_simpl; injection H as _ <-; simpl; by rewrite E1.
    + apply ts_quiet_withLastKey in E1 as [_ E1]; [|apply ts_quiet_scanVisit].
      simpl in E1. rewrite C0 in E1. injection H as _ <-. by rewrite E1.
Qed.

(** The loops, one iteration unfolded. *)
Definition ts_nextRange (e : tableScan.exec) : tableScan.exec :=
  tableScan.set_seekKey None (tableScan.set_rangeCursor (S (tableScan.rangeCursor e)) e).

Lemma ts_fillRows_loop_eq c fuel e :
  tableScan.fillRows_loop c (S fuel) e =
  match tableScan.kvRanges e !! tableScan.rangeCursor e with
  | None => (OK tt, e)
  | Some ran =>
      let '(err, e1) :=
        if IsPoint ran then
          let '(r1, e1) := tableScan.fillRowsFromPoint c ran e in (r1, ts_nextRange e1)
        else
          let '(r1, e1) := tableScan.fillRowsFromRange c ran e in
          (r1, if bool_decide (length (tableScan.rows e1) = 0)%nat
               then ts_nextRange e1 else e1) in
      match err with
      | Err er => (Err er, e1)
      | OK _ =>
          if bool_decide (0 < length (tableScan.rows e1))%nat then (OK tt, e1)
          else tableScan.fillRows_loop c fuel e1
      end
  end.
Proof.
  cbn [tableScan.fillRows_loop].
  unfold mbind at 1. unfold ST_bind, st_bind, st_get.
  destruct (_ !! _) as [ran|]; [|done].
  unfold mbind at 1. unfold ST_bind, st_bind.
  destruct (IsPoint ran).
  - unfold mbind at 1. unfold ST_bind, st_bind, st_catch.
    destruct (tableScan.fillRowsFromPoint c ran e) as [r1 e1].
    unfold mbind at 1. unfold ST_bind, st_bind, tableScan.nextRange, st_modify.
    unfold mret at 1. unfold ST_ret, st_ret. fold (ts_nextRange e1).
    destruct r1 as [[]|er]; [|done].
    unfold mbind at 1. unfold ST_bind, st_bind, st_get.
    by destruct (bool_decide _).
  - unfold mbind at 1. unfold ST_bind, st_bind, st_catch.
    destruct (tableScan.fillRowsFromRange c ran e) as [r1 e1].
    unfold mbind at 1. unfold ST_bind, st_bind, st_get.
    unfold mbind at 1. unfold ST_bind, st_bind.
    destruct (bool_decide (length (tableScan.rows e1) = 0)%nat).
    + unfold tableScan.nextRange, st_modify. fold (ts_nextRange e1).
      unfold mret at 1. unfold ST_ret, st_ret.
      destruct r1 as [[]|er]; [|done].
      unfold mbind at 1. unfold ST_bind, st_bind, st_get.
      by destruct (bool_decide _).
    + unfold mret at 1. unfold ST_ret, st_ret.
      unfold mret at 1. unfold ST_ret, st_ret.
      destruct r1 as [[]|er]; [|done].
      unfold mbind at 1. unfold ST_bind, st_bind, st_get.
      by destruct (bool_decide _).
Qed.

Lemma ts_Next_loop_eq c fuel e :
  tableScan.Next_loop c (S fuel) e =
  match tableScan.rows e !! tableScan.rowCursor e with
  | Some value =>
      (OK (Some value), tableScan.set_rowCursor (S (tableScan.rowCursor e)) e)
  | None =>
      let e0 := tableScan.set_rows [] (tableScan.set_rowCursor 0 e) in
      let '(r, e1) :=
        tableScan.fillRows_loop c
          (length (tableScan.kvRanges e) - tableScan.rangeCursor e) e0 in
      match r with
      | Err er => (Err er, e1)
      | OK _ =>
          if bool_decide (length (tableScan.rows e1) = 0)%nat then (OK None, e1)
          else tableScan.Next_loop c fuel e1
      end
  end.
Proof.
  cbn [tableScan.Next_loop].
  unfold mbind at 1. unfold ST_bind, st_bind, tableScan.getOneRow.
  unfold mbind at 1. unfold ST_bind, st_bind, st_get.
  destruct (_ !! _) as [value|]; [done|].
  unfold mret at 1. unfold ST_ret, st_ret.
  unfold mbind at 1. unfold ST_bind, st_bind, tableScan.refill.
  unfold mbind at 1. unfold ST_bind, st_bind, st_modify.
  unfold mbind at 1. unfold ST_bind, st_bind.
  unfold tableScan.fillRows.
  unfold mbind at 1. unfold ST_bind, st_bind, st_get.
  cbn [tableScan.kvRanges tableScan.rangeCursor tableScan.set_rows tableScan.set_rowCursor].
  destruct (tableScan.fillRows_loop c _ _) as [[[]|er] e1]; [|done].
  unfold mbind at 1. unfold ST_bind, st_bind, st_get.
  by destruct (bool_decide _).
Qed.

Lemma ts_fillRows_loop_first_call c fuel e ran r e' :
  tableScan.kvRanges e !! tableScan.rangeCursor e = Some ran ->
  tableScan.fillRows_loop c (S fuel) e = (r, e') ->
  exists rest, tableScan.calls e' = tableScan.calls e ++ pathCall e ran :: rest.
Proof.
  intros Hran H. rewrite ts_fillRows_loop_eq, Hran in H.
  unfold pathCall. cbn [scanPointPath scanTS scanDesc scanSeekKey tableScan_ScanExec].
  assert (forall e1 x,
    tableScan.calls e1 = tableScan.calls e ++ [x] ->
    forall e2, ts_frame e1 e2 ->
    exists rest, tableScan.calls e2 = tableScan.calls e ++ x :: rest) as Hgo.
  { intros e1 x Hc e2 (_&_&_&_&_&_&_&_&_&_&_& rest & Hrest & _).
    exists rest. rewrite Hrest, Hc. by rewrite <- app_assoc. }
  assert (forall e1, ts_frame e1 (ts_nextRange e1)) as Hnr.
  { intros e1. eapply ts_frame_trans;
      [apply ts_frame_set_rangeCursor|apply ts_frame_set_seekKey]. }
  destruct (IsPoint ran).
  - destruct (tableScan.fillRowsFromPoint c ran e) as [r1 e1] eqn:E1.
    apply ts_fillRowsFromPoint_calls in E1.
    apply (Hgo e1 _ E1).
    destruct r1 as [[]|er].
    + destruct (bool_decide _).
      * injection H as _ <-. apply Hnr.
      * apply ts_preserves_fillRows_loop in H.
        eapply ts_frame_trans; [apply Hnr|exact H].
    + injection H as _ <-. apply Hnr.
  - destruct (tableScan.fillRowsFromRange c ran e) as [r1 e1] eqn:E1.
    apply ts_fillRowsFromRange_calls in E1. cbv zeta in E1.
    apply (Hgo e1 _ E1).
    assert (forall b : bool, ts_frame e1 (if b then ts_nextRange e1 else e1)) as Hif.
    { intros []; [apply Hnr|apply ts_frame_refl]. }
    destruct r1 as [[]|er].
    + destruct (bool_decide (0 < _)%nat).
      * injection H as _ <-. apply Hif.
      * apply ts_preserves_fillRows_loop in H.
        eapply ts_frame_trans; [apply Hif|exact H].
    + injection H as _ <-. apply Hif.
Qed.

(** ** Index scan: what [Next] leaves untouched *)

(** Everything but the cursors, the buffer and the seek key is the
    same, and the store was only called through the reader. *)
Definition is_frame (e e' : indexScan.exec) : Prop :=
  indexScan.Desc e' = indexScan.Desc e /\
  indexScan.Unique e' = indexScan.Unique e /\
  indexScan.colsLen e' = indexScan.colsLen e /\
  indexScan.pkStatus e' = indexScan.pkStatus e /\
  indexScan.kvRanges e' = indexScan.kvRanges e /\
  indexScan.startTS e' = indexScan.startTS e /\
  indexScan.mvccStore e' = indexScan.mvccStore e /\
  indexScan.reqCtx e' = indexScan.reqCtx e /\
  indexScan.start e' = indexScan.start e /\
  indexScan.counts e' = indexScan.counts e /\
  indexScan.ignoreLock e' = indexScan.ignoreLock e /\
  indexScan.lockChecked e' = indexScan.lockChecked e /\
  exists rest, indexScan.calls e' = indexScan.calls e ++ rest /\
               Forall isReaderCall rest.

Lemma is_frame_refl e : is_frame e e.
Proof.
  unfold is_frame. repeat split; try done.
  exists []. by rewrite app_nil_r.
Qed.

Lemma is_frame_trans e1 e2 e3 : is_frame e1 e2 -> is_frame e2 e3 -> is_frame e1 e3.
Proof.
  unfold is_frame.
  intros (?&?&?&?&?&?&?&?&?&?&?&?& r1 & Hr1 & Hf1) (?&?&?&?&?&?&?&?&?&?&?&?& r2 & Hr2 & Hf2).
  repeat split; try congruence.
  exists (r1 ++ r2). split.
  - by rewrite Hr2, Hr1, app_assoc.
  - by apply Forall_app.
Qed.

Definition is_frame2 (s s' : option bytes * indexScan.exec) : Prop :=
  is_frame s.2 s'.2.

Lemma is_frame2_refl s : is_frame2 s s.
Proof. apply is_frame_refl. Qed.

Lemma is_frame2_trans s1 s2 s3 : is_frame2 s1 s2 -> is_frame2 s2 s3 -> is_frame2 s1 s3.
Proof. apply is_frame_trans. Qed.

#[export] Hint Resolve is_frame_refl is_frame2_refl is_frame_trans is_frame2_trans : frame.

Lemma is_frame_set_ranCursor x e : is_frame e (indexScan.set_ranCursor x e).
Proof. repeat split; try done. exists []. by rewrite app_nil_r. Qed.
Lemma is_frame_set_rowCursor x e : is_frame e (indexScan.set_rowCursor x e).
Proof. repeat split; try done. exists []. by rewrite app_nil_r. Qed.
Lemma is_frame_set_rows x e : is_frame e (indexScan.set_rows x e).
Proof. repeat split; try done. exists []. by rewrite app_nil_r. Qed.
Lemma is_frame_set_seekKey x e : is_frame e (indexScan.set_seekKey x e).
Proof. repeat split; try done. exists []. by rewrite app_nil_r. Qed.
Lemma is_frame_log x e : isReaderCall x -> is_frame e (indexScan.log x e).
Proof.
  intros Hx. repeat split; try done. exists [x]. split; [done|]. by constructor.
Qed.

Lemma is_preserves_set_rowCursor x :
  preserves is_frame (st_modify (indexScan.set_rowCursor x)).
Proof. apply preserves_modify. intros e. apply is_frame_set_rowCursor. Qed.

Lemma is_preserves_set_rows f :
  preserves is_frame (st_modify (fun e => indexScan.set_rows (f e) e)).
Proof. apply preserves_modify. intros e. apply is_frame_set_rows. Qed.

Lemma is_preserves_set_seekKey x :
  preserves is_frame (st_modify (indexScan.set_seekKey x)).
Proof. apply preserves_modify. intros e. apply is_frame_set_seekKey. Qed.

Lemma is_preserves_log x :
  isReaderCall x -> preserves is_frame (st_modify (indexScan.log x)).
Proof. intros H. apply preserves_modify. intros e. by apply is_frame_log. Qed.

Lemma is_preserves_nextRange : preserves is_frame indexScan.nextRange.
Proof.
  apply preserves_modify. intros e.
  eapply is_frame_trans; [apply is_frame_set_ranCursor|apply is_frame_set_seekKey].
Qed.

Lemma is_preserves_fillRowsFromPoint c ran :
  preserves is_frame (indexScan.fillRowsFromPoint c ran).
Proof.
  unfold indexScan.fillRowsFromPoint.
  apply preserves_bind; [eauto with frame|apply preserves_get; auto with frame|intros e].
  apply preserves_bind; [eauto with frame|by apply is_preserves_log|intros _].
  apply preserves_bind; [eauto with frame|apply preserves_lift; auto with frame|intros val].
  destruct (decide _); [apply preserves_ret; auto with frame|].
  apply preserves_bind; [eauto with frame|apply preserves_lift; auto with frame|intros r].
  apply (is_preserves_set_rows (fun e => indexScan.rows e ++ [r])).
Qed.

Lemma is_preserves_scanFunc c key value :
  preserves is_frame2 (indexScan.scanFunc c key value).
Proof.
  unfold indexScan.scanFunc.
  apply preserves_bind; [eauto with frame| |intros _].
  { apply preserves_modify. intros s. apply is_frame_refl. }
  apply preserves_bind; [eauto with frame|apply preserves_get; auto with frame|intros s].
  apply preserves_bind; [eauto with frame|apply preserves_lift; auto with frame|intros r].
  apply preserves_modify. intros s0. apply is_frame_set_rows.
Qed.

Lemma is_preserves_withLastKey {A} (m : ST (option bytes * indexScan.exec) A) :
  preserves is_frame2 m -> preserves is_frame (indexScan.withLastKey m).
Proof.
  intros Hm e r e' H. unfold indexScan.withLastKey in H.
  destruct (m (None, e)) as [[a|er] [lk e1]] eqn:E; injection H as _ <-;
    apply (Hm _ _ _ E).
Qed.

Lemma is_preserves_fillRowsFromRange c ran :
  preserves is_frame (indexScan.fillRowsFromRange c ran).
Proof.
  unfold indexScan.fillRowsFromRange.
  apply preserves_bind; [eauto with frame|apply preserves_get; auto with frame|intros e].
  apply preserves_bind; [eauto with frame| |intros _].
  { destruct (bool_decide _); [|apply preserves_ret; auto with frame].
    destruct (indexScan.Desc e); apply is_preserves_set_seekKey. }
  apply preserves_bind; [eauto with frame|apply preserves_get; auto with frame|intros e1].
  apply preserves_bind; [eauto with frame| |intros [[] lastKey]].
  { destruct (indexScan.Desc e1).
    - apply preserves_bind; [eauto with frame|by apply is_preserves_log|intros _].
      apply is_preserves_withLastKey. unfold ReverseScan.
      apply preserves_scanVisit;
        [apply is_frame2_refl|apply is_frame2_trans|apply is_preserves_scanFunc].
    - apply preserves_bind; [eauto with frame|by apply is_preserves_log|intros _].
      apply is_preserves_withLastKey. unfold Scan.
      apply preserves_scanVisit;
        [apply is_frame2_refl|apply is_frame2_trans|apply is_preserves_scanFunc]. }
  destruct lastKey; [|apply preserves_ret; auto with frame].
  destruct (indexScan.Desc e1); apply is_preserves_set_seekKey.
Qed.

Lemma is_preserves_fillRows_loop c fuel :
  preserves is_frame (indexScan.fillRows_loop c fuel).
Proof.
  induction fuel as [|fuel IH]; [apply preserves_ret; auto with frame|].
  simpl.
  apply preserves_bind; [eauto with frame|apply preserves_get; auto with frame|intros e].
  destruct (_ !! _) as [ran|]; [|apply preserves_ret; auto with frame].
  apply preserves_bind; [eauto with frame| |intros err].
  { destruct (indexScan.isUnique e && IsPoint ran).
    - apply preserves_bind; [eauto with frame| |intros err].
      { apply preserves_catch, is_preserves_fillRowsFromPoint. }
      apply preserves_bind; [eauto with frame|apply is_preserves_nextRange|intros _].
      apply preserves_ret; auto with frame.
    - apply preserves_bind; [eauto with frame| |intros err].
      { apply preserves_catch, is_preserves_fillRowsFromRange. }
      apply preserves_bind; [eauto with frame|apply preserves_get; auto with frame|intros e1].
      apply preserves_bind; [eauto with frame| |intros _].
      { destruct (bool_decide _); [apply is_preserves_nextRange|apply preserves_ret; auto with frame]. }
      apply preserves_ret; auto with frame. }
  destruct err; [|apply preserves_fail; auto with frame].
  apply preserves_bind; [eauto with frame|apply preserves_get; auto with frame|intros e1].
  destruct (bool_decide _); [apply preserves_ret; auto with frame|apply IH].
Qed.

Lemma is_preserves_Next_loop c fuel :
  preserves is_frame (indexScan.Next_loop c fuel).
Proof.
  induction fuel as [|fuel IH]; [apply preserves_ret; auto with frame|].
  simpl.
  apply preserves_bind; [eauto with frame|apply preserves_get; auto with frame|intros e0].
  destruct (_ !! _).
  { apply preserves_bind; [eauto with frame|apply is_preserves_set_rowCursor|intros _].
    apply preserves_ret; auto with frame. }
  apply preserves_bind; [eauto with frame|apply is_preserves_set_rowCursor|intros _].
  apply preserves_bind; [eauto with frame| |intros _].
  { apply (is_preserves_set_rows (fun _ => [])). }
  apply preserves_bind; [eauto with frame| |intros _].
  { unfold indexScan.fillRows.
    apply preserves_bind; [eauto with frame|apply preserves_get; auto with frame|intros e].
    apply is_preserves_fillRows_loop. }
  apply preserves_bind; [eauto with frame|apply preserves_get; auto with frame|intros e].
  destruct (bool_decide _); [apply preserves_ret; auto with frame|apply IH].
Qed.

Example tableScan_demo_forward :
  nextResults demoCodec 5
    (demoTableScan noLocks demoSnapshot false
       [ {| StartKey := k1; EndKey := k3 |}; {| StartKey := k5; EndKey := k6 |} ])
  = [ OK (Some [Some [Byte.x08; Byte.x01]; Some [Byte.x11]; Some [Byte.x2a]; Some [NilFlag]]);
      OK (Some [Some [Byte.x08; Byte.x02]; Some [Byte.x12]; Some [Byte.x2a]; Some [NilFlag]]);
      OK (Some [Some [Byte.x08; Byte.x05]; Some [Byte.x15]; Some [Byte.x2a]; Some [NilFlag]]);
      OK None; OK None ].
Proof. reflexivity. Qed.

(** ** The lock check *)

Lemma lockPass_None store ts rans p :
  lockPass store ts rans = (p, None) -> p = rans.
Proof.
  revert p. induction rans as [|ran rans IH]; intros p H; simpl in H.
  - by injection H as <-.
  - destruct (CheckRangeLock store ts _ _); [done|].
    destruct (lockPass store ts rans) as [p' r'].
    injection H as <- ->. f_equal. by apply IH.
Qed.

Lemma ts_calls_logs xs e :
  tableScan.calls (ts_logs xs e) = tableScan.calls e ++ xs.
Proof.
  unfold ts_logs. revert e.
  induction xs as [|x xs IH]; intros e; simpl.
  - by rewrite app_nil_r.
  - rewrite IH. simpl. by rewrite <- app_assoc.
Qed.

Lemma ts_logs_fields xs e :
  let e' := ts_logs xs e in
  tableScan.mvccStore e' = tableScan.mvccStore e /\
  tableScan.startTS e' = tableScan.startTS e /\
  tableScan.kvRanges e' = tableScan.kvRanges e /\
  tableScan.ignoreLock e' = tableScan.ignoreLock e /\
  tableScan.lockChecked e' = tableScan.lockChecked e /\
  tableScan.rows e' = tableScan.rows e /\
  tableScan.rowCursor e' = tableScan.rowCursor e /\
  tableScan.rangeCursor e' = tableScan.rangeCursor e.
Proof.
  unfold ts_logs. revert e.
  induction xs as [|x xs IH]; intros e; simpl; [done|].
  apply (IH (tableScan.log x e)).
Qed.

Lemma ts_checkRangeLock_loop_spec rans e :
  tableScan.checkRangeLock_loop rans e =
  (match (lockPass (tableScan.mvccStore e) (tableScan.startTS e) rans).2 with
   | Some err => Err err
   | None => OK tt
   end,
   ts_logs (checkCallOf (tableScan.startTS e) <$>
               (lockPass (tableScan.mvccStore e) (tableScan.startTS e) rans).1) e).
Proof.
  revert e. induction rans as [|ran rans IH]; intros e; [done|].
  simpl. st_simpl.
  destruct (CheckRangeLock _ _ _ _) as [err|]; [done|].
  rewrite IH. simpl.
  by destruct (lockPass _ _ rans) as [p r].
Qed.

(** [Next] once the check is done with, or is to be ignored. *)
Lemma ts_Next_checked c e :
  tableScan.ignoreLock e = true \/ tableScan.lockChecked e = true ->
  tableScan.Next c e = tableScan.Next_loop c 2 e.
Proof.
  intros H. unfold tableScan.Next, tableScan.checkRangeLock.
  unfold mbind at 1. unfold ST_bind, st_bind.
  unfold mbind at 1. unfold ST_bind, st_bind, st_get.
  destruct H as [-> | ->]; simpl; by rewrite ?andb_false_r.
Qed.

(** The first [Next]: the pass over the ranges, then the loop. *)
Lemma ts_Next_unchecked c e :
  tableScan.ignoreLock e = false -> tableScan.lockChecked e = false ->
  tableScan.Next c e =
  let pass := lockPass (tableScan.mvccStore e) (tableScan.startTS e) (tableScan.kvRanges e) in
  let e1 := ts_logs (checkCallOf (tableScan.startTS e) <$> pass.1) e in
  match pass.2 with
  | Some err => (Err err, e1)
  | None => tableScan.Next_loop c 2 (tableScan.set_lockChecked true e1)
  end.
Proof.
  intros Hi Hl. unfold tableScan.Next, tableScan.checkRangeLock.
  unfold mbind at 1. unfold ST_bind, st_bind.
  unfold mbind at 1. unfold ST_bind, st_bind, st_get.
  rewrite Hi, Hl. simpl.
  unfold mbind at 1. unfold ST_bind, st_bind.
  rewrite ts_checkRangeLock_loop_spec.
  by destruct (lockPass _ _ _).2.
Qed.

Lemma ts_nextN_checked c n : forall e,
  tableScan.ignoreLock e = true \/ tableScan.lockChecked e = true ->
  ts_frame e (nextN c n e).
Proof.
  induction n as [|n IH]; intros e H; [apply ts_frame_refl|].
  specialize (IH e H).
  change (ts_frame e (tableScan.Next c (nextN c n e)).2).
  eapply ts_frame_trans; [exact IH|].
  rewrite ts_Next_checked.
  - destruct (tableScan.Next_loop c 2 (nextN c n e)) as [r e'] eqn:E.
    by apply ts_preserves_Next_loop in E.
  - destruct IH as (_&_&_&_&_&_&_&_&_& Hi & Hl & _).
    by rewrite Hi, Hl.
Qed.

(** What the lock check does over the life of a scan: with no lock,
    one call per range, in order, ahead of every reader call; with a
    lock, each [Next] fails with it after checking the ranges up to the
    locked one, and the reader is never called. *)
Definition lockCheckSpec {E} `{ScanExec E} (c : Codec) (e : E) : Prop :=
  let pass := lockPass (scanStore e) (scanTS e) (scanRanges e) in
  match pass.2 with
  | None =>
      forall n, exists rest,
        scanCalls (nextN c (S n) e) =
          scanCalls e ++ (checkCallOf (scanTS e) <$> scanRanges e) ++ rest /\
        Forall isReaderCall rest
  | Some err =>
      forall n,
        nextResults c n e = replicate n (Err err) /\
        scanCalls (nextN c n e) =
          scanCalls e ++ mjoin (replicate n (checkCallOf (scanTS e) <$> pass.1))
  end.

Lemma nextN_succ_r {E} `{ScanExec E} c n (e : E) :
  nextN c (S n) e = nextN c n (scanNext c e).2.
Proof. unfold nextN. by rewrite Nat.iter_succ_r. Qed.

Lemma ts_lockCheckSpec c e :
  tableScan.ignoreLock e = false -> tableScan.lockChecked e = false ->
  lockCheckSpec c e.
Proof.
  intros Hi Hl. unfold lockCheckSpec.
  cbn [scanStore scanTS scanRanges scanCalls tableScan_ScanExec].
  pose proof (ts_Next_unchecked c e Hi Hl) as HN. cbv zeta in HN.
  destruct (lockPass _ _ _) as [p r] eqn:Hpass. cbn [fst snd] in *.
  destruct r as [err|].
  - (* locked: the state only grows its log, so every call repeats *)
    assert (forall n e0,
      tableScan.ignoreLock e0 = false -> tableScan.lockChecked e0 = false ->
      tableScan.mvccStore e0 = tableScan.mvccStore e ->
      tableScan.startTS e0 = tableScan.startTS e ->
      tableScan.kvRanges e0 = tableScan.kvRanges e ->
      nextResults c n e0 = replicate n (Err err) /\
      tableScan.calls (nextN c n e0) =
        tableScan.calls e0 ++
        mjoin (replicate n (checkCallOf (tableScan.startTS e) <$> p))) as Hall.
    { induction n as [|n IH]; intros e0 Hi0 Hl0 Hs0 Ht0 Hr0.
      - simpl. by rewrite app_nil_r.
      - rewrite nextN_succ_r. cbn [nextResults].
        change (scanNext c e0) with (tableScan.Next c e0).
        rewrite (ts_Next_unchecked c e0 Hi0 Hl0). cbv zeta.
        rewrite Hs0, Ht0, Hr0, Hpass. cbn [fst snd replicate mjoin list_join].
        pose proof (ts_logs_fields (checkCallOf (tableScan.startTS e) <$> p) e0)
          as (F1 & F2 & F3 & F4 & F5 & _).
        destruct (IH (ts_logs (checkCallOf (tableScan.startTS e) <$> p) e0))
          as [IH1 IH2]; try congruence.
        split; [by rewrite IH1|].
        rewrite IH2, ts_calls_logs. by rewrite <- app_assoc. }
    intros n. by apply Hall.
  - apply lockPass_None in Hpass as ->.
    intros n. rewrite nextN_succ_r.
    change (scanNext c e) with (tableScan.Next c e). rewrite HN.
    set (e1 := tableScan.set_lockChecked true _).
    destruct (tableScan.Next_loop c 2 e1) as [r e2] eqn:E. cbn [snd].
    apply ts_preserves_Next_loop in E.
    assert (ts_frame e1 (nextN c n e2)) as Hf.
    { eapply ts_frame_trans; [exact E|]. apply ts_nextN_checked.
      destruct E as (_&_&_&_&_&_&_&_&_& _ & El & _). right. by rewrite El. }
    destruct Hf as (_&_&_&_&_&_&_&_&_&_&_& rest & Hrest & Hfa).
    exists rest. split; [|done].
    rewrite Hrest. unfold e1. simpl. rewrite ts_calls_logs.
    by rewrite <- app_assoc.
Qed.

Lemma is_calls_logs xs e :
  indexScan.calls (is_logs xs e) = indexScan.calls e ++ xs.
Proof.
  unfold is_logs. revert e.
  induction xs as [|x xs IH]; intros e; simpl.
  - by rewrite app_nil_r.
  - rewrite IH. simpl. by rewrite <- app_assoc.
Qed.

Lemma is_logs_fields xs e :
  let e' := is_logs xs e in
  indexScan.mvccStore e' = indexScan.mvccStore e /\
  indexScan.startTS e' = indexScan.startTS e /\
  indexScan.kvRanges e' = indexScan.kvRanges e /\
  indexScan.ignoreLock e' = indexScan.ignoreLock e /\
  indexScan.lockChecked e' = indexScan.lockChecked e /\
  indexScan.rows e' = indexScan.rows e /\
  indexScan.rowCursor e' = indexScan.rowCursor e /\
  indexScan.ranCursor e' = indexScan.ranCursor e.
Proof.
  unfold is_logs. revert e.
  induction xs as [|x xs IH]; intros e; simpl; [done|].
  apply (IH (indexScan.log x e)).
Qed.

Lemma is_checkRangeLock_loop_spec rans e :
  indexScan.checkRangeLock_loop rans e =
  (match (lockPass (indexScan.mvccStore e) (indexScan.startTS e) rans).2 with
   | Some err => Err err
   | None => OK tt
   end,
   is_logs (checkCallOf (indexScan.startTS e) <$>
               (lockPass (indexScan.mvccStore e) (indexScan.startTS e) rans).1) e).
Proof.
  revert e. induction rans as [|ran rans IH]; intros e; [done|].
  simpl. st_simpl.
  destruct (CheckRangeLock _ _ _ _) as [err|]; [done|].
  rewrite IH. simpl.
  by destruct (lockPass _ _ rans) as [p r].
Qed.

(** [Next] once the check is done with, or is to be ignored. *)
Lemma is_Next_checked c e :
  indexScan.ignoreLock e = true \/ indexScan.lockChecked e = true ->
  indexScan.Next c e = indexScan.Next_loop c 2 e.
Proof.
  intros H. unfold indexScan.Next, indexScan.checkRangeLock.
  unfold mbind at 1. unfold ST_bind, st_bind.
  unfold mbind at 1. unfold ST_bind, st_bind, st_get.
  destruct H as [-> | ->]; simpl; by rewrite ?andb_false_r.
Qed.

(** The first [Next]: the pass over the ranges, then the loop. *)
Lemma is_Next_unchecked c e :
  indexScan.ignoreLock e = false -> indexScan.lockChecked e = false ->
  indexScan.Next c e =
  let pass := lockPass (indexScan.mvccStore e) (indexScan.startTS e) (indexScan.kvRanges e) in
  let e1 := is_logs (checkCallOf (indexScan.startTS e) <$> pass.1) e in
  match pass.2 with
  | Some err => (Err err, e1)
  | None => indexScan.Next_loop c 2 (indexScan.set_lockChecked true e1)
  end.
Proof.
  intros Hi Hl. unfold indexScan.Next, indexScan.checkRangeLock.
  unfold mbind at 1. unfold ST_bind, st_bind.
  unfold mbind at 1. unfold ST_bind, st_bind, st_get.
  rewrite Hi, Hl. simpl.
  unfold mbind at 1. unfold ST_bind, st_bind.
  rewrite is_checkRangeLock_loop_spec.
  by destruct (lockPass _ _ _).2.
Qed.

Lemma is_nextN_checked c n : forall e,
  indexScan.ignoreLock e = true \/ indexScan.lockChecked e = true ->
  is_frame e (nextN c n e).
Proof.
  induction n as [|n IH]; intros e H; [apply is_frame_refl|].
  specialize (IH e H).
  change (is_frame e (indexScan.Next c (nextN c n e)).2).
  eapply is_frame_trans; [exact IH|].
  rewrite is_Next_checked.
  - destruct (indexScan.Next_loop c 2 (nextN c n e)) as [r e'] eqn:E.
    by apply is_preserves_Next_loop in E.
  - destruct IH as (_&_&_&_&_&_&_&_&_&_& Hi & Hl & _).
    by rewrite Hi, Hl.
Qed.

Lemma is_lockCheckSpec c e :
  indexScan.ignoreLock e = false -> indexScan.lockChecked e = false ->
  lockCheckSpec c e.
Proof.
  intros Hi Hl. unfold lockCheckSpec.
  cbn [scanStore scanTS scanRanges scanCalls indexScan_ScanExec].
  pose proof (is_Next_unchecked c e Hi Hl) as HN. cbv zeta in HN.
  destruct (lockPass _ _ _) as [p r] eqn:Hpass. cbn [fst snd] in *.
  destruct r as [err|].
  - (* locked: the state only grows its log, so every call repeats *)
    assert (forall n e0,
      indexScan.ignoreLock e0 = false -> indexScan.lockChecked e0 = false ->
      indexScan.mvccStore e0 = indexScan.mvccStore e ->
      indexScan.startTS e0 = indexScan.startTS e ->
      indexScan.kvRanges e0 = indexScan.kvRanges e ->
      nextResults c n e0 = replicate n (Err err) /\
      indexScan.calls (nextN c n e0) =
        indexScan.calls e0 ++
        mjoin (replicate n (checkCallOf (indexScan.startTS e) <$> p))) as Hall.
    { induction n as [|n IH]; intros e0 Hi0 Hl0 Hs0 Ht0 Hr0.
      - simpl. by rewrite app_nil_r.
      - rewrite nextN_succ_r. cbn [nextResults].
        change (scanNext c e0) with (indexScan.Next c e0).
        rewrite (is_Next_unchecked c e0 Hi0 Hl0). cbv zeta.
        rewrite Hs0, Ht0, Hr0, Hpass. cbn [fst snd replicate mjoin list_join].
        pose proof (is_logs_fields (checkCallOf (indexScan.startTS e) <$> p) e0)
          as (F1 & F2 & F3 & F4 & F5 & _).
        destruct (IH (is_logs (checkCallOf (indexScan.startTS e) <$> p) e0))
          as [IH1 IH2]; try congruence.
        split; [by rewrite IH1|].
        rewrite IH2, is_calls_logs. by rewrite <- app_assoc. }
    intros n. by apply Hall.
  - apply lockPass_None in Hpass as ->.
    intros n. rewrite nextN_succ_r.
    change (scanNext c e) with (indexScan.Next c e). rewrite HN.
    set (e1 := indexScan.set_lockChecked true _).
    destruct (indexScan.Next_loop c 2 e1) as [r e2] eqn:E. cbn [snd].
    apply is_preserves_Next_loop in E.
    assert (is_frame e1 (nextN c n e2)) as Hf.
    { eapply is_frame_trans; [exact E|]. apply is_nextN_checked.
      destruct E as (_&_&_&_&_&_&_&_&_&_& _ & El & _). right. by rewrite El. }
    destruct Hf as (_&_&_&_&_&_&_&_&_&_&_&_& rest & Hrest & Hfa).
    exists rest. split; [|done].
    rewrite Hrest. unfold e1. simpl. rewrite is_calls_logs.
    by rewrite <- app_assoc.
Qed.

(** ** Table scan: the first reader call and a failing point *)

Lemma ts_buffer_empty e :
  drop (tableScan.rowCursor e) (tableScan.rows e) = [] ->
  tableScan.rows e !! tableScan.rowCursor e = None.
Proof.
  intros H. apply lookup_ge_None.
  apply (f_equal length) in H. rewrite length_drop in H. simpl in H. lia.
Qed.

(** With the buffer used up, [Next] first calls the reader for the
    range under the cursor. *)
Lemma ts_Next_first_call c e ran :
  tableScan.ignoreLock e = true \/ tableScan.lockChecked e = true ->
  drop (tableScan.rowCursor e) (tableScan.rows e) = [] ->
  tableScan.kvRanges e !! tableScan.rangeCursor e = Some ran ->
  exists rest,
    tableScan.calls (tableScan.Next c e).2 = tableScan.calls e ++ pathCall e ran :: rest.
Proof.
  intros Hlock Hbuf Hran. apply ts_buffer_empty in Hbuf.
  rewrite ts_Next_checked by done. rewrite ts_Next_loop_eq, Hbuf. cbv zeta.
  pose proof (lookup_lt_Some _ _ _ Hran) as Hlt.
  destruct (length (tableScan.kvRanges e) - tableScan.rangeCursor e)%nat
    as [|fuel] eqn:Hfuel; [lia|].
  destruct (tableScan.fillRows_loop c (S fuel) _) as [r e1] eqn:E1.
  apply ts_fillRows_loop_first_call with (ran := ran) in E1; [|done].
  destruct E1 as [rest Hrest].
  change (pathCall (tableScan.set_rows [] (tableScan.set_rowCursor 0 e)) ran)
    with (pathCall e ran) in Hrest.
  simpl in Hrest.
  destruct r as [[]|er]; [|by exists rest].
  destruct (bool_decide _); [by exists rest|].
  destruct (tableScan.Next_loop c 1 e1) as [r2 e2] eqn:E2.
  apply ts_preserves_Next_loop in E2.
  destruct E2 as (_&_&_&_&_&_&_&_&_&_&_& rest2 & Hrest2 & _).
  exists (rest ++ rest2). simpl. rewrite Hrest2, Hrest.
  by rewrite <- app_assoc.
Qed.

(** With the buffer and the ranges used up, [Next] returns
    end-of-stream and calls nothing. *)
Lemma ts_Next_exhausted c e :
  tableScan.ignoreLock e = true \/ tableScan.lockChecked e = true ->
  drop (tableScan.rowCursor e) (tableScan.rows e) = [] ->
  tableScan.kvRanges e !! tableScan.rangeCursor e = None ->
  exists e', tableScan.Next c e = (OK None, e') /\
             tableScan.calls e' = tableScan.calls e.
Proof.
  intros Hlock Hbuf Hran. apply ts_buffer_empty in Hbuf.
  rewrite ts_Next_checked by done. rewrite ts_Next_loop_eq, Hbuf. cbv zeta.
  apply lookup_ge_None in Hran.
  replace (length (tableScan.kvRanges e) - tableScan.rangeCursor e)%nat with 0%nat by lia.
  simpl. eexists. split; [done|done].
Qed.

(** A failing point range: the error comes out of [Next] with the
    cursor already past the range. *)
Lemma ts_point_failure c e ran err :
  tableScan.ignoreLock e = true \/ tableScan.lockChecked e = true ->
  drop (tableScan.rowCursor e) (tableScan.rows e) = [] ->
  tableScan.kvRanges e !! tableScan.rangeCursor e = Some ran ->
  IsPoint ran = true ->
  (Get (getDBReader (tableScan.reqCtx e)) (StartKey ran) (tableScan.startTS e) = Err err \/
   exists val,
     Get (getDBReader (tableScan.reqCtx e)) (StartKey ran) (tableScan.startTS e) = OK val /\
     val <> [] /\
     (handle ← decodeRowKey c (StartKey ran);
      getRowData c (tableScan.Columns e) (tableScan.colIDs e) handle val) = Err err) ->
  exists e',
    tableScan.Next c e = (Err err, e') /\
    tableScan.rangeCursor e' = S (tableScan.rangeCursor e) /\
    tableScan.seekKey e' = None /\
    tableScan.rows e' = [] /\ tableScan.rowCursor e' = 0%nat /\
    tableScan.calls e' =
      tableScan.calls e ++ [CallGet (StartKey ran) (tableScan.startTS e)] /\
    ts_frame e e'.
Proof.
  intros Hlock Hbuf Hran Hpt Hfail. apply ts_buffer_empty in Hbuf.
  rewrite ts_Next_checked by done. rewrite ts_Next_loop_eq, Hbuf. cbv zeta.
  pose proof (lookup_lt_Some _ _ _ Hran) as Hlt.
  destruct (length (tableScan.kvRanges e) - tableScan.rangeCursor e)%nat
    as [|fuel] eqn:Hfuel; [lia|].
  rewrite ts_fillRows_loop_eq.
  cbn [tableScan.kvRanges tableScan.rangeCursor tableScan.set_rows tableScan.set_rowCursor].
  rewrite Hran, Hpt.
  set (e0 := tableScan.set_rows [] (tableScan.set_rowCursor 0 e)).
  assert (exists e1, tableScan.fillRowsFromPoint c ran e0 = (Err err, e1) /\
            e1 = tableScan.log (CallGet (StartKey ran) (tableScan.startTS e)) e0)
    as (e1 & E1 & He1).
  { unfold tableScan.fillRowsFromPoint. st_simpl.
    destruct Hfail as [Hget|(val & Hget & Hval & Hdec)]; rewrite Hget; simpl.
    - by eexists.
    - destruct (decide (length val = 0)%nat) as [Hz|_].
      { by apply length_zero_iff_nil in Hz. }
      destruct (decodeRowKey c (StartKey ran)) as [h|er]; simpl in *.
      + rewrite Hdec. simpl. by eexists.
      + injection Hdec as ->. by eexists. }
  rewrite E1. subst e1. eexists. split; [done|].
  simpl. repeat split; try done.
  exists [CallGet (StartKey ran) (tableScan.startTS e)]. split; [done|].
  by repeat constructor.
Qed.


(** No store call at all. *)
Definition is_quiet (e e' : indexScan.exec) : Prop :=
  is_frame e e' /\ indexScan.calls e' = indexScan.calls e.

Definition is_quiet2 (s s' : option bytes * indexScan.exec) : Prop :=
  is_quiet s.2 s'.2.

Lemma is_quiet_refl e : is_quiet e e.
Proof. split; [apply is_frame_refl|done]. Qed.

Lemma is_quiet_trans e1 e2 e3 : is_quiet e1 e2 -> is_quiet e2 e3 -> is_quiet e1 e3.
Proof.
  intros [F1 C1] [F2 C2]. split; [by eapply is_frame_trans|congruence].
Qed.

Lemma is_quiet_scanFunc c key value :
  preserves is_quiet2 (indexScan.scanFunc c key value).
Proof.
  intros [lk e] r [lk' e'] H. unfold indexScan.scanFunc in H. st_simpl.
  destruct (decodeIndexKV c _ _ _ _) as [row|er]; simpl in H;
    injection H as _ _ <-; split; simpl; try done; try apply is_frame_refl.
  apply is_frame_set_rows.
Qed.

Lemma is_quiet_scanVisit c limit pairs :
  preserves is_quiet2 (scanVisit (indexScan.scanFunc c) limit pairs).
Proof.
  apply preserves_scanVisit.
  - intros s. apply is_quiet_refl.
  - intros s1 s2 s3. apply is_quiet_trans.
  - apply is_quiet_scanFunc.
Qed.

Lemma is_quiet_withLastKey {A} (m : ST (option bytes * indexScan.exec) A) :
  preserves is_quiet2 m -> preserves is_quiet (indexScan.withLastKey m).
Proof.
  intros Hm e r e' H. unfold indexScan.withLastKey in H.
  destruct (m (None, e)) as [[a|er] [lk e1]] eqn:E; injection H as _ <-;
    apply (Hm _ _ _ E).
Qed.

(** The point path makes one call: the [Get] of the start key. *)
Lemma is_fillRowsFromPoint_calls c ran e r e' :
  indexScan.fillRowsFromPoint c ran e = (r, e') ->
  indexScan.calls e' =
    indexScan.calls e ++ [CallGet (StartKey ran) (indexScan.startTS e)].
Proof.
  unfold indexScan.fillRowsFromPoint. st_simpl. intros H.
  destruct (Get _ _ _) as [val|er]; simpl in H; [|by injection H as _ <-].
  destruct (decide _); [by injection H as _ <-|].
  destruct (decodeIndexKV c _ _ _ val) as [row|er]; simpl in H; by injection H as _ <-.
Qed.

(** The scan path makes one call: the scan from the seek key. *)
Lemma is_fillRowsFromRange_calls c ran e r e' :
  indexScan.fillRowsFromRange c ran e = (r, e') ->
  indexScan.calls e' = indexScan.calls e ++
    [let seek := default (if indexScan.Desc e then EndKey ran else StartKey ran)
                   (indexScan.seekKey e) in
     if indexScan.Desc e
     then CallReverseScan (StartKey ran) seek scanLimit (indexScan.startTS e)
     else CallScan seek (EndKey ran) scanLimit (indexScan.startTS e)].
Proof.
  unfold indexScan.fillRowsFromRange. intros H.
  unfold mbind at 1 in H. unfold ST_bind, st_bind, st_get in H.
  unfold mbind at 1 in H. unfold ST_bind, st_bind in H.
  set (e0 := match indexScan.seekKey e with
             | Some _ => e
             | None => indexScan.set_seekKey
                         (Some (if indexScan.Desc e then EndKey ran else StartKey ran)) e
             end).
  assert ((if bool_decide (indexScan.seekKey e = None)
           then if indexScan.Desc e
                then st_modify (indexScan.set_seekKey (Some (EndKey ran)))
                else st_modify (indexScan.set_seekKey (Some (StartKey ran)))
           else mret tt) e = (OK tt, e0)) as E0.
  { unfold e0. destruct (indexScan.seekKey e); simpl; [done|].
    by destruct (indexScan.Desc e). }
  rewrite E0 in H.
  assert (indexScan.calls e0 = indexScan.calls e /\
          indexScan.Desc e0 = indexScan.Desc e /\
          indexScan.startTS e0 = indexScan.startTS e /\
          default [] (indexScan.seekKey e0) =
            default (if indexScan.Desc e then EndKey ran else StartKey ran)
              (indexScan.seekKey e)) as (C0 & D0 & T0 & S0).
  { unfold e0. destruct (indexScan.seekKey e) eqn:Es; simpl; [by rewrite Es|].
    by destruct (indexScan.Desc e). }
  unfold mbind at 1 in H. unfold ST_bind, st_bind, st_get in H.
  unfold mbind at 1 in H. unfold ST_bind, st_bind in H.
  rewrite D0, T0, S0 in H. cbv zeta.
  destruct (indexScan.Desc e).
  - unfold mbind at 1 in H. unfold ST_bind, st_bind, st_modify in H.
    destruct (indexScan.withLastKey _ _) as [[[[] lk]|er] e1] eqn:E1.
    + apply is_quiet_withLastKey in E1 as [_ E1]; [|apply is_quiet_scanVisit].
      simpl in E1. rewrite C0 in E1.
      destruct lk; st_simpl; injection H as _ <-; simpl; by rewrite E1.
    + apply is_quiet_withLastKey in E1 as [_ E1]; [|apply is_quiet_scanVisit].
      simpl in E1. rewrite C0 in E1. injection H as _ <-. by rewrite E1.
  - unfold mbind at 1 in H. unfold ST_bind, st_bind, st_modify in H.
    destruct (indexScan.withLastKey _ _) as [[[[] lk]|er] e1] eqn:E1.
    + apply is_quiet_withLastKey in E1 as [_ E1]; [|apply is_quiet_scanVisit].
      simpl in E1. rewrite C0 in E1.
      destruct lk; st_simpl; injection H as _ <-; simpl; by rewrite E1.
    + apply is_quiet_withLastKey in E1 as [_ E1]; [|apply is_quiet_scanVisit].
      simpl in E1. rewrite C0 in E1. injection H as _ <-. by rewrite E1.
Qed.

(** The loops, one iteration unfolded. *)
Definition is_nextRange (e : indexScan.exec) : indexScan.exec :=
  indexScan.set_seekKey None (indexScan.set_ranCursor (S (indexScan.ranCursor e)) e).

Lemma is_fillRows_loop_eq c fuel e :
  indexScan.fillRows_loop c (S fuel) e =
  match indexScan.kvRanges e !! indexScan.ranCursor e with
  | None => (OK tt, e)
  | Some ran =>
      let '(err, e1) :=
        if indexScan.isUnique e && IsPoint ran then
          let '(r1, e1) := indexScan.fillRowsFromPoint c ran e in (r1, is_nextRange e1)
        else
          let '(r1, e1) := indexScan.fillRowsFromRange c ran e in
          (r1, if bool_decide (length (indexScan.rows e1) = 0)%nat
               then is_nextRange e1 else e1) in
      match err with
      | Err er => (Err er, e1)
      | OK _ =>
          if bool_decide (0 < length (indexScan.rows e1))%nat then (OK tt, e1)
          else indexScan.fillRows_loop c fuel e1
      end
  end.
Proof.
  cbn [indexScan.fillRows_loop].
  unfold mbind at 1. unfold ST_bind, st_bind, st_get.
  destruct (_ !! _) as [ran|]; [|done].
  unfold mbind at 1. unfold ST_bind, st_bind.
  destruct (indexScan.isUnique e && IsPoint ran).
  - unfold mbind at 1. unfold ST_bind, st_bind, st_catch.
    destruct (indexScan.fillRowsFromPoint c ran e) as [r1 e1].
    unfold mbind at 1. unfold ST_bind, st_bind, indexScan.nextRange, st_modify.
    unfold mret at 1. unfold ST_ret, st_ret. fold (is_nextRange e1).
    destruct r1 as [[]|er]; [|done].
    unfold mbind at 1. unfold ST_bind, st_bind, st_get.
    by destruct (bool_decide _).
  - unfold mbind at 1. unfold ST_bind, st_bind, st_catch.
    destruct (indexScan.fillRowsFromRange c ran e) as [r1 e1].
    unfold mbind at 1. unfold ST_bind, st_bind, st_get.
    unfold mbind at 1. unfold ST_bind, st_bind.
    destruct (bool_decide (length (indexScan.rows e1) = 0)%nat).
    + unfold indexScan.nextRange, st_modify. fold (is_nextRange e1).
      unfold mret at 1. unfold ST_ret, st_ret.
      destruct r1 as [[]|er]; [|done].
      unfold mbind at 1. unfold ST_bind, st_bind, st_get.
      by destruct (bool_decide _).
    + unfold mret at 1. unfold ST_ret, st_ret.
      unfold mret at 1. unfold ST_ret, st_ret.
      destruct r1 as [[]|er]; [|done].
      unfold mbind at 1. unfold ST_bind, st_bind, st_get.
      by destruct (bool_decide _).
Qed.

Lemma is_Next_loop_eq c fuel e :
  indexScan.Next_loop c (S fuel) e =
  match indexScan.rows e !! indexScan.rowCursor e with
  | Some value =>
      (OK (Some value), indexScan.set_rowCursor (S (indexScan.rowCursor e)) e)
  | None =>
      let e0 := indexScan.set_rows [] (indexScan.set_rowCursor 0 e) in
      let '(r, e1) :=
        indexScan.fillRows_loop c
          (length (indexScan.kvRanges e) - indexScan.ranCursor e) e0 in
      match r with
      | Err er => (Err er, e1)
      | OK _ =>
          if bool_decide (length (indexScan.rows e1) = 0)%nat then (OK None, e1)
          else indexScan.Next_loop c fuel e1
      end
  end.
Proof.
  cbn [indexScan.Next_loop].
  unfold mbind at 1. unfold ST_bind, st_bind, st_get.
  destruct (_ !! _) as [value|]; [done|].
  unfold mbind at 1. unfold ST_bind, st_bind, st_modify.
  unfold mbind at 1. unfold ST_bind, st_bind.
  unfold mbind at 1. unfold ST_bind, st_bind.
  unfold indexScan.fillRows.
  unfold mbind at 1. unfold ST_bind, st_bind, st_get.
  cbn [indexScan.kvRanges indexScan.ranCursor indexScan.set_rows indexScan.set_rowCursor].
  destruct (indexScan.fillRows_loop c _ _) as [[[]|er] e1]; [|done].
  unfold mbind at 1. unfold ST_bind, st_bind, st_get.
  by destruct (bool_decide _).
Qed.

Lemma is_fillRows_loop_first_call c fuel e ran r e' :
  indexScan.kvRanges e !! indexScan.ranCursor e = Some ran ->
  indexScan.fillRows_loop c (S fuel) e = (r, e') ->
  exists rest, indexScan.calls e' = indexScan.calls e ++ pathCall e ran :: rest.
Proof.
  intros Hran H. rewrite is_fillRows_loop_eq, Hran in H.
  unfold pathCall. cbn [scanPointPath scanTS scanDesc scanSeekKey indexScan_ScanExec].
  assert (forall e1 x,
    indexScan.calls e1 = indexScan.calls e ++ [x] ->
    forall e2, is_frame e1 e2 ->
    exists rest, indexScan.calls e2 = indexScan.calls e ++ x :: rest) as Hgo.
  { intros e1 x Hc e2 (_&_&_&_&_&_&_&_&_&_&_&_& rest & Hrest & _).
    exists rest. rewrite Hrest, Hc. by rewrite <- app_assoc. }
  assert (forall e1, is_frame e1 (is_nextRange e1)) as Hnr.
  { intros e1. eapply is_frame_trans;
      [apply is_frame_set_ranCursor|apply is_frame_set_seekKey]. }
  cbn [indexScan_ScanExec].
  destruct (indexScan.isUnique e && IsPoint ran).
  - destruct (indexScan.fillRowsFromPoint c ran e) as [r1 e1] eqn:E1.
    apply is_fillRowsFromPoint_calls in E1.
    apply (Hgo e1 _ E1).
    destruct r1 as [[]|er].
    + destruct (bool_decide _).
      * injection H as _ <-. apply Hnr.
      * apply is_preserves_fillRows_loop in H.
        eapply is_frame_trans; [apply Hnr|exact H].
    + injection H as _ <-. apply Hnr.
  - destruct (indexScan.fillRowsFromRange c ran e) as [r1 e1] eqn:E1.
    apply is_fillRowsFromRange_calls in E1. cbv zeta in E1.
    apply (Hgo e1 _ E1).
    assert (forall b : bool, is_frame e1 (if b then is_nextRange e1 else e1)) as Hif.
    { intros []; [apply Hnr|apply is_frame_refl]. }
    destruct r1 as [[]|er].
    + destruct (bool_decide (0 < _)%nat).
      * injection H as _ <-. apply Hif.
      * apply is_preserves_fillRows_loop in H.
        eapply is_frame_trans; [apply Hif|exact H].
    + injection H as _ <-. apply Hif.
Qed.


(** ** Index scan: the first reader call and a failing point *)

Lemma is_buffer_empty e :
  drop (indexScan.rowCursor e) (indexScan.rows e) = [] ->
  indexScan.rows e !! indexScan.rowCursor e = None.
Proof.
  intros H. apply lookup_ge_None.
  apply (f_equal length) in H. rewrite length_drop in H. simpl in H. lia.
Qed.

(** With the buffer used up, [Next] first calls the reader for the
    range under the cursor. *)
Lemma is_Next_first_call c e ran :
  indexScan.ignoreLock e = true \/ indexScan.lockChecked e = true ->
  drop (indexScan.rowCursor e) (indexScan.rows e) = [] ->
  indexScan.kvRanges e !! indexScan.ranCursor e = Some ran ->
  exists rest,
    indexScan.calls (indexScan.Next c e).2 = indexScan.calls e ++ pathCall e ran :: rest.
Proof.
  intros Hlock Hbuf Hran. apply is_buffer_empty in Hbuf.
  rewrite is_Next_checked by done. rewrite is_Next_loop_eq, Hbuf. cbv zeta.
  pose proof (lookup_lt_Some _ _ _ Hran) as Hlt.
  destruct (length (indexScan.kvRanges e) - indexScan.ranCursor e)%nat
    as [|fuel] eqn:Hfuel; [lia|].
  destruct (indexScan.fillRows_loop c (S fuel) _) as [r e1] eqn:E1.
  apply is_fillRows_loop_first_call with (ran := ran) in E1; [|done].
  destruct E1 as [rest Hrest].
  change (pathCall (indexScan.set_rows [] (indexScan.set_rowCursor 0 e)) ran)
    with (pathCall e ran) in Hrest.
  simpl in Hrest.
  destruct r as [[]|er]; [|by exists rest].
  destruct (bool_decide _); [by exists rest|].
  destruct (indexScan.Next_loop c 1 e1) as [r2 e2] eqn:E2.
  apply is_preserves_Next_loop in E2.
  destruct E2 as (_&_&_&_&_&_&_&_&_&_&_&_& rest2 & Hrest2 & _).
  exists (rest ++ rest2). simpl. rewrite Hrest2, Hrest.
  by rewrite <- app_assoc.
Qed.

(** With the buffer and the ranges used up, [Next] returns
    end-of-stream and calls nothing. *)
Lemma is_Next_exhausted c e :
  indexScan.ignoreLock e = true \/ indexScan.lockChecked e = true ->
  drop (indexScan.rowCursor e) (indexScan.rows e) = [] ->
  indexScan.kvRanges e !! indexScan.ranCursor e = None ->
  exists e', indexScan.Next c e = (OK None, e') /\
             indexScan.calls e' = indexScan.calls e.
Proof.
  intros Hlock Hbuf Hran. apply is_buffer_empty in Hbuf.
  rewrite is_Next_checked by done. rewrite is_Next_loop_eq, Hbuf. cbv zeta.
  apply lookup_ge_None in Hran.
  replace (length (indexScan.kvRanges e) - indexScan.ranCursor e)%nat with 0%nat by lia.
  simpl. eexists. split; [done|done].
Qed.

(** A failing point range: the error comes out of [Next] with the
    cursor already past the range. *)
Lemma is_point_failure c e ran err :
  indexScan.ignoreLock e = true \/ indexScan.lockChecked e = true ->
  drop (indexScan.rowCursor e) (indexScan.rows e) = [] ->
  indexScan.kvRanges e !! indexScan.ranCursor e = Some ran ->
  indexScan.isUnique e && IsPoint ran = true ->
  (Get (getDBReader (indexScan.reqCtx e)) (StartKey ran) (indexScan.startTS e) = Err err \/
   exists val,
     Get (getDBReader (indexScan.reqCtx e)) (StartKey ran) (indexScan.startTS e) = OK val /\
     val <> [] /\
     decodeIndexKV c (indexScan.colsLen e) (indexScan.pkStatus e) (StartKey ran) val
       = Err err) ->
  exists e',
    indexScan.Next c e = (Err err, e') /\
    indexScan.ranCursor e' = S (indexScan.ranCursor e) /\
    indexScan.seekKey e' = None /\
    indexScan.rows e' = [] /\ indexScan.rowCursor e' = 0%nat /\
    indexScan.calls e' =
      indexScan.calls e ++ [CallGet (StartKey ran) (indexScan.startTS e)] /\
    is_frame e e'.
Proof.
  intros Hlock Hbuf Hran Hpt Hfail. apply is_buffer_empty in Hbuf.
  rewrite is_Next_checked by done. rewrite is_Next_loop_eq, Hbuf. cbv zeta.
  pose proof (lookup_lt_Some _ _ _ Hran) as Hlt.
  destruct (length (indexScan.kvRanges e) - indexScan.ranCursor e)%nat
    as [|fuel] eqn:Hfuel; [lia|].
  rewrite is_fillRows_loop_eq.
  cbn [indexScan.kvRanges indexScan.ranCursor indexScan.set_rows indexScan.set_rowCursor].
  change (indexScan.isUnique (indexScan.set_rows [] (indexScan.set_rowCursor 0 e)))
    with (indexScan.isUnique e).
  rewrite Hran, Hpt.
  set (e0 := indexScan.set_rows [] (indexScan.set_rowCursor 0 e)).
  assert (exists e1, indexScan.fillRowsFromPoint c ran e0 = (Err err, e1) /\
            e1 = indexScan.log (CallGet (StartKey ran) (indexScan.startTS e)) e0)
    as (e1 & E1 & He1).
  { unfold indexScan.fillRowsFromPoint. st_simpl.
    destruct Hfail as [Hget|(val & Hget & Hval & Hdec)]; rewrite Hget; simpl.
    - by eexists.
    - destruct (decide (length val = 0)%nat) as [Hz|_].
      { by apply length_zero_iff_nil in Hz. }
      rewrite Hdec. simpl. by eexists. }
  rewrite E1. subst e1. eexists. split; [done|].
  simpl. repeat split; try done.
  exists [CallGet (StartKey ran) (indexScan.startTS e)]. split; [done|].
  by repeat constructor.
Qed.


(** ** The claims on both scans *)

(** C5, as stated, fails: once a range reports a lock, the flag
    [lockChecked] stays unset and the next [Next] checks the earlier
    ranges again. *)
Lemma checkRangeLock_repeats_after_lock :
  ~ (forall (c : Codec) (e : tableScan.exec) (n : nat) (ran : KeyRange),
       tableScan.ignoreLock e = false -> tableScan.lockChecked e = false ->
       tableScan.calls e = [] -> NoDup (tableScan.kvRanges e) ->
       ran ∈ tableScan.kvRanges e ->
       (count_occ StoreCall_eq_dec (tableScan.calls (nextN c n e))
          (checkCallOf (tableScan.startTS e) ran) <= 1)%nat).
Proof.
  intros H.
  specialize (H demoCodec
    (demoTableScan lockAtK5 demoSnapshot false
       [ {| StartKey := k1; EndKey := k3 |}; {| StartKey := k5; EndKey := k9 |} ])
    2%nat {| StartKey := k1; EndKey := k3 |} eq_refl eq_refl eq_refl).
  assert (NoDup [ {| StartKey := k1; EndKey := k3 |}; {| StartKey := k5; EndKey := k9 |} ])
    as Hnd.
  { apply NoDup_cons. split.
    - intros Hin. apply list_elem_of_singleton in Hin. discriminate Hin.
    - apply NoDup_singleton. }
  specialize (H Hnd). vm_compute in H.
  assert ({| StartKey := k1; EndKey := k3 |} ∈
          [ {| StartKey := k1; EndKey := k3 |}; {| StartKey := k5; EndKey := k9 |} ])
    as Hin by (by left).
  specialize (H Hin). lia.
Qed.

Example lock_demo :
  nextResults demoCodec 2
    (demoTableScan lockAtK5 demoSnapshot false
       [ {| StartKey := k1; EndKey := k3 |}; {| StartKey := k5; EndKey := k9 |} ])
  = [Err (Locked 99); Err (Locked 99)] /\
  tableScan.calls (nextN demoCodec 2
    (demoTableScan lockAtK5 demoSnapshot false
       [ {| StartKey := k1; EndKey := k3 |}; {| StartKey := k5; EndKey := k9 |} ]))
  = [ CallCheckRangeLock 100 k1 k3; CallCheckRangeLock 100 k5 k9;
      CallCheckRangeLock 100 k1 k3; CallCheckRangeLock 100 k5 k9 ].
Proof. split; reflexivity. Qed.

(** C5, amended. For a table or index scan that does not ignore locks:
    when no range is locked, [CheckRangeLock] is called once per range
    over the whole life of the scan, in range order and ahead of every
    reader call, hence of every row; when a range is locked, every
    [Next] returns that [Locked] error and the reader is never called,
    each such [Next] checking again the ranges up to the locked one. *)
Theorem lock_check_before_rows (c : Codec) :
  (forall e : tableScan.exec,
     tableScan.ignoreLock e = false -> tableScan.lockChecked e = false ->
     lockCheckSpec c e) /\
  (forall e : indexScan.exec,
     indexScan.ignoreLock e = false -> indexScan.lockChecked e = false ->
     lockCheckSpec c e).
Proof. split; [apply ts_lockCheckSpec|apply is_lockCheckSpec]. Qed.

Lemma lock_check_before_rows_witness :
  lockCheckSpec demoCodec
    (demoTableScan lockAtK5 demoSnapshot false
       [ {| StartKey := k1; EndKey := k3 |}; {| StartKey := k5; EndKey := k9 |} ]) /\
  lockCheckSpec demoCodec
    (demoIndexScan noLocks demoIndexSnapshot false None [ {| StartKey := i5; EndKey := i6 |} ]).
Proof.
  split.
  - apply (proj1 (lock_check_before_rows demoCodec)); reflexivity.
  - apply (proj2 (lock_check_before_rows demoCodec)); reflexivity.
Defined.


(** ** Counts *)

(** [Next] never writes the counts: neither the vector nor [start]. *)
Lemma ts_Next_keeps_counts c e r e' :
  tableScan.Next c e = (r, e') ->
  tableScan.counts e' = tableScan.counts e /\ tableScan.start e' = tableScan.start e.
Proof.
  intros H.
  destruct (tableScan.ignoreLock e) eqn:Hi.
  { rewrite ts_Next_checked in H by (by left).
    apply ts_preserves_Next_loop in H. by destruct H as (_&_&_&_&_&_&_&->&->&_). }
  destruct (tableScan.lockChecked e) eqn:Hl.
  { rewrite ts_Next_checked in H by (by right).
    apply ts_preserves_Next_loop in H. by destruct H as (_&_&_&_&_&_&_&->&->&_). }
  rewrite ts_Next_unchecked in H by done. cbv zeta in H.
  pose proof (ts_logs_fields
    (checkCallOf (tableScan.startTS e) <$>
       (lockPass (tableScan.mvccStore e) (tableScan.startTS e) (tableScan.kvRanges e)).1) e)
    as Hf.
  assert (forall xs e0, tableScan.counts (ts_logs xs e0) = tableScan.counts e0 /\
                        tableScan.start (ts_logs xs e0) = tableScan.start e0) as Hlogs.
  { unfold ts_logs. induction xs as [|x xs IH]; intros e0; [done|].
    simpl. by rewrite (proj1 (IH _)), (proj2 (IH _)). }
  destruct (lockPass _ _ _).2.
  - injection H as _ <-. apply Hlogs.
  - apply ts_preserves_Next_loop in H.
    destruct H as (_&_&_&_&_&_&_&->&->&_). simpl. apply Hlogs.
Qed.

(** C6 on the code: a scan over one point range emits its row, and the
    counts, read right after, still sum to zero. *)
Theorem counts_not_populated :
  let e0 := demoTableScan noLocks demoSnapshot false [ {| StartKey := k5; EndKey := k6 |} ] in
  exists (r : Row) (e1 : tableScan.exec),
    tableScan.Next demoCodec e0 = (OK (Some r), e1) /\
    tableScan.Counts e0 = OK (Some []) /\
    tableScan.Counts e1 = OK (Some [0]).
Proof.
  cbv zeta. eexists _, _. split; [vm_compute; reflexivity|].
  split; vm_compute; reflexivity.
Qed.

(** ** The key order is a strict total order *)

Lemma bytes_compare_antisym (a b : bytes) :
  bytes_compare b a = CompOpp (bytes_compare a b).
Proof.
  revert b. induction a as [|x a IH]; intros [|y b]; simpl; try done.
  rewrite (N.compare_antisym (byte_val x) (byte_val y)).
  destruct (byte_val x ?= byte_val y)%N; simpl; [apply IH|done|done].
Qed.

Lemma bytes_compare_eq (a b : bytes) : bytes_compare a b = Eq <-> a = b.
Proof.
  split; [|intros ->; apply bytes_compare_refl].
  revert b. induction a as [|x a IH]; intros [|y b]; simpl; try done.
  destruct (byte_val x ?= byte_val y)%N eqn:E; try done.
  intros H. apply N.compare_eq in E. apply byte_val_inj in E. subst y.
  f_equal. by apply IH.
Qed.

Lemma key_lt_trans (a b c : bytes) : key_lt a b -> key_lt b c -> key_lt a c.
Proof.
  unfold key_lt. revert b c.
  induction a as [|x a IH]; intros [|y b] [|z c]; simpl; try done.
  destruct (byte_val x ?= byte_val y)%N eqn:Exy;
    destruct (byte_val y ?= byte_val z)%N eqn:Eyz; try done.
  - apply N.compare_eq in Exy, Eyz. rewrite Exy, Eyz, N.compare_refl. apply IH.
  - apply N.compare_eq in Exy. rewrite Exy, Eyz. done.
  - apply N.compare_eq in Eyz. rewrite <- Eyz, Exy. done.
  - intros _ _. apply N.compare_lt_iff in Exy. apply N.compare_lt_iff in Eyz.
    replace (byte_val x ?= byte_val z)%N with Lt; [done|].
    symmetry. apply N.compare_lt_iff. by eapply N.lt_trans.
Qed.

Lemma key_lt_irrefl (a : bytes) : ~ key_lt a a.
Proof. unfold key_lt. by rewrite bytes_compare_refl. Qed.

Lemma key_le_lteq (a b : bytes) : key_le a b <-> key_lt a b \/ a = b.
Proof.
  unfold key_le, key_lt. rewrite <- bytes_compare_eq.
  destruct (bytes_compare a b); split; intros H; try done; try (by left); try (by right).
  by destruct H.
Qed.

Lemma key_lt_le_trans (a b c : bytes) : key_lt a b -> key_le b c -> key_lt a c.
Proof.
  intros Hab Hbc. apply key_le_lteq in Hbc as [Hbc| ->]; [|done].
  by eapply key_lt_trans.
Qed.

Lemma key_le_lt_trans (a b c : bytes) : key_le a b -> key_lt b c -> key_lt a c.
Proof.
  intros Hab Hbc. apply key_le_lteq in Hab as [Hab| ->]; [|done].
  by eapply key_lt_trans.
Qed.

Lemma key_le_trans (a b c : bytes) : key_le a b -> key_le b c -> key_le a c.
Proof.
  intros Hab Hbc. apply key_le_lteq in Hab as [Hab| ->]; [|done].
  apply key_le_lteq. left. by eapply key_lt_le_trans.
Qed.

Lemma key_lt_not_le (a b : bytes) : key_lt a b <-> ~ key_le b a.
Proof.
  unfold key_lt, key_le. rewrite (bytes_compare_antisym a b).
  destruct (bytes_compare a b); simpl; split; intros H; try done.
  - exfalso. by apply H.
  - intros H'. by apply H'.
  - exfalso. by apply H.
Qed.

Lemma key_ltb_lt (a b : bytes) : key_ltb a b = true <-> key_lt a b.
Proof. unfold key_ltb, key_lt. by destruct (bytes_compare a b). Qed.

Lemma key_leb_le (a b : bytes) : key_leb a b = true <-> key_le a b.
Proof. unfold key_leb, key_le. by destruct (bytes_compare a b). Qed.

Lemma inRange_spec (s e k : bytes) :
  inRange s e k = true <-> key_le s k /\ key_lt k e.
Proof. unfold inRange. by rewrite andb_true_iff, key_leb_le, key_ltb_lt. Qed.

(** Among keys of one length, [PrefixNext k] is the successor of [k]. *)
Lemma bytes_compare_snoc_same_length (p q : bytes) (x y : byte) :
  length p = length q ->
  bytes_compare (p ++ [x]) (q ++ [y]) =
  match bytes_compare p q with
  | Eq => (byte_val x ?= byte_val y)%N
  | c => c
  end.
Proof.
  revert q. induction p as [|a p IH]; intros [|b q] Hlen; try done.
  - simpl. by destruct (byte_val x ?= byte_val y)%N.
  - simpl in *. destruct (byte_val a ?= byte_val b)%N; [|done|done].
    apply IH. lia.
Qed.

Lemma PrefixNext_loop_app (pre suf : bytes) :
  PrefixNext_loop (pre ++ suf) (length pre) =
  match PrefixNext_loop pre (length pre) with
  | Some p => Some (p ++ suf)
  | None => None
  end.
Proof.
  revert suf. induction pre as [|b pre IH] using rev_ind; intros suf; [done|].
  rewrite length_app. change (length [b]) with 1%nat. rewrite Nat.add_1_r.
  rewrite <- app_assoc. change ([b] ++ suf) with (b :: suf).
  rewrite PrefixNext_loop_snoc.
  rewrite (PrefixNext_loop_snoc pre b []).
  destruct (decide (b = Byte.xff)).
  - rewrite (IH (Byte.x00 :: suf)), (IH [Byte.x00]).
    destruct (PrefixNext_loop pre (length pre)); [|done].
    by rewrite <- app_assoc.
  - by rewrite <- app_assoc.
Qed.

Lemma PrefixNext_loop_None (k : bytes) :
  PrefixNext_loop k (length k) = None <-> Forall (fun b => b = Byte.xff) k.
Proof.
  induction k as [|b k IH] using rev_ind; [by split; [constructor|]|].
  rewrite length_app. change (length [b]) with 1%nat. rewrite Nat.add_1_r.
  rewrite PrefixNext_loop_snoc, Forall_app, Forall_singleton.
  destruct (decide (b = Byte.xff)) as [->|Hb].
  - rewrite (PrefixNext_loop_app k [Byte.x00]).
    destruct (PrefixNext_loop k (length k)) eqn:E.
    + split; [done|]. intros [H _]. apply IH in H. done.
    + split; [|done]. intros _. split; [by apply IH|done].
  - split; [done|]. by intros [_ ?].
Qed.

Lemma key_lt_snoc (p q : bytes) (x y : byte) :
  length p = length q ->
  key_lt (p ++ [x]) (q ++ [y]) <->
  key_lt p q \/ (p = q /\ (byte_val x < byte_val y)%N).
Proof.
  intros Hlen. unfold key_lt. rewrite bytes_compare_snoc_same_length by done.
  rewrite <- (N.compare_lt_iff (byte_val x)), <- bytes_compare_eq.
  destruct (bytes_compare p q); split; intros H; try done.
  - by right.
  - by destruct H as [H|[_ H]].
  - by left.
  - by destruct H as [H|[H _]].
Qed.

Lemma key_le_snoc (p q : bytes) (x y : byte) :
  length p = length q ->
  key_le (p ++ [x]) (q ++ [y]) <->
  key_lt p q \/ (p = q /\ (byte_val x <= byte_val y)%N).
Proof.
  intros Hlen. unfold key_le, key_lt.
  rewrite bytes_compare_snoc_same_length by done.
  rewrite <- (N.compare_le_iff (byte_val x)), <- bytes_compare_eq.
  destruct (bytes_compare p q); split; intros H; try done.
  - by right.
  - by destruct H as [H|[_ H]].
  - by left.
  - by destruct H as [H|[H _]].
Qed.

Lemma PrefixNext_loop_successor (a : bytes) :
  forall k, length a = length k ->
  match PrefixNext_loop a (length a) with
  | Some p => length p = length a /\ (key_lt a k <-> key_le p k)
  | None => ~ key_lt a k
  end.
Proof.
  induction a as [|x a IH] using rev_ind; intros k Hlen.
  - destruct k; [|done]. apply key_lt_irrefl.
  - destruct k as [|y k _] using rev_ind;
      [rewrite length_app in Hlen; simpl in Hlen; lia|].
    rewrite !length_app in Hlen. simpl in Hlen.
    assert (length a = length k) as Hl by lia.
    specialize (IH k Hl).
    rewrite length_app. change (length [x]) with 1%nat. rewrite Nat.add_1_r.
    rewrite PrefixNext_loop_snoc.
    pose proof (byte_val_lt y) as Hy.
    destruct (decide (x = Byte.xff)) as [->|Hx].
    + rewrite (PrefixNext_loop_app a [Byte.x00]).
      destruct (PrefixNext_loop a (length a)) as [p|].
      * destruct IH as [Hp IH]. split; [rewrite !length_app; simpl; lia|].
        rewrite key_lt_snoc, key_le_snoc by congruence.
        change (byte_val Byte.xff) with 255%N. change (byte_val Byte.x00) with 0%N.
        rewrite IH, (key_le_lteq p k). split.
        -- intros [H|[_ H]]; [|lia]. destruct H as [H| ->]; [by left|].
           right. split; [done|lia].
        -- intros [H|[-> _]]; left; [by left|by right].
      * rewrite key_lt_snoc by done. change (byte_val Byte.xff) with 255%N.
        intros [H|[_ H]]; [done|lia].
    + split; [rewrite !length_app; simpl; lia|].
      rewrite key_lt_snoc, key_le_snoc by done.
      rewrite byte_val_inc_small by done.
      split; (intros [H|[-> H]]; [by left|right; split; [done|lia]]).
Qed.

Lemma key_lt_app_r (a b : bytes) : b <> [] -> key_lt a (a ++ b).
Proof.
  intros Hb. unfold key_lt. rewrite <- (app_nil_r a) at 1.
  rewrite bytes_compare_app. by destruct b.
Qed.

(** [PrefixNext a] is the least key of the length of [a] above [a]. *)
Lemma PrefixNext_successor (a k : bytes) :
  length a = length k -> key_lt a k <-> key_le (PrefixNext a) k.
Proof.
  intros Hlen. pose proof (PrefixNext_loop_successor a k Hlen) as H.
  unfold PrefixNext. destruct (PrefixNext_loop a (length a)) as [p|].
  - by destruct H.
  - split; [done|]. intros Hle. exfalso.
    assert (key_lt a (a ++ [Byte.x00])) as Hlt by (by apply key_lt_app_r).
    apply H. by eapply key_lt_le_trans.
Qed.

Lemma PrefixNext_gt (a : bytes) : key_lt a (PrefixNext a).
Proof.
  unfold PrefixNext.
  pose proof (PrefixNext_loop_successor a) as H.
  destruct (PrefixNext_loop a (length a)) as [p|] eqn:E.
  - destruct (H p) as [Hp Hiff].
    + specialize (H a eq_refl) as [Hp _]. done.
    + apply Hiff. apply key_le_refl.
  - by apply key_lt_app_r.
Qed.

(** A point range over keys of the length of its start key holds the
    start key only. *)
Lemma point_range_keys (s k : bytes) :
  length s = length k ->
  inRange s (PrefixNext s) k = true <-> k = s.
Proof.
  intros Hlen. rewrite inRange_spec. split.
  - intros [Hle Hlt]. apply key_le_lteq in Hle as [Hle|Hle]; [|done].
    exfalso. apply (PrefixNext_successor s k Hlen) in Hle.
    apply key_lt_not_le in Hlt. done.
  - intros ->. split; [apply key_le_refl|apply PrefixNext_gt].
Qed.

(** [prefixPrev k], when there is one, is below [k]. *)
Lemma prefixPrev_loop_lt (pre suf : bytes) :
  forall p, prefixPrev_loop (pre ++ suf) (length pre) = Some p ->
  exists p', p = p' ++ suf /\ length p' = length pre /\ key_lt p' pre.
Proof.
  revert suf. induction pre as [|b pre IH] using rev_ind; intros suf p H; [done|].
  rewrite length_app in H. change (length [b]) with 1%nat in H.
  rewrite Nat.add_1_r, <- app_assoc in H. change ([b] ++ suf) with (b :: suf) in H.
  rewrite prefixPrev_loop_snoc in H.
  destruct (decide (b = Byte.x00)) as [->|Hb].
  - apply IH in H as (p' & -> & Hl & Hlt).
    exists (p' ++ [Byte.xff]). split; [by rewrite <- app_assoc|].
    split; [rewrite !length_app; simpl; lia|].
    apply key_lt_snoc; [done|by left].
  - injection H as <-. exists (pre ++ [byte_dec b]).
    split; [by rewrite <- app_assoc|]. split; [rewrite !length_app; simpl; lia|].
    apply key_lt_snoc; [done|]. right. split; [done|].
    pose proof (byte_val_dec_pos b Hb). lia.
Qed.

Lemma prefixPrev_lt (k p : bytes) : prefixPrev k = Some p -> key_lt p k.
Proof.
  unfold prefixPrev. intros H.
  rewrite <- (app_nil_r k) in H at 1.
  apply prefixPrev_loop_lt in H as (p' & -> & _ & Hlt). by rewrite app_nil_r.
Qed.

Lemma prefixPrev_loop_None (pre suf : bytes) :
  prefixPrev_loop (pre ++ suf) (length pre) = None ->
  Forall (fun b => b = Byte.x00) pre.
Proof.
  revert suf. induction pre as [|b pre IH] using rev_ind; intros suf H; [constructor|].
  rewrite length_app in H. change (length [b]) with 1%nat in H.
  rewrite Nat.add_1_r, <- app_assoc in H. change ([b] ++ suf) with (b :: suf) in H.
  rewrite prefixPrev_loop_snoc in H.
  destruct (decide (b = Byte.x00)) as [->|Hb]; [|done].
  apply Forall_app. split; [by eapply IH|by constructor].
Qed.

Lemma prefixPrev_None (k : bytes) :
  prefixPrev k = None -> Forall (fun b => b = Byte.x00) k.
Proof.
  unfold prefixPrev. intros H. rewrite <- (app_nil_r k) in H at 1.
  by apply prefixPrev_loop_None in H.
Qed.

(** ** Sorted snapshots and their ranges *)

Lemma StronglySorted_filter {A} (R : A -> A -> Prop) (f : A -> bool) (l : list A) :
  StronglySorted R l -> StronglySorted R (List.filter f l).
Proof.
  induction 1 as [|x l Hl IH Hx]; simpl; [constructor|].
  destruct (f x); [|done].
  constructor; [done|].
  apply List.Forall_forall. intros y Hy. apply List.filter_In in Hy as [Hy _].
  by eapply List.Forall_forall in Hx.
Qed.

Lemma List_filter_filter {A} (f g : A -> bool) (l : list A) :
  List.filter f (List.filter g l) = List.filter (fun x => g x && f x) l.
Proof.
  induction l as [|x l IH]; simpl; [done|].
  destruct (g x); simpl; [|done]. destruct (f x); by rewrite IH.
Qed.

Lemma List_filter_nil {A} (f : A -> bool) (l : list A) :
  (forall x, In x l -> f x = false) -> List.filter f l = [].
Proof.
  induction l as [|x l IH]; intros H; simpl; [done|].
  rewrite (H x) by (by left). apply IH. intros y Hy. apply H. by right.
Qed.

Lemma List_filter_all {A} (f : A -> bool) (l : list A) :
  (forall x, In x l -> f x = true) -> List.filter f l = l.
Proof.
  induction l as [|x l IH]; intros H; simpl; [done|].
  rewrite (H x) by (by left). f_equal. apply IH. intros y Hy. apply H. by right.
Qed.

(** In a sorted list, the elements above one of its elements are those
    after it. *)
Lemma filter_gt_sorted (l1 l2 : list (bytes * bytes)) (x : bytes * bytes) :
  StronglySorted kv_lt (l1 ++ x :: l2) ->
  List.filter (fun kv => key_ltb x.1 kv.1) (l1 ++ x :: l2) = l2.
Proof.
  intros Hs. apply StronglySorted_app in Hs as (H12 & _ & Hs2).
  apply StronglySorted_cons in Hs2 as [Hx _].
  rewrite List.filter_app. simpl.
  rewrite List_filter_nil, List_filter_all; simpl.
  - replace (key_ltb x.1 x.1) with false; [done|].
    symmetry. apply not_true_is_false. rewrite key_ltb_lt. apply key_lt_irrefl.
  - intros y Hy. apply key_ltb_lt.
    rewrite Forall_forall in Hx. apply Hx. by apply list_elem_of_In.
  - intros y Hy. apply not_true_is_false. rewrite key_ltb_lt. intros Hlt.
    assert (kv_lt y x) as Hyx.
    { apply H12; [by apply list_elem_of_In|by left]. }
    apply (key_lt_irrefl x.1). by eapply key_lt_trans.
Qed.

Section Snapshot.
Context (L : nat) (snap : list (bytes * bytes)) (Hsnap : snapshotOK L snap).

Lemma pairsIn_sorted s e : StronglySorted kv_lt (pairsIn snap s e).
Proof. apply StronglySorted_filter, Hsnap. Qed.

Lemma pairsIn_In s e kv :
  In kv (pairsIn snap s e) <-> In kv snap /\ key_le s kv.1 /\ key_lt kv.1 e.
Proof. unfold pairsIn. by rewrite List.filter_In, inRange_spec. Qed.

Lemma snap_key_length kv : In kv snap -> length kv.1 = L.
Proof.
  intros H. pose proof (snap_len L snap Hsnap) as Hl.
  rewrite Forall_forall in Hl. apply Hl. by apply list_elem_of_In.
Qed.

(** Forward: after a batch that ended at [x], the scan from
    [PrefixNext] of its key visits what the range still holds. *)
Lemma pairsIn_after (s e : bytes) (l1 l2 : list (bytes * bytes)) (x : bytes * bytes) :
  pairsIn snap s e = l1 ++ x :: l2 ->
  pairsIn snap (PrefixNext x.1) e = l2.
Proof.
  intros HP.
  assert (In x (pairsIn snap s e)) as Hx
    by (rewrite HP; apply in_or_app; right; by left).
  apply pairsIn_In in Hx as (Hxin & Hsx & Hxe).
  rewrite <- (filter_gt_sorted l1 l2 x) by (rewrite <- HP; apply pairsIn_sorted).
  rewrite <- HP. unfold pairsIn. rewrite List_filter_filter.
  apply List.filter_ext_in. intros kv Hkv.
  apply eq_true_iff_eq. rewrite andb_true_iff, !inRange_spec, key_ltb_lt.
  rewrite <- (PrefixNext_successor x.1 kv.1)
    by (by rewrite !snap_key_length).
  split.
  - intros [Hlt Hke]. split; [|done]. split; [|done].
    apply key_le_lteq. left. by eapply key_le_lt_trans.
  - by intros [[_ Hke] Hlt].
Qed.

(** Keys are unique in a sorted snapshot. *)
Lemma snap_key_unique kv kv' :
  In kv snap -> In kv' snap -> kv.1 = kv'.1 -> kv = kv'.
Proof.
  pose proof (snap_sorted L snap Hsnap) as Hs. clear Hsnap.
  induction Hs as [|x l Hl IH Hx]; [done|].
  intros [->|Hin] [->|Hin'] Heq; try done.
  - exfalso. eapply List.Forall_forall in Hx; [|exact Hin'].
    unfold kv_lt in Hx. rewrite Heq in Hx. by apply key_lt_irrefl in Hx.
  - exfalso. eapply List.Forall_forall in Hx; [|exact Hin].
    unfold kv_lt in Hx. rewrite Heq in Hx. by apply key_lt_irrefl in Hx.
  - by apply IH.
Qed.

Lemma snapshotGet_In kv : In kv snap -> snapshotGet snap kv.1 = kv.2.
Proof.
  intros Hin. unfold snapshotGet.
  destruct (List.find _ snap) as [kv'|] eqn:E.
  - apply List.find_some in E as [Hin' Heq].
    apply bool_decide_eq_true_1 in Heq.
    by rewrite (snap_key_unique kv' kv Hin' Hin Heq).
  - eapply List.find_none in E; [|exact Hin].
    by apply bool_decide_eq_false_1 in E.
Qed.

Lemma snapshotGet_not_In k :
  (forall kv, In kv snap -> kv.1 <> k) -> snapshotGet snap k = [].
Proof.
  intros Hno. unfold snapshotGet.
  destruct (List.find _ snap) as [kv'|] eqn:E; [|done].
  apply List.find_some in E as [Hin' Heq].
  apply bool_decide_eq_true_1 in Heq. by apply Hno in Hin'.
Qed.

(** A point range holds the pair [Get] finds, if any. *)
Lemma pairsIn_point (s : bytes) :
  length s = L ->
  pairsIn snap s (PrefixNext s) =
  if decide (snapshotGet snap s = []) then [] else [(s, snapshotGet snap s)].
Proof.
  intros Hlen.
  assert (forall kv, In kv snap ->
            inRange s (PrefixNext s) kv.1 = bool_decide (kv.1 = s)) as Hpt.
  { intros kv Hkv. apply eq_true_iff_eq.
    rewrite point_range_keys by (by rewrite snap_key_length).
    by rewrite bool_decide_eq_true. }
  unfold pairsIn. rewrite (List.filter_ext_in _ _ snap Hpt).
  assert ((exists kv, In kv snap /\ kv.1 = s) \/
          (forall kv, In kv snap -> kv.1 <> s)) as [(kv & Hin & <-)|Hno].
  { destruct (List.find (fun kv => bool_decide (kv.1 = s)) snap) as [kv|] eqn:E.
    - apply List.find_some in E as [Hin Heq]. apply bool_decide_eq_true_1 in Heq.
      left. by exists kv.
    - right. intros kv Hin. eapply List.find_none in E; [|exact Hin].
      by apply bool_decide_eq_false_1 in E. }
  - rewrite (snapshotGet_In kv Hin).
    pose proof (snap_vals L snap Hsnap) as Hv. rewrite Forall_forall in Hv.
    rewrite decide_False by (apply Hv; by apply list_elem_of_In).
    apply in_split in Hin as (l1 & l2 & Hsplit).
    pose proof (snap_sorted L snap Hsnap) as Hs. rewrite Hsplit in Hs |- *.
    apply StronglySorted_app in Hs as (H12 & _ & Hs2).
    apply StronglySorted_cons in Hs2 as [Hx _].
    rewrite List.filter_app. simpl.
    rewrite bool_decide_eq_true_2 by done.
    rewrite !List_filter_nil; [by destruct kv| |].
    + intros y Hy. apply bool_decide_eq_false_2. intros E.
      rewrite Forall_forall in Hx. specialize (Hx y).
      unfold kv_lt in Hx. rewrite E in Hx.
      apply (key_lt_irrefl kv.1), Hx. by apply list_elem_of_In.
    + intros y Hy. apply bool_decide_eq_false_2. intros E.
      assert (kv_lt y kv) as Hlt by (apply H12; [by apply list_elem_of_In|by left]).
      unfold kv_lt in Hlt. rewrite E in Hlt. by apply key_lt_irrefl in Hlt.
  - rewrite snapshotGet_not_In by done. rewrite decide_True by done.
    apply List_filter_nil. intros kv Hin. apply bool_decide_eq_false_2.
    by apply Hno.
Qed.
End Snapshot.

(** ** The ranges of a scan, one after the other, make up their union *)

Lemma filter_orb_sorted (p q : bytes * bytes -> bool) (l : list (bytes * bytes)) :
  StronglySorted kv_lt l ->
  (forall x y, In x l -> In y l -> p x = true -> q y = true -> kv_lt x y) ->
  List.filter (fun x => p x || q x) l = List.filter p l ++ List.filter q l.
Proof.
  induction 1 as [|x l Hl IH Hx]; intros Hsep; simpl; [done|].
  assert (forall a b, In a l -> In b l -> p a = true -> q b = true -> kv_lt a b) as Hsep'.
  { intros a b Ha Hb. apply Hsep; by right. }
  specialize (IH Hsep').
  destruct (p x) eqn:Hp; simpl.
  - destruct (q x) eqn:Hq.
    + exfalso. apply (key_lt_irrefl x.1). apply (Hsep x x); done || by left.
    + by rewrite IH.
  - destruct (q x) eqn:Hq; [|done].
    rewrite IH, (List_filter_nil p l); [done|].
    intros y Hy. apply not_true_is_false. intros Hpy.
    assert (kv_lt y x) as Hyx by (apply Hsep; [by right|by left|done|done]).
    eapply List.Forall_forall in Hx; [|exact Hy].
    apply (key_lt_irrefl x.1). by eapply key_lt_trans.
Qed.

Lemma rangesAscending_cons r rs :
  rangesAscending (r :: rs) ->
  rangesAscending rs /\ forall r', In r' rs -> key_le (EndKey r) (StartKey r').
Proof.
  intros H. split.
  - intros i j a b Hij Ha Hb. by apply (H (S i) (S j)); [lia|..].
  - intros r' Hin. apply list_elem_of_In, list_elem_of_lookup in Hin as [j Hj].
    by apply (H 0%nat (S j)); [lia|..].
Qed.

Lemma inRanges_spec rs k :
  inRanges rs k = true <->
  exists r, In r rs /\ inRange (StartKey r) (EndKey r) k = true.
Proof. unfold inRanges. apply List.existsb_exists. Qed.

Lemma concat_ranges_filter (snap : list (bytes * bytes)) (rs : list KeyRange) :
  StronglySorted kv_lt snap -> rangesAscending rs ->
  concat ((fun r => pairsIn snap (StartKey r) (EndKey r)) <$> rs) =
  List.filter (fun kv => inRanges rs kv.1) snap.
Proof.
  intros Hs. induction rs as [|r rs IH]; intros Hasc.
  - simpl. symmetry. by apply List_filter_nil.
  - apply rangesAscending_cons in Hasc as [Hasc Hr].
    rewrite fmap_cons. cbn [concat].
    rewrite IH by done. unfold pairsIn. cbn [inRanges existsb].
    rewrite <- (filter_orb_sorted (fun kv => inRange (StartKey r) (EndKey r) kv.1)
                  (fun kv => inRanges rs kv.1)); [done|done|].
    intros x y _ _ Hx Hy. apply inRange_spec in Hx as [_ Hx].
    apply inRanges_spec in Hy as (r' & Hr' & Hy). apply inRange_spec in Hy as [Hy _].
    unfold kv_lt. eapply key_lt_le_trans; [exact Hx|].
    eapply key_le_trans; [by apply Hr|done].
Qed.

Lemma concat_rev_fmap {A B} (f : A -> list B) (l : list A) :
  concat ((fun x => rev (f x)) <$> l) = rev (concat (f <$> rev l)).
Proof.
  induction l as [|x l IH]; [done|].
  rewrite fmap_cons. cbn [concat rev].
  rewrite fmap_app, concat_app, rev_app_distr, IH. simpl.
  by rewrite app_nil_r.
Qed.

Lemma inRanges_rev rs k : inRanges (rev rs) k = inRanges rs k.
Proof.
  apply eq_true_iff_eq. rewrite !inRanges_spec.
  split; intros (r & Hin & H); exists r; (split; [|done]).
  - by apply List.in_rev.
  - by apply List.in_rev in Hin.
Qed.

(** The pairs of the ranges, range after range in list order and each
    range in scan direction, are the expected pairs. *)
Lemma concat_ranges_expected (snap : list (bytes * bytes)) (desc : bool)
    (rs : list KeyRange) :
  StronglySorted kv_lt snap ->
  rangesAscending (scanDir desc rs) ->
  concat ((fun r => scanDir desc (pairsIn snap (StartKey r) (EndKey r))) <$> rs) =
  expectedPairs desc rs snap.
Proof.
  intros Hs Hasc. unfold expectedPairs. destruct desc; simpl in *.
  - rewrite (concat_rev_fmap (fun r => pairsIn snap (StartKey r) (EndKey r))).
    rewrite concat_ranges_filter by done.
    f_equal. apply List.filter_ext. intros kv. apply inRanges_rev.
  - by apply concat_ranges_filter.
Qed.

(** ** Table scan over a snapshot: what a scan call buffers *)

Lemma ts_scanVisit_ok (c : Codec) (limit : nat) :
  forall (pairs : list (bytes * bytes)) (lk : option bytes) (e : tableScan.exec),
  Forall (fun kv => exists r,
            decodeKV c (tableScan.Columns e) (tableScan.colIDs e) kv = OK r)
         (take limit pairs) ->
  scanVisit (tableScan.scanFunc c) limit pairs (lk, e) =
  (OK tt,
   (match last (take limit pairs) with Some kv => Some kv.1 | None => lk end,
    tableScan.set_rows
      (tableScan.rows e ++
       (decodeRow c (tableScan.Columns e) (tableScan.colIDs e) <$> take limit pairs))
      e)).
Proof.
  induction limit as [|n IH]; intros pairs lk e Hdec.
  - destruct pairs; simpl; rewrite app_nil_r; by destruct e.
  - destruct pairs as [|[k v] ps]; [simpl; rewrite app_nil_r; by destruct e|].
    rewrite firstn_cons in Hdec |- *.
    apply Forall_cons in Hdec as [(r & Hr) Hdec].
    cbn [scanVisit]. unfold st_bind at 1.
    assert (tableScan.scanFunc c k v (lk, e) =
            (OK tt, (Some k, tableScan.set_rows (tableScan.rows e ++ [r]) e))) as ->.
    { unfold tableScan.scanFunc, safeCopy. st_simpl. unfold decodeKV in Hr. simpl in Hr.
      destruct (decodeRowKey c k) as [h|]; simpl in *; [|done].
      by rewrite Hr. }
    rewrite IH by done. cbn [tableScan.Columns tableScan.colIDs tableScan.rows tableScan.set_rows].
    f_equal. f_equal.
    + rewrite last_cons. by destruct (last (take n ps)).
    + rewrite fmap_cons. unfold decodeRow at 2. rewrite Hr.
      rewrite <- app_assoc. by destruct e.
Qed.

Lemma lookup_In {A} (l : list A) i x : l !! i = Some x -> In x l.
Proof. intros H. apply list_elem_of_In. by eapply list_elem_of_lookup_2. Qed.

Lemma ts_set_seekKey_same e : tableScan.set_seekKey (tableScan.seekKey e) e = e.
Proof. by destruct e. Qed.

(** [fillRowsFromRange], unfolded. *)
Lemma ts_fillRowsFromRange_eq c r e :
  tableScan.fillRowsFromRange c r e =
  let seek := default (if tableScan.Desc e then EndKey r else StartKey r)
                (tableScan.seekKey e) in
  let reader := getDBReader (tableScan.reqCtx e) in
  let ts := tableScan.startTS e in
  let call := if tableScan.Desc e then CallReverseScan (StartKey r) seek scanLimit ts
              else CallScan seek (EndKey r) scanLimit ts in
  let pairs := if tableScan.Desc e then ReverseScanPairs reader (StartKey r) seek ts
               else ScanPairs reader seek (EndKey r) ts in
  match scanVisit (tableScan.scanFunc c) scanLimit pairs
          (None, tableScan.log call (tableScan.set_seekKey (Some seek) e)) with
  | (OK _, (Some lk, e1)) =>
      (OK tt, tableScan.set_seekKey
                (if tableScan.Desc e then prefixPrev lk else Some (PrefixNext lk)) e1)
  | (OK _, (None, e1)) => (OK tt, e1)
  | (Err er, (_, e1)) => (Err er, e1)
  end.
Proof.
  unfold tableScan.fillRowsFromRange.
  unfold mbind at 1. unfold ST_bind, st_bind, st_get.
  unfold mbind at 1. unfold ST_bind, st_bind.
  set (seek := default (if tableScan.Desc e then EndKey r else StartKey r)
                 (tableScan.seekKey e)).
  assert ((if bool_decide (tableScan.seekKey e = None)
           then if tableScan.Desc e
                then st_modify (tableScan.set_seekKey (Some (EndKey r)))
                else st_modify (tableScan.set_seekKey (Some (StartKey r)))
           else mret tt) e = (OK tt, tableScan.set_seekKey (Some seek) e)) as ->.
  { unfold seek. destruct (tableScan.seekKey e) eqn:Es; simpl.
    - by rewrite <- Es, ts_set_seekKey_same.
    - by destruct (tableScan.Desc e). }
  unfold mbind at 1. unfold ST_bind, st_bind, st_get.
  unfold mbind at 1. unfold ST_bind, st_bind.
  cbn [tableScan.Desc tableScan.seekKey tableScan.set_seekKey tableScan.reqCtx
       tableScan.startTS default from_option id]. cbv zeta.
  destruct (tableScan.Desc e).
  - unfold mbind at 1. unfold ST_bind, st_bind, st_modify.
    unfold tableScan.withLastKey, ReverseScan.
    destruct (scanVisit _ _ _ _) as [[[]|er] [lk e1]]; [|done].
    by destruct lk.
  - unfold mbind at 1. unfold ST_bind, st_bind, st_modify.
    unfold tableScan.withLastKey, Scan.
    destruct (scanVisit _ _ _ _) as [[[]|er] [lk e1]]; [|done].
    by destruct lk.
Qed.

Section TableScanCoverage.
Context (c : Codec) (L : nat) (snap : list (bytes * bytes)) (desc : bool).
Context (ranges : list KeyRange) (cols : list ColumnInfo) (colIDs : gmap Z nat).
Context (Hsnap : snapshotOK L snap).
Context (Hpoint : forall r, In r ranges -> IsPoint r = true -> length (StartKey r) = L).
Context (Hzero : desc = true ->
                 forall kv, In kv snap -> ~ Forall (fun b => b = Byte.x00) kv.1).
Context (Hbatch : desc = true ->
                  forall r, In r ranges ->
                    (length (pairsIn snap (StartKey r) (EndKey r)) <= scanLimit)%nat).
Context (Hdec : forall kv, In kv snap -> inRanges ranges kv.1 = true ->
                  exists r, decodeKV c cols colIDs kv = OK r).

(** The pairs of a range, in scan direction. *)
Definition rangePairs (r : KeyRange) : list (bytes * bytes) :=
  scanDir desc (pairsIn snap (StartKey r) (EndKey r)).

(** The pairs of the range under the cursor that are still to be read. *)
Definition pendingPairs (e : tableScan.exec) : list (bytes * bytes) :=
  match ranges !! tableScan.rangeCursor e with
  | None => []
  | Some r =>
      match tableScan.seekKey e with
      | None => rangePairs r
      | Some s =>
          if desc then rev (pairsIn snap (StartKey r) s)
          else pairsIn snap s (EndKey r)
      end
  end.

(** The pairs of the ranges after the cursor. *)
Definition laterPairs (e : tableScan.exec) : list (bytes * bytes) :=
  concat (rangePairs <$> drop (S (tableScan.rangeCursor e)) ranges).

(** The rows a scan in state [e] has yet to emit. *)
Definition remaining (e : tableScan.exec) : list Row :=
  drop (tableScan.rowCursor e) (tableScan.rows e) ++
  (decodeRow c cols colIDs <$> (pendingPairs e ++ laterPairs e)).

(** The states of a scan of [ranges] over [snap], between two calls. *)
Definition scanInv (e : tableScan.exec) : Prop :=
  tableScan.Desc e = desc /\
  tableScan.Columns e = cols /\
  tableScan.colIDs e = colIDs /\
  tableScan.kvRanges e = ranges /\
  getDBReader (tableScan.reqCtx e) = snapshotReader snap /\
  (forall r, ranges !! tableScan.rangeCursor e = Some r -> IsPoint r = true ->
             tableScan.seekKey e = None) /\
  (forall r s, ranges !! tableScan.rangeCursor e = Some r ->
               tableScan.seekKey e = Some s ->
               if desc then pairsIn snap (StartKey r) s = []
               else key_le (StartKey r) s).

Lemma range_pairs_decode r kv :
  In r ranges -> In kv (pairsIn snap (StartKey r) (EndKey r)) ->
  exists row, decodeKV c cols colIDs kv = OK row.
Proof.
  intros Hr Hkv. unfold pairsIn in Hkv. apply List.filter_In in Hkv as [Hin Hrange].
  apply Hdec; [done|]. apply inRanges_spec. by exists r.
Qed.


Lemma IsPoint_end r : IsPoint r = true -> EndKey r = PrefixNext (StartKey r).
Proof. unfold IsPoint. intros H. by apply bool_decide_eq_true_1 in H. Qed.

Lemma scanDir_short {A} (l : list A) : (length l <= 1)%nat -> scanDir desc l = l.
Proof.
  unfold scanDir. destruct desc; [|done].
  destruct l as [|x [|y l]]; simpl; intros H; try done. lia.
Qed.

(** The point path buffers the pairs of the point range. *)
Lemma ts_point_step e r :
  scanInv e -> ranges !! tableScan.rangeCursor e = Some r -> IsPoint r = true ->
  exists e1,
    tableScan.fillRowsFromPoint c r e = (OK tt, e1) /\
    ts_frame e e1 /\
    tableScan.rows e1 = tableScan.rows e ++ (decodeRow c cols colIDs <$> rangePairs r) /\
    tableScan.seekKey e1 = tableScan.seekKey e /\
    tableScan.rangeCursor e1 = tableScan.rangeCursor e /\
    tableScan.rowCursor e1 = tableScan.rowCursor e.
Proof.
  intros (Hd & Hc & Hi & Hr & Hrd & _) Hran Hpt.
  pose proof (lookup_In _ _ _ Hran) as Hin.
  pose proof (Hpoint r Hin Hpt) as Hlen.
  pose proof (pairsIn_point L snap Hsnap (StartKey r) Hlen) as HP.
  rewrite <- (IsPoint_end r Hpt) in HP.
  unfold rangePairs. rewrite scanDir_short
    by (rewrite HP; destruct (decide _); simpl; lia).
  unfold tableScan.fillRowsFromPoint. st_simpl. rewrite Hrd. simpl.
  destruct (decide (snapshotGet snap (StartKey r) = [])) as [Hg|Hg].
  - rewrite decide_True by (by rewrite Hg). rewrite HP. simpl.
    eexists. split; [done|]. split; [apply ts_frame_log; exact I|].
    simpl. by rewrite app_nil_r.
  - rewrite decide_False by (by intros ?%length_zero_iff_nil).
    destruct (range_pairs_decode r (StartKey r, snapshotGet snap (StartKey r)) Hin)
      as [row Hrow]; [rewrite HP; by left|].
    rewrite HP. simpl. unfold decodeRow. rewrite Hrow.
    unfold decodeKV in Hrow. simpl in Hrow. rewrite Hc, Hi.
    destruct (decodeRowKey c (StartKey r)) as [h|]; simpl in *; [|done].
    rewrite Hrow. simpl.
    eexists. split; [done|]. split; [|done].
    eapply ts_frame_trans; [|apply ts_frame_set_rows].
    apply ts_frame_log. exact I.
Qed.

Lemma pendingPairs_eq e r :
  tableScan.Desc e = desc -> ranges !! tableScan.rangeCursor e = Some r ->
  pendingPairs e =
  let seek := default (if desc then EndKey r else StartKey r) (tableScan.seekKey e) in
  if desc then rev (pairsIn snap (StartKey r) seek) else pairsIn snap seek (EndKey r).
Proof.
  intros Hd Hran. unfold pendingPairs, rangePairs, scanDir. rewrite Hran.
  destruct (tableScan.seekKey e); simpl; by destruct desc.
Qed.

Lemma pendingPairs_in_range e r kv :
  scanInv e -> ranges !! tableScan.rangeCursor e = Some r ->
  In kv (pendingPairs e) -> In kv (pairsIn snap (StartKey r) (EndKey r)).
Proof.
  intros (Hd & _ & _ & _ & _ & _ & Hseek) Hran.
  unfold pendingPairs, rangePairs, scanDir. rewrite Hran.
  destruct (tableScan.seekKey e) as [s|] eqn:Es.
  - specialize (Hseek r s Hran eq_refl). destruct desc.
    + by rewrite Hseek.
    + rewrite !pairsIn_In. intros (Hin & Hle & Hlt).
      split; [done|]. split; [|done]. by eapply key_le_trans.
  - destruct desc; [|done]. intros H. by apply List.in_rev in H.
Qed.

(** The scan path buffers the next batch of the range; the seek key it
    leaves resumes right after the batch. *)
Lemma ts_range_step e r :
  scanInv e -> ranges !! tableScan.rangeCursor e = Some r -> IsPoint r = false ->
  exists e1,
    tableScan.fillRowsFromRange c r e = (OK tt, e1) /\
    ts_frame e e1 /\
    tableScan.rangeCursor e1 = tableScan.rangeCursor e /\
    tableScan.rowCursor e1 = tableScan.rowCursor e /\
    tableScan.rows e1 =
      tableScan.rows e ++ (decodeRow c cols colIDs <$> take scanLimit (pendingPairs e)) /\
    (take scanLimit (pendingPairs e) = [] -> pendingPairs e = []) /\
    (take scanLimit (pendingPairs e) <> [] ->
       pendingPairs e1 = drop scanLimit (pendingPairs e) /\ scanInv e1).
Proof.
  intros Hinv Hran Hnpt.
  pose proof Hinv as (Hd & Hc & Hi & Hr & Hrd & Hptinv & Hseek).
  pose proof (lookup_In _ _ _ Hran) as Hin.
  rewrite ts_fillRowsFromRange_eq. cbv zeta. rewrite Hrd, Hd.
  pose proof (pendingPairs_eq e r Hd Hran) as HP. cbv zeta in HP.
  set (seek := default (if desc then EndKey r else StartKey r) (tableScan.seekKey e)) in *.
  replace (if desc
           then ReverseScanPairs (snapshotReader snap) (StartKey r) seek (tableScan.startTS e)
           else ScanPairs (snapshotReader snap) seek (EndKey r) (tableScan.startTS e))
    with (pendingPairs e) by (rewrite HP; by destruct desc).
  set (call := if desc then CallReverseScan _ _ _ _ else CallScan _ _ _ _).
  set (e0 := tableScan.log call (tableScan.set_seekKey (Some seek) e)).
  assert (ts_frame e e0) as Hf0.
  { eapply ts_frame_trans; [apply ts_frame_set_seekKey|].
    apply ts_frame_log. unfold call. by destruct desc. }
  rewrite ts_scanVisit_ok; cycle 1.
  { cbn [tableScan.Columns tableScan.colIDs e0 tableScan.log tableScan.set_seekKey].
    rewrite Hc, Hi. apply List.Forall_forall. intros kv Hkv.
    apply (range_pairs_decode r kv Hin).
    apply (pendingPairs_in_range e r kv Hinv Hran).
    apply list_elem_of_In. apply list_elem_of_In in Hkv.
    by apply (subseteq_take scanLimit). }
  cbn [tableScan.Columns tableScan.colIDs tableScan.rows e0 tableScan.log
       tableScan.set_seekKey]. rewrite Hc, Hi.
  set (batch := take scanLimit (pendingPairs e)).
  set (e1 := tableScan.set_rows _ e0).
  assert (ts_frame e e1) as Hf1
    by (eapply ts_frame_trans; [exact Hf0|apply ts_frame_set_rows]).
  assert (batch = [] -> pendingPairs e = []) as Hempty.
  { unfold batch, scanLimit. by destruct (pendingPairs e). }
  destruct (last batch) as [kv|] eqn:Hlast.
  - (* a batch was read *)
    eexists. split; [done|]. split.
    { eapply ts_frame_trans; [exact Hf1|apply ts_frame_set_seekKey]. }
    do 3 (split; [done|]). split; [done|]. intros _.
    apply last_Some in Hlast as [l1 Hl1].
    assert (pendingPairs e = l1 ++ kv :: drop scanLimit (pendingPairs e)) as Hsplit.
    { rewrite <- (take_drop scanLimit (pendingPairs e)) at 1.
      fold batch. rewrite Hl1, <- app_assoc. done. }
    assert (In kv (pairsIn snap (StartKey r) (EndKey r))) as Hkvr.
    { apply (pendingPairs_in_range e r kv Hinv Hran).
      rewrite Hsplit. apply in_or_app. right. by left. }
    pose proof Hkvr as Hkvr'. apply pairsIn_In in Hkvr' as (Hkvsnap & Hskv & Hkve).
    destruct desc eqn:Edesc.
    + (* descending: the batch is the whole range *)
      assert (tableScan.seekKey e = None) as Hnone.
      { destruct (tableScan.seekKey e) as [s|] eqn:Es; [|done].
        specialize (Hseek r s Hran eq_refl). simpl in Hseek.
        exfalso. rewrite HP in Hsplit. unfold seek in Hsplit. rewrite ?Es in Hsplit.
        simpl in Hsplit. rewrite Hseek in Hsplit. by destruct l1. }
      unfold seek in HP. rewrite ?Hnone in HP. simpl in HP.
      destruct (prefixPrev kv.1) as [p|] eqn:Hp;
        [|exfalso; apply (Hzero eq_refl kv Hkvsnap); by apply prefixPrev_None].
      assert (pairsIn snap (StartKey r) p = []) as Hnil.
      { apply List_filter_nil. intros kv' Hkv'. apply not_true_is_false. intros Hr'.
        apply inRange_spec in Hr' as [Hs' Hp'].
        apply prefixPrev_lt in Hp.
        assert (key_lt kv'.1 kv.1) as Hlt by (by eapply key_lt_trans).
        assert (In kv' (pairsIn snap (StartKey r) (EndKey r))) as Hin'.
        { apply pairsIn_In. split; [done|]. split; [done|]. by eapply key_lt_trans. }
        (* [kv] is the least pair of the range *)
        assert (length (pendingPairs e) <= scanLimit)%nat as Hlen.
        { rewrite HP, length_rev. by apply Hbatch. }
        assert (drop scanLimit (pendingPairs e) = []) as Hdrop by (by apply drop_ge).
        rewrite Hdrop, HP in Hsplit.
        apply (f_equal (@rev _)) in Hsplit.
        rewrite rev_involutive, rev_app_distr in Hsplit. simpl in Hsplit.
        pose proof (pairsIn_sorted L snap Hsnap (StartKey r) (EndKey r)) as Hsorted.
        rewrite Hsplit in Hsorted, Hin'.
        apply StronglySorted_cons in Hsorted as [Hall _].
        destruct Hin' as [->|Hin']; [by apply key_lt_irrefl in Hlt|].
        rewrite Forall_forall in Hall. specialize (Hall kv').
        apply (key_lt_irrefl kv.1). eapply key_lt_trans; [|exact Hlt].
        apply Hall. by apply list_elem_of_In. }
      split.
      * transitivity (@nil (bytes * bytes)).
        -- unfold pendingPairs. cbn [tableScan.rangeCursor tableScan.seekKey
             tableScan.set_seekKey tableScan.set_rows e1 e0 tableScan.log].
           by rewrite Hran, Edesc, Hnil.
        -- symmetry. apply drop_ge. rewrite HP, length_rev. by apply Hbatch.
      * repeat split; try done; try (simpl; congruence);
          try (intros r0 Hr0 Hpt0;
               change (ranges !! tableScan.rangeCursor e = Some r0) in Hr0;
               rewrite Hran in Hr0; injection Hr0 as <-; congruence).
        intros r0 s0 Hr0 Hs0.
           change (ranges !! tableScan.rangeCursor e = Some r0) in Hr0.
           rewrite Hran in Hr0. injection Hr0 as <-.
           cbn [tableScan.seekKey tableScan.set_seekKey] in Hs0. injection Hs0 as <-. by rewrite Edesc.
    + (* ascending: resume after the last key of the batch *)
      rewrite HP in Hsplit.
      pose proof (pairsIn_after L snap Hsnap seek (EndKey r) _ _ kv Hsplit) as Hafter.
      split.
      * unfold pendingPairs at 1. cbn [tableScan.rangeCursor tableScan.seekKey
          tableScan.set_seekKey tableScan.set_rows e1 e0 tableScan.log].
        rewrite Hran, Edesc, HP. exact Hafter.
      * repeat split; try done; try (simpl; congruence);
          try (intros r0 Hr0 Hpt0;
               change (ranges !! tableScan.rangeCursor e = Some r0) in Hr0;
               rewrite Hran in Hr0; injection Hr0 as <-; congruence).
        intros r0 s0 Hr0 Hs0.
           change (ranges !! tableScan.rangeCursor e = Some r0) in Hr0.
           rewrite Hran in Hr0. injection Hr0 as <-.
           cbn [tableScan.seekKey tableScan.set_seekKey] in Hs0. injection Hs0 as <-. rewrite Edesc.
           assert (key_le (StartKey r) kv.1) as Hskv'.
           { assert (In kv (pendingPairs e)) as Hkvp
               by (rewrite HP, Hsplit; apply in_or_app; right; by left).
             rewrite HP in Hkvp. apply pairsIn_In in Hkvp as (_ & Hle & _).
             done. }
           apply key_le_lteq. left. eapply key_le_lt_trans; [exact Hskv|].
           apply PrefixNext_gt.
  - (* nothing was read *)
    apply last_None in Hlast.
    eexists. split; [done|]. split; [exact Hf1|].
    do 3 (split; [done|]). split; [done|]. by intros H.
Qed.

Lemma scanInv_nextRange e e1 :
  scanInv e -> ts_frame e e1 -> scanInv (ts_nextRange e1).
Proof.
  intros (Hd & Hc & Hi & Hr & Hrd & _) (Fd & Fc & Fi & Fr & _ & _ & Frd & _).
  repeat split; simpl; try congruence; done.
Qed.

Lemma pending_later_nextRange e1 :
  pendingPairs (ts_nextRange e1) ++ laterPairs (ts_nextRange e1) = laterPairs e1.
Proof.
  unfold pendingPairs, laterPairs. simpl.
  destruct (ranges !! S (tableScan.rangeCursor e1)) as [r'|] eqn:E.
  - by rewrite (drop_S _ _ _ E).
  - apply lookup_ge_None in E. by rewrite !drop_ge by lia.
Qed.

(** [fillRows] from an empty buffer: it stops with rows in the buffer,
    or with every range used up, and loses no pair. *)
Lemma ts_fillRows_loop_cover fuel : forall e,
  scanInv e -> tableScan.rows e = [] ->
  (length ranges - tableScan.rangeCursor e <= fuel)%nat ->
  exists e1,
    tableScan.fillRows_loop c fuel e = (OK tt, e1) /\
    scanInv e1 /\ ts_frame e e1 /\
    tableScan.rowCursor e1 = tableScan.rowCursor e /\
    tableScan.rows e1 ++ (decodeRow c cols colIDs <$> (pendingPairs e1 ++ laterPairs e1)) =
      decodeRow c cols colIDs <$> (pendingPairs e ++ laterPairs e) /\
    (tableScan.rows e1 = [] -> pendingPairs e1 ++ laterPairs e1 = []).
Proof.
  assert (forall e, ranges !! tableScan.rangeCursor e = None ->
            pendingPairs e ++ laterPairs e = []) as Hdone.
  { intros e E. unfold pendingPairs, laterPairs. rewrite E.
    apply lookup_ge_None in E. by rewrite drop_ge by lia. }
  induction fuel as [|fuel IH]; intros e Hinv Hrows Hfuel.
  - exists e. simpl.
    assert (ranges !! tableScan.rangeCursor e = None) as E
      by (apply lookup_ge_None; lia).
    split; [done|]. split; [done|]. split; [apply ts_frame_refl|]. split; [done|].
    split; [by rewrite Hrows|]. intros _. by apply Hdone.
  - pose proof Hinv as (Hd & Hc & Hi & Hr & Hrd & Hptinv & Hseek).
    rewrite ts_fillRows_loop_eq, Hr.
    destruct (ranges !! tableScan.rangeCursor e) as [r|] eqn:Hran; cycle 1.
    { exists e. split; [done|]. split; [done|]. split; [apply ts_frame_refl|].
      split; [done|]. split; [by rewrite Hrows|]. intros _. by apply Hdone. }
    assert (forall e1, tableScan.rangeCursor e1 = tableScan.rangeCursor e ->
              (length ranges - tableScan.rangeCursor (ts_nextRange e1) <= fuel)%nat)
      as Hfuel'.
    { intros e1 Hc1. simpl. rewrite Hc1. apply lookup_lt_Some in Hran. lia. }
    assert (forall e1, ts_frame e1 (ts_nextRange e1)) as Hnr.
    { intros e1. eapply ts_frame_trans;
        [apply ts_frame_set_rangeCursor|apply ts_frame_set_seekKey]. }
    assert (forall e1, tableScan.rangeCursor e1 = tableScan.rangeCursor e ->
              laterPairs e1 = laterPairs e) as Hlater.
    { intros e1 Hc1. unfold laterPairs. by rewrite Hc1. }
    destruct (IsPoint r) eqn:Hpt.
    + (* a point range *)
      destruct (ts_point_step e r Hinv Hran Hpt)
        as (e1 & -> & Hf1 & Hrows1 & Hseek1 & Hcur1 & Hrc1).
      rewrite Hrows in Hrows1. simpl in Hrows1.
      assert (pendingPairs e = rangePairs r) as Hpend.
      { unfold pendingPairs. by rewrite Hran, (Hptinv r eq_refl Hpt). }
      assert (scanInv (ts_nextRange e1)) as Hinv2 by (by eapply scanInv_nextRange).
      change (tableScan.rows (ts_nextRange e1)) with (tableScan.rows e1).
      destruct (bool_decide (0 < length (tableScan.rows e1))%nat) eqn:Hlen.
      * exists (ts_nextRange e1). split; [done|]. split; [done|].
        split; [exact (ts_frame_trans _ _ _ Hf1 (Hnr e1))|]. split; [done|]. split.
        -- change (tableScan.rows (ts_nextRange e1)) with (tableScan.rows e1).
           rewrite pending_later_nextRange, (Hlater e1 Hcur1), Hpend, Hrows1.
           by rewrite fmap_app.
        -- change (tableScan.rows (ts_nextRange e1)) with (tableScan.rows e1).
           intros E. rewrite E in Hlen. apply bool_decide_eq_true_1 in Hlen.
           simpl in Hlen. lia.
      * apply bool_decide_eq_false_1 in Hlen.
        assert (tableScan.rows e1 = []) as Hnil
          by (destruct (tableScan.rows e1); [done|simpl in Hlen; lia]).
        destruct (IH (ts_nextRange e1) Hinv2 Hnil (Hfuel' e1 Hcur1))
          as (e3 & -> & Hinv3 & Hf3 & Hrc3 & Hrem3 & Hend3).
        exists e3. split; [done|]. split; [done|].
        split; [exact (ts_frame_trans _ _ _ Hf1 (ts_frame_trans _ _ _ (Hnr e1) Hf3))|].
        split; [by rewrite Hrc3|]. split; [|done].
        rewrite Hrem3, pending_later_nextRange, (Hlater e1 Hcur1), Hpend.
        rewrite Hnil in Hrows1. symmetry in Hrows1. apply fmap_nil_inv in Hrows1.
        by rewrite Hrows1.
    + (* a range read by scans *)
      destruct (ts_range_step e r Hinv Hran Hpt)
        as (e1 & -> & Hf1 & Hcur1 & Hrc1 & Hrows1 & Hempty & Hmore).
      rewrite Hrows in Hrows1. simpl in Hrows1.
      destruct (bool_decide (length (tableScan.rows e1) = 0)%nat) eqn:Hlen.
      * apply bool_decide_eq_true_1, length_zero_iff_nil in Hlen.
        assert (pendingPairs e = []) as Hpend.
        { apply Hempty. rewrite Hlen in Hrows1. symmetry in Hrows1.
          by apply fmap_nil_inv in Hrows1. }
        change (tableScan.rows (ts_nextRange e1)) with (tableScan.rows e1).
        rewrite Hlen. simpl.
        assert (scanInv (ts_nextRange e1)) as Hinv2 by (by eapply scanInv_nextRange).
        destruct (IH (ts_nextRange e1) Hinv2 Hlen (Hfuel' e1 Hcur1))
          as (e3 & -> & Hinv3 & Hf3 & Hrc3 & Hrem3 & Hend3).
        exists e3. split; [done|]. split; [done|].
        split; [exact (ts_frame_trans _ _ _ Hf1 (ts_frame_trans _ _ _ (Hnr e1) Hf3))|].
        split; [by rewrite Hrc3|]. split; [|done].
        by rewrite Hrem3, pending_later_nextRange, (Hlater e1 Hcur1), Hpend.
      * apply bool_decide_eq_false_1 in Hlen.
        rewrite bool_decide_eq_true_2 by (destruct (tableScan.rows e1); simpl in *; [done|lia]).
        destruct Hmore as [Hpend1 Hinv1].
        { intros E. rewrite E in Hrows1. simpl in Hrows1. by rewrite Hrows1 in Hlen. }
        exists e1. split; [done|]. split; [done|]. split; [done|]. split; [done|].
        split.
        -- rewrite Hrows1, Hpend1, (Hlater e1 Hcur1), <- fmap_app, app_assoc.
           by rewrite take_drop.
        -- intros E. by rewrite E in Hlen.
Qed.

(** One call of the loop of [Next]: the first of the remaining rows. *)
Lemma ts_Next_loop_cover e :
  scanInv e ->
  exists e',
    scanInv e' /\ ts_frame e e' /\
    match remaining e with
    | [] => tableScan.Next_loop c 2 e = (OK None, e') /\ remaining e' = []
    | row :: rest =>
        tableScan.Next_loop c 2 e = (OK (Some row), e') /\ remaining e' = rest
    end.
Proof.
  intros Hinv. pose proof Hinv as (Hd & Hc & Hi & Hr & Hrd & Hptinv & Hseek).
  rewrite ts_Next_loop_eq. unfold remaining at 1.
  destruct (tableScan.rows e !! tableScan.rowCursor e) as [v|] eqn:Hv.
  - rewrite (drop_S _ _ _ Hv). simpl.
    exists (tableScan.set_rowCursor (S (tableScan.rowCursor e)) e).
    split; [done|]. split; [apply ts_frame_set_rowCursor|]. by split.
  - apply lookup_ge_None in Hv. rewrite drop_ge by done. cbn [app]. cbv zeta.
    set (e0 := tableScan.set_rows [] (tableScan.set_rowCursor 0 e)).
    assert (scanInv e0) as Hinv0 by done.
    assert (ts_frame e e0) as Hf0
      by (eapply ts_frame_trans; [apply ts_frame_set_rowCursor|apply ts_frame_set_rows]).
    destruct (ts_fillRows_loop_cover
                (length (tableScan.kvRanges e) - tableScan.rangeCursor e) e0 Hinv0 eq_refl)
      as (e1 & -> & Hinv1 & Hf1 & Hrc1 & Hrem1 & Hend1).
    { rewrite Hr. done. }
    change (pendingPairs e0) with (pendingPairs e) in Hrem1.
    change (laterPairs e0) with (laterPairs e) in Hrem1.
    change (tableScan.rowCursor e0) with 0%nat in Hrc1.
    destruct (bool_decide (length (tableScan.rows e1) = 0)%nat) eqn:Hlen.
    + apply bool_decide_eq_true_1, length_zero_iff_nil in Hlen.
      rewrite <- Hrem1, Hlen, (Hend1 Hlen). cbn [app fmap list_fmap].
      exists e1. split; [done|]. split; [exact (ts_frame_trans _ _ _ Hf0 Hf1)|].
      split; [done|]. unfold remaining. by rewrite Hlen, drop_nil, (Hend1 Hlen).
    + apply bool_decide_eq_false_1 in Hlen.
      rewrite <- Hrem1. rewrite ts_Next_loop_eq, Hrc1.
      destruct (tableScan.rows e1) as [|row rows1] eqn:Hrows1; [done|]. simpl.
      exists (tableScan.set_rowCursor 1 e1). split; [done|].
      split.
      { eapply ts_frame_trans; [exact Hf0|].
        eapply ts_frame_trans; [exact Hf1|apply ts_frame_set_rowCursor]. }
      split; [done|]. unfold remaining. simpl. by rewrite Hrows1.
Qed.

(** The lock check does not stand in the way: locks are ignored, or
    were checked, or no range is locked. *)
Definition lockFree (e : tableScan.exec) : Prop :=
  tableScan.ignoreLock e = true \/ tableScan.lockChecked e = true \/
  (lockPass (tableScan.mvccStore e) (tableScan.startTS e) (tableScan.kvRanges e)).2 = None.

Lemma ts_logs_same xs e :
  let e' := ts_logs xs e in
  tableScan.Desc e' = tableScan.Desc e /\
  tableScan.Columns e' = tableScan.Columns e /\
  tableScan.colIDs e' = tableScan.colIDs e /\
  tableScan.kvRanges e' = tableScan.kvRanges e /\
  tableScan.reqCtx e' = tableScan.reqCtx e /\
  tableScan.rangeCursor e' = tableScan.rangeCursor e /\
  tableScan.rowCursor e' = tableScan.rowCursor e /\
  tableScan.rows e' = tableScan.rows e /\
  tableScan.seekKey e' = tableScan.seekKey e.
Proof.
  unfold ts_logs. revert e.
  induction xs as [|x xs IH]; intros e; simpl; [done|].
  apply (IH (tableScan.log x e)).
Qed.

Lemma ts_Next_cover e :
  scanInv e -> lockFree e ->
  exists e',
    scanInv e' /\ lockFree e' /\
    match remaining e with
    | [] => tableScan.Next c e = (OK None, e') /\ remaining e' = []
    | row :: rest => tableScan.Next c e = (OK (Some row), e') /\ remaining e' = rest
    end.
Proof.
  intros Hinv Hlock.
  assert (forall e0 e', ts_frame e0 e' ->
            tableScan.ignoreLock e0 = true \/ tableScan.lockChecked e0 = true ->
            lockFree e') as Hfree.
  { intros e0 e' (_&_&_&_&_&_&_&_&_& Fi & Fl & _) H. unfold lockFree.
    rewrite Fi, Fl. destruct H; [by left|by right; left]. }
  assert (tableScan.ignoreLock e = true \/ tableScan.lockChecked e = true \/
          (tableScan.ignoreLock e = false /\ tableScan.lockChecked e = false /\
           (lockPass (tableScan.mvccStore e) (tableScan.startTS e)
              (tableScan.kvRanges e)).2 = None)) as [Hi|[Hl|(Hi & Hl & Hpass)]].
  { unfold lockFree in Hlock.
    destruct (tableScan.ignoreLock e); [by left|].
    destruct (tableScan.lockChecked e); [by right; left|].
    right. right. by destruct Hlock as [?|[?|?]]. }
  - rewrite ts_Next_checked by (by left).
    destruct (ts_Next_loop_cover e Hinv) as (e' & Hinv' & Hf & H).
    exists e'. split; [done|]. split; [|done]. apply (Hfree e e' Hf). by left.
  - rewrite ts_Next_checked by (by right).
    destruct (ts_Next_loop_cover e Hinv) as (e' & Hinv' & Hf & H).
    exists e'. split; [done|]. split; [|done]. apply (Hfree e e' Hf). by right.
  - rewrite ts_Next_unchecked by done. cbv zeta. rewrite Hpass.
    set (e1 := tableScan.set_lockChecked true _).
    pose proof (ts_logs_same
      (checkCallOf (tableScan.startTS e) <$>
         (lockPass (tableScan.mvccStore e) (tableScan.startTS e) (tableScan.kvRanges e)).1) e)
      as (S1 & S2 & S3 & S4 & S5 & S6 & S7 & S8 & S9).
    assert (scanInv e1) as Hinv1.
    { destruct Hinv as (Hd & Hc & Hci & Hr & Hrd & Hptinv & Hseek).
      unfold scanInv, e1. simpl. rewrite S1, S2, S3, S4, S5, S6, S9. done. }
    assert (remaining e1 = remaining e) as Hrem.
    { unfold remaining, pendingPairs, laterPairs, e1. simpl.
      by rewrite S6, S7, S8, S9. }
    destruct (ts_Next_loop_cover e1 Hinv1) as (e' & Hinv' & Hf & H).
    rewrite Hrem in H.
    exists e'. split; [done|]. split; [|done]. apply (Hfree e1 e' Hf). by right.
Qed.

Lemma ts_nextResults_S n e :
  nextResults c (S n) e =
  (tableScan.Next c e).1 :: nextResults c n (tableScan.Next c e).2.
Proof.
  cbn [nextResults]. change (scanNext c e) with (tableScan.Next c e).
  by destruct (tableScan.Next c e).
Qed.

Lemma ts_nextResults_cover n : forall e,
  scanInv e -> lockFree e -> length (remaining e) = n ->
  nextResults c (S n) e = ((fun r => OK (Some r)) <$> remaining e) ++ [OK None].
Proof.
  induction n as [|n IH]; intros e Hinv Hlock Hlen;
    destruct (ts_Next_cover e Hinv Hlock) as (e' & Hinv' & Hlock' & H);
    destruct (remaining e) as [|row rest]; try done.
  - destruct H as [HN _]. by rewrite ts_nextResults_S, HN.
  - destruct H as [HN Hrem]. rewrite ts_nextResults_S, HN. cbn [fst snd].
    simpl in Hlen. rewrite <- Hrem in Hlen |- *.
    rewrite (IH e' Hinv' Hlock') by lia. by rewrite fmap_cons.
Qed.

End TableScanCoverage.

Lemma StronglySorted_rev {A} (R : A -> A -> Prop) (l : list A) :
  StronglySorted R l -> StronglySorted (flip R) (rev l).
Proof.
  induction 1 as [|x l Hl IH Hx]; simpl; [constructor|].
  apply StronglySorted_app. split; [|split; [done|repeat constructor]].
  intros y z Hy Hz. apply list_elem_of_singleton in Hz as ->.
  rewrite Forall_forall in Hx. apply Hx.
  apply list_elem_of_In. apply list_elem_of_In in Hy. by apply List.in_rev.
Qed.

Lemma expectedPairs_sorted (L : nat) (snap : list (bytes * bytes)) (desc : bool)
    (ranges : list KeyRange) :
  snapshotOK L snap ->
  StronglySorted (if desc then flip kv_lt else kv_lt) (expectedPairs desc ranges snap).
Proof.
  intros Hsnap. unfold expectedPairs, scanDir.
  pose proof (StronglySorted_filter kv_lt (fun kv => inRanges ranges kv.1) snap
                (snap_sorted L snap Hsnap)) as Hs.
  destruct desc; [by apply StronglySorted_rev|done].
Qed.

(** The setting of a table scan over a snapshot: record keys of one
    length (none of them all zero for a descending scan), point ranges
    made of record keys, rows that decode; the scan is fresh and no
    lock stands in its way. *)
Definition scanConditions (c : Codec) (L : nat) (snap : list (bytes * bytes))
    (e : tableScan.exec) : Prop :=
  snapshotOK L snap /\
  getDBReader (tableScan.reqCtx e) = snapshotReader snap /\
  (forall r, In r (tableScan.kvRanges e) -> IsPoint r = true ->
             length (StartKey r) = L) /\
  (tableScan.Desc e = true ->
     forall kv, In kv snap -> ~ Forall (fun b => b = Byte.x00) kv.1) /\
  (forall kv, In kv snap -> inRanges (tableScan.kvRanges e) kv.1 = true ->
     exists r, decodeKV c (tableScan.Columns e) (tableScan.colIDs e) kv = OK r) /\
  tableScan.rangeCursor e = 0%nat /\ tableScan.rowCursor e = 0%nat /\
  tableScan.rows e = [] /\ tableScan.seekKey e = None /\
  lockFree e.

(** A descending scan reads each of its ranges in one batch. *)
Definition oneBatchPerRange (snap : list (bytes * bytes)) (e : tableScan.exec) : Prop :=
  tableScan.Desc e = true ->
  forall r, In r (tableScan.kvRanges e) ->
    (length (pairsIn snap (StartKey r) (EndKey r)) <= scanLimit)%nat.

(** The conditions under which a table scan covers its ranges. *)
Definition coverageConditions (c : Codec) (L : nat) (snap : list (bytes * bytes))
    (e : tableScan.exec) : Prop :=
  scanConditions c L snap e /\ oneBatchPerRange snap e.

(** What repeated calls of [Next] return when the scan emits the rows
    of [pairs] and then end-of-stream. *)
Definition emitsRowsOf (c : Codec) (e : tableScan.exec)
    (pairs : list (bytes * bytes)) : Prop :=
  nextResults c (S (length pairs)) e =
  ((fun kv => OK (Some (decodeRow c (tableScan.Columns e) (tableScan.colIDs e) kv)))
     <$> pairs) ++ [OK None].

(** C1, amended. Under [coverageConditions], with the ranges listed in
    scan order (ascending for an ascending scan, descending for a
    descending one) and non-overlapping, repeated calls of [Next] yield
    exactly the decoded rows whose keys fall in the union of the ranges,
    each once, in ascending key order, or descending when [Desc] is
    set, and then end-of-stream.  A descending scan is covered for
    ranges of at most one batch: what it does past a batch is left out
    here (see the second part of the counterexample). *)
Theorem tableScan_range_coverage (c : Codec) (L : nat) (snap : list (bytes * bytes))
    (e : tableScan.exec) :
  coverageConditions c L snap e ->
  rangesAscending (scanDir (tableScan.Desc e) (tableScan.kvRanges e)) ->
  let expected := expectedPairs (tableScan.Desc e) (tableScan.kvRanges e) snap in
  emitsRowsOf c e expected /\
  StronglySorted (if tableScan.Desc e then flip kv_lt else kv_lt) expected.
Proof.
  intros ((Hsnap & Hrd & Hpoint & Hzero & Hdec & Hcur & Hrc & Hrows & Hseek & Hlock)
          & Hbatch) Hasc expected.
  split; [|by eapply expectedPairs_sorted].
  set (desc := tableScan.Desc e) in *. set (ranges := tableScan.kvRanges e) in *.
  set (cols := tableScan.Columns e) in *. set (colIDs := tableScan.colIDs e) in *.
  assert (scanInv snap desc ranges cols colIDs e) as Hinv.
  { unfold scanInv. rewrite Hseek. repeat split; try done. }
  assert (remaining c snap desc ranges cols colIDs e =
          decodeRow c cols colIDs <$> expected) as Hrem.
  { unfold remaining, pendingPairs, laterPairs. rewrite Hrows, Hrc, Hcur, Hseek.
    simpl. f_equal. unfold expected.
    rewrite <- (concat_ranges_expected snap desc ranges (snap_sorted L snap Hsnap) Hasc).
    destruct ranges as [|r rs]; [done|]. simpl. by rewrite drop_0. }
  unfold emitsRowsOf.
  rewrite (ts_nextResults_cover c L snap desc ranges cols colIDs
             Hsnap Hpoint Hzero Hbatch Hdec (length expected) e Hinv Hlock).
  - rewrite Hrem. by rewrite <- list_fmap_compose.
  - by rewrite Hrem, length_fmap.
Qed.

(** The example scans meet the conditions. *)
Lemma lockPass_noLocks ts rans : (lockPass noLocks ts rans).2 = None.
Proof.
  induction rans as [|r rans IH]; simpl; [done|].
  by destruct (lockPass noLocks ts rans).
Qed.

Lemma demoSnapshot_ok : snapshotOK 2 demoSnapshot.
Proof.
  split.
  - unfold demoSnapshot. repeat constructor.
  - unfold demoSnapshot. repeat constructor.
  - unfold demoSnapshot. repeat constructor; simpl; discriminate.
Qed.

Lemma demo_coverageConditions (desc : bool) (ranges : list KeyRange) :
  (forall r, In r ranges -> IsPoint r = true -> length (StartKey r) = 2%nat) ->
  coverageConditions demoCodec 2 demoSnapshot
    (demoTableScan noLocks demoSnapshot desc ranges).
Proof.
  intros Hpt. split.
  - split; [apply demoSnapshot_ok|]. split; [done|]. split; [done|].
    split.
    { intros _ kv Hkv Hz. unfold demoSnapshot in Hkv. simpl in Hkv.
      destruct Hkv as [<-|[<-|[<-|[<-|[]]]]]; simpl in Hz;
        apply Forall_cons in Hz as [Hz _]; discriminate Hz. }
    split.
    { intros kv Hkv _. unfold demoSnapshot in Hkv. simpl in Hkv.
      destruct Hkv as [<-|[<-|[<-|[<-|[]]]]]; eexists; reflexivity. }
    do 4 (split; [done|]). right. right. apply lockPass_noLocks.
  - intros _ r _. unfold pairsIn.
    etransitivity; [apply List.filter_length_le|]. unfold scanLimit. simpl. lia.
Qed.

Lemma rangesAscending_two (r1 r2 : KeyRange) :
  key_le (EndKey r1) (StartKey r2) -> rangesAscending [r1; r2].
Proof.
  intros H i j r r' Hij Hi Hj.
  destruct i as [|[|i]]; destruct j as [|[|j]]; simpl in *; try lia; try done.
  by injection Hi as <-; injection Hj as <-.
Qed.

Lemma Forall_forallb {A} (f : A -> bool) (P : A -> Prop) (l : list A) :
  (forall x, f x = true -> P x) -> forallb f l = true -> Forall P l.
Proof.
  intros Hf. induction l as [|x l IH]; simpl; [constructor|].
  intros [Hx Hl]%andb_true_iff. constructor; [by apply Hf|by apply IH].
Qed.

Fixpoint sortedb (l : list (bytes * bytes)) : bool :=
  match l with
  | [] => true
  | x :: l' => forallb (fun y => key_ltb x.1 y.1) l' && sortedb l'
  end.

Lemma sortedb_sorted l : sortedb l = true -> StronglySorted kv_lt l.
Proof.
  induction l as [|x l IH]; simpl; [constructor|].
  intros [Hx Hl]%andb_true_iff. constructor; [by apply IH|].
  eapply Forall_forallb; [|exact Hx].
  intros y Hy. by apply key_ltb_lt.
Qed.

Lemma longSnapshot_ok : snapshotOK 2 longSnapshot.
Proof.
  split.
  - apply sortedb_sorted. vm_compute. reflexivity.
  - apply (Forall_forallb (fun kv => bool_decide (length kv.1 = 2%nat))).
    + intros x Hx. by apply bool_decide_eq_true_1 in Hx.
    + vm_compute. reflexivity.
  - apply (Forall_forallb (fun kv => negb (bool_decide (kv.2 = [])))).
    + intros x Hx. apply negb_true_iff, bool_decide_eq_false_1 in Hx. exact Hx.
    + vm_compute. reflexivity.
Qed.

Lemma long_scanConditions :
  scanConditions demoCodec 2 longSnapshot
    (demoTableScan noLocks longSnapshot true [ {| StartKey := k1; EndKey := kff |} ]).
Proof.
  split; [apply longSnapshot_ok|]. split; [done|]. split.
  { intros r [<-|[]]. discriminate. }
  split.
  { intros _ kv Hkv. apply list_elem_of_In in Hkv.
    assert (Forall (fun kv : bytes * bytes => ~ Forall (fun b => b = Byte.x00) kv.1)
              longSnapshot) as HF.
    { apply (Forall_forallb (fun kv => match kv.1 with b :: _ => negb (bool_decide (b = Byte.x00)) | [] => false end)).
      - intros [[|b k] v]; simpl; [done|]. intros Hb HF.
        apply negb_true_iff, bool_decide_eq_false_1 in Hb.
        apply Forall_cons in HF as [HF _]. done.
      - vm_compute. reflexivity. }
    rewrite Forall_forall in HF. by apply HF. }
  split.
  { intros kv Hkv _. apply list_elem_of_In in Hkv.
    assert (Forall (fun kv => exists r, decodeKV demoCodec demoColumns demoColIDs kv = OK r)
              longSnapshot) as HF.
    { apply (Forall_forallb (fun kv => match decodeKV demoCodec demoColumns demoColIDs kv with
                                       | OK _ => true | Err _ => false end)).
      - intros x Hx. destruct (decodeKV _ _ _ x); [by eexists|done].
      - vm_compute. reflexivity. }
    rewrite Forall_forall in HF. by apply HF. }
  do 4 (split; [done|]). right. right. apply lockPass_noLocks.
Qed.

(** C1, as stated, fails for a descending scan, in two ways.  The scan
    visits the ranges in list order, so over ranges listed in ascending
    order it emits the rows of the lower range first.  And a range read
    in more than one batch resumes below [prefixPrev lastKey], which the
    next [ReverseScan] takes as its exclusive end: over one range of
    130 rows the row of handle 2 is never emitted. *)
Lemma tableScan_desc_coverage_fails :
  ~ (forall (c : Codec) (L : nat) (snap : list (bytes * bytes)) (e : tableScan.exec),
       coverageConditions c L snap e ->
       rangesAscending (tableScan.kvRanges e) ->
       emitsRowsOf c e (expectedPairs (tableScan.Desc e) (tableScan.kvRanges e) snap)) /\
  ~ (forall (c : Codec) (L : nat) (snap : list (bytes * bytes)) (e : tableScan.exec),
       scanConditions c L snap e ->
       rangesAscending (scanDir (tableScan.Desc e) (tableScan.kvRanges e)) ->
       emitsRowsOf c e (expectedPairs (tableScan.Desc e) (tableScan.kvRanges e) snap)).
Proof.
  split; intros H.
  - specialize (H demoCodec 2%nat demoSnapshot
      (demoTableScan noLocks demoSnapshot true
         [ {| StartKey := k1; EndKey := k3 |}; {| StartKey := k5; EndKey := k9 |} ])).
    assert (emitsRowsOf demoCodec
      (demoTableScan noLocks demoSnapshot true
         [ {| StartKey := k1; EndKey := k3 |}; {| StartKey := k5; EndKey := k9 |} ])
      (expectedPairs true
         [ {| StartKey := k1; EndKey := k3 |}; {| StartKey := k5; EndKey := k9 |} ]
         demoSnapshot)) as Hemit.
    { apply H.
      - apply demo_coverageConditions. intros r [<-|[<-|[]]]; discriminate.
      - apply rangesAscending_two. unfold key_le. simpl. discriminate. }
    vm_compute in Hemit. discriminate Hemit.
  - specialize (H demoCodec 2%nat longSnapshot
      (demoTableScan noLocks longSnapshot true [ {| StartKey := k1; EndKey := kff |} ])
      long_scanConditions).
    assert (rangesAscending [ {| StartKey := k1; EndKey := kff |} ]) as Hasc.
    { intros i j r r' Hij Hi Hj. destruct i, j; simpl in *; try lia; try done. }
    specialize (H Hasc). unfold emitsRowsOf in H.
    apply (f_equal (fun l => l !! 128%nat)) in H.
    vm_compute in H. discriminate H.
Qed.

(** The end of that scan: handles 4 and 3 close the first batch, the
    second batch resumes below handle 2. *)
Example tableScan_demo_desc_long_range :
  drop 126 (nextResults demoCodec 131
    (demoTableScan noLocks longSnapshot true [ {| StartKey := k1; EndKey := kff |} ]))
  = [ OK (Some [Some [Byte.x08; Byte.x04]; Some [Byte.x11]; Some [Byte.x2a]; Some [NilFlag]]);
      OK (Some [Some [Byte.x08; Byte.x03]; Some [Byte.x11]; Some [Byte.x2a]; Some [NilFlag]]);
      OK (Some [Some [Byte.x08; Byte.x01]; Some [Byte.x11]; Some [Byte.x2a]; Some [NilFlag]]);
      OK None; OK None ] /\
  tableScan.calls (nextN demoCodec 131
    (demoTableScan noLocks longSnapshot true [ {| StartKey := k1; EndKey := kff |} ]))
  = [ CallCheckRangeLock 100 k1 kff;
      CallReverseScan k1 kff 128 100;
      CallReverseScan k1 k2 128 100;
      CallReverseScan k1 [Byte.x74; Byte.x00] 128 100 ].
Proof. split; vm_compute; reflexivity. Qed.

Example tableScan_demo_desc_ascending_ranges :
  nextResults demoCodec 5
    (demoTableScan noLocks demoSnapshot true
       [ {| StartKey := k1; EndKey := k3 |}; {| StartKey := k5; EndKey := k9 |} ])
  = [ OK (Some [Some [Byte.x08; Byte.x02]; Some [Byte.x12]; Some [Byte.x2a]; Some [NilFlag]]);
      OK (Some [Some [Byte.x08; Byte.x01]; Some [Byte.x11]; Some [Byte.x2a]; Some [NilFlag]]);
      OK (Some [Some [Byte.x08; Byte.x06]; Some [Byte.x16]; Some [Byte.x2a]; Some [NilFlag]]);
      OK (Some [Some [Byte.x08; Byte.x05]; Some [Byte.x15]; Some [Byte.x2a]; Some [NilFlag]]);
      OK None ].
Proof. vm_compute. reflexivity. Qed.

Lemma tableScan_range_coverage_witness :
  emitsRowsOf demoCodec
    (demoTableScan noLocks demoSnapshot true
       [ {| StartKey := k5; EndKey := k9 |}; {| StartKey := k1; EndKey := k3 |} ])
    (expectedPairs true
       [ {| StartKey := k5; EndKey := k9 |}; {| StartKey := k1; EndKey := k3 |} ]
       demoSnapshot) /\
  emitsRowsOf demoCodec
    (demoTableScan noLocks demoSnapshot false
       [ {| StartKey := k1; EndKey := k2 |}; {| StartKey := k5; EndKey := k9 |} ])
    (expectedPairs false
       [ {| StartKey := k1; EndKey := k2 |}; {| StartKey := k5; EndKey := k9 |} ]
       demoSnapshot).
Proof.
  split.
  - apply (tableScan_range_coverage demoCodec 2 demoSnapshot
      (demoTableScan noLocks demoSnapshot true
         [ {| StartKey := k5; EndKey := k9 |}; {| StartKey := k1; EndKey := k3 |} ])).
    + apply demo_coverageConditions. intros r [<-|[<-|[]]]; discriminate.
    + apply rangesAscending_two. unfold key_le. simpl. discriminate.
  - apply (tableScan_range_coverage demoCodec 2 demoSnapshot
      (demoTableScan noLocks demoSnapshot false
         [ {| StartKey := k1; EndKey := k2 |}; {| StartKey := k5; EndKey := k9 |} ])).
    + apply demo_coverageConditions. intros r [<-|[<-|[]]]; [reflexivity|discriminate].
    + apply rangesAscending_two. unfold key_le. simpl. discriminate.
Defined.

(** ** Index scan: [Next] on the range under the cursor *)

(** The scan once [checkRangeLock] is through. *)
Definition is_checked (e : indexScan.exec) : indexScan.exec :=
  if indexScan.ignoreLock e || indexScan.lockChecked e then e
  else indexScan.set_lockChecked true
         (is_logs (checkCallOf (indexScan.startTS e) <$> indexScan.kvRanges e) e).

(** The buffer as [refill] resets it. *)
Definition is_reset (e : indexScan.exec) : indexScan.exec :=
  indexScan.set_rows [] (indexScan.set_rowCursor 0 e).

Lemma is_Next_lockPasses c (e : indexScan.exec) :
  lockPasses e -> indexScan.Next c e = indexScan.Next_loop c 2 (is_checked e).
Proof.
  unfold lockPasses, is_checked.
  cbn [scanIgnoreLock scanLockChecked scanStore scanTS scanRanges indexScan_ScanExec].
  intros H.
  destruct (indexScan.ignoreLock e) eqn:Hi; [by rewrite is_Next_checked by (by left)|].
  destruct (indexScan.lockChecked e) eqn:Hl; [by rewrite is_Next_checked by (by right)|].
  destruct H as [H|[H|H]]; [done|done|].
  rewrite is_Next_unchecked by done. cbv zeta. rewrite H. cbn [orb].
  destruct (lockPass _ _ _) as [p r] eqn:Hp. simpl in H. subst r.
  apply lockPass_None in Hp as ->. done.
Qed.

Lemma is_checked_flags (e : indexScan.exec) :
  lockPasses e ->
  indexScan.ignoreLock (is_checked e) = true \/ indexScan.lockChecked (is_checked e) = true.
Proof.
  unfold lockPasses, is_checked.
  cbn [scanIgnoreLock scanLockChecked scanStore scanTS scanRanges indexScan_ScanExec].
  intros H.
  destruct (indexScan.ignoreLock e) eqn:Hi; [by left|].
  destruct (indexScan.lockChecked e) eqn:Hl; [by right|].
  right. reflexivity.
Qed.

Lemma is_checked_fields (e : indexScan.exec) :
  let e' := is_checked e in
  indexScan.Desc e' = indexScan.Desc e /\
  indexScan.Unique e' = indexScan.Unique e /\
  indexScan.colsLen e' = indexScan.colsLen e /\
  indexScan.pkStatus e' = indexScan.pkStatus e /\
  indexScan.kvRanges e' = indexScan.kvRanges e /\
  indexScan.startTS e' = indexScan.startTS e /\
  indexScan.reqCtx e' = indexScan.reqCtx e /\
  indexScan.ranCursor e' = indexScan.ranCursor e /\
  indexScan.seekKey e' = indexScan.seekKey e /\
  indexScan.rowCursor e' = indexScan.rowCursor e /\
  indexScan.rows e' = indexScan.rows e.
Proof.
  unfold is_checked. destruct (_ || _); [done|].
  generalize (checkCallOf (indexScan.startTS e) <$> indexScan.kvRanges e).
  intros xs. unfold is_logs. revert e.
  induction xs as [|x xs IH]; intros e; simpl; [done|].
  apply (IH (indexScan.log x e)).
Qed.

(** [fillRowsFromPoint], unfolded. *)
Lemma is_fillRowsFromPoint_eq c ran e :
  indexScan.fillRowsFromPoint c ran e =
  let e1 := indexScan.log (CallGet (StartKey ran) (indexScan.startTS e)) e in
  match Get (getDBReader (indexScan.reqCtx e)) (StartKey ran) (indexScan.startTS e) with
  | Err er => (Err er, e1)
  | OK val =>
      if bool_decide (val = []) then (OK tt, e1)
      else
        match decodeIndexKV c (indexScan.colsLen e) (indexScan.pkStatus e)
                (StartKey ran) val with
        | Err er => (Err er, e1)
        | OK row => (OK tt, indexScan.set_rows (indexScan.rows e ++ [row]) e1)
        end
  end.
Proof.
  unfold indexScan.fillRowsFromPoint. st_simpl.
  destruct (Get _ _ _) as [val|er]; simpl; [|done].
  destruct (decide (length val = 0)%nat) as [Hz|Hz].
  - apply length_zero_iff_nil in Hz. by subst val.
  - rewrite bool_decide_eq_false_2 by (intros ->; done).
    by destruct (decodeIndexKV _ _ _ _ _).
Qed.

(** The point path of [Next]: one [Get], at most one row, and the range is done. *)
Lemma is_Next_loop_point c e ran :
  indexScan.rows e !! indexScan.rowCursor e = None ->
  indexScan.kvRanges e !! indexScan.ranCursor e = Some ran ->
  indexScan.isUnique e && IsPoint ran = true ->
  let e1 := is_nextRange (indexScan.log (CallGet (StartKey ran) (indexScan.startTS e))
                            (is_reset e)) in
  indexScan.Next_loop c 2 e =
  match Get (getDBReader (indexScan.reqCtx e)) (StartKey ran) (indexScan.startTS e) with
  | Err er => (Err er, e1)
  | OK val =>
      if bool_decide (val = []) then indexScan.Next_loop c 2 e1
      else
        match decodeIndexKV c (indexScan.colsLen e) (indexScan.pkStatus e)
                (StartKey ran) val with
        | Err er => (Err er, e1)
        | OK row => (OK (Some row), indexScan.set_rowCursor 1 (indexScan.set_rows [row] e1))
        end
  end.
Proof.
  intros Hbuf Hran Hpt e1.
  rewrite is_Next_loop_eq, Hbuf. cbv zeta. fold (is_reset e).
  pose proof (lookup_lt_Some _ _ _ Hran) as Hlt.
  destruct (length (indexScan.kvRanges e) - indexScan.ranCursor e)%nat
    as [|fuel] eqn:Hfuel; [lia|].
  rewrite is_fillRows_loop_eq.
  change (indexScan.kvRanges (is_reset e)) with (indexScan.kvRanges e).
  change (indexScan.ranCursor (is_reset e)) with (indexScan.ranCursor e).
  change (indexScan.isUnique (is_reset e)) with (indexScan.isUnique e).
  rewrite Hran, Hpt, is_fillRowsFromPoint_eq. cbv zeta.
  change (indexScan.reqCtx (is_reset e)) with (indexScan.reqCtx e).
  change (indexScan.startTS (is_reset e)) with (indexScan.startTS e).
  change (indexScan.colsLen (is_reset e)) with (indexScan.colsLen e).
  change (indexScan.pkStatus (is_reset e)) with (indexScan.pkStatus e).
  change (indexScan.rows (is_reset e)) with (@nil Row).
  fold e1.
  destruct (Get _ _ _) as [val|er]; [|done].
  destruct (bool_decide (val = [])).
  - change (indexScan.rows e1) with (@nil Row). cbn [length bool_decide].
    rewrite bool_decide_eq_false_2 by (simpl; lia).
    rewrite (is_Next_loop_eq c 1 e1).
    change (indexScan.rows e1) with (@nil Row).
    change (indexScan.rowCursor e1) with 0%nat.
    cbn [lookup list_lookup]. cbv zeta.
    change (indexScan.kvRanges e1) with (indexScan.kvRanges e).
    change (indexScan.ranCursor e1) with (S (indexScan.ranCursor e)).
    replace (length (indexScan.kvRanges e) - S (indexScan.ranCursor e))%nat with fuel by lia.
    done.
  - destruct (decodeIndexKV _ _ _ _ _) as [row|er]; [|done].
    cbn [app].
    change (indexScan.rows (is_nextRange (indexScan.set_rows [row] _))) with [row].
    rewrite bool_decide_eq_true_2 by (simpl; lia).
    rewrite bool_decide_eq_false_2 by (simpl; lia).
    rewrite (is_Next_loop_eq c 0).
    change (indexScan.rows (is_nextRange (indexScan.set_rows [row] _))) with [row].
    change (indexScan.rowCursor (is_nextRange (indexScan.set_rows [row] _))) with 0%nat.
    cbn [lookup list_lookup]. done.
Qed.

Lemma is_scanVisit_ok (c : Codec) (limit : nat) :
  forall (pairs : list (bytes * bytes)) (rows : list Row) (lk : option bytes)
         (e : indexScan.exec),
  Forall2 (fun kv row => decodeIndexKV c (indexScan.colsLen e) (indexScan.pkStatus e)
                           kv.1 kv.2 = OK row)
          (take limit pairs) rows ->
  scanVisit (indexScan.scanFunc c) limit pairs (lk, e) =
  (OK tt,
   (match last (take limit pairs) with Some kv => Some kv.1 | None => lk end,
    indexScan.set_rows (indexScan.rows e ++ rows) e)).
Proof.
  induction limit as [|n IH]; intros pairs rows lk e Hdec.
  - rewrite take_0 in Hdec. apply Forall2_nil_inv_l in Hdec as ->.
    destruct pairs; simpl; rewrite app_nil_r; by destruct e.
  - destruct pairs as [|[k v] ps].
    { apply Forall2_nil_inv_l in Hdec as ->. simpl; rewrite app_nil_r; by destruct e. }
    rewrite firstn_cons in Hdec |- *.
    apply Forall2_cons_inv_l in Hdec as (r & rows' & Hr & Hdec & ->).
    cbn [scanVisit]. unfold st_bind at 1.
    assert (indexScan.scanFunc c k v (lk, e) =
            (OK tt, (Some k, indexScan.set_rows (indexScan.rows e ++ [r]) e))) as ->.
    { unfold indexScan.scanFunc, safeCopy. st_simpl. by rewrite Hr. }
    rewrite (IH ps rows') by done.
    cbn [indexScan.rows indexScan.set_rows].
    f_equal. f_equal.
    + rewrite last_cons. by destruct (last (take n ps)).
    + rewrite <- app_assoc. by destruct e.
Qed.

Lemma is_set_seekKey_same e : indexScan.set_seekKey (indexScan.seekKey e) e = e.
Proof. by destruct e. Qed.

(** [fillRowsFromRange], unfolded. *)
Lemma is_fillRowsFromRange_eq c r e :
  indexScan.fillRowsFromRange c r e =
  let seek := default (if indexScan.Desc e then EndKey r else StartKey r)
                (indexScan.seekKey e) in
  let reader := getDBReader (indexScan.reqCtx e) in
  let ts := indexScan.startTS e in
  let call := if indexScan.Desc e then CallReverseScan (StartKey r) seek scanLimit ts
              else CallScan seek (EndKey r) scanLimit ts in
  let pairs := if indexScan.Desc e then ReverseScanPairs reader (StartKey r) seek ts
               else ScanPairs reader seek (EndKey r) ts in
  match scanVisit (indexScan.scanFunc c) scanLimit pairs
          (None, indexScan.log call (indexScan.set_seekKey (Some seek) e)) with
  | (OK _, (Some lk, e1)) =>
      (OK tt, indexScan.set_seekKey
                (if indexScan.Desc e then prefixPrev lk else Some (PrefixNext lk)) e1)
  | (OK _, (None, e1)) => (OK tt, e1)
  | (Err er, (_, e1)) => (Err er, e1)
  end.
Proof.
  unfold indexScan.fillRowsFromRange.
  unfold mbind at 1. unfold ST_bind, st_bind, st_get.
  unfold mbind at 1. unfold ST_bind, st_bind.
  set (seek := default (if indexScan.Desc e then EndKey r else StartKey r)
                 (indexScan.seekKey e)).
  assert ((if bool_decide (indexScan.seekKey e = None)
           then if indexScan.Desc e
                then st_modify (indexScan.set_seekKey (Some (EndKey r)))
                else st_modify (indexScan.set_seekKey (Some (StartKey r)))
           else mret tt) e = (OK tt, indexScan.set_seekKey (Some seek) e)) as ->.
  { unfold seek. destruct (indexScan.seekKey e) eqn:Es; simpl.
    - by rewrite <- Es, is_set_seekKey_same.
    - by destruct (indexScan.Desc e). }
  unfold mbind at 1. unfold ST_bind, st_bind, st_get.
  unfold mbind at 1. unfold ST_bind, st_bind.
  cbn [indexScan.Desc indexScan.seekKey indexScan.set_seekKey indexScan.reqCtx
       indexScan.startTS default from_option id]. cbv zeta.
  destruct (indexScan.Desc e).
  - unfold mbind at 1. unfold ST_bind, st_bind, st_modify.
    unfold indexScan.withLastKey, ReverseScan.
    destruct (scanVisit _ _ _ _) as [[[]|er] [lk e1]]; [|done].
    by destruct lk.
  - unfold mbind at 1. unfold ST_bind, st_bind, st_modify.
    unfold indexScan.withLastKey, Scan.
    destruct (scanVisit _ _ _ _) as [[[]|er] [lk e1]]; [|done].
    by destruct lk.
Qed.

Lemma scanVisit_take {S} (fn : bytes -> bytes -> ST S unit) (limit : nat) :
  forall pairs s, scanVisit fn limit (take limit pairs) s = scanVisit fn limit pairs s.
Proof.
  induction limit as [|n IH]; intros pairs s; [by destruct pairs|].
  destruct pairs as [|[k v] ps]; [done|].
  rewrite firstn_cons. cbn [scanVisit]. unfold st_bind.
  destruct (fn k v s) as [[[]|er] s']; [|done]. apply IH.
Qed.

(** The scan path of [Next] when the pairs decode: one [Scan] or
    [ReverseScan] from the seek key, a row for each pair. *)
Lemma is_Next_loop_range c e ran (rows : list Row) :
  indexScan.rows e !! indexScan.rowCursor e = None ->
  indexScan.kvRanges e !! indexScan.ranCursor e = Some ran ->
  indexScan.isUnique e && IsPoint ran = false ->
  let seek := default (if indexScan.Desc e then EndKey ran else StartKey ran)
                (indexScan.seekKey e) in
  let reader := getDBReader (indexScan.reqCtx e) in
  let ts := indexScan.startTS e in
  let call := if indexScan.Desc e then CallReverseScan (StartKey ran) seek scanLimit ts
              else CallScan seek (EndKey ran) scanLimit ts in
  let pairs := take scanLimit
                 (if indexScan.Desc e then ReverseScanPairs reader (StartKey ran) seek ts
                  else ScanPairs reader seek (EndKey ran) ts) in
  Forall2 (fun kv row => decodeIndexKV c (indexScan.colsLen e) (indexScan.pkStatus e)
                           kv.1 kv.2 = OK row) pairs rows ->
  let e1 := indexScan.log call (indexScan.set_seekKey (Some seek) (is_reset e)) in
  indexScan.Next_loop c 2 e =
  match last pairs, rows with
  | Some kv, row :: _ =>
      (OK (Some row),
       indexScan.set_rowCursor 1
         (indexScan.set_rows rows
            (indexScan.set_seekKey
               (if indexScan.Desc e then prefixPrev kv.1 else Some (PrefixNext kv.1)) e1)))
  | _, _ => indexScan.Next_loop c 2 (is_nextRange e1)
  end.
Proof.
  intros Hbuf Hran Hpt seek reader ts call pairs Hdec e1.
  rewrite is_Next_loop_eq, Hbuf. cbv zeta. fold (is_reset e).
  pose proof (lookup_lt_Some _ _ _ Hran) as Hlt.
  destruct (length (indexScan.kvRanges e) - indexScan.ranCursor e)%nat
    as [|fuel] eqn:Hfuel; [lia|].
  rewrite is_fillRows_loop_eq.
  change (indexScan.kvRanges (is_reset e)) with (indexScan.kvRanges e).
  change (indexScan.ranCursor (is_reset e)) with (indexScan.ranCursor e).
  change (indexScan.isUnique (is_reset e)) with (indexScan.isUnique e).
  rewrite Hran, Hpt, is_fillRowsFromRange_eq. cbv zeta.
  change (indexScan.reqCtx (is_reset e)) with (indexScan.reqCtx e).
  change (indexScan.startTS (is_reset e)) with (indexScan.startTS e).
  change (indexScan.Desc (is_reset e)) with (indexScan.Desc e).
  change (indexScan.seekKey (is_reset e)) with (indexScan.seekKey e).
  fold seek reader ts. fold call. fold e1.
  rewrite <- scanVisit_take. fold pairs.
  rewrite (is_scanVisit_ok c scanLimit pairs rows None e1).
  2:{ unfold pairs at 1. rewrite take_take, Nat.min_id. exact Hdec. }
  assert (take scanLimit pairs = pairs) as ->
    by (unfold pairs; by rewrite take_take, Nat.min_id).
  change (indexScan.rows e1) with (@nil Row). cbn [app].
  pose proof (Forall2_length _ _ _ Hdec) as Hlen.
  destruct (last pairs) as [kv|] eqn:Hlast.
  - destruct rows as [|row rows'].
    { destruct pairs; [done|simpl in Hlen; lia]. }
    cbn [indexScan.rows indexScan.set_rows indexScan.set_seekKey].
    rewrite (bool_decide_eq_false_2 (length (row :: rows') = 0%nat)) by (simpl; lia).
    cbn [indexScan.rows indexScan.set_rows indexScan.set_seekKey].
    rewrite bool_decide_eq_true_2 by (simpl; lia).
    rewrite (is_Next_loop_eq c 0).
    cbn [indexScan.rows indexScan.rowCursor indexScan.set_rows indexScan.set_seekKey
         lookup list_lookup].
    change (indexScan.rowCursor e1) with 0%nat. cbn [lookup list_lookup].
    done.
  - apply last_None in Hlast. rewrite Hlast in Hlen. destruct rows; [|done].
    cbn [indexScan.rows indexScan.set_rows].
    rewrite (bool_decide_eq_true_2 (length (@nil Row) = 0%nat)) by done.
    change (indexScan.rows (is_nextRange (indexScan.set_rows [] e1))) with (@nil Row).
    rewrite bool_decide_eq_false_2 by (simpl; lia).
    replace (indexScan.set_rows [] e1) with e1 by (by destruct e).
    rewrite (is_Next_loop_eq c 1 (is_nextRange e1)).
    change (indexScan.rows (is_nextRange e1)) with (@nil Row).
    change (indexScan.rowCursor (is_nextRange e1)) with 0%nat.
    cbn [lookup list_lookup]. cbv zeta.
    change (indexScan.kvRanges (is_nextRange e1)) with (indexScan.kvRanges e).
    change (indexScan.ranCursor (is_nextRange e1)) with (S (indexScan.ranCursor e)).
    replace (length (indexScan.kvRanges e) - S (indexScan.ranCursor e))%nat with fuel by lia.
    done.
Qed.

(** ** A failing point range, through the interface of the scans *)

Section ScanSteps.
Context {E : Type} `{ScanExec E} (c : Codec).

Definition flagsOK (e : E) : Prop :=
  scanIgnoreLock e = true \/ scanLockChecked e = true.

(** The same scan as far as the interface shows, the cursors, the
    buffer and the log apart. *)
Definition sameScan (e e' : E) : Prop :=
  scanRanges e' = scanRanges e /\ scanTS e' = scanTS e /\
  scanDesc e' = scanDesc e /\ scanReader e' = scanReader e /\
  (forall r, scanPointPath e' r = scanPointPath e r) /\
  (forall r v, scanDecodePoint c e' r v = scanDecodePoint c e r v).

Hypothesis step_lock : forall e,
  lockPasses e ->
  exists e1, scanNext c e = scanNext c e1 /\ flagsOK e1 /\ sameScan e e1 /\
             scanRangeCursor e1 = scanRangeCursor e /\
             scanSeekKey e1 = scanSeekKey e /\
             scanBuffered e1 = scanBuffered e /\
             scanCalls e1 = scanCalls e ++ lockCalls e.

Hypothesis step_skip : forall e r,
  flagsOK e -> scanBuffered e = [] ->
  scanRanges e !! scanRangeCursor e = Some r ->
  rangeSilent e (scanSeekKey e) r ->
  exists e1, scanNext c e = scanNext c e1 /\ flagsOK e1 /\ sameScan e e1 /\
             scanRangeCursor e1 = S (scanRangeCursor e) /\
             scanSeekKey e1 = None /\
             scanBuffered e1 = [] /\
             scanCalls e1 = scanCalls e ++ [rangeCall e (scanSeekKey e) r].

Hypothesis step_fail : forall e ran err,
  flagsOK e -> scanBuffered e = [] ->
  scanRanges e !! scanRangeCursor e = Some ran ->
  scanPointPath e ran = true ->
  pointFails c e ran err ->
  pointFailureOutcome c e (scanRangeCursor e) [] ran err.

Lemma sameScan_silent e e1 seek r :
  sameScan e e1 -> rangeSilent e1 seek r <-> rangeSilent e seek r.
Proof.
  intros (Hr & Hts & Hd & Hrd & Hp & _). unfold rangeSilent.
  by rewrite Hp, Hts, Hd, Hrd.
Qed.

Lemma sameScan_call e e1 seek r :
  sameScan e e1 -> rangeCall e1 seek r = rangeCall e seek r.
Proof.
  intros (Hr & Hts & Hd & Hrd & Hp & _). unfold rangeCall.
  by rewrite Hp, Hts, Hd.
Qed.

Lemma sameScan_fails e e1 ran err :
  sameScan e e1 -> pointFails c e ran err -> pointFails c e1 ran err.
Proof.
  intros (Hr & Hts & Hd & Hrd & Hp & Hdec). unfold pointFails.
  rewrite Hts, Hrd. intros [Hg|(val & Hg & Hv & Hdc)]; [by left|].
  right. exists val. by rewrite Hdec.
Qed.

Lemma pointFailure_checked : forall (skipped : list KeyRange) (e : E) ran err,
  flagsOK e ->
  scanBuffered e = [] ->
  (forall k r, skipped !! k = Some r ->
               scanRanges e !! (scanRangeCursor e + k)%nat = Some r) ->
  scanRanges e !! (scanRangeCursor e + length skipped)%nat = Some ran ->
  silentRanges e skipped ->
  scanPointPath e ran = true ->
  pointFails c e ran err ->
  pointFailureOutcome c e (scanRangeCursor e + length skipped)
    (skipCalls e skipped) ran err.
Proof.
  induction skipped as [|r rs IH]; intros e ran err Hfl Hbuf Hsk Hran Hsil Hpt Hfail.
  - simpl in *. rewrite Nat.add_0_r in *. by apply step_fail.
  - destruct Hsil as [Hr Hrs].
    assert (scanRanges e !! scanRangeCursor e = Some r) as Hr0.
    { specialize (Hsk 0%nat r eq_refl). by rewrite Nat.add_0_r in Hsk. }
    destruct (step_skip e r Hfl Hbuf Hr0 Hr)
      as (e1 & HN & Hfl1 & Hsame & Hcur1 & Hseek1 & Hbuf1 & Hcalls1).
    pose proof Hsame as (Hrg & Hts & Hd & Hrd & Hp & Hdec).
    assert (pointFailureOutcome c e1 (scanRangeCursor e1 + length rs)
              (skipCalls e1 rs) ran err) as Hout.
    { apply IH; try done.
      - intros k r' Hk. rewrite Hrg, Hcur1.
        specialize (Hsk (S k) r' Hk). by rewrite Nat.add_succ_r in Hsk.
      - rewrite Hrg, Hcur1. simpl in Hran. by rewrite Nat.add_succ_r in Hran.
      - unfold silentRanges. destruct rs as [|r2 rs2]; [done|].
        apply Forall_cons in Hrs as [H2 Hrs2]. rewrite Hseek1. split.
        + by apply (sameScan_silent e e1).
        + eapply Forall_impl; [exact Hrs2|]. intros x Hx. by apply (sameScan_silent e e1).
      - by rewrite Hp.
      - by apply (sameScan_fails e e1). }
    destruct Hout as (e' & HN' & Hcur' & Hseek' & Hbuf' & Hcalls' & Hnext).
    exists e'. rewrite HN. split; [done|].
    rewrite Hcur1 in Hcur'. simpl. rewrite Nat.add_succ_r. split; [done|].
    split; [done|]. split; [done|]. split.
    + rewrite Hcalls', Hcalls1, Hts. rewrite <- !app_assoc. simpl. do 3 f_equal.
      destruct rs as [|r2 rs2]; [done|]. simpl. rewrite Hseek1. f_equal.
      * by apply sameScan_call.
      * apply list_fmap_ext. intros _ x _. by apply sameScan_call.
    + rewrite Hrg, Hcur1 in Hnext. exact Hnext.
Qed.

Lemma pointFailure_generic (e : E) : pointFailureSpec c e.
Proof.
  intros skipped ran err Hlock Hbuf Hsk Hran Hsil Hpt Hfail.
  destruct (step_lock e Hlock)
    as (e1 & HN & Hfl1 & Hsame & Hcur1 & Hseek1 & Hbuf1 & Hcalls1).
  pose proof Hsame as (Hrg & Hts & Hd & Hrd & Hp & Hdec).
  assert (pointFailureOutcome c e1 (scanRangeCursor e1 + length skipped)
            (skipCalls e1 skipped) ran err) as Hout.
  { apply pointFailure_checked; try done.
    - by rewrite Hbuf1.
    - intros k r' Hk. rewrite Hrg, Hcur1. by apply Hsk.
    - by rewrite Hrg, Hcur1.
    - unfold silentRanges in *. destruct skipped as [|r2 rs2]; [done|].
      destruct Hsil as [H2 Hrs2]. rewrite Hseek1. split.
      + by apply (sameScan_silent e e1).
      + eapply Forall_impl; [exact Hrs2|]. intros x Hx. by apply (sameScan_silent e e1).
    - by rewrite Hp.
    - by apply (sameScan_fails e e1). }
  destruct Hout as (e' & HN' & Hcur' & Hseek' & Hbuf' & Hcalls' & Hnext).
  exists e'. rewrite HN. split; [done|].
  rewrite Hcur1 in Hcur'. split; [done|]. split; [done|]. split; [done|]. split.
  - rewrite Hcalls', Hcalls1, Hts. rewrite <- !app_assoc. do 2 f_equal.
    f_equal. destruct skipped as [|r2 rs2]; [done|]. simpl. rewrite Hseek1. f_equal.
    + by apply sameScan_call.
    + apply list_fmap_ext. intros _ x _. by apply sameScan_call.
  - by rewrite Hrg, Hcur1 in Hnext.
Qed.

End ScanSteps.

(** ** Index scan: the steps of [Next] *)

Lemma is_checked_calls (e : indexScan.exec) :
  indexScan.calls (is_checked e) = indexScan.calls e ++ lockCalls e.
Proof.
  unfold is_checked, lockCalls.
  cbn [scanIgnoreLock scanLockChecked scanTS scanRanges indexScan_ScanExec].
  destruct (_ || _); [by rewrite app_nil_r|].
  cbn [indexScan.calls indexScan.set_lockChecked]. apply is_calls_logs.
Qed.

Lemma is_step_lock c (e : indexScan.exec) :
  lockPasses e ->
  exists e1, scanNext c e = scanNext c e1 /\ flagsOK e1 /\ sameScan c e e1 /\
             scanRangeCursor e1 = scanRangeCursor e /\
             scanSeekKey e1 = scanSeekKey e /\
             scanBuffered e1 = scanBuffered e /\
             scanCalls e1 = scanCalls e ++ lockCalls e.
Proof.
  intros Hlock. exists (is_checked e).
  pose proof (is_checked_flags e Hlock) as Hfl.
  pose proof (is_checked_fields e) as (F1 & F2 & F3 & F4 & F5 & F6 & F7 & F8 & F9 & F10 & F11).
  cbn [scanNext scanRangeCursor scanSeekKey scanBuffered scanCalls indexScan_ScanExec].
  split; [by rewrite is_Next_lockPasses, (is_Next_checked c (is_checked e))|].
  split; [exact Hfl|]. split.
  { unfold sameScan.
    cbn [scanRanges scanTS scanDesc scanReader scanPointPath scanDecodePoint
         indexScan_ScanExec].
    unfold indexScan.isUnique. rewrite F1, F2, F3, F4, F5, F6, F7. done. }
  rewrite F8, F9, F10, F11. repeat split; try done. apply is_checked_calls.
Qed.

Lemma is_step_skip c (e : indexScan.exec) r :
  flagsOK e -> scanBuffered e = [] ->
  scanRanges e !! scanRangeCursor e = Some r ->
  rangeSilent e (scanSeekKey e) r ->
  exists e1, scanNext c e = scanNext c e1 /\ flagsOK e1 /\ sameScan c e e1 /\
             scanRangeCursor e1 = S (scanRangeCursor e) /\
             scanSeekKey e1 = None /\
             scanBuffered e1 = [] /\
             scanCalls e1 = scanCalls e ++ [rangeCall e (scanSeekKey e) r].
Proof.
  unfold flagsOK, rangeSilent, rangeCall, sameScan.
  cbn [scanNext scanRangeCursor scanSeekKey scanBuffered scanCalls scanRanges scanTS
       scanDesc scanReader scanPointPath scanDecodePoint scanIgnoreLock scanLockChecked
       indexScan_ScanExec].
  intros Hfl Hbuf Hr Hsil. apply is_buffer_empty in Hbuf.
  rewrite (is_Next_checked c e) by done.
  destruct (indexScan.isUnique e && IsPoint r) eqn:Hpt.
  - rewrite (is_Next_loop_point c e r Hbuf Hr Hpt). cbv zeta. rewrite Hsil.
    rewrite bool_decide_eq_true_2 by done.
    eexists. split; [symmetry; apply is_Next_checked; exact Hfl|].
    split; [exact Hfl|]. by repeat split.
  - rewrite (is_Next_loop_range c e r [] Hbuf Hr Hpt).
    2:{ cbv zeta.
        replace (default (if indexScan.Desc e then EndKey r else StartKey r)
                   (indexScan.seekKey e))
          with (if indexScan.Desc e then default (EndKey r) (indexScan.seekKey e)
                else default (StartKey r) (indexScan.seekKey e))
          by (by destruct (indexScan.Desc e)).
        destruct (indexScan.Desc e); rewrite Hsil; constructor. }
    cbv zeta.
    replace (match last _ with Some _ => _ | None => _ end)
      with (indexScan.Next_loop c 2
              (is_nextRange
                 (indexScan.log
                    (if indexScan.Desc e
                     then CallReverseScan (StartKey r)
                            (default (if indexScan.Desc e then EndKey r else StartKey r)
                               (indexScan.seekKey e)) scanLimit (indexScan.startTS e)
                     else CallScan
                            (default (if indexScan.Desc e then EndKey r else StartKey r)
                               (indexScan.seekKey e)) (EndKey r) scanLimit
                            (indexScan.startTS e))
                    (indexScan.set_seekKey
                       (Some (default (if indexScan.Desc e then EndKey r else StartKey r)
                                (indexScan.seekKey e))) (is_reset e)))))
      by (by destruct (last _)).
    eexists. split; [symmetry; apply is_Next_checked; exact Hfl|].
    split; [exact Hfl|]. split; [by repeat split|].
    split; [done|]. split; [done|]. split; [done|].
    cbn [indexScan.calls is_nextRange indexScan.set_seekKey indexScan.set_ranCursor
         indexScan.log is_reset indexScan.set_rows indexScan.set_rowCursor].
    by destruct (indexScan.Desc e).
Qed.

Lemma is_step_fail c (e : indexScan.exec) ran err :
  flagsOK e -> scanBuffered e = [] ->
  scanRanges e !! scanRangeCursor e = Some ran ->
  scanPointPath e ran = true ->
  pointFails c e ran err ->
  pointFailureOutcome c e (scanRangeCursor e) [] ran err.
Proof.
  unfold flagsOK, pointFails.
  intros Hlock Hbuf Hran Hpt Hfail.
  cbn [scanIgnoreLock scanLockChecked scanBuffered scanRanges scanRangeCursor
       scanPointPath scanReader scanTS scanDecodePoint indexScan_ScanExec] in *.
  destruct (is_point_failure c e ran err Hlock Hbuf Hran Hpt Hfail)
    as (e' & HN & Hcur & Hseek & Hrows & Hrc & Hcalls & Hfr).
  exists e'.
  cbn [scanNext scanRangeCursor scanSeekKey scanBuffered scanCalls scanRanges scanTS
       indexScan_ScanExec].
  repeat (split; [done || by rewrite Hrows, drop_nil|]).
  destruct Hfr as (_&_&_&_& Hr &_&_&_&_&_& Hi & Hl & _).
  assert (indexScan.ignoreLock e' = true \/ indexScan.lockChecked e' = true) as Hlock'
    by (by rewrite Hi, Hl).
  assert (drop (indexScan.rowCursor e') (indexScan.rows e') = []) as Hbuf'
    by (by rewrite Hrows, drop_nil).
  rewrite <- Hr, <- Hcur.
  destruct (indexScan.kvRanges e' !! indexScan.ranCursor e') as [ran2|] eqn:Hran2.
  - by apply is_Next_first_call.
  - by apply is_Next_exhausted.
Qed.

Lemma is_pointFailureSpec c (e : indexScan.exec) : pointFailureSpec c e.
Proof.
  apply pointFailure_generic.
  - apply is_step_lock.
  - apply is_step_skip.
  - apply is_step_fail.
Qed.

(** ** Table scan: the steps of [Next] *)

(** The scan once [checkRangeLock] is through. *)
Definition ts_checked (e : tableScan.exec) : tableScan.exec :=
  if tableScan.ignoreLock e || tableScan.lockChecked e then e
  else tableScan.set_lockChecked true
         (ts_logs (checkCallOf (tableScan.startTS e) <$> tableScan.kvRanges e) e).

(** The buffer as [refill] resets it. *)
Definition ts_reset (e : tableScan.exec) : tableScan.exec :=
  tableScan.set_rows [] (tableScan.set_rowCursor 0 e).

Lemma ts_Next_lockPasses c (e : tableScan.exec) :
  lockPasses e -> tableScan.Next c e = tableScan.Next_loop c 2 (ts_checked e).
Proof.
  unfold lockPasses, ts_checked.
  cbn [scanIgnoreLock scanLockChecked scanStore scanTS scanRanges tableScan_ScanExec].
  intros H.
  destruct (tableScan.ignoreLock e) eqn:Hi; [by rewrite ts_Next_checked by (by left)|].
  destruct (tableScan.lockChecked e) eqn:Hl; [by rewrite ts_Next_checked by (by right)|].
  destruct H as [H|[H|H]]; [done|done|].
  rewrite ts_Next_unchecked by done. cbv zeta. rewrite H. cbn [orb].
  destruct (lockPass _ _ _) as [p r] eqn:Hp. simpl in H. subst r.
  apply lockPass_None in Hp as ->. done.
Qed.

Lemma ts_checked_flags (e : tableScan.exec) :
  lockPasses e ->
  tableScan.ignoreLock (ts_checked e) = true \/ tableScan.lockChecked (ts_checked e) = true.
Proof.
  unfold lockPasses, ts_checked.
  cbn [scanIgnoreLock scanLockChecked scanStore scanTS scanRanges tableScan_ScanExec].
  intros H.
  destruct (tableScan.ignoreLock e) eqn:Hi; [by left|].
  destruct (tableScan.lockChecked e) eqn:Hl; [by right|].
  right. reflexivity.
Qed.

Lemma ts_checked_fields (e : tableScan.exec) :
  let e' := ts_checked e in
  tableScan.Desc e' = tableScan.Desc e /\
  tableScan.Columns e' = tableScan.Columns e /\
  tableScan.colIDs e' = tableScan.colIDs e /\
  tableScan.kvRanges e' = tableScan.kvRanges e /\
  tableScan.startTS e' = tableScan.startTS e /\
  tableScan.reqCtx e' = tableScan.reqCtx e /\
  tableScan.rangeCursor e' = tableScan.rangeCursor e /\
  tableScan.seekKey e' = tableScan.seekKey e /\
  tableScan.rowCursor e' = tableScan.rowCursor e /\
  tableScan.rows e' = tableScan.rows e.
Proof.
  unfold ts_checked. destruct (_ || _); [done|].
  generalize (checkCallOf (tableScan.startTS e) <$> tableScan.kvRanges e).
  intros xs. unfold ts_logs. revert e.
  induction xs as [|x xs IH]; intros e; simpl; [done|].
  apply (IH (tableScan.log x e)).
Qed.

Lemma ts_checked_calls (e : tableScan.exec) :
  tableScan.calls (ts_checked e) = tableScan.calls e ++ lockCalls e.
Proof.
  unfold ts_checked, lockCalls.
  cbn [scanIgnoreLock scanLockChecked scanTS scanRanges tableScan_ScanExec].
  destruct (_ || _); [by rewrite app_nil_r|].
  cbn [tableScan.calls tableScan.set_lockChecked]. apply ts_calls_logs.
Qed.

(** [fillRowsFromPoint], unfolded. *)
Lemma ts_fillRowsFromPoint_eq c ran e :
  tableScan.fillRowsFromPoint c ran e =
  let e1 := tableScan.log (CallGet (StartKey ran) (tableScan.startTS e)) e in
  match Get (getDBReader (tableScan.reqCtx e)) (StartKey ran) (tableScan.startTS e) with
  | Err er => (Err er, e1)
  | OK val =>
      if bool_decide (val = []) then (OK tt, e1)
      else
        match (handle ← decodeRowKey c (StartKey ran);
               getRowData c (tableScan.Columns e) (tableScan.colIDs e) handle val) with
        | Err er => (Err er, e1)
        | OK row => (OK tt, tableScan.set_rows (tableScan.rows e ++ [row]) e1)
        end
  end.
Proof.
  unfold tableScan.fillRowsFromPoint. st_simpl.
  destruct (Get _ _ _) as [val|er]; simpl; [|done].
  destruct (decide (length val = 0)%nat) as [Hz|Hz].
  - apply length_zero_iff_nil in Hz. by subst val.
  - rewrite bool_decide_eq_false_2 by (intros ->; done).
    destruct (decodeRowKey c (StartKey ran)) as [h|er]; simpl; [|done].
    by destruct (getRowData _ _ _ _ _).
Qed.

(** The point path of [Next]: one [Get], at most one row, and the
    range is done. *)
Lemma ts_Next_loop_point c e ran :
  tableScan.rows e !! tableScan.rowCursor e = None ->
  tableScan.kvRanges e !! tableScan.rangeCursor e = Some ran ->
  IsPoint ran = true ->
  let e1 := ts_nextRange (tableScan.log (CallGet (StartKey ran) (tableScan.startTS e))
                            (ts_reset e)) in
  tableScan.Next_loop c 2 e =
  match Get (getDBReader (tableScan.reqCtx e)) (StartKey ran) (tableScan.startTS e) with
  | Err er => (Err er, e1)
  | OK val =>
      if bool_decide (val = []) then tableScan.Next_loop c 2 e1
      else
        match (handle ← decodeRowKey c (StartKey ran);
               getRowData c (tableScan.Columns e) (tableScan.colIDs e) handle val) with
        | Err er => (Err er, e1)
        | OK row => (OK (Some row), tableScan.set_rowCursor 1 (tableScan.set_rows [row] e1))
        end
  end.
Proof.
  intros Hbuf Hran Hpt e1.
  rewrite ts_Next_loop_eq, Hbuf. cbv zeta. fold (ts_reset e).
  pose proof (lookup_lt_Some _ _ _ Hran) as Hlt.
  destruct (length (tableScan.kvRanges e) - tableScan.rangeCursor e)%nat
    as [|fuel] eqn:Hfuel; [lia|].
  rewrite ts_fillRows_loop_eq.
  change (tableScan.kvRanges (ts_reset e)) with (tableScan.kvRanges e).
  change (tableScan.rangeCursor (ts_reset e)) with (tableScan.rangeCursor e).
  rewrite Hran, Hpt, ts_fillRowsFromPoint_eq. cbv zeta.
  change (tableScan.reqCtx (ts_reset e)) with (tableScan.reqCtx e).
  change (tableScan.startTS (ts_reset e)) with (tableScan.startTS e).
  change (tableScan.Columns (ts_reset e)) with (tableScan.Columns e).
  change (tableScan.colIDs (ts_reset e)) with (tableScan.colIDs e).
  change (tableScan.rows (ts_reset e)) with (@nil Row).
  fold e1.
  destruct (Get _ _ _) as [val|er]; [|done].
  destruct (bool_decide (val = [])).
  - change (tableScan.rows e1) with (@nil Row). cbn [length bool_decide].
    rewrite bool_decide_eq_false_2 by (simpl; lia).
    rewrite (ts_Next_loop_eq c 1 e1).
    change (tableScan.rows e1) with (@nil Row).
    change (tableScan.rowCursor e1) with 0%nat.
    cbn [lookup list_lookup]. cbv zeta.
    change (tableScan.kvRanges e1) with (tableScan.kvRanges e).
    change (tableScan.rangeCursor e1) with (S (tableScan.rangeCursor e)).
    replace (length (tableScan.kvRanges e) - S (tableScan.rangeCursor e))%nat
      with fuel by lia.
    done.
  - destruct (_ ≫= _) as [row|er]; [|done].
    cbn [app].
    change (tableScan.rows (ts_nextRange (tableScan.set_rows [row] _))) with [row].
    rewrite bool_decide_eq_true_2 by (simpl; lia).
    rewrite bool_decide_eq_false_2 by (simpl; lia).
    rewrite (ts_Next_loop_eq c 0).
    change (tableScan.rows (ts_nextRange (tableScan.set_rows [row] _))) with [row].
    change (tableScan.rowCursor (ts_nextRange (tableScan.set_rows [row] _))) with 0%nat.
    cbn [lookup list_lookup]. done.
Qed.

Lemma scanVisit_nil {S} (fn : bytes -> bytes -> ST S unit) (limit : nat) (s : S) :
  scanVisit fn limit [] s = (OK tt, s).
Proof. by destruct limit. Qed.

(** A range scan that finds no pair: the range is done. *)
Lemma ts_Next_loop_range_empty c e ran :
  tableScan.rows e !! tableScan.rowCursor e = None ->
  tableScan.kvRanges e !! tableScan.rangeCursor e = Some ran ->
  IsPoint ran = false ->
  let seek := default (if tableScan.Desc e then EndKey ran else StartKey ran)
                (tableScan.seekKey e) in
  let reader := getDBReader (tableScan.reqCtx e) in
  let ts := tableScan.startTS e in
  let call := if tableScan.Desc e then CallReverseScan (StartKey ran) seek scanLimit ts
              else CallScan seek (EndKey ran) scanLimit ts in
  (if tableScan.Desc e then ReverseScanPairs reader (StartKey ran) seek ts
   else ScanPairs reader seek (EndKey ran) ts) = [] ->
  tableScan.Next_loop c 2 e =
  tableScan.Next_loop c 2 (ts_nextRange (tableScan.log call (ts_reset e))).
Proof.
  intros Hbuf Hran Hpt seek reader ts call Hpairs.
  set (e2 := ts_nextRange (tableScan.log call (ts_reset e))).
  rewrite ts_Next_loop_eq, Hbuf. cbv zeta. fold (ts_reset e).
  pose proof (lookup_lt_Some _ _ _ Hran) as Hlt.
  destruct (length (tableScan.kvRanges e) - tableScan.rangeCursor e)%nat
    as [|fuel] eqn:Hfuel; [lia|].
  rewrite ts_fillRows_loop_eq.
  change (tableScan.kvRanges (ts_reset e)) with (tableScan.kvRanges e).
  change (tableScan.rangeCursor (ts_reset e)) with (tableScan.rangeCursor e).
  rewrite Hran, Hpt, ts_fillRowsFromRange_eq. cbv zeta.
  change (tableScan.reqCtx (ts_reset e)) with (tableScan.reqCtx e).
  change (tableScan.startTS (ts_reset e)) with (tableScan.startTS e).
  change (tableScan.Desc (ts_reset e)) with (tableScan.Desc e).
  change (tableScan.seekKey (ts_reset e)) with (tableScan.seekKey e).
  fold seek reader ts. fold call. rewrite Hpairs, scanVisit_nil.
  set (e0 := tableScan.log call (tableScan.set_seekKey (Some seek) (ts_reset e))).
  change (tableScan.rows e0) with (@nil Row).
  rewrite (bool_decide_eq_true_2 (length (@nil Row) = 0%nat)) by done.
  change (ts_nextRange e0) with e2.
  change (tableScan.rows e2) with (@nil Row).
  rewrite bool_decide_eq_false_2 by (simpl; lia).
  rewrite (ts_Next_loop_eq c 1 e2).
  change (tableScan.rows e2) with (@nil Row).
  change (tableScan.rowCursor e2) with 0%nat.
  cbn [lookup list_lookup]. cbv zeta.
  change (tableScan.kvRanges e2) with (tableScan.kvRanges e).
  change (tableScan.rangeCursor e2) with (S (tableScan.rangeCursor e)).
  replace (length (tableScan.kvRanges e) - S (tableScan.rangeCursor e))%nat
    with fuel by lia.
  done.
Qed.

Lemma ts_step_lock c (e : tableScan.exec) :
  lockPasses e ->
  exists e1, scanNext c e = scanNext c e1 /\ flagsOK e1 /\ sameScan c e e1 /\
             scanRangeCursor e1 = scanRangeCursor e /\
             scanSeekKey e1 = scanSeekKey e /\
             scanBuffered e1 = scanBuffered e /\
             scanCalls e1 = scanCalls e ++ lockCalls e.
Proof.
  intros Hlock. exists (ts_checked e).
  pose proof (ts_checked_flags e Hlock) as Hfl.
  pose proof (ts_checked_fields e) as (F1 & F2 & F3 & F4 & F5 & F6 & F7 & F8 & F9 & F10).
  cbn [scanNext scanRangeCursor scanSeekKey scanBuffered scanCalls tableScan_ScanExec].
  split; [by rewrite ts_Next_lockPasses, (ts_Next_checked c (ts_checked e))|].
  split; [exact Hfl|]. split.
  { unfold sameScan.
    cbn [scanRanges scanTS scanDesc scanReader scanPointPath scanDecodePoint
         tableScan_ScanExec].
    rewrite F1, F2, F3, F4, F5, F6. done. }
  rewrite F7, F8, F9, F10. repeat split; try done. apply ts_checked_calls.
Qed.

Lemma ts_step_skip c (e : tableScan.exec) r :
  flagsOK e -> scanBuffered e = [] ->
  scanRanges e !! scanRangeCursor e = Some r ->
  rangeSilent e (scanSeekKey e) r ->
  exists e1, scanNext c e = scanNext c e1 /\ flagsOK e1 /\ sameScan c e e1 /\
             scanRangeCursor e1 = S (scanRangeCursor e) /\
             scanSeekKey e1 = None /\
             scanBuffered e1 = [] /\
             scanCalls e1 = scanCalls e ++ [rangeCall e (scanSeekKey e) r].
Proof.
  unfold flagsOK, rangeSilent, rangeCall, sameScan.
  cbn [scanNext scanRangeCursor scanSeekKey scanBuffered scanCalls scanRanges scanTS
       scanDesc scanReader scanPointPath scanDecodePoint scanIgnoreLock scanLockChecked
       tableScan_ScanExec].
  intros Hfl Hbuf Hr Hsil. apply ts_buffer_empty in Hbuf.
  rewrite (ts_Next_checked c e) by done.
  destruct (IsPoint r) eqn:Hpt.
  - rewrite (ts_Next_loop_point c e r Hbuf Hr Hpt). cbv zeta. rewrite Hsil.
    rewrite bool_decide_eq_true_2 by done.
    eexists. split; [symmetry; apply ts_Next_checked; exact Hfl|].
    split; [exact Hfl|]. by repeat split.
  - rewrite (ts_Next_loop_range_empty c e r Hbuf Hr Hpt).
    2:{ replace (default (if tableScan.Desc e then EndKey r else StartKey r)
                   (tableScan.seekKey e))
          with (if tableScan.Desc e then default (EndKey r) (tableScan.seekKey e)
                else default (StartKey r) (tableScan.seekKey e))
          by (by destruct (tableScan.Desc e)).
        by destruct (tableScan.Desc e). }
    eexists. split; [symmetry; apply ts_Next_checked; exact Hfl|].
    split; [exact Hfl|]. split; [by repeat split|].
    split; [done|]. split; [done|]. split; [done|].
    cbn [tableScan.calls ts_nextRange tableScan.set_seekKey tableScan.set_rangeCursor
         tableScan.log ts_reset tableScan.set_rows tableScan.set_rowCursor].
    by destruct (tableScan.Desc e).
Qed.

Lemma ts_step_fail c (e : tableScan.exec) ran err :
  flagsOK e -> scanBuffered e = [] ->
  scanRanges e !! scanRangeCursor e = Some ran ->
  scanPointPath e ran = true ->
  pointFails c e ran err ->
  pointFailureOutcome c e (scanRangeCursor e) [] ran err.
Proof.
  unfold flagsOK, pointFails.
  intros Hlock Hbuf Hran Hpt Hfail.
  cbn [scanIgnoreLock scanLockChecked scanBuffered scanRanges scanRangeCursor
       scanPointPath scanReader scanTS scanDecodePoint tableScan_ScanExec] in *.
  destruct (ts_point_failure c e ran err Hlock Hbuf Hran Hpt Hfail)
    as (e' & HN & Hcur & Hseek & Hrows & Hrc & Hcalls & Hfr).
  exists e'.
  cbn [scanNext scanRangeCursor scanSeekKey scanBuffered scanCalls scanRanges scanTS
       tableScan_ScanExec].
  repeat (split; [done || by rewrite Hrows, drop_nil|]).
  destruct Hfr as (_&_&_& Hr &_&_&_&_&_& Hi & Hl & _).
  assert (tableScan.ignoreLock e' = true \/ tableScan.lockChecked e' = true) as Hlock'
    by (by rewrite Hi, Hl).
  assert (drop (tableScan.rowCursor e') (tableScan.rows e') = []) as Hbuf'
    by (by rewrite Hrows, drop_nil).
  rewrite <- Hr, <- Hcur.
  destruct (tableScan.kvRanges e' !! tableScan.rangeCursor e') as [ran2|] eqn:Hran2.
  - by apply ts_Next_first_call.
  - by apply ts_Next_exhausted.
Qed.

Lemma ts_pointFailureSpec c (e : tableScan.exec) : pointFailureSpec c e.
Proof.
  apply pointFailure_generic.
  - apply ts_step_lock.
  - apply ts_step_skip.
  - apply ts_step_fail.
Qed.

Lemma is_scanVisit_fail (c : Codec) (good : list (bytes * bytes)) :
  forall (limit : nat) (pairs : list (bytes * bytes)) (bad : bytes * bytes)
         (tail : list (bytes * bytes)) (rows : list Row) (er : error)
         (lk : option bytes) (e : indexScan.exec),
  take limit pairs = good ++ bad :: tail ->
  Forall2 (fun kv row => decodeIndexKV c (indexScan.colsLen e) (indexScan.pkStatus e)
                           kv.1 kv.2 = OK row) good rows ->
  decodeIndexKV c (indexScan.colsLen e) (indexScan.pkStatus e) bad.1 bad.2 = Err er ->
  scanVisit (indexScan.scanFunc c) limit pairs (lk, e) =
  (Err er, (Some bad.1, indexScan.set_rows (indexScan.rows e ++ rows) e)).
Proof.
  induction good as [|g good IH];
    intros limit pairs bad tail rows er lk e Htake Hgood Hbad.
  - apply Forall2_nil_inv_l in Hgood as ->.
    destruct limit as [|n]; [done|]. destruct pairs as [|[k v] ps]; [done|].
    rewrite firstn_cons in Htake. injection Htake as <- _.
    cbn [scanVisit]. unfold st_bind at 1.
    assert (indexScan.scanFunc c k v (lk, e) = (Err er, (Some k, e))) as ->.
    { unfold indexScan.scanFunc, safeCopy. st_simpl. by rewrite Hbad. }
    cbn. rewrite app_nil_r. by destruct e.
  - destruct limit as [|n]; [done|]. destruct pairs as [|[k v] ps]; [done|].
    rewrite firstn_cons in Htake. injection Htake as <- Htake.
    apply Forall2_cons_inv_l in Hgood as (r & rows' & Hr & Hgood & ->).
    cbn [scanVisit]. unfold st_bind at 1.
    assert (indexScan.scanFunc c k v (lk, e) =
            (OK tt, (Some k, indexScan.set_rows (indexScan.rows e ++ [r]) e))) as ->.
    { unfold indexScan.scanFunc, safeCopy. st_simpl. by rewrite Hr. }
    rewrite (IH n ps bad tail rows' er) by done.
    cbn [indexScan.rows indexScan.set_rows].
    do 2 f_equal. rewrite <- app_assoc. by destruct e.
Qed.

(** The scan path of [Next] when a pair does not decode. *)
Lemma is_Next_loop_range_fail c e ran (good tail : list (bytes * bytes))
    (bad : bytes * bytes) (rows : list Row) (er : error) :
  indexScan.rows e !! indexScan.rowCursor e = None ->
  indexScan.kvRanges e !! indexScan.ranCursor e = Some ran ->
  indexScan.isUnique e && IsPoint ran = false ->
  let seek := default (if indexScan.Desc e then EndKey ran else StartKey ran)
                (indexScan.seekKey e) in
  let reader := getDBReader (indexScan.reqCtx e) in
  let ts := indexScan.startTS e in
  let call := if indexScan.Desc e then CallReverseScan (StartKey ran) seek scanLimit ts
              else CallScan seek (EndKey ran) scanLimit ts in
  let pairs := take scanLimit
                 (if indexScan.Desc e then ReverseScanPairs reader (StartKey ran) seek ts
                  else ScanPairs reader seek (EndKey ran) ts) in
  pairs = good ++ bad :: tail ->
  Forall2 (fun kv row => decodeIndexKV c (indexScan.colsLen e) (indexScan.pkStatus e)
                           kv.1 kv.2 = OK row) good rows ->
  decodeIndexKV c (indexScan.colsLen e) (indexScan.pkStatus e) bad.1 bad.2 = Err er ->
  let e1 := indexScan.log call (indexScan.set_seekKey (Some seek) (is_reset e)) in
  indexScan.Next_loop c 2 e =
  (Err er, match rows with
           | [] => is_nextRange e1
           | _ => indexScan.set_rows rows e1
           end).
Proof.
  intros Hbuf Hran Hpt seek reader ts call pairs Hpairs Hgood Hbad e1.
  rewrite is_Next_loop_eq, Hbuf. cbv zeta. fold (is_reset e).
  pose proof (lookup_lt_Some _ _ _ Hran) as Hlt.
  destruct (length (indexScan.kvRanges e) - indexScan.ranCursor e)%nat
    as [|fuel] eqn:Hfuel; [lia|].
  rewrite is_fillRows_loop_eq.
  change (indexScan.kvRanges (is_reset e)) with (indexScan.kvRanges e).
  change (indexScan.ranCursor (is_reset e)) with (indexScan.ranCursor e).
  change (indexScan.isUnique (is_reset e)) with (indexScan.isUnique e).
  rewrite Hran, Hpt, is_fillRowsFromRange_eq. cbv zeta.
  change (indexScan.reqCtx (is_reset e)) with (indexScan.reqCtx e).
  change (indexScan.startTS (is_reset e)) with (indexScan.startTS e).
  change (indexScan.Desc (is_reset e)) with (indexScan.Desc e).
  change (indexScan.seekKey (is_reset e)) with (indexScan.seekKey e).
  fold seek reader ts. fold call. fold e1.
  rewrite (is_scanVisit_fail c good scanLimit _ bad tail rows er None e1 Hpairs)
    by done.
  change (indexScan.rows e1) with (@nil Row). cbn [app].
  cbn [indexScan.rows indexScan.set_rows].
  destruct rows as [|row rows'].
  - rewrite bool_decide_eq_true_2 by done. by destruct e.
  - rewrite bool_decide_eq_false_2 by done. done.
Qed.



(** C7. Once the lock check is through and the buffer used up, [Next]
    reads the range under the cursor of an index scan as follows.  On a
    unique index and a point range it makes the single [Get] of the
    point path: the error of the [Get] or of the decoding comes out,
    a value gives one row, and either way the range is done (an absent
    key leaves [Next] to go on as from the next range).  In every other
    case, a point range of a non-unique index included, it makes one
    [Scan] or [ReverseScan] from the seek key and no [Get]: the pairs
    found become the rows of the buffer, one row each, [Next] going on
    as from the next range when there is none; a pair that does not
    decode ends the call with its error.  A point range on a
    non-unique index so yields two rows in the example. *)
Theorem index_point_path_iff_unique_point (c : Codec) :
  (forall (e : indexScan.exec) (ran : KeyRange),
     lockPasses e ->
     indexScan.rows e !! indexScan.rowCursor e = None ->
     indexScan.kvRanges e !! indexScan.ranCursor e = Some ran ->
     let e0 := is_reset (is_checked e) in
     let reader := getDBReader (indexScan.reqCtx e) in
     let ts := indexScan.startTS e in
     let decode := fun kv : bytes * bytes =>
       decodeIndexKV c (indexScan.colsLen e) (indexScan.pkStatus e) kv.1 kv.2 in
     if indexScan.isUnique e && IsPoint ran then
       let e1 := is_nextRange (indexScan.log (CallGet (StartKey ran) ts) e0) in
       indexScan.Next c e =
       match Get reader (StartKey ran) ts with
       | Err er => (Err er, e1)
       | OK val =>
           if bool_decide (val = []) then indexScan.Next c e1
           else
             match decode (StartKey ran, val) with
             | Err er => (Err er, e1)
             | OK row =>
                 (OK (Some row), indexScan.set_rowCursor 1 (indexScan.set_rows [row] e1))
             end
       end
     else
       let seek := default (if indexScan.Desc e then EndKey ran else StartKey ran)
                     (indexScan.seekKey e) in
       let call := if indexScan.Desc e
                   then CallReverseScan (StartKey ran) seek scanLimit ts
                   else CallScan seek (EndKey ran) scanLimit ts in
       let pairs := take scanLimit
                      (if indexScan.Desc e
                       then ReverseScanPairs reader (StartKey ran) seek ts
                       else ScanPairs reader seek (EndKey ran) ts) in
       let e1 := indexScan.log call (indexScan.set_seekKey (Some seek) e0) in
       (forall rows : list Row,
          Forall2 (fun kv row => decode kv = OK row) pairs rows ->
          indexScan.Next c e =
          match last pairs, rows with
          | Some kv, row :: _ =>
              (OK (Some row),
               indexScan.set_rowCursor 1
                 (indexScan.set_rows rows
                    (indexScan.set_seekKey
                       (if indexScan.Desc e then prefixPrev kv.1
                        else Some (PrefixNext kv.1)) e1)))
          | _, _ => indexScan.Next c (is_nextRange e1)
          end) /\
       (forall (good tail : list (bytes * bytes)) (bad : bytes * bytes)
               (rows : list Row) (er : error),
          pairs = good ++ bad :: tail ->
          Forall2 (fun kv row => decode kv = OK row) good rows ->
          decode bad = Err er ->
          indexScan.Next c e =
          (Err er, match rows with
                   | [] => is_nextRange e1
                   | _ => indexScan.set_rows rows e1
                   end))) /\
  (IsPoint {| StartKey := i5; EndKey := i6 |} = true /\
   nextResults demoCodec 3
     (demoIndexScan noLocks demoIndexSnapshot false (Some false)
        [ {| StartKey := i5; EndKey := i6 |} ])
   = [ OK (Some [Some [Byte.x05]; Some [Byte.x01]]);
       OK (Some [Some [Byte.x05]; Some [Byte.x02]]);
       OK None ]).
Proof.
  split; [|split; reflexivity].
  intros e ran Hlock Hbuf Hran e0 reader ts decode.
  pose proof (is_checked_flags e Hlock) as Hfl.
  pose proof (is_checked_fields e)
    as (F1 & F2 & F3 & F4 & F5 & F6 & F7 & F8 & F9 & F10 & F11).
  assert (indexScan.isUnique (is_checked e) = indexScan.isUnique e) as FU
    by (unfold indexScan.isUnique; by rewrite F2).
  assert (indexScan.rows (is_checked e) !! indexScan.rowCursor (is_checked e) = None)
    as Hbuf' by (by rewrite F10, F11).
  assert (indexScan.kvRanges (is_checked e) !! indexScan.ranCursor (is_checked e)
          = Some ran) as Hran' by (by rewrite F5, F8).
  assert (forall x : indexScan.exec,
            indexScan.ignoreLock x = indexScan.ignoreLock (is_checked e) ->
            indexScan.lockChecked x = indexScan.lockChecked (is_checked e) ->
            indexScan.Next c x = indexScan.Next_loop c 2 x) as Hnext.
  { intros x Hi Hl. apply is_Next_checked. by rewrite Hi, Hl. }
  rewrite (is_Next_lockPasses c e Hlock).
  destruct (indexScan.isUnique e && IsPoint ran) eqn:Hpt.
  - intros e1.
    rewrite (is_Next_loop_point c (is_checked e) ran Hbuf' Hran') by (by rewrite FU).
    cbv zeta. rewrite F3, F4, F6, F7. fold reader ts e0 e1.
    destruct (Get reader (StartKey ran) ts) as [val|er]; [|done].
    destruct (bool_decide (val = [])); [|done].
    symmetry. by apply Hnext.
  - intros seek call pairs e1. split.
    + intros rows Hdec.
      rewrite (is_Next_loop_range c (is_checked e) ran rows Hbuf' Hran')
        by (rewrite ?FU, ?F1, ?F3, ?F4, ?F6, ?F7, ?F9; done).
      cbv zeta. rewrite F1, F6, F7, F9. fold reader ts seek. fold call. fold pairs.
      fold e0. fold e1.
      destruct (last pairs) as [kv|]; [destruct rows as [|row rows']|];
        try done; symmetry; by apply Hnext.
    + intros good tail bad rows er Hpairs Hgood Hbad.
      rewrite (is_Next_loop_range_fail c (is_checked e) ran good tail bad rows er
                 Hbuf' Hran')
        by (rewrite ?FU, ?F1, ?F3, ?F4, ?F6, ?F7, ?F9; done).
      cbv zeta. rewrite ?F1, ?F6, ?F7, ?F9. fold reader ts seek. fold call. fold e0. fold e1.
      done.
Qed.


(** A fresh scan of a unique index reads the point range by one [Get]
    after its lock check; a fresh scan of a non-unique index reads the
    same range by one [Scan], which buffers two rows. *)
Lemma index_point_path_iff_unique_point_witness :
  (exists e1,
     indexScan.Next demoCodec
       (demoIndexScan noLocks uniqueIndexSnapshot false (Some true)
          [ {| StartKey := i5; EndKey := i6 |} ])
     = (OK (Some [Some [Byte.x05]; Some [Byte.x08; Byte.x07]]), e1) /\
     indexScan.calls e1 = [CallCheckRangeLock 100 i5 i6; CallGet i5 100] /\
     indexScan.ranCursor e1 = 1%nat) /\
  (exists e1,
     indexScan.Next demoCodec
       (demoIndexScan noLocks demoIndexSnapshot false (Some false)
          [ {| StartKey := i5; EndKey := i6 |} ])
     = (OK (Some [Some [Byte.x05]; Some [Byte.x01]]), e1) /\
     indexScan.calls e1 = [CallCheckRangeLock 100 i5 i6; CallScan i5 i6 128 100] /\
     indexScan.rows e1 = [ [Some [Byte.x05]; Some [Byte.x01]];
                           [Some [Byte.x05]; Some [Byte.x02]] ] /\
     indexScan.ranCursor e1 = 0%nat).
Proof.
  split.
  - pose proof (proj1 (index_point_path_iff_unique_point demoCodec)
      (demoIndexScan noLocks uniqueIndexSnapshot false (Some true)
         [ {| StartKey := i5; EndKey := i6 |} ])
      {| StartKey := i5; EndKey := i6 |}) as H.
    cbv zeta in H.
    change (indexScan.isUnique _ && IsPoint _) with true in H.
    rewrite H.
    + eexists. split; [reflexivity|]. split; reflexivity.
    + right. right. reflexivity.
    + reflexivity.
    + reflexivity.
  - pose proof (proj1 (index_point_path_iff_unique_point demoCodec)
      (demoIndexScan noLocks demoIndexSnapshot false (Some false)
         [ {| StartKey := i5; EndKey := i6 |} ])
      {| StartKey := i5; EndKey := i6 |}) as H.
    cbv zeta in H.
    change (indexScan.isUnique _ && IsPoint _) with false in H.
    assert (lockPasses (demoIndexScan noLocks demoIndexSnapshot false (Some false)
                          [ {| StartKey := i5; EndKey := i6 |} ])) as Hlock
      by (right; right; reflexivity).
    destruct (H Hlock eq_refl eq_refl) as [Hrows _].
    rewrite (Hrows [ [Some [Byte.x05]; Some [Byte.x01]];
                     [Some [Byte.x05]; Some [Byte.x02]] ]).
    + eexists. split; [reflexivity|]. repeat split; reflexivity.
    + repeat constructor.
Defined.


Example point_failure_demo :
  nextResults demoCodec 3
    (strictTableScan [ {| StartKey := k5; EndKey := k6 |};
                       {| StartKey := k1; EndKey := k2 |} ])
  = [Err (MissColumn 4); Err (MissColumn 4); OK None].
Proof. reflexivity. Qed.

(** The failing point is reached in the first [Next], after the lock
    check and an absent point. *)
Example point_failure_after_absent_point :
  nextResults demoCodec 3
    (checkingStrictScan [ {| StartKey := k3; EndKey := k4 |};
                          {| StartKey := k5; EndKey := k6 |};
                          {| StartKey := k1; EndKey := k2 |} ])
  = [Err (MissColumn 4); Err (MissColumn 4); OK None] /\
  tableScan.rangeCursor
    (nextN demoCodec 1
       (checkingStrictScan [ {| StartKey := k3; EndKey := k4 |};
                             {| StartKey := k5; EndKey := k6 |};
                             {| StartKey := k1; EndKey := k2 |} ])) = 2%nat.
Proof. split; reflexivity. Qed.


(** ** Top-N: the array heap *)

Lemma parent_child (c i : nat) :
  (0 < c)%nat -> ((c - 1) / 2 = i <-> c = 2 * i + 1 \/ c = 2 * i + 2)%nat.
Proof.
  intros. pose proof (Nat.div_mod_eq (c - 1) 2).
  pose proof (Nat.mod_upper_bound (c - 1) 2). split; intros; lia.
Qed.

Lemma parent_lt (c : nat) : (0 < c)%nat -> ((c - 1) / 2 < c)%nat.
Proof.
  intros. pose proof (Nat.div_mod_eq (c - 1) 2).
  pose proof (Nat.mod_upper_bound (c - 1) 2). lia.
Qed.

Lemma parent_0 : ((0 - 1) / 2 = 0)%nat.
Proof. reflexivity. Qed.

Section HeapFacts.
Context {A : Type} (Less : A -> A -> bool).
Local Open Scope nat_scope.

Lemma swap_length (h : list A) (i j : nat) : length (swap h i j) = length h.
Proof.
  unfold swap. destruct (h !! i), (h !! j); try done.
  by rewrite !length_insert.
Qed.

Lemma swap_lookup (h : list A) (i j k : nat) :
  i < length h -> j < length h ->
  swap h i j !! k =
  if decide (k = i) then h !! j else if decide (k = j) then h !! i else h !! k.
Proof.
  intros Hi Hj. unfold swap.
  destruct (lookup_lt_is_Some_2 h i Hi) as [x Hx].
  destruct (lookup_lt_is_Some_2 h j Hj) as [y Hy].
  rewrite Hx, Hy.
  destruct (decide (k = i)) as [->|Hki].
  - rewrite list_lookup_insert_eq; [done|]. by rewrite length_insert.
  - rewrite list_lookup_insert_ne by done.
    destruct (decide (k = j)) as [->|Hkj].
    + by rewrite list_lookup_insert_eq.
    + by rewrite list_lookup_insert_ne.
Qed.

Lemma swap_perm (h : list A) (i j : nat) : swap h i j ≡ₚ h.
Proof.
  destruct (decide (i < length h)) as [Hi|Hi]; cycle 1.
  { unfold swap. rewrite (lookup_ge_None_2 h i) by lia. done. }
  destruct (decide (j < length h)) as [Hj|Hj]; cycle 1.
  { unfold swap. rewrite (lookup_ge_None_2 h j) by lia. by destruct (h !! i). }
  apply Permutation_inj. split; [apply swap_length|].
  exists (fun k => if decide (k = i) then j else if decide (k = j) then i else k).
  split.
  - intros a b. repeat case_decide; intros; subst; congruence.
  - intros k. rewrite swap_lookup by done.
    repeat case_decide; subst; try done; congruence.
Qed.


Hypothesis Less_asym : forall x y, Less x y = true -> Less y x = false.
Hypothesis Less_ntrans : forall x y z,
  Less y x = false -> Less z y = false -> Less z x = false.

Lemma Less_irrefl (x : A) : Less x x = false.
Proof. destruct (Less x x) eqn:E; [by rewrite (Less_asym _ _ E) in E|done]. Qed.

(** The element at [j] does not beat the one at its parent. *)
Definition okAt (h : list A) (j : nat) : Prop :=
  forall x y, h !! j = Some x -> h !! ((j - 1) / 2) = Some y -> Less x y = false.

Definition heapOK (h : list A) : Prop := forall j, okAt h j.

(** The heap but for the element at [j], which may beat its parent. *)
Definition upInv (h : list A) (j : nat) : Prop :=
  (forall k, k <> j -> okAt h k) /\
  (0 < j -> forall c x y, 0 < c -> (c - 1) / 2 = j ->
     h !! c = Some x -> h !! ((j - 1) / 2) = Some y -> Less x y = false).

(** The heap but for the element at [i], which its children may beat. *)
Definition downInv (h : list A) (i : nat) : Prop :=
  (forall k, 0 < k -> (k - 1) / 2 <> i -> okAt h k) /\
  (0 < i -> forall c x y, 0 < c -> (c - 1) / 2 = i ->
     h !! c = Some x -> h !! ((i - 1) / 2) = Some y -> Less x y = false).

Lemma okAt_0 (h : list A) : okAt h 0.
Proof.
  intros x y Hx Hy. rewrite parent_0 in Hy. rewrite Hx in Hy.
  injection Hy as <-. apply Less_irrefl.
Qed.

Lemma heapOK_nil : heapOK [].
Proof. intros j x y Hx. by rewrite lookup_nil in Hx. Qed.

Lemma up_perm (fuel : nat) (h : list A) (j : nat) : up Less fuel h j ≡ₚ h.
Proof.
  revert h j. induction fuel as [|fuel IH]; intros h j; simpl; [done|].
  destruct (bool_decide _ || negb _); [done|].
  rewrite IH. apply swap_perm.
Qed.

Lemma down_perm (fuel : nat) (h : list A) (i n : nat) :
  (down Less fuel h i n).1 ≡ₚ h.
Proof.
  revert h i. induction fuel as [|fuel IH]; intros h i; simpl; [done|].
  destruct (bool_decide (n <= _)); [done|].
  destruct (negb _); [done|].
  rewrite IH. apply swap_perm.
Qed.

Lemma down_length (fuel : nat) (h : list A) (i n : nat) :
  length (down Less fuel h i n).1 = length h.
Proof. apply Permutation_length, down_perm. Qed.

Lemma up_ok (fuel : nat) (h : list A) (j : nat) :
  j <= fuel -> upInv h j -> heapOK (up Less fuel h j).
Proof.
  revert h j. induction fuel as [|fuel IH]; intros h j Hf [H1 H2]; cbn [up].
  { intros k. destruct (decide (k = j)) as [->|Hk]; [|by apply H1].
    replace j with 0 by lia. apply okAt_0. }
  destruct (decide (j = 0)) as [->|Hj0].
  { rewrite bool_decide_eq_true_2 by done. cbn [orb].
    intros k. destruct (decide (k = 0)) as [->|Hk]; [apply okAt_0|by apply H1]. }
  pose proof (parent_lt j ltac:(lia)) as Hpl.
  rewrite bool_decide_eq_false_2 by lia. cbn [orb].
  destruct (LessAt Less h j ((j - 1) / 2)) eqn:El; cbn [negb].
  2:{ intros k. destruct (decide (k = j)) as [->|Hk]; [|by apply H1].
      intros x y Hx Hy. unfold LessAt in El. by rewrite Hx, Hy in El. }
  unfold LessAt in El.
  destruct (h !! j) as [x|] eqn:Hx; [|done].
  destruct (h !! ((j - 1) / 2)) as [y|] eqn:Hy; [|done].
  set (i := (j - 1) / 2) in *.
  assert (Hjl : j < length h) by (by eapply lookup_lt_Some).
  assert (Hil : i < length h) by lia.
  assert (Hyx : Less y x = false) by by apply Less_asym.
  apply IH; [lia|]. split.
  - intros k Hki a b. rewrite !swap_lookup by done.
    destruct (decide (k = 0)) as [->|Hk0].
    { rewrite parent_0. intros Ha Hb. rewrite Ha in Hb. injection Hb as <-.
      apply Less_irrefl. }
    pose proof (parent_lt k ltac:(lia)) as Hkl.
    rewrite (decide_False (P := k = i)) by done.
    destruct (decide (k = j)) as [->|Hkj].
    + fold i. rewrite decide_True by done. rewrite Hx, Hy.
      intros [= <-] [= <-]. done.
    + destruct (decide ((k - 1) / 2 = i)) as [Hpi|Hpi].
      * rewrite Hx. intros Ha [= <-].
        apply (Less_ntrans x y a); [done|].
        apply (H1 k Hkj); [done|]. by rewrite Hpi.
      * destruct (decide ((k - 1) / 2 = j)) as [Hpj|Hpj].
        -- rewrite Hy. intros Ha [= <-].
           apply (H2 ltac:(lia) k a y); try done; lia.
        -- intros Ha Hb. by apply (H1 k Hkj).
  - intros Hi0 c a g Hc0 Hpc. rewrite !swap_lookup by done.
    pose proof (parent_lt i ltac:(lia)) as Hil2.
    rewrite (decide_False (P := (i - 1) / 2 = i)) by lia.
    rewrite (decide_False (P := (i - 1) / 2 = j)) by lia.
    assert (Hci : c <> i) by (pose proof (parent_lt c ltac:(lia)); lia).
    rewrite (decide_False (P := c = i)) by done.
    assert (Hyg : forall g, h !! ((i - 1) / 2) = Some g -> Less y g = false).
    { intros g' Hg. apply (H1 i ltac:(lia)); done. }
    destruct (decide (c = j)) as [->|Hcj].
    + rewrite Hy. intros [= <-] Hg. by apply Hyg.
    + intros Ha Hg. apply (Less_ntrans g y a); [by apply Hyg|].
      apply (H1 c Hcj); [done|]. by rewrite Hpc.
Qed.


Lemma down_ok (fuel : nat) (h : list A) (i : nat) :
  length h <= fuel + i -> downInv h i ->
  heapOK (down Less fuel h i (length h)).1.
Proof.
  revert h i. induction fuel as [|fuel IH]; intros h i Hf [H1 H2]; cbn [down].
  { cbn [fst]. intros k. destruct (decide (k = 0)) as [->|Hk0]; [apply okAt_0|].
    destruct (decide ((k - 1) / 2 = i)) as [Hp|Hp]; [|apply H1; [lia|done]].
    intros x y Hx. apply lookup_lt_Some in Hx. exfalso.
    apply parent_child in Hp; lia. }
  cbv zeta.
  assert (Hnone : forall k, (k - 1) / 2 = i -> 0 < k -> length h <= 2 * i + 1 -> okAt h k).
  { intros k Hp Hk0 Hn x y Hx. apply lookup_lt_Some in Hx. exfalso.
    apply parent_child in Hp; lia. }
  assert (Hall : (forall k, 0 < k -> (k - 1) / 2 = i -> okAt h k) -> heapOK h).
  { intros Hc k. destruct (decide (k = 0)) as [->|Hk0]; [apply okAt_0|].
    destruct (decide ((k - 1) / 2 = i)) as [Hp|Hp]; [apply Hc|apply H1]; done || lia. }
  case_bool_decide as Hn; cbn [fst].
  { apply Hall. intros k Hk0 Hp. by apply Hnone. }
  set (j1 := 2 * i + 1) in *. set (j2 := j1 + 1).
  set (j := if bool_decide (j2 < length h) && LessAt Less h j2 j1 then j2 else j1).
  assert (Hi : i < length h) by lia.
  destruct (lookup_lt_is_Some_2 h i Hi) as [y Hy].
  destruct (lookup_lt_is_Some_2 h j1 ltac:(lia)) as [x1 Hx1].
  assert (Hpj1 : (j1 - 1) / 2 = i) by (apply parent_child; lia).
  assert (Hpj2 : (j2 - 1) / 2 = i) by (apply parent_child; lia).
  (* the chosen child is not beaten by the other one *)
  assert (Hj : exists x, h !! j = Some x /\ (j = j1 \/ j = j2) /\ j < length h /\
            forall s a, (s = j1 \/ s = j2) -> h !! s = Some a -> Less a x = false).
  { unfold j. case_bool_decide as Hj2; cbn [andb].
    - destruct (lookup_lt_is_Some_2 h j2 Hj2) as [x2 Hx2].
      unfold LessAt. rewrite Hx2, Hx1.
      destruct (Less x2 x1) eqn:E.
      + exists x2. split; [done|]. split; [by right|]. split; [done|].
        intros s a [->| ->] Ha; rewrite Ha in *.
        * injection Hx1 as <-. by apply Less_asym.
        * injection Hx2 as <-. apply Less_irrefl.
      + exists x1. split; [done|]. split; [by left|]. split; [lia|].
        intros s a [->| ->] Ha; rewrite Ha in *.
        * injection Hx1 as <-. apply Less_irrefl.
        * by injection Hx2 as <-.
    - exists x1. split; [done|]. split; [by left|]. split; [lia|].
      intros s a [->| ->] Ha.
      + rewrite Ha in Hx1. injection Hx1 as <-. apply Less_irrefl.
      + apply lookup_lt_Some in Ha. lia. }
  clearbody j. destruct Hj as (x & Hx & Hjc & Hjl & Hbest).
  unfold LessAt at 1. rewrite Hx, Hy.
  destruct (Less x y) eqn:Exy; cbn [negb fst].
  2:{ apply Hall. intros k Hk0 Hp a b Ha Hb. rewrite Hp, Hy in Hb.
      injection Hb as <-.
      apply (Less_ntrans y x a); [done|].
      apply (Hbest k); [|done]. apply parent_child in Hp; [|done]. unfold j2; lia. }
  assert (Hyx : Less y x = false) by by apply Less_asym.
  assert (Hij : i < j) by (unfold j2 in *; lia).
  assert (Hpj : (j - 1) / 2 = i) by (by destruct Hjc as [->| ->]).
  rewrite <- (swap_length h i j) at 1.
  apply IH; [rewrite swap_length; lia|]. split.
  - intros k Hk0 Hpk a b. rewrite !swap_lookup by done.
    pose proof (parent_lt k Hk0) as Hkl.
    rewrite (decide_False (P := (k - 1) / 2 = j)) by done.
    destruct (decide (k = j)) as [->|Hkj].
    + rewrite decide_False by lia. rewrite Hpj, decide_True by done.
      rewrite Hy, Hx. by intros [= <-] [= <-].
    + destruct (decide (k = i)) as [->|Hki].
      * rewrite Hx. rewrite decide_False by lia. intros [= <-] Hb.
        apply (H2 ltac:(lia) j x b); try done; lia.
      * destruct (decide ((k - 1) / 2 = i)) as [Hpi|Hpi].
        -- rewrite Hx. intros Ha [= <-]. apply (Hbest k); [|done].
           apply parent_child in Hpi; [|done]. unfold j2; lia.
        -- intros Ha Hb. by apply (H1 k Hk0 Hpi).
  - intros Hj0 c a b Hc0 Hpc. rewrite !swap_lookup by done.
    pose proof (parent_lt c Hc0) as Hcl.
    rewrite (decide_False (P := c = i)) by lia.
    rewrite (decide_False (P := c = j)) by lia.
    rewrite Hpj, decide_True by done. rewrite Hx. intros Ha [= <-].
    apply (H1 c Hc0 ltac:(lia)); [done|]. by rewrite Hpc.
Qed.

(** [heap.Push] keeps the heap. *)
Lemma heapPush_ok (h : list A) (x : A) : heapOK h -> heapOK (heapPush Less h x).
Proof.
  intros Hh. unfold heapPush. cbv zeta. rewrite length_app. cbn [length].
  apply up_ok; [lia|]. replace (length h + 1 - 1) with (length h) by lia. split.
  - intros k Hk a b Ha Hb.
    assert (Hkl : k < length h).
    { apply lookup_lt_Some in Ha. rewrite length_app in Ha. cbn in Ha. lia. }
    destruct (decide (k = 0)) as [->|Hk0].
    { rewrite parent_0 in Hb. rewrite Ha in Hb. injection Hb as <-.
      apply Less_irrefl. }
    pose proof (parent_lt k ltac:(lia)).
    rewrite lookup_app_l in Ha, Hb by lia. by apply (Hh k).
  - intros _ c a b Hc0 Hpc Ha. apply lookup_lt_Some in Ha.
    rewrite length_app in Ha. cbn in Ha. exfalso. apply parent_child in Hpc; lia.
Qed.

Lemma heapPush_perm (h : list A) (x : A) : heapPush Less h x ≡ₚ x :: h.
Proof.
  unfold heapPush. cbv zeta. rewrite up_perm.
  by rewrite Permutation_app_comm.
Qed.

Lemma up_root (fuel : nat) (h : list A) : up Less fuel h 0 = h.
Proof. destruct fuel; [done|]. cbn [up]. by rewrite bool_decide_eq_true_2. Qed.

Lemma heapFix_root (h : list A) :
  heapFix Less h 0 = (down Less (length h) h 0 (length h)).1.
Proof.
  unfold heapFix. destruct (down _ _ _ _ _) as [h' i'].
  case_bool_decide; [done|]. apply up_root.
Qed.

(** Replacing the root and fixing it keeps the heap. *)
Lemma heapFix_root_ok (h : list A) (x : A) :
  heapOK h -> heapOK (heapFix Less (<[0 := x]> h) 0).
Proof.
  intros Hh. rewrite heapFix_root. apply down_ok; [lia|]. split; [|lia].
  intros k Hk0 Hp a b Ha Hb.
  pose proof (parent_lt k Hk0).
  rewrite list_lookup_insert_ne in Ha, Hb by lia. by apply (Hh k).
Qed.

Lemma heapFix_root_perm (h : list A) (x : A) :
  heapFix Less (<[0 := x]> h) 0 ≡ₚ <[0 := x]> h.
Proof. rewrite heapFix_root. apply down_perm. Qed.

(** The root of a heap is beaten by no element. *)
Lemma heap_root_top (h : list A) (r : A) :
  heapOK h -> h !! 0 = Some r -> forall x, x ∈ h -> Less x r = false.
Proof.
  intros Hh Hr x Hx. apply list_elem_of_lookup in Hx as [k Hk].
  revert x Hk. induction (lt_wf k) as [k _ IH]. intros x Hk.
  destruct (decide (k = 0)) as [->|Hk0].
  { rewrite Hr in Hk. injection Hk as <-. apply Less_irrefl. }
  pose proof (parent_lt k ltac:(lia)) as Hp.
  destruct (lookup_lt_is_Some_2 h ((k - 1) / 2)) as [y Hy].
  { apply lookup_lt_Some in Hk. lia. }
  apply (Less_ntrans r y x); [by apply (IH _ Hp)|by apply (Hh k)].
Qed.

(** ** The sort *)

Lemma sortInsert_perm (x : A) (l : list A) : sortInsert Less x l ≡ₚ x :: l.
Proof.
  induction l as [|y l IH]; cbn [sortInsert]; [done|].
  destruct (Less x y); [done|]. rewrite IH. apply Permutation_swap.
Qed.

Lemma sortSort_perm (l : list A) : sortSort Less l ≡ₚ l.
Proof.
  induction l as [|x l IH]; [done|]. unfold sortSort. cbn [foldr].
  rewrite sortInsert_perm. by constructor.
Qed.

Lemma sortInsert_sorted (x : A) (l : list A) :
  StronglySorted (fun a b => Less b a = false) l ->
  StronglySorted (fun a b => Less b a = false) (sortInsert Less x l).
Proof.
  induction 1 as [|y l Hs IH Hy]; cbn [sortInsert].
  { repeat constructor. }
  destruct (Less x y) eqn:E.
  - constructor; [by constructor|]. constructor; [by apply Less_asym|].
    eapply Forall_impl; [exact Hy|]. intros z Hz. cbv beta in *.
    apply (Less_ntrans x y z); [by apply Less_asym|done].
  - constructor; [done|]. rewrite sortInsert_perm. by constructor.
Qed.

Lemma sortSort_sorted (l : list A) :
  StronglySorted (fun a b => Less b a = false) (sortSort Less l).
Proof.
  induction l as [|x l IH]; [constructor|]. by apply sortInsert_sorted.
Qed.

End HeapFacts.

(** ** Top-N: the order of the keys *)

Section CmpFacts.
Context {T : Type} (cmp : T -> T -> comparison) (Hc : TotalCmp cmp).

Lemma cmp_eq_r (a b c : T) : cmp a b = Eq -> cmp c a = cmp c b.
Proof.
  intros H. rewrite (cmp_anti _ Hc a c), (cmp_anti _ Hc b c).
  f_equal. by apply cmp_eq.
Qed.

Lemma cmp_refl (a : T) : cmp a a = Eq.
Proof. pose proof (cmp_anti _ Hc a a) as H. by destruct (cmp a a). Qed.

Lemma cmp_le_trans (a b c : T) : cmp a b <> Gt -> cmp b c <> Gt -> cmp a c <> Gt.
Proof.
  intros Hab Hbc.
  destruct (cmp a b) eqn:Eab; [|clear Hab|done].
  - by rewrite (cmp_eq _ Hc a b c Eab).
  - destruct (cmp b c) eqn:Ebc; [| |done].
    + rewrite (cmp_anti _ Hc c b) in Ebc.
      assert (Ecb : cmp c b = Eq) by by destruct (cmp c b).
      by rewrite (cmp_eq_r c b a Ecb), Eab.
    + by rewrite (cmp_trans _ Hc a b c Eab Ebc).
Qed.

Lemma cmp_lt_le (a b : T) : cmp a b = Gt -> cmp b a <> Gt.
Proof. intros H. by rewrite (cmp_anti _ Hc a b), H. Qed.

Lemma cmp_opp_order : TotalCmp (fun a b => CompOpp (cmp a b)).
Proof.
  split.
  - intros a b. by rewrite (cmp_anti _ Hc a b).
  - intros a b c Hab Hbc.
    rewrite (cmp_anti _ Hc c a), CompOpp_involutive.
    apply (cmp_trans _ Hc c b a).
    + rewrite (cmp_anti _ Hc b c). by destruct (cmp b c).
    + rewrite (cmp_anti _ Hc a b). by destruct (cmp a b).
  - intros a b c Hab. f_equal. apply (cmp_eq _ Hc). by destruct (cmp a b).
Qed.

Lemma cmp_lex_order {U : Type} (f : U -> T) (c2 : U -> U -> comparison) :
  TotalCmp c2 ->
  TotalCmp (fun a b => match cmp (f a) (f b) with Eq => c2 a b | c => c end).
Proof.
  intros H2. split.
  - intros a b. rewrite (cmp_anti _ Hc (f a) (f b)).
    destruct (cmp (f a) (f b)); cbn [CompOpp]; [apply (cmp_anti _ H2)|done|done].
  - intros a b c Hab Hbc.
    destruct (cmp (f a) (f b)) eqn:Eab; [| |done].
    + rewrite (cmp_eq _ Hc _ _ (f c) Eab).
      destruct (cmp (f b) (f c)); [|done|done]. by apply (cmp_trans _ H2 a b c).
    + destruct (cmp (f b) (f c)) eqn:Ebc; [| |done].
      * rewrite (cmp_anti _ Hc (f c) (f b)) in Ebc.
        assert (Ecb : cmp (f c) (f b) = Eq) by by destruct (cmp (f c) (f b)).
        by rewrite (cmp_eq_r _ _ (f a) Ecb), Eab.
      * by rewrite (cmp_trans _ Hc _ _ _ Eab Ebc).
  - intros a b c Hab.
    destruct (cmp (f a) (f b)) eqn:Eab; [|done|done].
    rewrite (cmp_eq _ Hc _ _ (f c) Eab).
    destruct (cmp (f b) (f c)); [|done|done]. by apply (cmp_eq _ H2).
Qed.

End CmpFacts.

Lemma TotalCmp_ext {T : Type} (c c' : T -> T -> comparison) :
  (forall a b, c a b = c' a b) -> TotalCmp c -> TotalCmp c'.
Proof.
  intros He [H1 H2 H3]. split.
  - intros a b. rewrite <- !He. apply H1.
  - intros a b x. rewrite <- !He. apply H2.
  - intros a b x. rewrite <- !He. apply H3.
Qed.

Lemma TotalCmp_const {T : Type} : TotalCmp (fun _ _ : T => Eq).
Proof. by split. Qed.

(** The comparison of the key tuples is a total preorder when the
    datum ordering is. *)
Lemma compareKeys_order (cmp : Datum -> Datum -> comparison) (items : list ByItem)
    (index : nat) :
  TotalCmp cmp -> TotalCmp (compareKeys cmp items index).
Proof.
  intros Hc. revert index. induction items as [|by_ items IH]; intros index.
  { apply TotalCmp_const. }
  destruct (ByDesc by_) eqn:Ed.
  - eapply TotalCmp_ext;
      [|exact (cmp_lex_order _ (cmp_opp_order cmp Hc)
                 (fun k => default DNull (k !! index)) _ (IH (S index)))].
    intros a b. cbn [compareKeys]. rewrite Ed.
    by destruct (_ (cmp _ _)).
  - eapply TotalCmp_ext;
      [|exact (cmp_lex_order _ Hc
                 (fun k => default DNull (k !! index)) _ (IH (S index)))].
    intros a b. cbn [compareKeys]. rewrite Ed.
    by destruct (cmp _ _).
Qed.

Lemma keyAt_deref (mem : list sortRow) (p : nat) :
  topN.keyAt mem p = key (derefRow mem p).
Proof. unfold topN.keyAt, derefRow. by destruct (mem !! p). Qed.

Lemma dataAt_deref (mem : list sortRow) (p : nat) :
  topN.dataAt mem p = data (derefRow mem p).
Proof. unfold topN.dataAt, derefRow. by destruct (mem !! p). Qed.

Section TopNOrder.
Context (cmp : Datum -> Datum -> comparison) (items : list ByItem)
  (Hc : TotalCmp cmp).

Lemma heapLess_false (mem : list sortRow) (p q : nat) :
  topN.heapLess cmp items mem p q = false <->
  keyLe cmp items (derefRow mem p) (derefRow mem q).
Proof.
  unfold topN.heapLess, keyLe. rewrite !keyAt_deref.
  destruct (compareKeys _ _ _ _ _); split; done.
Qed.

Lemma sorterLess_false (mem : list sortRow) (p q : nat) :
  topN.sorterLess cmp items mem q p = false <->
  keyLe cmp items (derefRow mem p) (derefRow mem q).
Proof.
  pose proof (compareKeys_order cmp items 0 Hc) as HK.
  unfold topN.sorterLess, keyLe. rewrite !keyAt_deref.
  rewrite (cmp_anti _ HK (key (derefRow mem q)) (key (derefRow mem p))).
  destruct (compareKeys _ _ _ _ _); cbn [CompOpp]; split; done.
Qed.

Lemma keyLe_trans (a b c : sortRow) :
  keyLe cmp items a b -> keyLe cmp items b c -> keyLe cmp items a c.
Proof. apply (cmp_le_trans _ (compareKeys_order cmp items 0 Hc)). Qed.

Lemma keyLe_total (a b : sortRow) :
  ~ keyLe cmp items a b -> keyLe cmp items b a.
Proof.
  unfold keyLe. intros H. apply (cmp_lt_le _ (compareKeys_order cmp items 0 Hc)).
  destruct (compareKeys cmp items 0 (key a) (key b)); [by destruct H..|done].
Qed.

Lemma heapLess_asym (mem : list sortRow) (p q : nat) :
  topN.heapLess cmp items mem p q = true -> topN.heapLess cmp items mem q p = false.
Proof.
  intros H. apply heapLess_false. apply keyLe_total. intros Hle.
  apply heapLess_false in Hle. congruence.
Qed.

Lemma heapLess_ntrans (mem : list sortRow) (x y z : nat) :
  topN.heapLess cmp items mem y x = false ->
  topN.heapLess cmp items mem z y = false ->
  topN.heapLess cmp items mem z x = false.
Proof.
  rewrite !heapLess_false. intros H1 H2. by eapply keyLe_trans.
Qed.

Lemma sorterLess_asym (mem : list sortRow) (p q : nat) :
  topN.sorterLess cmp items mem p q = true -> topN.sorterLess cmp items mem q p = false.
Proof.
  intros H. apply sorterLess_false. apply keyLe_total. intros Hle.
  apply sorterLess_false in Hle. congruence.
Qed.

Lemma sorterLess_ntrans (mem : list sortRow) (x y z : nat) :
  topN.sorterLess cmp items mem y x = false ->
  topN.sorterLess cmp items mem z y = false ->
  topN.sorterLess cmp items mem z x = false.
Proof.
  rewrite !sorterLess_false. intros H1 H2. by eapply keyLe_trans.
Qed.

End TopNOrder.

(** ** Top-N: the heap of the executor *)

Lemma heapOK_ext {A : Type} (Less Less' : A -> A -> bool) (h : list A) :
  (forall x y, x ∈ h -> y ∈ h -> Less x y = Less' x y) ->
  heapOK Less h -> heapOK Less' h.
Proof.
  intros He Hh j x y Hx Hy.
  rewrite <- He; [by apply (Hh j)| |]; by eapply list_elem_of_lookup_2.
Qed.

Lemma derefRow_app_l (mem : list sortRow) (d : sortRow) (p : nat) :
  (p < length mem)%nat -> derefRow (mem ++ [d]) p = derefRow mem p.
Proof. intros H. unfold derefRow. by rewrite lookup_app_l. Qed.

Lemma derefRow_app_new (mem : list sortRow) (d : sortRow) :
  derefRow (mem ++ [d]) (length mem) = d.
Proof.
  unfold derefRow. rewrite lookup_app_r by lia. by rewrite Nat.sub_diag.
Qed.

Lemma derefRow_app_key (mem : list sortRow) (d d' : sortRow) (p : nat) :
  key d = key d' -> key (derefRow (mem ++ [d]) p) = key (derefRow (mem ++ [d']) p).
Proof.
  intros Hk. unfold derefRow.
  destruct (decide (p < length mem)%nat) as [Hp|Hp].
  - by rewrite !lookup_app_l.
  - rewrite !lookup_app_r by lia.
    by destruct (p - length mem)%nat as [|n].
Qed.

Lemma heapLess_mem (cmp : Datum -> Datum -> comparison) (items : list ByItem)
    (mem mem' : list sortRow) (p q : nat) :
  key (derefRow mem p) = key (derefRow mem' p) ->
  key (derefRow mem q) = key (derefRow mem' q) ->
  topN.heapLess cmp items mem p q = topN.heapLess cmp items mem' p q.
Proof. unfold topN.heapLess. rewrite !keyAt_deref. by intros -> ->. Qed.

(** What the heap holds after the rows [seen]: the rows behind its
    pointers and the rows [rest] it turned down or evicted make up
    [seen], and no row of [rest] stands before a row of the heap. *)
Definition topNInv (cmp : Datum -> Datum -> comparison) (t : topN.topNHeap)
    (mem rest seen : list sortRow) : Prop :=
  heapOK (topN.heapLess cmp (topN.orderByItems t) mem) (topN.rows t) /\
  Forall (fun p => (p < length mem)%nat) (topN.rows t) /\
  (derefRow mem <$> topN.rows t) ++ rest ≡ₚ seen /\
  topN.heapSize t = length (topN.rows t) /\
  (length (topN.rows t) <= topN.totalCount t)%nat /\
  ((length (topN.rows t) < topN.totalCount t)%nat -> rest = []) /\
  (forall x p, x ∈ rest -> p ∈ topN.rows t ->
     keyLe cmp (topN.orderByItems t) (derefRow mem p) x) /\
  topN.err t = None.

Ltac heap_simpl :=
  unfold topNInv, topN.heap_set_heapSize, topN.heap_set_rows;
  cbn [topN.rows topN.orderByItems topN.totalCount topN.heapSize topN.err].

Lemma tryToAddRow_inv (cmp : Datum -> Datum -> comparison) (t : topN.topNHeap)
    (mem rest seen : list sortRow) (k : list Datum) (v : Row) :
  TotalCmp cmp -> topNInv cmp t mem rest seen ->
  forall ok t',
    topN.tryToAddRow cmp (mem ++ [{| key := k; data := [] |}]) (length mem) t = (ok, t') ->
    topN.orderByItems t' = topN.orderByItems t /\
    topN.totalCount t' = topN.totalCount t /\
    exists rest',
      topNInv cmp t' (mem ++ [{| key := k; data := if ok then v else [] |}]) rest'
        (seen ++ [{| key := k; data := v |}]).
Proof.
  intros Hc (Hheap & Hlt & Hperm & Hsize & Hle & Hrest & Hkey & Herr) ok t' Htry.
  set (items := topN.orderByItems t) in *.
  set (new := {| key := k; data := v |}).
  assert (Hless : forall d x y, x ∈ topN.rows t -> y ∈ topN.rows t ->
            topN.heapLess cmp items mem x y = topN.heapLess cmp items (mem ++ [d]) x y).
  { intros d x y Hx Hy. rewrite Forall_forall in Hlt.
    apply heapLess_mem; by rewrite derefRow_app_l by by apply Hlt. }
  assert (Hheap2 : forall d, heapOK (topN.heapLess cmp items (mem ++ [d])) (topN.rows t)).
  { intros d. eapply heapOK_ext; [apply (Hless d)|done]. }
  assert (Hsame : forall d l, key d = k ->
            heapOK (topN.heapLess cmp items (mem ++ [{| key := k; data := [] |}])) l ->
            heapOK (topN.heapLess cmp items (mem ++ [d])) l).
  { intros d l Hd. apply heapOK_ext. intros x y _ _.
    apply heapLess_mem; by apply derefRow_app_key. }
  assert (Hderef : forall d l, Forall (fun p => (p < length mem)%nat) l ->
            derefRow (mem ++ [d]) <$> l = derefRow mem <$> l).
  { intros d l Hl. apply Forall_fmap_ext. eapply Forall_impl; [exact Hl|].
    intros p Hp. by apply derefRow_app_l. }
  assert (Hlt' : forall d, Forall (fun p => (p < length (mem ++ [d]))%nat) (topN.rows t)).
  { intros d. eapply Forall_impl; [exact Hlt|]. intros p Hp.
    cbv beta in *. rewrite length_app. cbn [length]. lia. }
  assert (Hasym := heapLess_asym cmp items Hc).
  assert (Hntrans := heapLess_ntrans cmp items Hc).
  unfold topN.tryToAddRow in Htry. cbv zeta in Htry. fold items in Htry.
  case_bool_decide as Hsz.
  - (* the heap is not full: push *)
    injection Htry as <- <-. heap_simpl. split; [done|split; [done|]].
    exists []. fold items. fold new.
    assert (Hp : heapPush (topN.heapLess cmp items (mem ++ [{| key := k; data := [] |}]))
                   (topN.rows t) (length mem) ≡ₚ length mem :: topN.rows t)
      by apply heapPush_perm.
    split; [|split; [|split; [|split; [|split; [|split; [|split]]]]]].
    + apply Hsame; [done|]. apply heapPush_ok; [apply Hasym|apply Hntrans|apply Hheap2].
    + rewrite Hp. constructor; [|apply Hlt']. rewrite length_app. cbn. lia.
    + rewrite Hp. cbn [fmap list_fmap]. rewrite derefRow_app_new.
      fold (fmap (M := list) (derefRow (mem ++ [new]))).
      rewrite Hderef by done. rewrite Hrest in Hperm by lia.
      rewrite <- Hperm. rewrite !app_nil_r. apply Permutation_cons_append.
    + rewrite Hp. cbn. by rewrite Hsize.
    + rewrite Hp. cbn. lia.
    + done.
    + intros x p Hx. by apply elem_of_nil in Hx.
    + done.
  - destruct (topN.rows t !! 0%nat) as [root|] eqn:Hroot.
    2:{ (* K = 0 *)
      injection Htry as <- <-. heap_simpl. split; [done|split; [done|]].
      exists (new :: rest). fold items.
      destruct (topN.rows t) as [|? ?] eqn:Hrows; [|done].
      split; [apply heapOK_nil|]. split; [constructor|].
      split; [cbn; cbn in Hperm; rewrite <- Hperm; apply Permutation_cons_append|].
      split; [done|]. split; [done|]. split; [cbn in *; lia|].
      split; [|done]. intros x p _ Hp. by apply elem_of_nil in Hp. }
    assert (Hrootin : root ∈ topN.rows t) by by eapply list_elem_of_lookup_2.
    assert (Htop : forall q, q ∈ topN.rows t ->
              keyLe cmp items (derefRow mem q) (derefRow mem root)).
    { intros q Hq. apply heapLess_false.
      eapply (heap_root_top (topN.heapLess cmp items mem)); eauto. }
    assert (Hrootlt : (root < length mem)%nat).
    { rewrite Forall_forall in Hlt. by apply Hlt. }
    destruct (topN.heapLess cmp items _ root (length mem)) eqn:Eless.
    + (* the new row beats the root: replace it *)
      injection Htry as <- <-. heap_simpl. split; [done|split; [done|]].
      exists (derefRow mem root :: rest). fold items. fold new.
      assert (Hnewroot : keyLe cmp items new (derefRow mem root)).
      { apply Hasym in Eless. apply heapLess_false in Eless.
        by rewrite derefRow_app_new, derefRow_app_l in Eless. }
      destruct (topN.rows t) as [|root' rows0] eqn:Hrows; [done|].
      injection Hroot as ->.
      assert (Hp : heapFix (topN.heapLess cmp items (mem ++ [{| key := k; data := [] |}]))
                     (<[0%nat := length mem]> (root :: rows0)) 0 ≡ₚ length mem :: rows0)
        by (etrans; [apply heapFix_root_perm|done]).
      apply Forall_cons in Hlt as [_ Hlt0].
      split; [|split; [|split; [|split; [|split; [|split; [|split]]]]]].
      * apply Hsame; [done|].
        apply heapFix_root_ok; [apply Hasym|apply Hntrans|apply Hheap2].
      * rewrite Hp. constructor; rewrite length_app; cbn; [lia|].
        eapply Forall_impl; [exact Hlt0|]. intros; cbn in *; lia.
      * rewrite Hp. cbn [fmap list_fmap]. rewrite derefRow_app_new.
        fold (fmap (M := list) (derefRow (mem ++ [new]))).
        rewrite Hderef by done. rewrite <- Hperm. cbn [fmap list_fmap].
        fold (fmap (M := list) (derefRow mem)).
        rewrite <- Permutation_cons_append. cbn [app]. constructor.
        symmetry. apply Permutation_middle.
      * rewrite Hp. cbn. by rewrite Hsize.
      * rewrite Hp. cbn in *. lia.
      * rewrite Hp. cbn in *. lia.
      * intros x p Hx Hpin. rewrite Hp in Hpin.
        apply elem_of_cons in Hpin as [->|Hpin].
        -- rewrite derefRow_app_new.
           apply elem_of_cons in Hx as [->|Hx]; [done|].
           eapply keyLe_trans; [done|exact Hnewroot|]. apply Hkey; [done|left].
        -- rewrite derefRow_app_l by (rewrite Forall_forall in Hlt0; by apply Hlt0).
           apply elem_of_cons in Hx as [->|Hx].
           ++ apply Htop. by right.
           ++ apply Hkey; [done|by right].
      * done.
    + (* the new row is turned down *)
      injection Htry as <- <-. heap_simpl. split; [done|split; [done|]].
      exists (new :: rest). fold items.
      assert (Hrootnew : keyLe cmp items (derefRow mem root) new).
      { apply heapLess_false in Eless.
        by rewrite derefRow_app_new, derefRow_app_l in Eless. }
      split; [apply Hheap2|]. split; [apply Hlt'|].
      split.
      { rewrite Hderef by done. rewrite <- Hperm, <- app_assoc.
        apply Permutation_app_head. apply Permutation_cons_append. }
      split; [done|]. split; [done|]. split; [intros; lia|].
      split; [|done].
      intros x p Hx Hpin. rewrite derefRow_app_l
        by (rewrite Forall_forall in Hlt; by apply Hlt).
      apply elem_of_cons in Hx as [->|Hx]; [|by apply Hkey].
      eapply keyLe_trans; [done|by apply Htop|done].
Qed.

(** ** Top-N: draining the source *)

(** What a step of the draining loop leaves as it was. *)
Definition topN_frame {Src} (e e' : topN.exec Src) : Prop :=
  topN.evalCtx e' = topN.evalCtx e /\
  topN.relatedColOffsets e' = topN.relatedColOffsets e /\
  topN.orderByExprs e' = topN.orderByExprs e /\
  topN.cursor e' = topN.cursor e /\
  topN.executed e' = topN.executed e /\
  topN.orderByItems (topN.heap e') = topN.orderByItems (topN.heap e) /\
  topN.totalCount (topN.heap e') = topN.totalCount (topN.heap e).

Lemma alter_last {A : Type} (f : A -> A) (l : list A) (x : A) :
  alter f (length l) (l ++ [x]) = l ++ [f x].
Proof.
  rewrite <- (Nat.add_0_r (length l)) at 1. by rewrite alter_app_r.
Qed.

Lemma keyAt_last (mem : list sortRow) (d : sortRow) :
  topN.keyAt (mem ++ [d]) (length mem) = key d.
Proof. by rewrite keyAt_deref, derefRow_app_new. Qed.

Lemma evalTopN_step {Src} (e : topN.exec Src) (v : Row) (r' : list Datum)
    (k : list Datum) (rest seen : list sortRow) :
  TotalCmp (CompareDatum (topN.evalCtx e)) ->
  decodeRelatedColumnVals (topN.evalCtx e) (topN.relatedColOffsets e) v (topN.row e)
    = (OK tt, r') ->
  topN.evalKey (topN.orderByExprs e) 0 r' (replicate (length v) DNull) = OK k ->
  topNInv (CompareDatum (topN.evalCtx e)) (topN.heap e) (topN.mem e) rest seen ->
  exists e' rest',
    topN.evalTopN v e = (OK tt, e') /\
    topNInv (CompareDatum (topN.evalCtx e)) (topN.heap e') (topN.mem e') rest'
      (seen ++ [{| key := k; data := v |}]) /\
    topN_frame e e' /\ topN.row e' = r' /\ topN.src e' = topN.src e.
Proof.
  intros Hc Hdec Hkey Hinv.
  destruct e as [t mem ctx offs exprs r chk cur ex s]. cbn in *.
  unfold topN.evalTopN. st_simpl. rewrite Hdec.
  cbn [topN.set_row topN.set_mem topN.orderByExprs topN.row topN.mem topN.evalCtx
       topN.heap topN.chkRow topN.relatedColOffsets topN.cursor topN.executed topN.src].
  rewrite keyAt_last. cbn [key]. rewrite Hkey, alter_last. cbn [data].
  destruct (topN.tryToAddRow _ _ _ _) as [ok t0] eqn:Htry.
  destruct (tryToAddRow_inv _ _ _ _ _ k v Hc Hinv ok t0 Htry)
    as (Hitems & Hcount & rest' & Hinv').
  assert (Herr : topN.err t0 = None) by apply Hinv'.
  destruct ok.
  - cbn [topN.set_heap topN.set_mem topN.set_chkRow topN.orderByExprs topN.row topN.mem
         topN.evalCtx topN.heap topN.chkRow topN.relatedColOffsets topN.cursor
         topN.executed topN.src].
    rewrite alter_last. cbn [key data app]. rewrite Herr.
    eexists _, rest'. split; [reflexivity|]. unfold topN_frame. cbn.
    split; [exact Hinv'|]. by repeat split.
  - cbn [topN.set_heap topN.set_mem topN.set_chkRow topN.orderByExprs topN.row topN.mem
         topN.evalCtx topN.heap topN.chkRow topN.relatedColOffsets topN.cursor
         topN.executed topN.src].
    rewrite Herr.
    eexists _, rest'. split; [reflexivity|]. unfold topN_frame. cbn.
    split; [exact Hinv'|]. by repeat split.
Qed.

Lemma topN_frame_trans {Src} (e1 e2 e3 : topN.exec Src) :
  topN_frame e1 e2 -> topN_frame e2 e3 -> topN_frame e1 e3.
Proof.
  intros (A1 & A2 & A3 & A4 & A5 & A6 & A7) (B1 & B2 & B3 & B4 & B5 & B6 & B7).
  unfold topN_frame. rewrite B1, B2, B3, B4, B5, B6, B7. by repeat split.
Qed.

Lemma referenceRows_cons (ctx : evalContext) (offsets : list nat)
    (exprs : list Expression) (r : list Datum) (v : Row) (vs : list Row)
    (srs : list sortRow) :
  referenceRows ctx offsets exprs r (v :: vs) = OK srs ->
  exists r' k srs',
    decodeRelatedColumnVals ctx offsets v r = (OK tt, r') /\
    topN.evalKey exprs 0 r' (replicate (length v) DNull) = OK k /\
    referenceRows ctx offsets exprs r' vs = OK srs' /\
    srs = {| key := k; data := v |} :: srs'.
Proof.
  cbn [referenceRows].
  destruct (decodeRelatedColumnVals _ _ _ _) as [[[]|er] r'] eqn:Hdec; [|done].
  destruct (topN.evalKey _ _ _ _) as [k|er] eqn:Hkey; [|done]. cbn.
  destruct (referenceRows _ _ _ _ _) as [srs'|er] eqn:Href; [|done]. cbn.
  intros [= <-]. by exists r', k, srs'.
Qed.

(** The first [Next] pulls the rows of the source up to its
    end-of-stream and leaves the heap over them. *)
Lemma drain_spec {Src} (next : srcExec Src) (vs : list Row) (s s_end : Src) :
  srcYields next s vs s_end ->
  forall (e : topN.exec Src) (rest seen srs : list sortRow) (fuel : nat),
    TotalCmp (CompareDatum (topN.evalCtx e)) ->
    topN.src e = s ->
    topNInv (CompareDatum (topN.evalCtx e)) (topN.heap e) (topN.mem e) rest seen ->
    referenceRows (topN.evalCtx e) (topN.relatedColOffsets e) (topN.orderByExprs e)
      (topN.row e) vs = OK srs ->
    (length vs < fuel)%nat ->
    exists e' rest',
      topN.drain next fuel e = Some (OK tt, e') /\
      topN.src e' = s_end /\
      topNInv (CompareDatum (topN.evalCtx e)) (topN.heap e') (topN.mem e') rest'
        (seen ++ srs) /\
      topN_frame e e'.
Proof.
  induction 1 as [s s' Hn|s v s1 vs s' Hn Hy IH];
    intros e rest seen srs fuel Hc Hs Hinv Href Hf;
    (destruct fuel as [|fuel]; [cbn in Hf; lia|]).
  - injection Href as <-. cbn [topN.drain]. unfold topN.innerNext. st_simpl.
    rewrite Hs, Hn. exists (topN.set_src s' e), rest.
    rewrite app_nil_r. split; [done|]. split; [done|]. split; [done|].
    by repeat split.
  - apply referenceRows_cons in Href as (r' & k & srs' & Hdec & Hkey & Href & ->).
    destruct (evalTopN_step (topN.set_src s1 e) v r' k rest seen Hc Hdec Hkey Hinv)
      as (e2 & rest2 & Hev & Hinv2 & Hfr & Hrow & Hsrc).
    cbn [topN.drain]. unfold topN.innerNext. st_simpl. rewrite Hs, Hn, Hev.
    pose proof Hfr as (F1 & F2 & F3 & _). cbn in F1, F2, F3.
    destruct (IH e2 rest2 (seen ++ [{| key := k; data := v |}]) srs' fuel)
      as (e3 & rest3 & Hdr & Hsrc3 & Hinv3 & Hfr3).
    + by rewrite F1.
    + done.
    + by rewrite F1.
    + by rewrite F1, F2, F3, Hrow.
    + cbn in Hf. lia.
    + exists e3, rest3. split; [done|]. split; [done|]. split.
      * rewrite F1 in Hinv3. by rewrite <- app_assoc in Hinv3.
      * eapply topN_frame_trans; [|exact Hfr3]. exact Hfr.
Qed.

(** ** Top-N: the rows streamed *)

(** The order of the sorter, on the rows themselves. *)
Definition rowLess (cmp : Datum -> Datum -> comparison) (items : list ByItem)
    (a b : sortRow) : bool :=
  match compareKeys cmp items 0 (key a) (key b) with Lt => true | _ => false end.

Lemma sorterLess_rowLess (cmp : Datum -> Datum -> comparison) (items : list ByItem)
    (mem : list sortRow) (p q : nat) :
  topN.sorterLess cmp items mem p q = rowLess cmp items (derefRow mem p) (derefRow mem q).
Proof. unfold topN.sorterLess, rowLess. by rewrite !keyAt_deref. Qed.

Section RowOrder.
Context (cmp : Datum -> Datum -> comparison) (items : list ByItem)
  (Hc : TotalCmp cmp).

Lemma rowLess_false (a b : sortRow) :
  rowLess cmp items b a = false <-> keyLe cmp items a b.
Proof.
  pose proof (compareKeys_order cmp items 0 Hc) as HK.
  unfold rowLess, keyLe. rewrite (cmp_anti _ HK (key b) (key a)).
  destruct (compareKeys _ _ _ _ _); cbn [CompOpp]; split; done.
Qed.

Lemma rowLess_asym (a b : sortRow) :
  rowLess cmp items a b = true -> rowLess cmp items b a = false.
Proof.
  intros H. apply rowLess_false. apply keyLe_total; [done|]. intros Hle.
  apply rowLess_false in Hle. congruence.
Qed.

Lemma rowLess_ntrans (x y z : sortRow) :
  rowLess cmp items y x = false -> rowLess cmp items z y = false ->
  rowLess cmp items z x = false.
Proof. rewrite !rowLess_false. intros H1 H2. by eapply keyLe_trans. Qed.

End RowOrder.

Lemma StronglySorted_weaken {A : Type} (R1 R2 : relation A) (l : list A) :
  (forall x y, R1 x y -> R2 x y) -> StronglySorted R1 l -> StronglySorted R2 l.
Proof.
  intros HR. induction 1 as [|x l Hs IH Hx]; constructor; [done|].
  eapply Forall_impl; [exact Hx|]. intros y. apply HR.
Qed.

Lemma topN_Next_executed {Src} (next : srcExec Src) (fuel : nat) (e : topN.exec Src) :
  topN.executed e = true -> topN.Next next fuel e = Some (topN.emit e).
Proof. intros H. unfold topN.Next. by rewrite H. Qed.

(** Once the source is drained, [Next] walks the sorted heap and then
    reports end-of-stream for good. *)
Lemma topN_stream {Src} (next : srcExec Src) (fuel n m : nat) (e : topN.exec Src) :
  topN.executed e = true -> (n <= m)%nat ->
  topN_nextN next fuel n e =
  take n (((fun p => OK (Some (topN.dataAt (topN.mem e) p)))
             <$> drop (topN.cursor e) (topN.rows (topN.heap e)))
          ++ replicate m (OK None)).
Proof.
  revert m e. induction n as [|n IH]; intros m e He Hm; [done|].
  cbn [topN_nextN]. rewrite topN_Next_executed by done.
  unfold topN.emit. st_simpl.
  destruct (topN.rows (topN.heap e) !! topN.cursor e) as [p|] eqn:Hp.
  - rewrite (drop_S _ _ _ Hp). cbn [fmap list_fmap app take]. f_equal.
    rewrite (IH m) by (done || lia). done.
  - rewrite drop_ge by by apply lookup_ge_None. cbn [fmap list_fmap app].
    destruct m as [|m]; [lia|]. cbn [replicate take]. f_equal.
    rewrite (IH m) by (done || lia).
    rewrite drop_ge by by apply lookup_ge_None. done.
Qed.

Lemma freshTopN_inv {Src} (e : topN.exec Src) :
  freshTopN e ->
  topNInv (CompareDatum (topN.evalCtx e)) (topN.heap e) (topN.mem e) [] [].
Proof.
  intros (_ & _ & Hrows & Hsize & Herr). unfold topNInv. rewrite Hrows, Hsize.
  split; [apply heapOK_nil|]. split; [constructor|]. split; [done|].
  split; [done|]. split; [cbn; lia|]. split; [done|]. split; [|done].
  intros x p Hx. by apply elem_of_nil in Hx.
Qed.

Lemma drain_mono {Src} (next : srcExec Src) (fuel fuel' : nat) (e : topN.exec Src)
    (r : result unit * topN.exec Src) :
  topN.drain next fuel e = Some r -> (fuel <= fuel')%nat ->
  topN.drain next fuel' e = Some r.
Proof.
  revert fuel' e. induction fuel as [|fuel IH]; intros fuel' e Hd Hf; [done|].
  destruct fuel' as [|fuel']; [lia|]. cbn [topN.drain] in *.
  destruct (topN.innerNext next e) as [[[]|er] e1]; try done.
  apply IH; [done|lia].
Qed.

(** After the first [Next], the calls of [Next] are those of the
    executor left by the drain and the sort. *)
Lemma topN_nextN_first {Src} (next : srcExec Src) (fuel n : nat)
    (e e0 : topN.exec Src) :
  topN.executed e0 = true ->
  topN.Next next fuel e = Some (topN.emit e0) ->
  topN_nextN next fuel n e = topN_nextN next fuel n e0.
Proof.
  intros He0 Hn. destruct n as [|n]; [done|]. cbn [topN_nextN].
  by rewrite Hn, topN_Next_executed.
Qed.


(** The datum ordering of the examples is a total preorder. *)
Lemma demoCompare_order : TotalCmp demoCompare.
Proof.
  split.
  - intros [|x|x|x] [|y|y|y]; cbn; try done;
      apply Z.compare_antisym || apply bytes_compare_antisym.
  - intros [|x|x|x] [|y|y|y] [|z|z|z]; cbn; try done.
    + rewrite !Z.compare_lt_iff. lia.
    + rewrite !Z.compare_lt_iff. lia.
    + apply key_lt_trans.
  - intros [|x|x|x] [|y|y|y] c; cbn; try done.
    + intros H. apply Z.compare_eq in H. by subst.
    + intros H. apply Z.compare_eq in H. by subst.
    + intros H. apply bytes_compare_eq in H. by subst.
Qed.

(** Scenario S6: of the rows with keys 3, 1, 3, 2 the two smallest
    are streamed, in order, and no row with key 3. *)
Example topN_demo_s6 :
  topN_nextN listSrc 5 4 (demoTopN 2 s6Rows) =
  [ OK (Some [Some [Byte.x01]; Some [Byte.x62]]);
    OK (Some [Some [Byte.x02]; Some [Byte.x64]]);
    OK None; OK None ].
Proof. vm_compute. reflexivity. Qed.

Lemma listSrc_yields (rows : list Row) : srcYields listSrc rows rows [].
Proof.
  induction rows as [|v rows IH]; [by constructor|].
  by apply (srcYields_row listSrc (v :: rows) v rows rows []).
Qed.


(** ** Top-N against the reference *)

(** A comparison as an order. *)
Section SortedPerm.
Context {A : Type} (f : A -> A -> comparison) (Hf : TotalCmp f).

Definition cmpLe (a b : A) : Prop := f a b <> Gt.

Lemma cmpLe_antisym (a b : A) : cmpLe a b -> cmpLe b a -> f a b = Eq.
Proof.
  unfold cmpLe. rewrite (cmp_anti _ Hf a b). by destruct (f a b).
Qed.

Lemma cmpEq_sym (a b : A) : f a b = Eq -> f b a = Eq.
Proof. intros H. by rewrite (cmp_anti _ Hf a b), H. Qed.

Lemma cmpEq_trans (a b c : A) : f a b = Eq -> f b c = Eq -> f a c = Eq.
Proof. intros H1 H2. by rewrite (cmp_eq _ Hf a b c H1). Qed.

Lemma cmpLe_refl (a : A) : cmpLe a a.
Proof. unfold cmpLe. by rewrite (cmp_refl f Hf). Qed.

Lemma cmpLe_eq_l (a b c : A) : f a b = Eq -> cmpLe a c -> cmpLe b c.
Proof. unfold cmpLe. intros H. by rewrite (cmp_eq _ Hf a b c H). Qed.

Lemma cmpLe_eq_r (a b c : A) : f a b = Eq -> cmpLe c a -> cmpLe c b.
Proof. unfold cmpLe. intros H. by rewrite (cmp_eq_r f Hf a b c H). Qed.

(** The head of a sorted list is below every element of it. *)
Lemma sorted_head_le (x : A) (l : list A) (y : A) :
  StronglySorted cmpLe (x :: l) -> y ∈ x :: l -> cmpLe x y.
Proof.
  intros Hs Hy. apply StronglySorted_inv in Hs as [_ Hx].
  apply elem_of_cons in Hy as [->|Hy]; [apply cmpLe_refl|].
  rewrite Forall_forall in Hx. by apply Hx.
Qed.

(** An element of a sorted list may give way to an equal one. *)
Lemma sorted_replace (a b : list A) (x y : A) :
  f x y = Eq -> StronglySorted cmpLe (a ++ x :: b) -> StronglySorted cmpLe (a ++ y :: b).
Proof.
  intros Hxy Hs. apply StronglySorted_app in Hs as (Hab & Ha & Hxb).
  apply StronglySorted_inv in Hxb as [Hb Hx].
  apply StronglySorted_app. split; [|split; [done|]].
  - intros u v Hu Hv. apply elem_of_cons in Hv as [->|Hv].
    + apply (cmpLe_eq_r x y u Hxy). apply Hab; [done|by left].
    + apply Hab; [done|by right].
  - constructor; [done|].
    eapply Forall_impl; [exact Hx|]. intros v Hv. by apply (cmpLe_eq_l x y v).
Qed.

(** Two sorted lists with the same elements agree position by
    position, up to elements that compare equal. *)
Lemma sorted_perm_equiv (l1 : list A) :
  forall l2, l1 ≡ₚ l2 -> StronglySorted cmpLe l1 -> StronglySorted cmpLe l2 ->
  Forall2 (fun a b => f a b = Eq) l1 l2.
Proof.
  induction l1 as [|x l1 IH]; intros l2 Hp Hs1 Hs2.
  - destruct l2; [constructor|by apply Permutation_nil_cons in Hp].
  - destruct l2 as [|y l2]; [symmetry in Hp; by apply Permutation_nil_cons in Hp|].
    assert (f x y = Eq) as Hxy.
    { apply cmpLe_antisym.
      - apply (sorted_head_le x l1 y Hs1). rewrite Hp. by left.
      - apply (sorted_head_le y l2 x Hs2). rewrite <- Hp. by left. }
    constructor; [done|].
    assert (x ∈ y :: l2) as Hx by (rewrite <- Hp; by left).
    apply elem_of_cons in Hx as [->|Hx].
    + apply IH.
      * by apply Permutation_cons_inv in Hp.
      * by apply StronglySorted_inv in Hs1 as [? _].
      * by apply StronglySorted_inv in Hs2 as [? _].
    + apply list_elem_of_split in Hx as (a & b & ->).
      assert (Forall2 (fun u v => f u v = Eq) l1 (a ++ y :: b)) as H1.
      { apply IH.
        - apply (Permutation_cons_inv (a := x)). rewrite Hp.
          rewrite <- !Permutation_middle. apply perm_swap.
        - by apply StronglySorted_inv in Hs1 as [? _].
        - apply StronglySorted_inv in Hs2 as [Hs2 _].
          by apply (sorted_replace a b x y). }
      assert (Forall2 (fun u v => f u v = Eq) (a ++ y :: b) (a ++ x :: b)) as H2.
      { apply Forall2_app.
        - apply Forall2_same_length_lookup_2; [done|].
          intros i u v Hu Hv. rewrite Hu in Hv. injection Hv as <-. apply (cmp_refl f Hf).
        - constructor; [by apply cmpEq_sym|].
          apply Forall2_same_length_lookup_2; [done|].
          intros i u v Hu Hv. rewrite Hu in Hv. injection Hv as <-. apply (cmp_refl f Hf). }
      clear -H1 H2 Hf.
      revert H2. generalize (a ++ x :: b). generalize dependent (a ++ y :: b).
      induction l1 as [|u l1 IH]; intros m H1 m' H2.
      * apply Forall2_nil_inv_l in H1 as ->. by apply Forall2_nil_inv_l in H2 as ->.
      * apply Forall2_cons_inv_l in H1 as (v & m1 & Huv & H1 & ->).
        apply Forall2_cons_inv_l in H2 as (w & m2 & Hvw & H2 & ->).
        constructor; [by eapply cmpEq_trans|]. by eapply IH.
Qed.

End SortedPerm.

Lemma TotalCmp_preimage {A B : Type} (g : A -> B) (f : B -> B -> comparison) :
  TotalCmp f -> TotalCmp (fun a b => f (g a) (g b)).
Proof.
  intros [H1 H2 H3]. split.
  - intros a b. apply H1.
  - intros a b c. apply H2.
  - intros a b c. apply H3.
Qed.



(** ** [prefixPrev]: the predecessor among the keys of one length *)

Lemma prefixPrev_loop_next (pre suf : bytes) :
  forall p, prefixPrev_loop (pre ++ suf) (length pre) = Some p ->
  exists p', p = p' ++ suf /\ length p' = length pre /\
    forall suf', PrefixNext_loop (p' ++ suf') (length p') = Some (pre ++ suf').
Proof.
  revert suf. induction pre as [|b pre IH] using rev_ind; intros suf p H; [done|].
  rewrite length_app in H. change (length [b]) with 1%nat in H.
  rewrite Nat.add_1_r, <- app_assoc in H. change ([b] ++ suf) with (b :: suf) in H.
  rewrite prefixPrev_loop_snoc in H.
  destruct (decide (b = Byte.x00)) as [->|Hb].
  - apply IH in H as (p' & -> & Hl & Hn).
    exists (p' ++ [Byte.xff]). split; [by rewrite <- app_assoc|].
    split; [rewrite !length_app; simpl; lia|].
    intros suf'. rewrite length_app. change (length [Byte.xff]) with 1%nat.
    rewrite Nat.add_1_r, <- !app_assoc.
    change ([Byte.xff] ++ suf') with (Byte.xff :: suf').
    rewrite PrefixNext_loop_snoc, decide_True by done. apply Hn.
  - injection H as <-. exists (pre ++ [byte_dec b]).
    split; [by rewrite <- app_assoc|]. split; [rewrite !length_app; simpl; lia|].
    intros suf'. rewrite length_app. change (length [byte_dec b]) with 1%nat.
    rewrite Nat.add_1_r, <- !app_assoc.
    change ([byte_dec b] ++ suf') with (byte_dec b :: suf').
    rewrite PrefixNext_loop_snoc, decide_False by (by rewrite byte_dec_xff).
    by rewrite byte_inc_dec.
Qed.

(** [prefixPrev] returns nil exactly on the keys made of zero bytes
    only, the empty key among them; on every other key it returns the
    key of the same length that [PrefixNext] maps back to it, which is
    the greatest key of that length below it. *)
Theorem prefixPrev_predecessor (k : bytes) :
  (prefixPrev k = None <-> Forall (fun b => b = Byte.x00) k) /\
  forall p, prefixPrev k = Some p ->
    length p = length k /\ PrefixNext p = k /\ key_lt p k /\
    forall q, length q = length k -> key_lt q k -> key_le q p.
Proof.
  split.
  - split; [apply prefixPrev_None|].
    intros Hz. unfold prefixPrev. rewrite <- (app_nil_r k) at 1.
    by apply prefixPrev_loop_zeros.
  - intros p Hp. pose proof (prefixPrev_lt k p Hp) as Hlt.
    unfold prefixPrev in Hp. rewrite <- (app_nil_r k) in Hp at 1.
    apply prefixPrev_loop_next in Hp as (p' & -> & Hl & Hn).
    rewrite app_nil_r in *. specialize (Hn []). rewrite !app_nil_r in Hn.
    assert (Hnext : PrefixNext p' = k) by (unfold PrefixNext; by rewrite Hn).
    split; [done|]. split; [done|]. split; [done|].
    intros q Hq Hqk. destruct (bytes_compare q p') eqn:E; unfold key_le; rewrite E; try done.
    exfalso. assert (Hpq : key_lt p' q).
    { unfold key_lt. rewrite (bytes_compare_antisym q p'), E. done. }
    apply PrefixNext_successor in Hpq; [|congruence].
    rewrite Hnext in Hpq. apply (key_lt_irrefl q). by eapply key_lt_le_trans.
Qed.

(** ** [decodeHandle]: the eight leading bytes *)

Lemma be_uint_app (a b : bytes) :
  be_uint (a ++ b) = be_uint a * 256 ^ Z.of_nat (length b) + be_uint b.
Proof.
  unfold be_uint. rewrite fold_left_app.
  generalize (fold_left (fun acc x => acc * 256 + Z.of_N (byte_val x)) a 0).
  induction b as [|x b IH]; intros z; [cbn; lia|].
  cbn [fold_left length]. rewrite IH, (IH (0 * 256 + _)).
  rewrite Nat2Z.inj_succ, Z.pow_succ_r by lia. lia.
Qed.

Lemma byte_val_of_N (n : N) : byte_val (byte_of_N n) = (n mod 256)%N.
Proof.
  unfold byte_val, byte_of_N.
  destruct (Byte.of_N (n mod 256)) as [b|] eqn:E.
  - by apply Byte.to_of_N in E.
  - apply Byte.of_N_None_iff in E.
    pose proof (N.mod_upper_bound n 256 ltac:(done)). lia.
Qed.

Lemma bigEndian_length (n : nat) (u : Z) : length (bigEndian n u) = n.
Proof.
  revert u. induction n as [|n IH]; intros u; [done|].
  cbn [bigEndian]. rewrite length_app, IH. cbn. lia.
Qed.

Lemma be_uint_bigEndian (n : nat) (u : Z) :
  0 <= u -> be_uint (bigEndian n u) = u mod 256 ^ Z.of_nat n.
Proof.
  revert u. induction n as [|n IH]; intros u Hu.
  - cbn. by rewrite Z.mod_1_r.
  - cbn [bigEndian]. rewrite be_uint_app.
    change (256 ^ Z.of_nat (length [byte_of_N (Z.to_N (u mod 256))])) with 256.
    rewrite IH by (apply Z.div_pos; lia).
    assert (Hb : be_uint [byte_of_N (Z.to_N (u mod 256))] = u mod 256).
    { unfold be_uint. cbn [fold_left]. rewrite byte_val_of_N.
      rewrite N2Z.inj_mod, Z2N.id by (apply Z.mod_pos_bound; lia).
      change (Z.of_N 256) with 256. rewrite Z.mod_mod by lia. lia. }
    rewrite Hb.
    replace (256 ^ Z.of_nat (S n)) with (256 * 256 ^ Z.of_nat n)
      by (rewrite Nat2Z.inj_succ, Z.pow_succ_r by lia; done).
    rewrite (Z.rem_mul_r u 256 (256 ^ Z.of_nat n)) by lia. lia.
Qed.

Lemma to_int64_inv (h : Z) : - 2 ^ 63 <= h < 2 ^ 63 -> to_int64 (h mod 2 ^ 64) = h.
Proof.
  intros Hh. unfold to_int64. cbv zeta. rewrite Z.mod_mod by lia.
  destruct (Z_lt_dec h 0) as [Hneg|Hpos].
  - assert (E : h mod 2 ^ 64 = h + 2 ^ 64).
    { symmetry. apply (Z.mod_unique_pos _ _ (-1)); lia. }
    rewrite E. destruct (_ <? _) eqn:L; [apply Z.ltb_lt in L|]; lia.
  - rewrite Z.mod_small by lia.
    destruct (_ <? _) eqn:L; [done|apply Z.ltb_ge in L; lia].
Qed.

(** [decodeHandle] fails exactly on fewer than eight bytes, with the
    end-of-file error on no byte at all and the unexpected one on one
    to seven bytes.  From eight bytes on it returns an [int64] that the
    bytes after the eighth do not change, and it reads back every
    [int64] from its eight big-endian bytes, whatever follows them. *)
Theorem decodeHandle_leading_bytes (data : bytes) :
  (decodeHandle data = Err EOF <-> length data = 0%nat) /\
  (decodeHandle data = Err UnexpectedEOF <-> (0 < length data < 8)%nat) /\
  ((8 <= length data)%nat ->
     exists h, decodeHandle data = OK h /\ - 2 ^ 63 <= h < 2 ^ 63 /\
       forall tail, decodeHandle (take 8 data ++ tail) = OK h) /\
  (forall h, - 2 ^ 63 <= h < 2 ^ 63 ->
     decodeHandle (bigEndian 8 (h mod 2 ^ 64) ++ data) = OK h).
Proof.
  unfold decodeHandle. split; [|split; [|split]].
  - repeat case_decide; split; intros; try done; lia.
  - repeat case_decide; split; intros; try done; lia.
  - intros Hlen. rewrite !decide_False by lia.
    eexists. split; [reflexivity|]. split.
    + unfold to_int64. cbv zeta.
      pose proof (Z.mod_pos_bound (be_uint (take 8 data)) (2 ^ 64) ltac:(lia)).
      destruct (_ <? _) eqn:E; [apply Z.ltb_lt in E|apply Z.ltb_ge in E]; lia.
    + intros tail.
      assert (Hl : length (take 8 data) = 8%nat) by (rewrite length_take; lia).
      rewrite !decide_False by (rewrite length_app; lia).
      by rewrite take_app_length' by done.
  - intros h Hh.
    pose proof (bigEndian_length 8 (h mod 2 ^ 64)) as Hl.
    rewrite !decide_False by (rewrite length_app; lia).
    rewrite take_app_length' by done.
    rewrite be_uint_bigEndian by (apply Z.mod_pos_bound; lia).
    change (256 ^ Z.of_nat 8) with (2 ^ 64). rewrite Z.mod_mod by lia.
    by rewrite to_int64_inv.
Qed.

(** ** Limit *)

Lemma callsN_S {S A} (m : ST S A) (n : nat) (s : S) :
  callsN m (Datatypes.S n) s =
  ((m s).1 :: (callsN m n (m s).2).1, (callsN m n (m s).2).2).
Proof.
  change (callsN m (Datatypes.S n) s) with
    (let '(r, s1) := m s in let '(rs, s2) := callsN m n s1 in (r :: rs, s2)).
  destruct (m s) as [r s1]. cbn [fst snd]. by destruct (callsN m n s1).
Qed.

(** At the limit, [Next] reports end-of-stream and leaves the state,
    the source in it, as it is. *)
Lemma limit_Next_done {Src} (next : srcExec Src) (e : limit.exec Src) :
  limit.limit e <= limit.cursor e -> limit.Next next e = (OK None, e).
Proof.
  intros H. unfold limit.Next. st_simpl. by rewrite bool_decide_eq_true_2.
Qed.

Lemma limit_callsN_done {Src} (next : srcExec Src) (n : nat) (e : limit.exec Src) :
  limit.limit e <= limit.cursor e ->
  callsN (limit.Next next) n e = (replicate n (OK None), e).
Proof.
  intros H. induction n as [|n IH]; [done|].
  rewrite callsN_S, limit_Next_done by done. cbn [fst snd]. by rewrite IH.
Qed.

Lemma limit_Next_row {Src} (next : srcExec Src) (e : limit.exec Src) (v : Row) (s1 : Src) :
  0 <= limit.cursor e < limit.limit e -> limit.limit e < 2 ^ 64 ->
  next (limit.src e) = (OK (Some v), s1) ->
  limit.Next next e =
  (OK (Some v), limit.mk (limit.limit e) (limit.cursor e + 1) s1).
Proof.
  intros Hc Hl Hn. unfold limit.Next. st_simpl.
  rewrite bool_decide_eq_false_2 by lia. rewrite Hn. cbn.
  unfold limit.set_cursor, limit.set_src, to_uint64. cbn.
  by rewrite Z.mod_small by lia.
Qed.

Lemma limit_Next_end {Src} (next : srcExec Src) (e : limit.exec Src) (s1 : Src) :
  limit.cursor e < limit.limit e ->
  next (limit.src e) = (OK None, s1) ->
  limit.Next next e = (OK None, limit.mk (limit.limit e) (limit.cursor e) s1).
Proof.
  intros Hc Hn. unfold limit.Next. st_simpl.
  rewrite bool_decide_eq_false_2 by lia. by rewrite Hn.
Qed.

(** The rows pulled while the cursor is below the limit come out
    unchanged, one per call. *)
Lemma limit_callsN_rows {Src} (next : srcExec Src) (vs : list Row) (s s' : Src) :
  srcPulls next s vs s' ->
  forall e, limit.src e = s ->
    0 <= limit.cursor e -> limit.cursor e + Z.of_nat (length vs) <= limit.limit e ->
    limit.limit e < 2 ^ 64 ->
    callsN (limit.Next next) (length vs) e =
    ((fun v => OK (Some v)) <$> vs,
     limit.mk (limit.limit e) (limit.cursor e + Z.of_nat (length vs)) s').
Proof.
  induction 1 as [s|s v s1 vs s' Hn Hp IH]; intros e Hs Hc Hl Hm.
  - cbn. rewrite Z.add_0_r. destruct e; cbn in *; by subst.
  - cbn [length] in *. rewrite callsN_S.
    rewrite (limit_Next_row next e v s1) by (lia || congruence). cbn [fst snd].
    rewrite IH by (cbn; lia || done).
    cbn [fst snd fmap list_fmap limit.limit limit.cursor].
    do 2 f_equal. lia.
Qed.

Lemma callsN_add {S A} (m : ST S A) (n k : nat) (s : S) :
  callsN m (n + k) s =
  ((callsN m n s).1 ++ (callsN m k (callsN m n s).2).1,
   (callsN m k (callsN m n s).2).2).
Proof.
  revert s. induction n as [|n IH]; intros s.
  - cbn. by destruct (callsN m k s).
  - cbn [Nat.add]. rewrite !callsN_S, IH. done.
Qed.

(** A limit over a source that has [limit] rows or more: [Next]
    returns the first [limit] rows of the source unchanged, then
    end-of-stream however often it is called, and it pulls the source
    exactly [limit] times: the source is left in the state after its
    [limit]-th row. *)
Theorem limit_stops_at_limit {Src} (next : srcExec Src) (e : limit.exec Src)
    (vs : list Row) (s' : Src) (n : nat) :
  limit.cursor e = 0 -> limit.limit e < 2 ^ 64 ->
  srcPulls next (limit.src e) vs s' ->
  Z.of_nat (length vs) = limit.limit e ->
  callsN (limit.Next next) (length vs + n) e =
  (((fun v => OK (Some v)) <$> vs) ++ replicate n (OK None),
   limit.mk (limit.limit e) (limit.limit e) s').
Proof.
  intros Hc Hm Hp Hlen.
  rewrite callsN_add.
  rewrite (limit_callsN_rows next vs _ s' Hp e eq_refl) by lia.
  cbn [fst snd]. rewrite limit_callsN_done by (cbn; lia).
  cbn [fst snd]. do 2 f_equal. lia.
Qed.

(** A limit over a source that ends before the limit: [Next] returns
    the rows of the source unchanged and then the end-of-stream of the
    source, the cursor counting the rows returned. *)
Theorem limit_passes_short_source {Src} (next : srcExec Src) (e : limit.exec Src)
    (vs : list Row) (s_end : Src) (n : nat) :
  limit.cursor e = 0 -> limit.limit e < 2 ^ 64 ->
  srcYields next (limit.src e) vs s_end ->
  next s_end = (OK None, s_end) ->
  Z.of_nat (length vs) < limit.limit e ->
  callsN (limit.Next next) (length vs + S n) e =
  (((fun v => OK (Some v)) <$> vs) ++ replicate (S n) (OK None),
   limit.mk (limit.limit e) (Z.of_nat (length vs)) s_end).
Proof.
  intros Hc Hm Hy Hend Hlen.
  assert (Hp : exists s1, srcPulls next (limit.src e) vs s1 /\ next s1 = (OK None, s_end)).
  { clear -Hy. induction Hy as [s s' Hn|s v s1 vs s' Hn Hy (s2 & Hp & He)].
    - exists s. split; [constructor|done].
    - exists s2. split; [by econstructor|done]. }
  destruct Hp as (s1 & Hp & Hs1).
  rewrite callsN_add.
  rewrite (limit_callsN_rows next vs _ s1 Hp e eq_refl) by lia.
  cbn [fst snd]. rewrite Hc, Z.add_0_l.
  assert (Hidle : forall k s, next s = (OK None, s_end) ->
            callsN (limit.Next next) (S k)
              (limit.mk (limit.limit e) (Z.of_nat (length vs)) s) =
            (replicate (S k) (OK None),
             limit.mk (limit.limit e) (Z.of_nat (length vs)) s_end)).
  { intros k. induction k as [|k IH]; intros s Hs.
    - cbn [callsN]. by rewrite (limit_Next_end next _ s_end) by (cbn; lia || done).
    - rewrite callsN_S.
      rewrite (limit_Next_end next _ s_end) by (cbn; lia || done).
      cbn [fst snd limit.limit limit.cursor]. by rewrite (IH s_end Hend). }
  by rewrite (Hidle n s1 Hs1).
Qed.

Lemma listSrc_pulls (vs rest : list Row) : srcPulls listSrc (vs ++ rest) vs rest.
Proof.
  induction vs as [|v vs IH]; [constructor|].
  by apply (srcPulls_row listSrc (v :: vs ++ rest) v (vs ++ rest)).
Qed.

Lemma limit_stops_at_limit_witness :
  callsN (limit.Next listSrc) (2 + 3) (limit.mk 2 0 s6Rows) =
  (((fun v => OK (Some v)) <$> take 2 s6Rows) ++ replicate 3 (OK None),
   limit.mk 2 2 (drop 2 s6Rows)).
Proof.
  apply (limit_stops_at_limit listSrc (limit.mk 2 0 s6Rows) (take 2 s6Rows)
           (drop 2 s6Rows) 3).
  - reflexivity.
  - reflexivity.
  - apply (listSrc_pulls (take 2 s6Rows) (drop 2 s6Rows)).
  - reflexivity.
Defined.

Lemma limit_passes_short_source_witness :
  callsN (limit.Next listSrc) (4 + 2) (limit.mk 9 0 s6Rows) =
  (((fun v => OK (Some v)) <$> s6Rows) ++ replicate 2 (OK None),
   limit.mk 9 4 []).
Proof.
  apply (limit_passes_short_source listSrc (limit.mk 9 0 s6Rows) s6Rows [] 1).
  - reflexivity.
  - reflexivity.
  - apply listSrc_yields.
  - reflexivity.
  - reflexivity.
Defined.

(** ** Selection: the rows streamed *)

Definition selection_frame {Src} (e e' : selection.exec Src) : Prop :=
  selection.conditions e' = selection.conditions e /\
  selection.relatedColOffsets e' = selection.relatedColOffsets e /\
  selection.evalCtx e' = selection.evalCtx e.

Lemma selectedRows_cons (ctx : evalContext) (offsets : list nat)
    (conds : list Expression) (r : list Datum) (v : Row) (vs : list Row)
    (out : list Row) :
  selectedRows ctx offsets conds r (v :: vs) = OK out ->
  exists r' b rest,
    decodeRelatedColumnVals ctx offsets v r = (OK tt, r') /\
    selection.evalBool_loop ctx conds r' = OK b /\
    selectedRows ctx offsets conds r' vs = OK rest /\
    out = if b : bool then v :: rest else rest.
Proof.
  cbn [selectedRows].
  destruct (decodeRelatedColumnVals _ _ _ _) as [[[]|er] r'] eqn:Hdec; [|done].
  destruct (selection.evalBool_loop _ _ _) as [b|er] eqn:Hb; [|done]. cbn.
  destruct (selectedRows _ _ _ _ _) as [rest|er] eqn:Hrest; [|done]. cbn.
  intros [= <-]. by exists r', b, rest.
Qed.

(** One call of [Next] goes through the source up to the first row
    that passes, or to its end-of-stream. *)
Lemma selection_Next_step {Src} (next : srcExec Src) (vs : list Row) (s s_end : Src) :
  srcYields next s vs s_end ->
  forall (e : selection.exec Src) (out : list Row) (fuel : nat),
    selection.src e = s ->
    selectedRows (selection.evalCtx e) (selection.relatedColOffsets e)
      (selection.conditions e) (selection.row e) vs = OK out ->
    (length vs < fuel)%nat ->
    match out with
    | [] =>
        exists e', selection.Next next fuel e = Some (OK None, e') /\
                   selection.src e' = s_end /\ selection_frame e e'
    | v :: out' =>
        exists e' vs',
          selection.Next next fuel e = Some (OK (Some v), e') /\
          srcYields next (selection.src e') vs' s_end /\
          selectedRows (selection.evalCtx e) (selection.relatedColOffsets e)
            (selection.conditions e) (selection.row e') vs' = OK out' /\
          (length vs' < length vs)%nat /\ selection_frame e e'
    end.
Proof.
  induction 1 as [s s' Hn|s v s1 vs s' Hn Hy IH]; intros e out fuel Hs Hsel Hf;
    (destruct fuel as [|fuel]; [cbn in Hf; lia|]).
  - injection Hsel as <-. exists (selection.set_src s' e).
    unfold selection.Next. cbn [selection.Next_loop]. rewrite Hs, Hn.
    by repeat split.
  - apply selectedRows_cons in Hsel as (r' & b & rest & Hdec & Hb & Hrest & ->).
    rewrite <- Hs in Hn. rewrite (selection_Next_pull next fuel e v s1 r' Hn Hdec), Hb.
    destruct b.
    + exists (afterEval e s1 r'), vs. split; [done|]. split; [done|].
      split; [done|]. split; [cbn; lia|]. by repeat split.
    + specialize (IH (afterEval e s1 r') rest fuel eq_refl Hrest ltac:(cbn in Hf; lia)).
      destruct rest as [|w rest].
      * destruct IH as (e' & HN & Hsrc & Hfr). exists e'.
        split; [done|]. split; [done|]. exact Hfr.
      * destruct IH as (e' & vs' & HN & Hy' & Hsel' & Hlen & Hfr).
        exists e', vs'. split; [done|]. split; [done|]. split; [done|].
        split; [cbn; lia|]. exact Hfr.
Qed.

(** A selection over a source that yields the rows [vs] and then
    end-of-stream for good, on which the related columns decode and the
    conditions evaluate: the calls of [Next] return the rows of [vs] on
    which every condition passes, unchanged and in the order of the
    source, then end-of-stream. *)
Theorem selection_streams_selected_rows {Src} (next : srcExec Src)
    (e : selection.exec Src) (vs out : list Row) (s_end : Src) (fuel n : nat) :
  srcYields next (selection.src e) vs s_end ->
  next s_end = (OK None, s_end) ->
  selectedRows (selection.evalCtx e) (selection.relatedColOffsets e)
    (selection.conditions e) (selection.row e) vs = OK out ->
  (length vs < fuel)%nat ->
  selection_nextN next fuel n e =
  take n (((fun v => OK (Some v)) <$> out) ++ replicate n (OK None)).
Proof.
  intros Hy Hend Hsel Hf.
  assert (Hgo : forall n m e vs out, (n <= m)%nat ->
    srcYields next (selection.src e) vs s_end ->
    selectedRows (selection.evalCtx e) (selection.relatedColOffsets e)
      (selection.conditions e) (selection.row e) vs = OK out ->
    (length vs < fuel)%nat ->
    selection_nextN next fuel n e =
    take n (((fun v => OK (Some v)) <$> out) ++ replicate m (OK None))).
  { clear Hy Hsel Hf. clear e vs out n. intros n. induction n as [|n IH]; intros m e vs out Hm Hy Hsel Hf; [done|].
    cbn [selection_nextN].
    pose proof (selection_Next_step next vs _ s_end Hy e out fuel eq_refl Hsel Hf) as Hstep.
    destruct out as [|v out'].
    - destruct Hstep as (e' & -> & Hsrc & F1 & F2 & F3).
      destruct m as [|m]; [lia|]. cbn [fmap list_fmap app replicate take]. f_equal.
      apply (IH m e' [] []); [lia| | |cbn; lia].
      + rewrite Hsrc. by apply srcYields_end.
      + done.
    - destruct Hstep as (e' & vs' & -> & Hy' & Hsel' & Hlen & F1 & F2 & F3).
      cbn [fmap list_fmap app take]. f_equal.
      apply (IH m e' vs' out'); [lia|done| |lia].
      by rewrite F1, F2, F3. }
  by apply (Hgo n n e vs out).
Qed.

Lemma selection_streams_selected_rows_witness :
  selection_nextN listSrc 4 5
    (demoSelection [[Some [Byte.x01]; Some [NilFlag]];
                    [Some [Byte.x02]; Some [Byte.x03]];
                    [Some [Byte.x00]; Some [Byte.x03]]]) =
  take 5 (((fun v => OK (Some v)) <$> [[Some [Byte.x02]; Some [Byte.x03]]])
          ++ replicate 5 (OK None)).
Proof.
  apply (selection_streams_selected_rows listSrc _
           [[Some [Byte.x01]; Some [NilFlag]];
            [Some [Byte.x02]; Some [Byte.x03]];
            [Some [Byte.x00]; Some [Byte.x03]]] _ []).
  - apply listSrc_yields.
  - reflexivity.
  - reflexivity.
  - cbn. lia.
Defined.

(** ** Scans: locks ignored, ranges used up, counters reset *)

(** With [ignoreLock] set, no call of [Next] of either scan invokes
    [CheckRangeLock]: the store is called through the reader only. *)
Theorem scan_ignoreLock_never_checks (c : Codec) (n : nat) :
  (forall e : tableScan.exec, tableScan.ignoreLock e = true ->
     exists rest, tableScan.calls (nextN c n e) = tableScan.calls e ++ rest /\
                  Forall isReaderCall rest) /\
  (forall e : indexScan.exec, indexScan.ignoreLock e = true ->
     exists rest, indexScan.calls (nextN c n e) = indexScan.calls e ++ rest /\
                  Forall isReaderCall rest).
Proof.
  split; intros e Hi.
  - pose proof (ts_nextN_checked c n e (or_introl Hi)) as H.
    by destruct H as (_&_&_&_&_&_&_&_&_&_&_& H).
  - pose proof (is_nextN_checked c n e (or_introl Hi)) as H.
    by destruct H as (_&_&_&_&_&_&_&_&_&_&_&_& H).
Qed.

Lemma scan_ignoreLock_never_checks_witness :
  exists rest,
    tableScan.calls
      (nextN demoCodec 3
         (tableScan.set_lockChecked false
            (tableScan.mk false demoColumns demoColIDs
               [ {| StartKey := k1; EndKey := k9 |} ] 10 lockAtK5
               {| getDBReader := snapshotReader demoSnapshot |}
               0 0 [] None 0 None true false []))) = [] ++ rest /\
    Forall isReaderCall rest.
Proof.
  apply (proj1 (scan_ignoreLock_never_checks demoCodec 3)). reflexivity.
Defined.

Lemma ts_Next_exhausted_state c e :
  tableScan.ignoreLock e = true \/ tableScan.lockChecked e = true ->
  tableScan.rows e !! tableScan.rowCursor e = None ->
  tableScan.kvRanges e !! tableScan.rangeCursor e = None ->
  tableScan.Next c e = (OK None, tableScan.set_rows [] (tableScan.set_rowCursor 0 e)).
Proof.
  intros Hlock Hbuf Hran.
  rewrite ts_Next_checked by done. rewrite ts_Next_loop_eq, Hbuf. cbv zeta.
  apply lookup_ge_None in Hran.
  by replace (length (tableScan.kvRanges e) - tableScan.rangeCursor e)%nat
    with 0%nat by lia.
Qed.

Lemma is_Next_exhausted_state c e :
  indexScan.ignoreLock e = true \/ indexScan.lockChecked e = true ->
  indexScan.rows e !! indexScan.rowCursor e = None ->
  indexScan.kvRanges e !! indexScan.ranCursor e = None ->
  indexScan.Next c e = (OK None, indexScan.set_rows [] (indexScan.set_rowCursor 0 e)).
Proof.
  intros Hlock Hbuf Hran.
  rewrite is_Next_checked by done. rewrite is_Next_loop_eq, Hbuf. cbv zeta.
  apply lookup_ge_None in Hran.
  by replace (length (indexScan.kvRanges e) - indexScan.ranCursor e)%nat
    with 0%nat by lia.
Qed.

(** A scan whose buffer is used up and whose range cursor is past the
    last range stays there: however often [Next] is called, it returns
    end-of-stream and calls neither the lock check nor the reader. *)
Theorem scan_exhausted_stays_exhausted (c : Codec) (n : nat) :
  (forall e : tableScan.exec,
     tableScan.ignoreLock e = true \/ tableScan.lockChecked e = true ->
     tableScan.rows e !! tableScan.rowCursor e = None ->
     tableScan.kvRanges e !! tableScan.rangeCursor e = None ->
     nextResults c n e = replicate n (OK None) /\
     tableScan.calls (nextN c n e) = tableScan.calls e /\
     tableScan.rangeCursor (nextN c n e) = tableScan.rangeCursor e) /\
  (forall e : indexScan.exec,
     indexScan.ignoreLock e = true \/ indexScan.lockChecked e = true ->
     indexScan.rows e !! indexScan.rowCursor e = None ->
     indexScan.kvRanges e !! indexScan.ranCursor e = None ->
     nextResults c n e = replicate n (OK None) /\
     indexScan.calls (nextN c n e) = indexScan.calls e /\
     indexScan.ranCursor (nextN c n e) = indexScan.ranCursor e).
Proof.
  split.
  - induction n as [|n IH]; intros e Hlock Hbuf Hran; [done|].
    rewrite nextN_succ_r. cbn [nextResults].
    change (scanNext c e) with (tableScan.Next c e).
    rewrite (ts_Next_exhausted_state c e Hlock Hbuf Hran). cbn [snd replicate].
    destruct (IH (tableScan.set_rows [] (tableScan.set_rowCursor 0 e)))
      as (H1 & H2 & H3); [done..|].
    by rewrite H1, H2, H3.
  - induction n as [|n IH]; intros e Hlock Hbuf Hran; [done|].
    rewrite nextN_succ_r. cbn [nextResults].
    change (scanNext c e) with (indexScan.Next c e).
    rewrite (is_Next_exhausted_state c e Hlock Hbuf Hran). cbn [snd replicate].
    destruct (IH (indexScan.set_rows [] (indexScan.set_rowCursor 0 e)))
      as (H1 & H2 & H3); [done..|].
    by rewrite H1, H2, H3.
Qed.

Lemma scan_exhausted_stays_exhausted_witness :
  nextResults demoCodec 4 (tableScan.set_lockChecked true (demoTableScan noLocks demoSnapshot false [])) =
    replicate 4 (OK None) /\
  tableScan.calls (nextN demoCodec 4 (tableScan.set_lockChecked true (demoTableScan noLocks demoSnapshot false []))) =
    tableScan.calls (tableScan.set_lockChecked true (demoTableScan noLocks demoSnapshot false [])) /\
  tableScan.rangeCursor (nextN demoCodec 4 (tableScan.set_lockChecked true (demoTableScan noLocks demoSnapshot false []))) =
    tableScan.rangeCursor (tableScan.set_lockChecked true (demoTableScan noLocks demoSnapshot false [])).
Proof.
  apply (proj1 (scan_exhausted_stays_exhausted demoCodec 4)
           (tableScan.set_lockChecked true (demoTableScan noLocks demoSnapshot false []))).
  - by right.
  - reflexivity.
  - reflexivity.
Defined.

(** [ResetCounts] of a table scan that counts: with the range cursor
    on a range it moves [start] to the cursor and zeroes that counter,
    after which [Counts] is empty between ranges and the one zero
    inside a range; with the range cursor past the last counter it
    panics on the index. *)
Theorem tableScan_ResetCounts_then_Counts (e : tableScan.exec) (cs : list Z) :
  tableScan.counts e = Some cs ->
  ((tableScan.rangeCursor e < length cs)%nat ->
     exists e', tableScan.ResetCounts e = (OK tt, e') /\
       tableScan.start e' = tableScan.rangeCursor e /\
       tableScan.counts e' = Some (<[tableScan.rangeCursor e := 0]> cs) /\
       tableScan.Counts e' =
         OK (Some (match tableScan.seekKey e with None => [] | Some _ => [0] end))) /\
  ((length cs <= tableScan.rangeCursor e)%nat ->
     exists e', tableScan.ResetCounts e = (Err IndexOutOfRange, e')).
Proof.
  intros Hcs. unfold tableScan.ResetCounts. st_simpl. rewrite Hcs. cbn.
  unfold setIndex. split; intros Hlt.
  - rewrite decide_True by done. cbn. eexists. split; [reflexivity|].
    split; [done|]. split; [done|].
    unfold tableScan.Counts. cbn. unfold tableScan.slice.
    rewrite length_insert.
    destruct (tableScan.seekKey e); cbn.
    + rewrite decide_True by lia.
      replace (tableScan.rangeCursor e + 1 - tableScan.rangeCursor e)%nat with 1%nat by lia.
      destruct (lookup_lt_is_Some_2 cs _ Hlt) as [x Hx].
      rewrite (drop_S _ 0 (tableScan.rangeCursor e))
        by (rewrite list_lookup_insert_eq by done; done).
      done.
    + rewrite decide_True by lia. by rewrite Nat.sub_diag.
  - rewrite decide_False by lia. cbn. by eexists.
Qed.

Lemma tableScan_ResetCounts_then_Counts_witness :
  (exists e',
     tableScan.ResetCounts
       (tableScan.set_counts (Some [7; 7])
          (demoTableScan noLocks demoSnapshot false
             [ {| StartKey := k1; EndKey := k3 |}; {| StartKey := k5; EndKey := k9 |} ]))
     = (OK tt, e') /\
     tableScan.start e' = 0%nat /\
     tableScan.counts e' = Some (<[0%nat := 0]> [7; 7]) /\
     tableScan.Counts e' = OK (Some [])).
Proof.
  apply (proj1 (tableScan_ResetCounts_then_Counts
                  (tableScan.set_counts (Some [7; 7])
                     (demoTableScan noLocks demoSnapshot false
                        [ {| StartKey := k1; EndKey := k3 |};
                          {| StartKey := k5; EndKey := k9 |} ]))
                  [7; 7] eq_refl)).
  cbn. lia.
Defined.

(** The same for an index scan. *)
Theorem indexScan_ResetCounts_then_Counts (e : indexScan.exec) (cs : list Z) :
  indexScan.counts e = Some cs ->
  ((indexScan.ranCursor e < length cs)%nat ->
     exists e', indexScan.ResetCounts e = (OK tt, e') /\
       indexScan.start e' = indexScan.ranCursor e /\
       indexScan.counts e' = Some (<[indexScan.ranCursor e := 0]> cs) /\
       indexScan.Counts e' =
         OK (Some (match indexScan.seekKey e with None => [] | Some _ => [0] end))) /\
  ((length cs <= indexScan.ranCursor e)%nat ->
     exists e', indexScan.ResetCounts e = (Err IndexOutOfRange, e')).
Proof.
  intros Hcs. unfold indexScan.ResetCounts. st_simpl. rewrite Hcs. cbn.
  unfold setIndex. split; intros Hlt.
  - rewrite decide_True by done. cbn. eexists. split; [reflexivity|].
    split; [done|]. split; [done|].
    unfold indexScan.Counts. cbn. unfold tableScan.slice.
    rewrite length_insert.
    rewrite (bool_decide_eq_false_2 (indexScan.ranCursor e = length cs)) by lia.
    destruct (indexScan.seekKey e); cbn.
    + rewrite decide_True by lia.
      replace (indexScan.ranCursor e + 1 - indexScan.ranCursor e)%nat with 1%nat by lia.
      destruct (lookup_lt_is_Some_2 cs _ Hlt) as [x Hx].
      rewrite (drop_S _ 0 (indexScan.ranCursor e))
        by (rewrite list_lookup_insert_eq by done; done).
      done.
    + rewrite decide_True by lia. by rewrite Nat.sub_diag.
  - rewrite decide_False by lia. cbn. by eexists.
Qed.

Lemma indexScan_ResetCounts_then_Counts_witness :
  exists e',
    indexScan.ResetCounts
      (demoIndexScan noLocks demoIndexSnapshot false (Some true) []) =
    (Err IndexOutOfRange, e').
Proof.
  apply (proj2 (indexScan_ResetCounts_then_Counts
                  (demoIndexScan noLocks demoIndexSnapshot false (Some true) [])
                  [] eq_refl)).
  cbn. lia.
Defined.

(** ** Table scan: where the cursors stand *)

(** The range cursor is not past the end of the ranges, and a seek key
    is kept only inside a range that is read by scans; an empty seek
    key is the bound the scan of the range starts from. *)
Definition ts_cursorOK (e : tableScan.exec) : Prop :=
  (tableScan.rangeCursor e <= length (tableScan.kvRanges e))%nat /\
  forall k, tableScan.seekKey e = Some k ->
    exists ran, tableScan.kvRanges e !! tableScan.rangeCursor e = Some ran /\
                IsPoint ran = false /\
                (k = [] -> k = if tableScan.Desc e then EndKey ran else StartKey ran).

(** Only the buffer of rows differs. *)
Definition ts_rowsOnly (e e' : tableScan.exec) : Prop :=
  e' = tableScan.set_rows (tableScan.rows e') e.

Lemma ts_rowsOnly_refl e : ts_rowsOnly e e.
Proof. by destruct e. Qed.

Lemma ts_rowsOnly_trans e1 e2 e3 :
  ts_rowsOnly e1 e2 -> ts_rowsOnly e2 e3 -> ts_rowsOnly e1 e3.
Proof. unfold ts_rowsOnly. intros -> ->. by destruct e1. Qed.

Lemma ts_rowsOnly_scanVisit c limit pairs lk e r lk' e' :
  scanVisit (tableScan.scanFunc c) limit pairs (lk, e) = (r, (lk', e')) ->
  ts_rowsOnly e e'.
Proof.
  intros H.
  apply (preserves_scanVisit (fun s s' => ts_rowsOnly s.2 s'.2)
           (tableScan.scanFunc c) limit pairs) in H; [done| | |].
  - intros s. apply ts_rowsOnly_refl.
  - intros s1 s2 s3. apply ts_rowsOnly_trans.
  - intros k v [lk0 e0] r0 [lk1 e1] H0. unfold tableScan.scanFunc in H0. st_simpl.
    destruct (decodeRowKey c k) as [h|er]; simpl in H0.
    + destruct (getRowData c _ _ h _) as [row|er]; simpl in H0;
        injection H0 as _ _ <-; by destruct e0.
    + injection H0 as _ _ <-. by destruct e0.
Qed.

Lemma PrefixNext_not_nil (k : bytes) : PrefixNext k <> [].
Proof.
  intros H. pose proof (PrefixNext_gt k) as Hlt. rewrite H in Hlt.
  unfold key_lt in Hlt. by destruct k.
Qed.

Lemma prefixPrev_not_nil (k p : bytes) : prefixPrev k = Some p -> p <> [].
Proof.
  intros H ->. destruct k as [|b k]; [done|].
  unfold prefixPrev in H. rewrite <- (app_nil_r (b :: k)) in H at 1.
  apply prefixPrev_loop_lt in H as (p' & Hp & Hl & _).
  destruct p'; [discriminate Hl|done].
Qed.

(** The positions after [fillRowsFromPoint]: those before it. *)
Lemma ts_fillRowsFromPoint_pos c ran e r e' :
  tableScan.fillRowsFromPoint c ran e = (r, e') ->
  tableScan.rangeCursor e' = tableScan.rangeCursor e /\
  tableScan.seekKey e' = tableScan.seekKey e /\
  tableScan.kvRanges e' = tableScan.kvRanges e /\
  tableScan.Desc e' = tableScan.Desc e.
Proof.
  unfold tableScan.fillRowsFromPoint. st_simpl. intros H.
  destruct (Get _ _ _) as [val|er]; simpl in H; [|by injection H as _ <-].
  destruct (decide _); [by injection H as _ <-|].
  destruct (decodeRowKey c _) as [h|er]; simpl in H; [|by injection H as _ <-].
  destruct (getRowData c _ _ h val) as [row|er]; simpl in H; by injection H as _ <-.
Qed.

Lemma ts_fillRowsFromRange_pos c ran e r e' :
  tableScan.kvRanges e !! tableScan.rangeCursor e = Some ran ->
  IsPoint ran = false ->
  ts_cursorOK e ->
  tableScan.fillRowsFromRange c ran e = (r, e') ->
  tableScan.rangeCursor e' = tableScan.rangeCursor e /\
  tableScan.kvRanges e' = tableScan.kvRanges e /\
  tableScan.Desc e' = tableScan.Desc e /\
  ts_cursorOK e'.
Proof.
  intros Hran Hpt [Hle Hseek]. rewrite ts_fillRowsFromRange_eq. cbv zeta.
  set (seek := default (if tableScan.Desc e then EndKey ran else StartKey ran)
                 (tableScan.seekKey e)).
  assert (Hseek0 : seek = [] -> seek = if tableScan.Desc e then EndKey ran else StartKey ran).
  { unfold seek. destruct (tableScan.seekKey e) as [k|] eqn:Ek; cbn; [|done].
    destruct (Hseek k eq_refl) as (ran' & Hran' & _ & Hk).
    rewrite Hran in Hran'. by injection Hran' as <-. }
  destruct (scanVisit _ _ _ _) as [res [lk e1]] eqn:Ev.
  apply ts_rowsOnly_scanVisit in Ev. unfold ts_rowsOnly in Ev.
  assert (Hok : forall sk, (forall k, sk = Some k -> k = [] ->
                   k = if tableScan.Desc e then EndKey ran else StartKey ran) ->
            let e2 := tableScan.set_seekKey sk e1 in
            tableScan.rangeCursor e2 = tableScan.rangeCursor e /\
            tableScan.kvRanges e2 = tableScan.kvRanges e /\
            tableScan.Desc e2 = tableScan.Desc e /\ ts_cursorOK e2).
  { intros sk Hsk. rewrite Ev. cbn. split; [done|]. split; [done|]. split; [done|].
    split; [done|]. cbn. intros k Hk. exists ran. split; [done|]. split; [done|].
    by apply Hsk. }
  assert (Hsame : e1 = tableScan.set_seekKey (Some seek) e1).
  { rewrite Ev. by destruct e. }
  destruct res as [[]|er]; [destruct lk as [lk|]|].
  - intros [= _ <-]. apply Hok. intros k Hk Hnil. exfalso.
    destruct (tableScan.Desc e).
    + by apply prefixPrev_not_nil in Hk.
    + injection Hk as <-. by apply PrefixNext_not_nil in Hnil.
  - intros [= _ <-]. rewrite Hsame. apply Hok. intros k [= <-]. done.
  - intros [= _ <-]. rewrite Hsame. apply Hok. intros k [= <-]. done.
Qed.

(** The cursors after a step: still in place, the range cursor not
    moved back, over the same ranges in the same direction. *)
Definition ts_posStep (e e' : tableScan.exec) : Prop :=
  ts_cursorOK e' /\
  (tableScan.rangeCursor e <= tableScan.rangeCursor e')%nat /\
  tableScan.kvRanges e' = tableScan.kvRanges e /\
  tableScan.Desc e' = tableScan.Desc e.

Lemma ts_posStep_refl e : ts_cursorOK e -> ts_posStep e e.
Proof. intros H. split; [exact H|split; [lia|split; reflexivity]]. Qed.

Lemma ts_posStep_trans e1 e2 e3 : ts_posStep e1 e2 -> ts_posStep e2 e3 -> ts_posStep e1 e3.
Proof.
  intros (_ & H1 & H2 & H3) (K0 & K1 & K2 & K3).
  split; [done|]. split; [lia|]. split; congruence.
Qed.

Lemma ts_cursorOK_nextRange e ran :
  tableScan.kvRanges e !! tableScan.rangeCursor e = Some ran ->
  ts_posStep e (ts_nextRange e).
Proof.
  intros Hran. apply lookup_lt_Some in Hran. unfold ts_nextRange.
  split; [|split; [cbn; lia|by split]].
  split; [cbn; lia|]. intros k Hk. by cbn in Hk.
Qed.

Lemma ts_cursorOK_same (e e' : tableScan.exec) :
  tableScan.rangeCursor e' = tableScan.rangeCursor e ->
  tableScan.seekKey e' = tableScan.seekKey e ->
  tableScan.kvRanges e' = tableScan.kvRanges e ->
  tableScan.Desc e' = tableScan.Desc e ->
  ts_cursorOK e -> ts_posStep e e'.
Proof.
  intros H1 H2 H3 H4 [Hle Hk]. split; [|split; [lia|by split]].
  split; [by rewrite H1, H3|]. rewrite H1, H2, H3, H4. done.
Qed.

Lemma ts_fillRows_loop_pos c fuel : forall e r e',
  ts_cursorOK e ->
  tableScan.fillRows_loop c fuel e = (r, e') -> ts_posStep e e'.
Proof.
  induction fuel as [|fuel IH]; intros e r e' Hok H.
  { injection H as _ <-. by apply ts_posStep_refl. }
  rewrite ts_fillRows_loop_eq in H.
  destruct (tableScan.kvRanges e !! tableScan.rangeCursor e) as [ran|] eqn:Hran;
    [|injection H as _ <-; by apply ts_posStep_refl].
  assert (Hstep : forall err e1,
            (if IsPoint ran then
               let '(r1, e1) := tableScan.fillRowsFromPoint c ran e in (r1, ts_nextRange e1)
             else
               let '(r1, e1) := tableScan.fillRowsFromRange c ran e in
               (r1, if bool_decide (length (tableScan.rows e1) = 0)%nat
                    then ts_nextRange e1 else e1)) = (err, e1) ->
            ts_posStep e e1).
  { clear H IH. intros err e1 E. destruct (IsPoint ran) eqn:Hpt.
    - destruct (tableScan.fillRowsFromPoint c ran e) as [r1 e0] eqn:Ep.
      injection E as _ <-.
      apply ts_fillRowsFromPoint_pos in Ep as (P1 & P2 & P3 & P4).
      eapply ts_posStep_trans; [by apply (ts_cursorOK_same e e0)|].
      apply (ts_cursorOK_nextRange e0 ran). by rewrite P1, P3.
    - destruct (tableScan.fillRowsFromRange c ran e) as [r1 e0] eqn:Er.
      injection E as _ <-.
      apply (ts_fillRowsFromRange_pos c ran e r1 e0 Hran Hpt Hok) in Er
        as (P1 & P3 & P4 & Hok0).
      assert (Hs0 : ts_posStep e e0) by (split; [done|split; [lia|by split]]).
      destruct (bool_decide _); [|exact Hs0].
      eapply ts_posStep_trans; [exact Hs0|].
      apply (ts_cursorOK_nextRange e0 ran). by rewrite P1, P3. }
  destruct (if IsPoint ran then _ else _) as [err e1] eqn:E.
  pose proof (Hstep err e1 eq_refl) as Hs1.
  destruct err as [[]|er]; [|injection H as _ <-; done].
  case_bool_decide; [injection H as _ <-; done|].
  eapply ts_posStep_trans; [exact Hs1|]. eapply IH; [apply Hs1|exact H].
Qed.

Lemma ts_Next_loop_pos c fuel : forall e r e',
  ts_cursorOK e ->
  tableScan.Next_loop c fuel e = (r, e') -> ts_posStep e e'.
Proof.
  induction fuel as [|fuel IH]; intros e r e' Hok H.
  { injection H as _ <-. by apply ts_posStep_refl. }
  rewrite ts_Next_loop_eq in H.
  destruct (tableScan.rows e !! tableScan.rowCursor e) as [value|].
  { injection H as _ <-. by apply ts_cursorOK_same. }
  cbv zeta in H.
  set (e0 := tableScan.set_rows [] (tableScan.set_rowCursor 0 e)) in *.
  assert (Hs0 : ts_posStep e e0) by by apply ts_cursorOK_same.
  destruct (tableScan.fillRows_loop c _ e0) as [r1 e1] eqn:E1.
  apply ts_fillRows_loop_pos in E1; [|apply Hs0].
  assert (Hs1 : ts_posStep e e1) by by eapply ts_posStep_trans.
  destruct r1 as [[]|er]; [|injection H as _ <-; done].
  case_bool_decide; [injection H as _ <-; done|].
  eapply ts_posStep_trans; [exact Hs1|]. eapply IH; [apply Hs1|exact H].
Qed.

Lemma ts_logs_pos xs e :
  let e' := ts_logs xs e in
  tableScan.rangeCursor e' = tableScan.rangeCursor e /\
  tableScan.seekKey e' = tableScan.seekKey e /\
  tableScan.kvRanges e' = tableScan.kvRanges e /\
  tableScan.Desc e' = tableScan.Desc e.
Proof.
  unfold ts_logs. revert e.
  induction xs as [|x xs IH]; intros e; simpl; [done|].
  apply (IH (tableScan.log x e)).
Qed.

Lemma ts_Next_pos c e r e' :
  ts_cursorOK e -> tableScan.Next c e = (r, e') -> ts_posStep e e'.
Proof.
  intros Hok H.
  destruct (tableScan.ignoreLock e) eqn:Hi.
  { rewrite ts_Next_checked in H by (by left). by eapply ts_Next_loop_pos. }
  destruct (tableScan.lockChecked e) eqn:Hl.
  { rewrite ts_Next_checked in H by (by right). by eapply ts_Next_loop_pos. }
  rewrite ts_Next_unchecked in H by done. cbv zeta in H.
  set (e1 := ts_logs _ e) in *.
  pose proof (ts_logs_pos
    (checkCallOf (tableScan.startTS e) <$>
       (lockPass (tableScan.mvccStore e) (tableScan.startTS e) (tableScan.kvRanges e)).1) e)
    as (P1 & P2 & P3 & P4). fold e1 in P1, P2, P3, P4.
  assert (Hs1 : ts_posStep e e1) by by apply ts_cursorOK_same.
  destruct (lockPass _ _ _).2; [injection H as _ <-; done|].
  assert (Hs2 : ts_posStep e (tableScan.set_lockChecked true e1)) by by apply ts_cursorOK_same.
  eapply ts_posStep_trans; [exact Hs2|]. eapply ts_Next_loop_pos; [apply Hs2|exact H].
Qed.

Lemma ts_nextN_pos c n e : ts_cursorOK e -> ts_posStep e (nextN c n e).
Proof.
  intros Hok. induction n as [|n IH]; [by apply ts_posStep_refl|].
  change (nextN c (S n) e) with (tableScan.Next c (nextN c n e)).2.
  destruct (tableScan.Next c (nextN c n e)) as [r e'] eqn:E.
  eapply ts_posStep_trans; [exact IH|]. eapply ts_Next_pos; [apply IH|exact E].
Qed.

Lemma ts_nextN_cursor_bounds c n e :
  ts_cursorOK e ->
  (tableScan.rangeCursor e <= tableScan.rangeCursor (nextN c n e)
     <= length (tableScan.kvRanges e))%nat /\
  (tableScan.seekKey (nextN c n e) <> None ->
     (tableScan.rangeCursor (nextN c n e) < length (tableScan.kvRanges e))%nat).
Proof.
  intros Hok. destruct (ts_nextN_pos c n e Hok) as ([Hle Hk] & Hmono & Hr & _).
  rewrite Hr in Hle. split; [lia|].
  intros Hsk. destruct (tableScan.seekKey (nextN c n e)) as [k|] eqn:Ek; [|done].
  destruct (Hk k eq_refl) as (ran & Hran & _).
  apply lookup_lt_Some in Hran. by rewrite Hr in Hran.
Qed.

(** A table scan whose range cursor is within the ranges and that
    keeps a seek key only inside a range read by scans, as a fresh scan
    does, stays so through every call of [Next], whatever it returns;
    the range cursor never moves back and never passes the end of the
    ranges. *)
Theorem tableScan_Next_keeps_cursors (c : Codec) (n : nat) (e : tableScan.exec) :
  ts_cursorOK e ->
  ts_cursorOK (nextN c n e) /\
  (tableScan.rangeCursor e <= tableScan.rangeCursor (nextN c n e)
     <= length (tableScan.kvRanges e))%nat /\
  (tableScan.seekKey (nextN c n e) <> None ->
     (tableScan.rangeCursor (nextN c n e) < length (tableScan.kvRanges e))%nat).
Proof.
  intros Hok. split; [apply (ts_nextN_pos c n e Hok)|].
  by apply ts_nextN_cursor_bounds.
Qed.

Lemma tableScan_Next_keeps_cursors_witness :
  let e := demoTableScan noLocks demoSnapshot true
             [ {| StartKey := k1; EndKey := k3 |}; {| StartKey := k5; EndKey := k9 |} ] in
  ts_cursorOK (nextN demoCodec 3 e) /\
  (tableScan.rangeCursor e <= tableScan.rangeCursor (nextN demoCodec 3 e)
     <= length (tableScan.kvRanges e))%nat /\
  (tableScan.seekKey (nextN demoCodec 3 e) <> None ->
     (tableScan.rangeCursor (nextN demoCodec 3 e) < length (tableScan.kvRanges e))%nat).
Proof.
  apply (tableScan_Next_keeps_cursors demoCodec 3).
  split; [cbn; lia|]. intros k Hk. discriminate Hk.
Defined.

Lemma ts_nextN_keeps_counts c n e :
  tableScan.counts (nextN c n e) = tableScan.counts e /\
  tableScan.start (nextN c n e) = tableScan.start e.
Proof.
  induction n as [|n [IH1 IH2]]; [done|].
  change (nextN c (S n) e) with (tableScan.Next c (nextN c n e)).2.
  destruct (tableScan.Next c (nextN c n e)) as [r e'] eqn:E.
  apply ts_Next_keeps_counts in E as [E1 E2]. cbn [snd]. by rewrite E1, E2.
Qed.

(** [Counts] of a table scan with one counter per range never panics:
    after any number of calls of [Next] on a scan whose cursors are in
    place it returns the counters from [start] to the range cursor, the
    one under the cursor included while a seek key is kept. *)
Theorem tableScan_Counts_in_bounds (c : Codec) (n : nat) (e : tableScan.exec)
    (cs : list Z) :
  ts_cursorOK e ->
  (tableScan.start e <= tableScan.rangeCursor e)%nat ->
  tableScan.counts e = Some cs ->
  length cs = length (tableScan.kvRanges e) ->
  let e' := nextN c n e in
  let hi := match tableScan.seekKey e' with
            | None => tableScan.rangeCursor e'
            | Some _ => S (tableScan.rangeCursor e')
            end in
  tableScan.Counts e' = OK (Some (take (hi - tableScan.start e) (drop (tableScan.start e) cs))) /\
  (tableScan.start e <= hi <= length cs)%nat.
Proof.
  intros Hok Hstart Hcs Hlen. cbv zeta.
  destruct (ts_nextN_cursor_bounds c n e Hok) as (Hmono & Hsk).
  destruct (ts_nextN_keeps_counts c n e) as [Hc Hs].
  unfold tableScan.Counts. rewrite Hc, Hcs, Hs. unfold tableScan.slice.
  destruct (tableScan.seekKey (nextN c n e)); cbn.
  - specialize (Hsk ltac:(done)).
    rewrite Nat.add_1_r. rewrite decide_True by lia. split; [done|lia].
  - rewrite decide_True by lia. split; [done|lia].
Qed.

Lemma tableScan_Counts_in_bounds_witness :
  let e := demoTableScan noLocks demoSnapshot false
             [ {| StartKey := k1; EndKey := k3 |}; {| StartKey := k5; EndKey := k9 |} ] in
  let e' := nextN demoCodec 5 e in
  let hi := match tableScan.seekKey e' with
            | None => tableScan.rangeCursor e'
            | Some _ => S (tableScan.rangeCursor e')
            end in
  tableScan.Counts e' = OK (Some (take (hi - 0) (drop 0 [0; 0]))) /\
  (0 <= hi <= 2)%nat.
Proof.
  apply (tableScan_Counts_in_bounds demoCodec 5
           (demoTableScan noLocks demoSnapshot false
              [ {| StartKey := k1; EndKey := k3 |}; {| StartKey := k5; EndKey := k9 |} ])
           [0; 0]).
  - split; [cbn; lia|]. intros k Hk. discriminate Hk.
  - cbn. lia.
  - reflexivity.
  - reflexivity.
Defined.

(** ** [Cursor]: the key the next [Next] reads from *)

(** With the buffer used up and a range under the range cursor,
    [Cursor] of a table scan returns the key at which the next call of
    [Next] first calls the reader: the key of the [Get] on a point
    range, the start of the [Scan] or the end of the [ReverseScan]
    otherwise. *)
Theorem tableScan_Cursor_is_next_read (c : Codec) (e : tableScan.exec) (ran : KeyRange) :
  ts_cursorOK e ->
  tableScan.ignoreLock e = true \/ tableScan.lockChecked e = true ->
  drop (tableScan.rowCursor e) (tableScan.rows e) = [] ->
  tableScan.kvRanges e !! tableScan.rangeCursor e = Some ran ->
  exists k rest,
    tableScanExec.Cursor e = OK (k, tableScan.Desc e) /\
    tableScan.calls (tableScan.Next c e).2 =
      tableScan.calls e ++
      readFrom (IsPoint ran) (tableScan.Desc e) (tableScan.startTS e) ran k :: rest.
Proof.
  intros [_ Hseek] Hlock Hbuf Hran.
  destruct (ts_Next_first_call c e ran Hlock Hbuf Hran) as [rest Hrest].
  unfold pathCall in Hrest.
  cbn [scanPointPath scanTS scanDesc scanSeekKey tableScan_ScanExec] in Hrest.
  unfold tableScanExec.Cursor, readFrom. cbv zeta. rewrite Hran.
  destruct (tableScan.seekKey e) as [k|] eqn:Ek; cbn [default from_option id] in *.
  - destruct (Hseek k eq_refl) as (ran' & Hran' & Hpt & Hnil).
    rewrite Hran in Hran'. injection Hran' as <-. rewrite Hpt in *.
    destruct k as [|b k].
    + rewrite bool_decide_eq_false_2 by (cbn; lia). specialize (Hnil eq_refl).
      rewrite Hnil in Hrest.
      destruct (tableScan.Desc e); eexists _, rest; (split; [reflexivity|exact Hrest]).
    + rewrite bool_decide_eq_true_2 by (cbn; lia).
      eexists _, rest. split; [reflexivity|exact Hrest].
  - rewrite bool_decide_eq_false_2 by (cbn; lia).
    destruct (IsPoint ran); [eexists _, rest; (split; [reflexivity|exact Hrest])|].
    destruct (tableScan.Desc e); eexists _, rest; (split; [reflexivity|exact Hrest]).
Qed.

Lemma tableScan_Cursor_is_next_read_witness :
  let e := tableScan.set_lockChecked true
             (demoTableScan noLocks demoSnapshot true
                [ {| StartKey := k5; EndKey := k9 |} ]) in
  exists k rest,
    tableScanExec.Cursor e = OK (k, true) /\
    tableScan.calls (tableScan.Next demoCodec e).2 =
      [] ++ readFrom false true 100 {| StartKey := k5; EndKey := k9 |} k :: rest.
Proof.
  apply (tableScan_Cursor_is_next_read demoCodec
           (tableScan.set_lockChecked true
              (demoTableScan noLocks demoSnapshot true
                 [ {| StartKey := k5; EndKey := k9 |} ]))
           {| StartKey := k5; EndKey := k9 |}).
  - split; [cbn; lia|]. intros k Hk. discriminate Hk.
  - by right.
  - reflexivity.
  - reflexivity.
Defined.

(** Past the last range and with no seek key, [Cursor] of either scan
    returns the bound of the last range the scan ended at: its end for
    an ascending scan, its start for a descending one.  On a scan with
    no range at all it panics on the index. *)
Theorem scan_Cursor_past_ranges :
  (forall e : tableScan.exec,
     tableScan.seekKey e = None ->
     tableScan.kvRanges e !! tableScan.rangeCursor e = None ->
     tableScanExec.Cursor e =
     match last (tableScan.kvRanges e) with
     | Some ran => OK (if tableScan.Desc e then StartKey ran else EndKey ran,
                       tableScan.Desc e)
     | None => Err IndexOutOfRange
     end) /\
  (forall e : indexScan.exec,
     indexScan.seekKey e = None ->
     indexScan.kvRanges e !! indexScan.ranCursor e = None ->
     indexScanExec.Cursor e =
     match last (indexScan.kvRanges e) with
     | Some ran => OK (if indexScan.Desc e then StartKey ran else EndKey ran,
                       indexScan.Desc e)
     | None => Err IndexOutOfRange
     end).
Proof.
  split; intros e Hsk Hran.
  - unfold tableScanExec.Cursor. rewrite Hsk, Hran. cbn.
    rewrite last_lookup.
    destruct (length (tableScan.kvRanges e)) as [|i] eqn:El.
    + apply length_zero_iff_nil in El. by rewrite El.
    + cbn [pred]. unfold getIndex.
      destruct (lookup_lt_is_Some_2 (tableScan.kvRanges e) i ltac:(lia)) as [ran Hr].
      rewrite Hr. cbn. by destruct (tableScan.Desc e).
  - unfold indexScanExec.Cursor. rewrite Hsk, Hran. cbn.
    rewrite last_lookup.
    destruct (length (indexScan.kvRanges e)) as [|i] eqn:El.
    + apply length_zero_iff_nil in El. by rewrite El.
    + cbn [pred]. unfold getIndex.
      destruct (lookup_lt_is_Some_2 (indexScan.kvRanges e) i ltac:(lia)) as [ran Hr].
      rewrite Hr. cbn. by destruct (indexScan.Desc e).
Qed.

Lemma scan_Cursor_past_ranges_witness :
  tableScanExec.Cursor (demoTableScan noLocks demoSnapshot false []) =
    Err IndexOutOfRange.
Proof.
  apply (proj1 scan_Cursor_past_ranges (demoTableScan noLocks demoSnapshot false []));
    reflexivity.
Defined.

(** Between ranges, with the buffer used up and a range under the
    range cursor, [Cursor] of an index scan returns the key at which
    the next call of [Next] first calls the reader. *)
Theorem indexScan_Cursor_is_next_read (c : Codec) (e : indexScan.exec) (ran : KeyRange) :
  indexScan.seekKey e = None ->
  indexScan.ignoreLock e = true \/ indexScan.lockChecked e = true ->
  drop (indexScan.rowCursor e) (indexScan.rows e) = [] ->
  indexScan.kvRanges e !! indexScan.ranCursor e = Some ran ->
  exists k rest,
    indexScanExec.Cursor e = OK (k, indexScan.Desc e) /\
    indexScan.calls (indexScan.Next c e).2 =
      indexScan.calls e ++
      readFrom (indexScan.isUnique e && IsPoint ran) (indexScan.Desc e)
        (indexScan.startTS e) ran k :: rest.
Proof.
  intros Hsk Hlock Hbuf Hran.
  destruct (is_Next_first_call c e ran Hlock Hbuf Hran) as [rest Hrest].
  unfold pathCall in Hrest.
  cbn [scanPointPath scanTS scanDesc scanSeekKey indexScan_ScanExec] in Hrest.
  unfold indexScanExec.Cursor, readFrom. cbv zeta. rewrite Hran, Hsk in *.
  cbn [default from_option id] in *.
  rewrite bool_decide_eq_false_2 by (cbn; lia).
  destruct (indexScan.isUnique e && IsPoint ran);
    [eexists _, rest; (split; [reflexivity|exact Hrest])|].
  destruct (indexScan.Desc e); eexists _, rest; (split; [reflexivity|exact Hrest]).
Qed.

Lemma indexScan_Cursor_is_next_read_witness :
  let e := indexScan.set_lockChecked true
             (demoIndexScan noLocks demoIndexSnapshot true (Some false)
                [ {| StartKey := i5; EndKey := PrefixNext i5 |} ]) in
  exists k rest,
    indexScanExec.Cursor e = OK (k, true) /\
    indexScan.calls (indexScan.Next demoCodec e).2 =
      [] ++ readFrom false true 100 {| StartKey := i5; EndKey := PrefixNext i5 |} k :: rest.
Proof.
  apply (indexScan_Cursor_is_next_read demoCodec
           (indexScan.set_lockChecked true
              (demoIndexScan noLocks demoIndexSnapshot true (Some false)
                 [ {| StartKey := i5; EndKey := PrefixNext i5 |} ]))
           {| StartKey := i5; EndKey := PrefixNext i5 |}).
  - reflexivity.
  - by right.
  - reflexivity.
  - reflexivity.
Defined.

(** ** Selection: errors *)

(** [evalBool] fails exactly when a condition fails, in its evaluation
    or in the coercion of its value to a boolean, after conditions that
    all pass; the error is that of the condition. *)
Lemma evalBool_loop_error_iff ctx conds chk er :
  selection.evalBool_loop ctx conds chk = Err er <->
  exists pre expr post, conds = pre ++ expr :: post /\
    Forall (condPasses ctx chk) pre /\
    (Eval expr chk = Err er \/
     exists d, Eval expr chk = OK d /\ IsNull d = false /\ ToBool ctx d = Err er).
Proof.
  induction conds as [|expr conds IH]; simpl.
  - split; [done|]. intros (pre & expr & post & E & _). by destruct pre.
  - split.
    + intros H. destruct (Eval expr chk) as [d|er'] eqn:Hd; simpl in H.
      2:{ injection H as ->. exists [], expr, conds. split; [done|].
          split; [constructor|]. by left. }
      destruct (IsNull d) eqn:Hn; [done|].
      destruct (ToBool ctx d) as [z|er'] eqn:Hz; simpl in H.
      2:{ injection H as ->. exists [], expr, conds. split; [done|].
          split; [constructor|]. right. by exists d. }
      destruct (z =? 0) eqn:Hz0; [done|].
      apply IH in H as (pre & expr' & post & -> & Hpre & Herr).
      exists (expr :: pre), expr', post. split; [done|]. split; [|done].
      constructor; [|done]. exists d, z. repeat split; try done. by apply Z.eqb_neq.
    + intros (pre & expr' & post & E & Hpre & Herr).
      destruct pre as [|expr0 pre]; simpl in E; injection E as <- ->.
      * destruct Herr as [Hd|(d & Hd & Hn & Hz)]; rewrite Hd; simpl; [done|].
        by rewrite Hn, Hz.
      * apply Forall_cons in Hpre as [(d & z & Hd & Hn & Hz & Hnz) Hpre].
        rewrite Hd. simpl. rewrite Hn, Hz. simpl.
        apply Z.eqb_neq in Hnz. rewrite Hnz.
        apply IH. by exists pre, expr', post.
Qed.

(** An error of the source, of the decoding of the related columns or
    of a condition comes out of [Next] as it is; in the last two cases
    the row is consumed, so that the next call goes on with the row
    after it.  A condition fails only after conditions that all pass:
    a row that an earlier condition rejects is dropped without error. *)
Theorem selection_Next_errors {Src} (next : srcExec Src) (fuel : nat)
    (e : selection.exec Src) :
  (forall er s', next (selection.src e) = (Err er, s') ->
     selection.Next next (S fuel) e = Some (Err er, selection.set_src s' e)) /\
  (forall v s' er r,
     next (selection.src e) = (OK (Some v), s') ->
     decodeRelatedColumnVals (selection.evalCtx e) (selection.relatedColOffsets e) v
       (selection.row e) = (Err er, r) ->
     selection.Next next (S fuel) e =
       Some (Err er, selection.set_row r (selection.set_src s' e))) /\
  (forall v s' r pre expr post er,
     next (selection.src e) = (OK (Some v), s') ->
     decodeRelatedColumnVals (selection.evalCtx e) (selection.relatedColOffsets e) v
       (selection.row e) = (OK tt, r) ->
     selection.conditions e = pre ++ expr :: post ->
     Forall (condPasses (selection.evalCtx e) r) pre ->
     (Eval expr r = Err er \/
      exists d, Eval expr r = OK d /\ IsNull d = false /\
                ToBool (selection.evalCtx e) d = Err er) ->
     selection.Next next (S fuel) e = Some (Err er, afterEval e s' r)).
Proof.
  split; [|split].
  - intros er s' Hn. unfold selection.Next. cbn [selection.Next_loop]. by rewrite Hn.
  - intros v s' er r Hn Hdec. unfold selection.Next. cbn [selection.Next_loop].
    rewrite Hn. cbn. by rewrite Hdec.
  - intros v s' r pre expr post er Hn Hdec Hconds Hpre Herr.
    rewrite (selection_Next_pull next fuel e v s' r Hn Hdec).
    assert (Hev : selection.evalBool_loop (selection.evalCtx e) (selection.conditions e) r
                  = Err er).
    { apply evalBool_loop_error_iff. by exists pre, expr, post. }
    by rewrite Hev.
Qed.

Lemma selection_Next_errors_witness :
  selection.Next listSrc 1
    (selection.mk [colExpr 0] [0%nat; 5%nat] [DNull; DNull] None demoEvalCtx
       [[Some [Byte.x01]; Some [Byte.x02]]]) =
  Some (Err IndexOutOfRange,
        selection.set_row [DInt 1; DNull]
          (selection.set_src []
             (selection.mk [colExpr 0] [0%nat; 5%nat] [DNull; DNull] None demoEvalCtx
                [[Some [Byte.x01]; Some [Byte.x02]]]))).
Proof.
  apply (proj1 (proj2 (selection_Next_errors listSrc 0
           (selection.mk [colExpr 0] [0%nat; 5%nat] [DNull; DNull] None demoEvalCtx
              [[Some [Byte.x01]; Some [Byte.x02]]])))
           [Some [Byte.x01]; Some [Byte.x02]] [] IndexOutOfRange [DInt 1; DNull]).
  - reflexivity.
  - reflexivity.
Defined.

(** ** Top-N: errors while draining *)

Lemma tryToAddRow_fields cmp mem p t :
  topN.err (topN.tryToAddRow cmp mem p t).2 = topN.err t /\
  topN.orderByItems (topN.tryToAddRow cmp mem p t).2 = topN.orderByItems t /\
  topN.totalCount (topN.tryToAddRow cmp mem p t).2 = topN.totalCount t.
Proof.
  unfold topN.tryToAddRow. cbv zeta. case_bool_decide; [done|].
  destruct (topN.rows t !! 0%nat); [|done]. by destruct (topN.heapLess _ _ _ _ _).
Qed.

(** [evalTopN] returns without error on a row whose related columns
    decode and whose ordering keys evaluate. *)
Lemma evalTopN_ok {Src} (e : topN.exec Src) (v : Row) (r' k : list Datum) :
  decodeRelatedColumnVals (topN.evalCtx e) (topN.relatedColOffsets e) v (topN.row e)
    = (OK tt, r') ->
  topN.evalKey (topN.orderByExprs e) 0 r' (replicate (length v) DNull) = OK k ->
  topN.err (topN.heap e) = None ->
  exists e', topN.evalTopN v e = (OK tt, e') /\
    topN.err (topN.heap e') = None /\
    topN_frame e e' /\ topN.row e' = r' /\ topN.src e' = topN.src e /\
    length (topN.mem e') = S (length (topN.mem e)).
Proof.
  intros Hdec Hkey Herr.
  destruct e as [t mem ctx offs exprs r chk cur ex s]. cbn in *.
  unfold topN.evalTopN. st_simpl. rewrite Hdec.
  cbn [topN.set_row topN.set_mem topN.orderByExprs topN.row topN.mem topN.evalCtx
       topN.heap topN.chkRow topN.relatedColOffsets topN.cursor topN.executed topN.src].
  rewrite keyAt_last. cbn [key]. rewrite Hkey, alter_last. cbn [data].
  pose proof (tryToAddRow_fields (CompareDatum ctx)
                (mem ++ [{| key := k; data := [] |}]) (length mem) t) as (E1 & E2 & E3).
  destruct (topN.tryToAddRow _ _ _ _) as [ok t0]. cbn [snd] in *.
  destruct ok;
    cbn [topN.set_heap topN.set_mem topN.set_chkRow topN.orderByExprs topN.row topN.mem
         topN.evalCtx topN.heap topN.chkRow topN.relatedColOffsets topN.cursor
         topN.executed topN.src];
    rewrite ?alter_last, E1, Herr; eexists; (split; [reflexivity|]);
    unfold topN_frame; cbn; rewrite !length_app; cbn; rewrite Nat.add_1_r.
  all: (split; [congruence|]); by repeat split.
Qed.

(** When the source fails after the rows [vs], the first [Next]
    returns the error of the source with the source as the failure
    left it; the executor is not marked as executed and nothing of the
    heap is emitted, the rows pulled so far being kept. *)
Theorem topN_source_error_surfaces {Src} (next : srcExec Src) (e : topN.exec Src)
    (vs : list Row) (er : error) (s' : Src) (srs : list sortRow) (fuel : nat) :
  topN.executed e = false ->
  topN.err (topN.heap e) = None ->
  srcFails next (topN.src e) vs er s' ->
  referenceRows (topN.evalCtx e) (topN.relatedColOffsets e) (topN.orderByExprs e)
    (topN.row e) vs = OK srs ->
  (length vs < fuel)%nat ->
  exists e',
    topN.Next next fuel e = Some (Err er, e') /\
    topN.src e' = s' /\ topN.executed e' = false /\
    topN.cursor e' = topN.cursor e /\
    length (topN.mem e') = (length (topN.mem e) + length vs)%nat.
Proof.
  intros Hex Herr Hf Href Hfuel.
  assert (Hd : exists e',
            topN.drain next fuel e = Some (Err er, e') /\
            topN.src e' = s' /\ topN_frame e e' /\
            length (topN.mem e') = (length (topN.mem e) + length vs)%nat).
  { clear Hex. remember (topN.src e) as s eqn:Hs.
    revert e srs fuel Hs Herr Href Hfuel.
    induction Hf as [s er s' Hn|s v s1 vs er s' Hn Hf IH];
      intros e srs fuel Hs Herr Href Hfuel;
      (destruct fuel as [|fuel]; [cbn in Hfuel; lia|]).
    - cbn [topN.drain]. unfold topN.innerNext. st_simpl. rewrite <- Hs, Hn.
      eexists. split; [reflexivity|]. cbn. split; [done|].
      split; [by repeat split|lia].
    - apply referenceRows_cons in Href as (r' & k & srs' & Hdec & Hkey & Href & ->).
      destruct (evalTopN_ok (topN.set_src s1 e) v r' k Hdec Hkey Herr)
        as (e2 & Hev & Herr2 & Hfr & Hrow & Hsrc & Hlen).
      cbn [topN.drain]. unfold topN.innerNext. st_simpl. rewrite <- Hs, Hn, Hev.
      pose proof Hfr as (F1 & F2 & F3 & _). cbn in F1, F2, F3.
      destruct (IH e2 srs' fuel) as (e3 & Hdr & Hsrc3 & Hfr3 & Hlen3).
      + done.
      + done.
      + by rewrite F1, F2, F3, Hrow.
      + cbn in Hfuel. lia.
      + exists e3. split; [done|]. split; [done|].
        split; [by eapply topN_frame_trans|].
        rewrite Hlen3, Hlen. cbn. lia. }
  destruct Hd as (e' & Hdr & Hsrc & (_ & _ & _ & F4 & F5 & _) & Hlen).
  exists e'. unfold topN.Next. rewrite Hex. cbn [negb]. rewrite Hdr.
  split; [done|]. split; [done|]. split; [by rewrite F5|]. by split.
Qed.

Lemma topN_source_error_surfaces_witness :
  exists e',
    topN.Next (fun s : list Row =>
                 match s with
                 | [] => (Err (Storage 1), [])
                 | v :: s' => (OK (Some v), s')
                 end) 5 (demoTopN 2 s6Rows) = Some (Err (Storage 1), e') /\
    topN.src e' = [] /\ topN.executed e' = false /\
    topN.cursor e' = 0%nat /\
    length (topN.mem e') = (0 + 4)%nat.
Proof.
  apply (topN_source_error_surfaces _ (demoTopN 2 s6Rows) s6Rows (Storage 1) []
           [ {| key := [DInt 3; DNull]; data := [Some [Byte.x03]; Some [Byte.x61]] |};
             {| key := [DInt 1; DNull]; data := [Some [Byte.x01]; Some [Byte.x62]] |};
             {| key := [DInt 3; DNull]; data := [Some [Byte.x03]; Some [Byte.x63]] |};
             {| key := [DInt 2; DNull]; data := [Some [Byte.x02]; Some [Byte.x64]] |} ] 5).
  - reflexivity.
  - reflexivity.
  - repeat (eapply srcFails_row; [reflexivity|]). by apply srcFails_now.
  - reflexivity.
  - cbn. lia.
Defined.

(** ** [getRowData]: the cells no declared column owns *)

(** Under the conditions of the precedence, [getRowData] leaves the
    cells at offsets that no declared column is mapped to as the stored
    row has them: nil for all of them when the stored row is empty. *)
Theorem getRowData_keeps_undeclared_cells (c : Codec) (columns : list ColumnInfo)
    (colIDs : gmap Z nat) (handle : Z) (value old : bytes) (cut : option Row)
    (out : Row) :
  RowToOldRow c value = OK old ->
  cutRowNew c old colIDs = OK cut ->
  let stored := default (replicate (size colIDs) None) cut in
  (forall col, col ∈ columns ->
     exists o, colIDs !! ColumnId col = Some o /\ (o < length stored)%nat) ->
  NoDup ((fun col => colIDs !! ColumnId col) <$> columns) ->
  getRowData c columns colIDs handle value = OK out ->
  forall o, (forall col, col ∈ columns -> colIDs !! ColumnId col <> Some o) ->
    out !! o = stored !! o.
Proof.
  intros Hold Hcut stored Hin Hnd. unfold getRowData. rewrite Hold. simpl.
  rewrite Hcut. simpl.
  pose proof (getRowData_fill_spec c colIDs handle columns stored Hin Hnd) as H.
  replace (match cut with Some values => values
           | None => replicate (size colIDs) None end) with stored
    by (by destruct cut).
  destruct (getRowData_fill c colIDs handle columns stored) as [out'|e]; [|done].
  intros [= <-]. by destruct H as (_ & _ & H).
Qed.

Lemma getRowData_keeps_undeclared_cells_witness :
  [Some [Byte.x08; Byte.x05]; Some [Byte.x02]; Some [Byte.x03]; Some [Byte.x04]] !! 2%nat =
  [Some [Byte.x01]; Some [Byte.x02]; Some [Byte.x03]; Some [Byte.x04]] !! 2%nat.
Proof.
  apply (getRowData_keeps_undeclared_cells demoCodec (take 1 demoColumns) demoColIDs 5
           [Byte.x01; Byte.x02; Byte.x03; Byte.x04]
           [Byte.x01; Byte.x02; Byte.x03; Byte.x04]
           (Some [Some [Byte.x01]; Some [Byte.x02]; Some [Byte.x03]; Some [Byte.x04]])
           _ eq_refl eq_refl).
  - intros col Hcol. cbn in Hcol.
    apply elem_of_cons in Hcol as [->|Hcol]; [|by apply elem_of_nil in Hcol].
    exists 0%nat. split; [reflexivity|simpl; lia].
  - apply (bool_decide_unpack _). vm_compute. exact I.
  - reflexivity.
  - intros col Hcol. cbn in Hcol.
    apply elem_of_cons in Hcol as [->|Hcol]; [|by apply elem_of_nil in Hcol].
    discriminate.
Defined.

(** A declared column whose id the offset map lacks is filled in at
    offset 0, the zero value of the Go map: its default, or the NULL
    marker, replaces whatever the stored row holds in its first cell
    for another column. *)
Theorem getRowData_missing_id_hits_first_cell (c : Codec) (col : ColumnInfo)
    (colIDs : gmap Z nat) (handle : Z) (value old : bytes) (cell0 : option bytes)
    (rest : Row) :
  RowToOldRow c value = OK old ->
  cutRowNew c old colIDs = OK (Some (cell0 :: rest)) ->
  colIDs !! ColumnId col = None ->
  PkHandle col = false -> ColumnId col <> ExtraHandleID ->
  getRowData c [col] colIDs handle value =
  if bool_decide (DefaultVal col <> []) then OK (Some (DefaultVal col) :: rest)
  else if HasNotNullFlag (Flag col) then Err (MissColumn (ColumnId col))
  else OK (Some [NilFlag] :: rest).
Proof.
  intros Hold Hcut Hid Hpk Hex. unfold getRowData. rewrite Hold. simpl.
  rewrite Hcut. simpl. rewrite Hpk, Hid. simpl.
  apply Z.eqb_neq in Hex. rewrite Hex. unfold hasColVal. rewrite Hid. simpl.
  rewrite length_nonempty.
  case_bool_decide; [done|]. by destruct (HasNotNullFlag (Flag col)).
Qed.

Lemma getRowData_missing_id_hits_first_cell_witness :
  getRowData demoCodec
    [ {| ColumnId := 9; PkHandle := false; Flag := 0; DefaultVal := [Byte.x2a] |} ]
    demoColIDs 5 [Byte.x01; Byte.x02; Byte.x03; Byte.x04] =
  if bool_decide ([Byte.x2a] <> []) then
    OK (Some [Byte.x2a] :: [Some [Byte.x02]; Some [Byte.x03]; Some [Byte.x04]])
  else OK (Some [NilFlag] :: [Some [Byte.x02]; Some [Byte.x03]; Some [Byte.x04]]).
Proof.
  apply (getRowData_missing_id_hits_first_cell demoCodec
           {| ColumnId := 9; PkHandle := false; Flag := 0; DefaultVal := [Byte.x2a] |}
           demoColIDs 5 [Byte.x01; Byte.x02; Byte.x03; Byte.x04]
           [Byte.x01; Byte.x02; Byte.x03; Byte.x04] (Some [Byte.x01])).
  - reflexivity.
  - reflexivity.
  - reflexivity.
  - reflexivity.
  - discriminate.
Defined.

(** ** Table scan: a range read that fails *)

Lemma ts_scanVisit_fail (c : Codec) (good : list (bytes * bytes)) :
  forall (limit : nat) (pairs : list (bytes * bytes)) (bad : bytes * bytes)
         (tail : list (bytes * bytes)) (er : error) (lk : option bytes)
         (e : tableScan.exec),
  take limit pairs = good ++ bad :: tail ->
  Forall (fun kv => exists r,
            decodeKV c (tableScan.Columns e) (tableScan.colIDs e) kv = OK r) good ->
  decodeKV c (tableScan.Columns e) (tableScan.colIDs e) bad = Err er ->
  scanVisit (tableScan.scanFunc c) limit pairs (lk, e) =
  (Err er,
   (Some bad.1,
    tableScan.set_rows
      (tableScan.rows e ++
       (decodeRow c (tableScan.Columns e) (tableScan.colIDs e) <$> good)) e)).
Proof.
  induction good as [|g good IH]; intros limit pairs bad tail er lk e Htake Hgood Hbad.
  - destruct limit as [|n]; [done|]. destruct pairs as [|[k v] ps]; [done|].
    rewrite firstn_cons in Htake. injection Htake as <- _.
    cbn [scanVisit]. unfold st_bind at 1.
    assert (tableScan.scanFunc c k v (lk, e) = (Err er, (Some k, e))) as ->.
    { unfold tableScan.scanFunc, safeCopy. st_simpl. unfold decodeKV in Hbad.
      simpl in Hbad.
      destruct (decodeRowKey c k) as [h|]; simpl in *; [by rewrite Hbad|].
      by injection Hbad as ->. }
    cbn. rewrite app_nil_r. by destruct e.
  - destruct limit as [|n]; [done|]. destruct pairs as [|[k v] ps]; [done|].
    rewrite firstn_cons in Htake. injection Htake as <- Htake.
    apply Forall_cons in Hgood as [(r & Hr) Hgood].
    cbn [scanVisit]. unfold st_bind at 1.
    assert (tableScan.scanFunc c k v (lk, e) =
            (OK tt, (Some k, tableScan.set_rows (tableScan.rows e ++ [r]) e))) as ->.
    { unfold tableScan.scanFunc, safeCopy. st_simpl. unfold decodeKV in Hr. simpl in Hr.
      destruct (decodeRowKey c k) as [h|]; simpl in *; [|done].
      by rewrite Hr. }
    rewrite (IH n ps bad tail er) by done.
    cbn [tableScan.Columns tableScan.colIDs tableScan.rows tableScan.set_rows].
    do 2 f_equal. rewrite fmap_cons. unfold decodeRow at 2. rewrite Hr.
    rewrite <- app_assoc. by destruct e.
Qed.

(** A range read that fails on a pair after the pairs [good]: [Next]
    returns the error.  With no pair before the failing one the range
    is given up, the range cursor moving on.  Otherwise the range cursor
    and the seek key stay where the read started, and the rows decoded
    before the failure stay in the buffer: the next [Next] returns the
    first of them. *)
Theorem tableScan_range_failure (c : Codec) (e : tableScan.exec) (ran : KeyRange)
    (good tail : list (bytes * bytes)) (bad : bytes * bytes) (er : error) :
  tableScan.ignoreLock e = true \/ tableScan.lockChecked e = true ->
  tableScan.rows e !! tableScan.rowCursor e = None ->
  tableScan.kvRanges e !! tableScan.rangeCursor e = Some ran ->
  IsPoint ran = false ->
  let seek := default (if tableScan.Desc e then EndKey ran else StartKey ran)
                (tableScan.seekKey e) in
  let reader := getDBReader (tableScan.reqCtx e) in
  let pairs := if tableScan.Desc e
               then ReverseScanPairs reader (StartKey ran) seek (tableScan.startTS e)
               else ScanPairs reader seek (EndKey ran) (tableScan.startTS e) in
  take scanLimit pairs = good ++ bad :: tail ->
  Forall (fun kv => exists r,
            decodeKV c (tableScan.Columns e) (tableScan.colIDs e) kv = OK r) good ->
  decodeKV c (tableScan.Columns e) (tableScan.colIDs e) bad = Err er ->
  exists e1,
    tableScan.Next c e = (Err er, e1) /\
    tableScan.rows e1 =
      (decodeRow c (tableScan.Columns e) (tableScan.colIDs e) <$> good) /\
    tableScan.rowCursor e1 = 0%nat /\
    match good with
    | [] => tableScan.rangeCursor e1 = S (tableScan.rangeCursor e) /\
            tableScan.seekKey e1 = None
    | g :: _ =>
        tableScan.rangeCursor e1 = tableScan.rangeCursor e /\
        tableScan.seekKey e1 = Some seek /\
        tableScan.Next c e1 =
          (OK (Some (decodeRow c (tableScan.Columns e) (tableScan.colIDs e) g)),
           tableScan.set_rowCursor 1 e1)
    end.
Proof.
  intros Hlock Hbuf Hran Hpt seek reader pairs Htake Hgood Hbad.
  rewrite ts_Next_checked by done. rewrite ts_Next_loop_eq, Hbuf. cbv zeta.
  pose proof (lookup_lt_Some _ _ _ Hran) as Hlt.
  destruct (length (tableScan.kvRanges e) - tableScan.rangeCursor e)%nat
    as [|fuel] eqn:Hfuel; [lia|].
  set (e0 := tableScan.set_rows [] (tableScan.set_rowCursor 0 e)).
  rewrite ts_fillRows_loop_eq.
  change (tableScan.kvRanges e0 !! tableScan.rangeCursor e0)
    with (tableScan.kvRanges e !! tableScan.rangeCursor e).
  rewrite Hran, Hpt. rewrite ts_fillRowsFromRange_eq. cbv zeta.
  change (tableScan.Desc e0) with (tableScan.Desc e).
  change (tableScan.seekKey e0) with (tableScan.seekKey e).
  change (getDBReader (tableScan.reqCtx e0)) with reader.
  change (tableScan.startTS e0) with (tableScan.startTS e).
  fold seek. fold pairs.
  set (call := if tableScan.Desc e
               then CallReverseScan (StartKey ran) seek scanLimit (tableScan.startTS e)
               else CallScan seek (EndKey ran) scanLimit (tableScan.startTS e)).
  set (e00 := tableScan.log call (tableScan.set_seekKey (Some seek) e0)).
  rewrite (ts_scanVisit_fail c good scanLimit pairs bad tail er None e00 Htake)
    by done.
  change (tableScan.rows e00) with (@nil Row). rewrite app_nil_l.
  change (tableScan.Columns e00) with (tableScan.Columns e).
  change (tableScan.colIDs e00) with (tableScan.colIDs e).
  set (rows1 := decodeRow c (tableScan.Columns e) (tableScan.colIDs e) <$> good).
  cbn [tableScan.rows tableScan.set_rows].
  destruct good as [|g good].
  - rewrite bool_decide_eq_true_2 by done.
    eexists. split; [reflexivity|]. by repeat split.
  - rewrite bool_decide_eq_false_2 by done.
    eexists. split; [reflexivity|]. split; [done|]. split; [done|].
    split; [done|]. split; [done|].
    rewrite ts_Next_checked by (by destruct Hlock as [H|H]; [left|right]).
    by rewrite ts_Next_loop_eq.
Qed.

Lemma tableScan_range_failure_witness :
  exists e1,
    tableScan.Next demoCodec gapTableScan = (Err (MissColumn 4), e1) /\
    tableScan.rows e1 =
      (decodeRow demoCodec strictColumns demoColIDs
         <$> [(k1, [Byte.x01; Byte.x11; Byte.xff; Byte.x44])]) /\
    tableScan.rowCursor e1 = 0%nat /\
    tableScan.rangeCursor e1 = 0%nat /\
    tableScan.seekKey e1 = Some k1 /\
    tableScan.Next demoCodec e1 =
      (OK (Some (decodeRow demoCodec strictColumns demoColIDs
                   (k1, [Byte.x01; Byte.x11; Byte.xff; Byte.x44]))),
       tableScan.set_rowCursor 1 e1).
Proof.
  apply (tableScan_range_failure demoCodec gapTableScan
           {| StartKey := k1; EndKey := k9 |}
           [(k1, [Byte.x01; Byte.x11; Byte.xff; Byte.x44])] []
           (k2, [Byte.x02; Byte.x12; Byte.xff; Byte.xff]) (MissColumn 4)).
  - by left.
  - reflexivity.
  - reflexivity.
  - reflexivity.
  - reflexivity.
  - repeat constructor. eexists. reflexivity.
  - reflexivity.
Defined.
